(** * RobustFill: vocabulary codec, vocabulary transfer and the
      encoder/decoder loops of [RobustFill.py]

    The development follows the Python class [RobustFill] method by method.
    Integer tensors ([LongTensor], [ByteTensor]) are lists of rows of [Z].
    The parameter tensors, which the methods outside the forward pass copy,
    pad and fill with constants, are lists of rows of real numbers.  The
    values that the forward pass computes are float32 values [xreal]: a real
    number, an infinity or NaN; the operations on them follow the rules of
    floating-point arithmetic for the infinities and NaN, and round the exact
    result on finite operands with the rounding [rnd] of the format, a
    parameter of the development ([float32]).  Python exceptions are the
    [Raise] results of the [result] monad.  Objects that the code mutates
    (the network and its parameters) live in a store indexed by object
    identity. *)

From Stdlib Require Import Reals Lra ZArith Lia.
From stdpp Require Import gmap strings list.

(** ** Exceptions and the result monad *)

Definition token := string.

Inductive exn :=
| KeyError (x : token)   (* dict lookup of an absent key *)
| IndexError             (* sequence or tensor index out of range *)
| ValueError             (* max() of an empty sequence, list.index of an absent value *)
| AttributeError         (* attribute missing on the receiver, e.g. [.size] on a list *)
| RuntimeError           (* raised by a torch primitive *)
| AssertionError.

Inductive result (A : Type) :=
| Ok (a : A)
| Raise (e : exn).
Arguments Ok {A} a.
Arguments Raise {A} e.

#[global] Instance result_ret : MRet result := @Ok.
#[global] Instance result_bind : MBind result :=
  λ A B f m, match m with Ok a => f a | Raise e => Raise e end.
#[global] Instance result_fmap : FMap result :=
  λ A B f m, match m with Ok a => Ok (f a) | Raise e => Raise e end.

Definition is_Ok {A} (m : result A) : Prop := ∃ a, m = Ok a.

(** ** Python sequences *)

(** [l[i]] for a non-negative position [i]. *)
Definition py_nth {A} (l : list A) (i : nat) : result A :=
  match l !! i with Some a => Ok a | None => Raise IndexError end.

(** [l[x]] for a Python integer [x]: negative positions count from the end. *)
Definition py_getitem {A} (l : list A) (x : Z) : result A :=
  let n := Z.of_nat (length l) in
  if decide (0 ≤ x)%Z then py_nth l (Z.to_nat x)
  else if decide (- n ≤ x)%Z then py_nth l (Z.to_nat (n + x))
  else Raise IndexError.

(** [x in l]. *)
Definition py_in `{EqDecision A} (x : A) (l : list A) : bool :=
  bool_decide (x ∈ l).

(** [l.index(x)]: the first position holding [x]. *)
Fixpoint py_index `{EqDecision A} (l : list A) (x : A) : result nat :=
  match l with
  | [] => Raise ValueError
  | y :: l' => if decide (y = x) then Ok 0 else S <$> py_index l' x
  end.

(** [max(ns)] over a generator of lengths. *)
Definition py_max (ns : list nat) : result nat :=
  match ns with
  | [] => Raise ValueError
  | n :: ns' => Ok (foldl Nat.max n ns')
  end.

(** [d[x]] on a dict. *)
Definition dict_get (d : gmap token nat) (x : token) : result nat :=
  match d !! x with Some j => Ok j | None => Raise (KeyError x) end.

(** A loop [for i in range(..)] whose body may raise, threading the loop state. *)
Fixpoint for_each {A S} (body : S → A → result S) (s : S) (l : list A) : result S :=
  match l with
  | [] => Ok s
  | a :: l' => s' ← body s a; for_each body s' l'
  end.

(** ** Tensors *)

(** 2-D [LongTensor] and [ByteTensor]: a list of rows. *)
Abbreviation ltensor := (list (list Z)).
(** 2-D [FloatTensor] (one row per batch element) and 1-D float tensors. *)
Abbreviation fmat := (list (list R)).
Abbreviation fvec := (list R).

(** [t.size(1)]. *)
Definition size1 {A} (t : list (list A)) : nat := length (hd [] t).

(** [t[:, i]]. *)
Definition column `{Inhabited A} (t : list (list A)) (i : nat) : list A :=
  (λ row, row !!! i) <$> t.

(** [t[:len(ids), i] = ids]: the first [len(ids)] entries of column [i]. *)
Definition set_column_prefix {A} (t : list (list A)) (i : nat) (ids : list A) : list (list A) :=
  imap (λ k row, match ids !! k with Some x => <[i:=x]> row | None => row end) t.

(** [torch.ones(r, c).long() * v]. *)
Definition ones_times (r c : nat) (v : Z) : ltensor :=
  replicate r (replicate c (1 * v)%Z).

(** ** The network object *)

Definition loc := nat.

Inductive cell_kind := GRU | LSTM.

(** A recurrent cell ([nn.GRUCell] or [nn.LSTMCell]) and its parameters. *)
Record rnn_cell := {
  weight_ih : loc;
  weight_hh : loc;
  bias_ih : loc;
  bias_hh : loc;
  input_size : nat;
}.

(** [nn.Linear]. *)
Record linear_layer := {
  weight : loc;
  bias : loc;
  out_features : nat;
}.

(** The attributes of a [RobustFill] instance.  Parameters are held by
    reference ([loc]).  The attributes [encoder_init_cs] and [decoder_init_c]
    exist for LSTM cells only; [opt] and [optstate] are the optional optimiser
    attributes.  An absent attribute is [None] (an empty list for
    [encoder_init_cs]). *)
Record net := {
  n_encoders : nat;
  hidden_size : nat;
  embedding_size : nat;
  input_vocabularies : list (list token);
  target_vocabulary : list token;
  input_vocabularies_index : list (gmap token nat);
  target_vocabulary_index : gmap token nat;
  v_inputs : list nat;
  v_target : nat;
  cell_type : cell_kind;
  encoder_init_h : loc;
  encoder_init_cs : list loc;
  encoder_cells : list rnn_cell;
  decoder_cell : rnn_cell;
  decoder_init_c : option loc;
  W : linear_layer;
  V : linear_layer;
  As : list loc;
  opt : option (list loc);
  optstate : option (list fmat);
}.

(** ** Vocabulary codec *)

(** [{vocabulary[j]: j for j in range(len(vocabulary))}]: later positions
    overwrite earlier ones. *)
Definition vocabulary_index (vocabulary : list token) : gmap token nat :=
  foldl (λ d j, match vocabulary !! j with
                | Some x => <[x:=j]> d
                | None => d
                end) ∅ (seq 0 (length vocabulary)).

(** The column-filling loop shared by [_inputsToTensors] and
    [_targetToTensor]: [for k in range(len(seqs)): s = seqs[k]; if len(s)>0:
    t[:len(s), k] = LongTensor([index[x] for x in s])].  The expression
    [index] is evaluated inside the comprehension, so it raises only when
    some sequence is non-empty. *)
Fixpoint fill_columns (index : result (gmap token nat)) (k : nat)
    (seqs : list (list token)) (t : ltensor) : result ltensor :=
  match seqs with
  | [] => Ok t
  | s :: rest =>
      t' ← (if decide (0 < length s)
            then ids ← (d ← index; mapM (dict_get d) s);
                 Ok (set_column_prefix t k (Z.of_nat <$> ids))
            else Ok t);
      fill_columns index (S k) rest t'
  end.

Definition _targetToTensor (self : net) (targets : list (list token)) : result ltensor :=
  maxlen ← py_max (length <$> targets);
  fill_columns (Ok (target_vocabulary_index self)) 0 targets
    (ones_times (maxlen + 1) (length targets) (Z.of_nat (v_target self))).

(** A raw batch: [nBatch * nExamples * nEncoders] token sequences. *)
Abbreviation batch := (list (list (list (list token)))).

Definition _inputsToTensors (self : net) (inputsss : batch) : result (list (list ltensor)) :=
  for_each (λ tensors i,
    x0 ← py_nth inputsss 0;
    row ← for_each (λ row j,
        inputs ← mapM (λ x, xj ← py_nth x j; py_nth xj i) inputsss;
        maxlen ← py_max (length <$> inputs);
        v ← py_nth (v_inputs self) i;
        t ← fill_columns (py_nth (input_vocabularies_index self) i) 0 inputs
              (ones_times (maxlen + 1) (length inputs) (Z.of_nat v));
        Ok (row ++ [t]))
      [] (seq 0 (length x0));
    Ok (tensors ++ [row]))
    [] (seq 0 (n_encoders self)).

(** One column of [_tensorToOutput]. *)
Definition output_column (self : net) (l : list Z) : result (list token) :=
  l0 ← py_nth l 0;
  if decide (l0 = Z.of_nat (v_target self)) then Ok []
  else if py_in (Z.of_nat (v_target self)) l then
    final ← py_index l (Z.of_nat (v_target self));
    mapM (py_getitem (target_vocabulary self)) (take final l)
  else mapM (py_getitem (target_vocabulary self)) l.

Definition _tensorToOutput (self : net) (tensor : ltensor) : result (list (list token)) :=
  mapM (λ i, output_column self (column tensor i)) (seq 0 (size1 tensor)).

(** ** The store and vocabulary transfer *)

(** The data of a float tensor of one or two dimensions. *)
Inductive tensor :=
| T1 (v : fvec)
| T2 (m : fmat).

#[global] Instance tensor_inhabited : Inhabited tensor := populate (T1 []).

Definition vec (t : tensor) : fvec := match t with T1 v => v | T2 _ => [] end.
Definition mat (t : tensor) : fmat := match t with T2 m => m | T1 _ => [] end.

(** The store: [RobustFill] objects and parameter data, each by identity. *)
Record store := {
  objects : gmap loc net;
  tensors : gmap loc tensor;
}.

(** [p.data] for a parameter [p]. *)
Definition data (σ : store) (p : loc) : tensor := tensors σ !!! p.

(** [p.data = t]. *)
Definition set_data (σ : store) (p : loc) (t : tensor) : store :=
  {| objects := objects σ; tensors := <[p:=t]> (tensors σ) |}.

Definition set_object (σ : store) (o : loc) (n : net) : store :=
  {| objects := <[o:=n]> (objects σ); tensors := tensors σ |}.

Definition get_object (σ : store) (o : loc) : result net :=
  match objects σ !! o with Some n => Ok n | None => Raise AttributeError end.

(** Attribute assignments on a [RobustFill] object. *)
Definition set_target_vocabulary (x : list token) (n : net) : net :=
  {| n_encoders := n_encoders n; hidden_size := hidden_size n;
     embedding_size := embedding_size n;
     input_vocabularies := input_vocabularies n; target_vocabulary := x;
     input_vocabularies_index := input_vocabularies_index n;
     target_vocabulary_index := target_vocabulary_index n;
     v_inputs := v_inputs n; v_target := v_target n; cell_type := cell_type n;
     encoder_init_h := encoder_init_h n; encoder_init_cs := encoder_init_cs n;
     encoder_cells := encoder_cells n; decoder_cell := decoder_cell n;
     decoder_init_c := decoder_init_c n; W := W n; V := V n; As := As n;
     opt := opt n; optstate := optstate n |}.

Definition set_v_target (x : nat) (n : net) : net :=
  {| n_encoders := n_encoders n; hidden_size := hidden_size n;
     embedding_size := embedding_size n;
     input_vocabularies := input_vocabularies n;
     target_vocabulary := target_vocabulary n;
     input_vocabularies_index := input_vocabularies_index n;
     target_vocabulary_index := target_vocabulary_index n;
     v_inputs := v_inputs n; v_target := x; cell_type := cell_type n;
     encoder_init_h := encoder_init_h n; encoder_init_cs := encoder_init_cs n;
     encoder_cells := encoder_cells n; decoder_cell := decoder_cell n;
     decoder_init_c := decoder_init_c n; W := W n; V := V n; As := As n;
     opt := opt n; optstate := optstate n |}.

Definition set_V (x : linear_layer) (n : net) : net :=
  {| n_encoders := n_encoders n; hidden_size := hidden_size n;
     embedding_size := embedding_size n;
     input_vocabularies := input_vocabularies n;
     target_vocabulary := target_vocabulary n;
     input_vocabularies_index := input_vocabularies_index n;
     target_vocabulary_index := target_vocabulary_index n;
     v_inputs := v_inputs n; v_target := v_target n; cell_type := cell_type n;
     encoder_init_h := encoder_init_h n; encoder_init_cs := encoder_init_cs n;
     encoder_cells := encoder_cells n; decoder_cell := decoder_cell n;
     decoder_init_c := decoder_init_c n; W := W n; V := x; As := As n;
     opt := opt n; optstate := optstate n |}.

Definition set_decoder_cell (x : rnn_cell) (n : net) : net :=
  {| n_encoders := n_encoders n; hidden_size := hidden_size n;
     embedding_size := embedding_size n;
     input_vocabularies := input_vocabularies n;
     target_vocabulary := target_vocabulary n;
     input_vocabularies_index := input_vocabularies_index n;
     target_vocabulary_index := target_vocabulary_index n;
     v_inputs := v_inputs n; v_target := v_target n; cell_type := cell_type n;
     encoder_init_h := encoder_init_h n; encoder_init_cs := encoder_init_cs n;
     encoder_cells := encoder_cells n; decoder_cell := x;
     decoder_init_c := decoder_init_c n; W := W n; V := V n; As := As n;
     opt := opt n; optstate := optstate n |}.

Definition set_opt (x : option (list loc)) (y : option (list fmat)) (n : net) : net :=
  {| n_encoders := n_encoders n; hidden_size := hidden_size n;
     embedding_size := embedding_size n;
     input_vocabularies := input_vocabularies n;
     target_vocabulary := target_vocabulary n;
     input_vocabularies_index := input_vocabularies_index n;
     target_vocabulary_index := target_vocabulary_index n;
     v_inputs := v_inputs n; v_target := v_target n; cell_type := cell_type n;
     encoder_init_h := encoder_init_h n; encoder_init_cs := encoder_init_cs n;
     encoder_cells := encoder_cells n; decoder_cell := decoder_cell n;
     decoder_init_c := decoder_init_c n; W := W n; V := V n; As := As n;
     opt := x; optstate := y |}.

Definition set_index (x : list (gmap token nat)) (y : gmap token nat) (n : net) : net :=
  {| n_encoders := n_encoders n; hidden_size := hidden_size n;
     embedding_size := embedding_size n;
     input_vocabularies := input_vocabularies n;
     target_vocabulary := target_vocabulary n;
     input_vocabularies_index := x;
     target_vocabulary_index := y;
     v_inputs := v_inputs n; v_target := v_target n; cell_type := cell_type n;
     encoder_init_h := encoder_init_h n; encoder_init_cs := encoder_init_cs n;
     encoder_cells := encoder_cells n; decoder_cell := decoder_cell n;
     decoder_init_c := decoder_init_c n; W := W n; V := V n; As := As n;
     opt := opt n; optstate := optstate n |}.

Definition _refreshVocabularyIndex (n : net) : net :=
  set_index (vocabulary_index <$> input_vocabularies n)
            (vocabulary_index (target_vocabulary n)) n.

(** [del self.opt], [del self.optstate] when present. *)
Definition _clear_optimiser (n : net) : net := set_opt None None n.

(** [torch.zeros(r, c)] and [torch.ones(n)]. *)
Definition _zeros (r c : nat) : fmat := replicate r (replicate c 0%R).
Definition _ones (n : nat) : fvec := replicate n 1%R.

(** [l[a:b]] for positions [0 <= a <= b]. *)
Definition slice {A} (a b : nat) (l : list A) : list A := take (b - a) (drop a l).
(** [l[-1:]]. *)
Definition last_slice {A} (l : list A) : list A := drop (length l - 1) l.

(** [torch.cat(ts, dim=0)] and [torch.cat(ts, dim=1)]. *)
Definition cat0 {A} (ts : list (list A)) : list A := concat ts.
Definition cat1 {A} (ts : list (list (list A))) : list (list A) :=
  match ts with
  | [] => []
  | t :: ts' => foldl (zip_with app) t ts'
  end.

(** The three lists that the loop of [with_target_vocabulary] builds. *)
Record surgery := {
  V_weight : list fmat;
  V_bias : list fvec;
  decoder_ih : list fmat;
}.

(** One iteration of [for i in range(len(target_vocabulary))]. *)
Definition transfer_token (old_vocabulary : list token) (Vw : fmat) (Vb : fvec)
    (ih : fmat) (new_vocabulary : list token) (acc : surgery) (i : nat) : result surgery :=
  tok ← py_nth new_vocabulary i;
  if py_in tok old_vocabulary then
    j ← py_index old_vocabulary tok;
    Ok {| V_weight := V_weight acc ++ [slice j (j + 1) Vw];
          V_bias := V_bias acc ++ [slice j (j + 1) Vb];
          decoder_ih := decoder_ih acc ++ [slice j (j + 1) <$> ih] |}
  else
    Ok {| V_weight := V_weight acc ++ [_zeros 1 (size1 Vw)];
          V_bias := V_bias acc ++ [(λ x, x * -10)%R <$> _ones 1];
          decoder_ih := decoder_ih acc ++ [_zeros (length ih) 1] |}.

(** All parameters of the network, in attribute order. *)
Definition cell_parameters (c : rnn_cell) : list loc :=
  [weight_ih c; weight_hh c; bias_ih c; bias_hh c].
Definition parameters (n : net) : list loc :=
  [encoder_init_h n] ++ encoder_init_cs n
  ++ concat (cell_parameters <$> encoder_cells n)
  ++ cell_parameters (decoder_cell n) ++ option_list (decoder_init_c n)
  ++ [weight (W n); bias (W n); weight (V n); bias (V n)] ++ As n.

(** [copy.deepcopy]: every parameter reachable from the object is cloned
    once (the memo table [ρ] keeps sharing inside the copy), then the object
    itself.  The object has no [opt] attribute when it is copied here, so
    [__getstate__] hands over the whole attribute dictionary. *)
Definition clone_parameter (acc : store * gmap loc loc) (p : loc) : store * gmap loc loc :=
  let '(σ, ρ) := acc in
  match ρ !! p with
  | Some _ => acc
  | None =>
      let p' := fresh (dom (tensors σ)) in
      (set_data σ p' (data σ p), <[p:=p']> ρ)
  end.

Definition rename_cell (ρ : gmap loc loc) (c : rnn_cell) : rnn_cell :=
  {| weight_ih := ρ !!! weight_ih c; weight_hh := ρ !!! weight_hh c;
     bias_ih := ρ !!! bias_ih c; bias_hh := ρ !!! bias_hh c;
     input_size := input_size c |}.

Definition rename_linear (ρ : gmap loc loc) (l : linear_layer) : linear_layer :=
  {| weight := ρ !!! weight l; bias := ρ !!! bias l; out_features := out_features l |}.

Definition rename_net (ρ : gmap loc loc) (n : net) : net :=
  {| n_encoders := n_encoders n; hidden_size := hidden_size n;
     embedding_size := embedding_size n;
     input_vocabularies := input_vocabularies n;
     target_vocabulary := target_vocabulary n;
     input_vocabularies_index := input_vocabularies_index n;
     target_vocabulary_index := target_vocabulary_index n;
     v_inputs := v_inputs n; v_target := v_target n; cell_type := cell_type n;
     encoder_init_h := ρ !!! encoder_init_h n;
     encoder_init_cs := (λ p, ρ !!! p) <$> encoder_init_cs n;
     encoder_cells := rename_cell ρ <$> encoder_cells n;
     decoder_cell := rename_cell ρ (decoder_cell n);
     decoder_init_c := (λ p, ρ !!! p) <$> decoder_init_c n;
     W := rename_linear ρ (W n); V := rename_linear ρ (V n);
     As := (λ p, ρ !!! p) <$> As n;
     opt := opt n; optstate := optstate n |}.

Definition deepcopy (σ : store) (n : net) : store * loc :=
  let '(σ1, ρ) := foldl clone_parameter (σ, ∅) (parameters n) in
  let o := fresh (dom (objects σ1)) in
  (set_object σ1 o (rename_net ρ n), o).

(** The body of [with_target_vocabulary] up to the final [return]: the
    surgery on the receiver [me], stored under [self]. *)
Definition transfer_in_place (σ : store) (self : loc) (me : net)
    (new_vocabulary : list token) : result (store * net) :=
  let Vw := mat (data σ (weight (V me))) in
  let Vb := vec (data σ (bias (V me))) in
  let ih := mat (data σ (weight_ih (decoder_cell me))) in
  acc ← for_each (transfer_token (target_vocabulary me) Vw Vb ih new_vocabulary)
        {| V_weight := []; V_bias := []; decoder_ih := [] |}
        (seq 0 (length new_vocabulary));
  let V_weight := V_weight acc ++ [last_slice Vw] in
  let V_bias := V_bias acc ++ [last_slice Vb] in
  let decoder_ih := decoder_ih acc ++ [last_slice <$> ih] in
  let me := set_target_vocabulary new_vocabulary me in
  let me := set_v_target (length new_vocabulary) me in
  let σ := set_data σ (weight (V me)) (T2 (cat0 V_weight)) in
  let σ := set_data σ (bias (V me)) (T1 (cat0 V_bias)) in
  let me := set_V {| weight := weight (V me); bias := bias (V me);
                     out_features := length (vec (data σ (bias (V me)))) |} me in
  let σ := set_data σ (weight_ih (decoder_cell me)) (T2 (cat1 decoder_ih)) in
  let me := set_decoder_cell
              {| weight_ih := weight_ih (decoder_cell me);
                 weight_hh := weight_hh (decoder_cell me);
                 bias_ih := bias_ih (decoder_cell me);
                 bias_hh := bias_hh (decoder_cell me);
                 input_size := size1 (mat (data σ (weight_ih (decoder_cell me)))) |} me in
  let me := _clear_optimiser me in
  let me := _refreshVocabularyIndex me in
  Ok (set_object σ self me, me).

(** [with_target_vocabulary]: the result is the new store together with the
    returned value, [None] for the bare [return]. *)
Definition with_target_vocabulary (σ : store) (self : loc)
    (new_vocabulary : list token) : result (store * option loc) :=
  me ← get_object σ self;
  if decide (new_vocabulary = target_vocabulary me) then Ok (σ, None)
  else
    '(σ, me) ← transfer_in_place σ self me new_vocabulary;
    let '(σ, copy) := deepcopy σ me in
    Ok (σ, Some copy).

(** ** Numeric primitives of the forward pass *)

(** A float32 value of the forward pass: a real number, an infinity or NaN
    (the two zeros are not distinguished). *)
Inductive xreal :=
| Fin (r : R)
| PInf
| NInf
| NaN.

Abbreviation xvec := (list xreal).
Abbreviation xmat := (list (list xreal)).

#[global] Instance xreal_inhabited : Inhabited xreal := populate NaN.
#[global] Instance R_inhabited : Inhabited R := populate 0%R.
#[global] Instance rnn_cell_inhabited : Inhabited rnn_cell :=
  populate {| weight_ih := 0; weight_hh := 0; bias_ih := 0; bias_hh := 0; input_size := 0 |}.

#[global] Instance Req_decision : EqDecision R := Req_dec_T.
#[global] Instance Rlt_decision (x y : R) : Decision (x < y)%R := Rlt_dec x y.
#[global] Instance Rle_decision (x y : R) : Decision (x <= y)%R := Rle_dec x y.

(** The float32 format and the elementary functions of the library: [rnd]
    rounds the exact result of an operation on finite operands, to an
    infinity when it overflows; [exp_fin], [ln_pos] and [tanh_fin] are [exp],
    [log] and [tanh] on a finite argument (a positive one for [ln_pos]). *)
Class float32 := {
  rnd : R → xreal;
  exp_fin : R → xreal;
  ln_pos : R → xreal;
  tanh_fin : R → xreal;
}.

(** A parameter tensor, read as floats. *)
Definition of_vec (v : fvec) : xvec := Fin <$> v.
Definition of_mat (m : fmat) : xmat := of_vec <$> m.

(** [ByteTensor.float()] of one byte. *)
Definition byte_float (b : Z) : xreal := Fin (IZR b).

(** [b.float().log()] of a byte flag: [log 0 = -inf], [log 1 = 0]. *)
Definition log_byte (b : Z) : xreal :=
  if decide (b = 0%Z) then NInf else Fin (ln (IZR b)).

(** Product of two bytes ([ByteTensor * ByteTensor]). *)
Definition byte_mul (a b : Z) : Z := ((a * b) mod 256)%Z.

(** [row != v] as a row of bytes. *)
Definition ne_byte (v : nat) (x : Z) : Z :=
  if decide (x ≠ Z.of_nat v) then 1%Z else 0%Z.


(** The infinity of the given sign. *)
Definition finf (positive : bool) : xreal := if positive then PInf else NInf.

Definition fneg (x : xreal) : xreal :=
  match x with
  | Fin a => Fin (- a)
  | PInf => NInf
  | NInf => PInf
  | NaN => NaN
  end.

(** [x <= y] on floats: false when an operand is NaN. *)
Definition fle (x y : xreal) : bool :=
  match x, y with
  | NaN, _ | _, NaN => false
  | NInf, _ | _, PInf => true
  | Fin a, Fin b => bool_decide (a <= b)%R
  | _, _ => false
  end.

(** The larger of two floats, NaN when an operand is NaN. *)
Definition fmax (x y : xreal) : xreal :=
  match x, y with
  | NaN, _ | _, NaN => NaN
  | _, _ => if fle x y then y else x
  end.

Section Float.
Context {F32 : float32}.

(** Float addition: [inf - inf] is NaN. *)
Definition fadd (x y : xreal) : xreal :=
  match x, y with
  | NaN, _ | _, NaN => NaN
  | PInf, NInf | NInf, PInf => NaN
  | PInf, _ | _, PInf => PInf
  | NInf, _ | _, NInf => NInf
  | Fin a, Fin b => rnd (a + b)
  end.

Definition fsub (x y : xreal) : xreal := fadd x (fneg y).

(** Float multiplication: [inf * 0] is NaN. *)
Definition fmul (x y : xreal) : xreal :=
  match x, y with
  | NaN, _ | _, NaN => NaN
  | Fin a, Fin b => rnd (a * b)
  | Fin a, PInf | PInf, Fin a =>
      if decide (a = 0%R) then NaN else finf (bool_decide (0 < a)%R)
  | Fin a, NInf | NInf, Fin a =>
      if decide (a = 0%R) then NaN else finf (bool_decide (a < 0)%R)
  | PInf, PInf | NInf, NInf => PInf
  | PInf, NInf | NInf, PInf => NInf
  end.

(** Float division: [0 / 0] and [inf / inf] are NaN. *)
Definition fdiv (x y : xreal) : xreal :=
  match x, y with
  | NaN, _ | _, NaN => NaN
  | Fin a, Fin b =>
      if decide (b = 0%R)
      then (if decide (a = 0%R) then NaN else finf (bool_decide (0 < a)%R))
      else rnd (a / b)
  | Fin _, (PInf | NInf) => Fin 0
  | PInf, Fin b => finf (bool_decide (0 <= b)%R)
  | NInf, Fin b => finf (bool_decide (b < 0)%R)
  | _, _ => NaN
  end.

Definition exp_f (x : xreal) : xreal :=
  match x with
  | Fin a => exp_fin a
  | PInf => PInf
  | NInf => Fin 0
  | NaN => NaN
  end.

Definition ln_f (x : xreal) : xreal :=
  match x with
  | Fin a => if decide (a < 0)%R then NaN
             else if decide (a = 0%R) then NInf else ln_pos a
  | PInf => PInf
  | _ => NaN
  end.

Definition tanh_f (x : xreal) : xreal :=
  match x with
  | Fin a => tanh_fin a
  | PInf => Fin 1
  | NInf => Fin (-1)
  | NaN => NaN
  end.

(** Sums and dot products accumulate from the left, starting at 0. *)
Definition fsum (l : xvec) : xreal := foldl fadd (Fin 0) l.
Definition fdot (a b : xvec) : xreal := fsum (zip_with fmul a b).

(** [nn.Linear]: [x @ weight.T + bias], row by row. *)
Definition linear (w : fmat) (b : fvec) (x : xmat) : xmat :=
  (λ xr, zip_with fadd ((λ wr, fdot (of_vec wr) xr) <$> w) (of_vec b)) <$> x.

(** [nn.Bilinear(hidden, hidden, 1, bias=False)] on one pair of rows. *)
Definition bilinear (A : fmat) (x y : xvec) : xreal :=
  fdot x ((λ Ar, fdot (of_vec Ar) y) <$> A).

(** The largest entry as the softmax kernels find it: the running maximum
    starts at minus infinity and is replaced by every entry that is [>=]
    it. *)
Definition fmax_list (l : xvec) : xreal :=
  foldl (λ m x, if fle m x then x else m) NInf l.

(** The shifted exponentials [exp (x - max)] of the softmax kernels. *)
Definition shifted_exp (l : xvec) : xvec :=
  (λ x, exp_f (fsub x (fmax_list l))) <$> l.

(** Softmax of one vector: the shifted exponentials over their sum. *)
Definition softmax_vec (l : xvec) : xvec :=
  (λ z, fdiv z (fsum (shifted_exp l))) <$> shifted_exp l.

(** Log-softmax of one vector: [x - (max + log (sum (exp (x - max))))]. *)
Definition log_softmax_vec (l : xvec) : xvec :=
  (λ x, fsub x (fadd (fmax_list l) (ln_f (fsum (shifted_exp l))))) <$> l.

(** [F.softmax(scores[:, :, None], dim=0)]: normalisation over the length
    axis, separately for every batch element. *)
Definition softmax0 (scores : xmat) : xmat :=
  imap (λ l row, imap (λ b _, softmax_vec (column scores b) !!! l) row) scores.

(** [F.log_softmax(x, dim=1)]. *)
Definition log_softmax1 (x : xmat) : xmat := log_softmax_vec <$> x.

(** [t.sum(0)] of a stack of matrices; [torch.max(t, 0)[0]] of a stack. *)
Definition sum0 (ts : list xmat) : xmat :=
  match ts with
  | [] => []
  | t :: ts' => foldl (zip_with (zip_with fadd)) t ts'
  end.
End Float.

Definition torch_max0 (ts : list xmat) : result xmat :=
  match ts with
  | [] => Raise RuntimeError
  | t :: ts' => Ok (foldl (zip_with (zip_with fmax)) t ts')
  end.

(** One-hot row of width [n] for the id [x]; [scatter_] raises out of range. *)
Definition one_hot (n : nat) (x : Z) : result xvec :=
  if decide (0 ≤ x < Z.of_nat n)%Z
  then Ok (<[Z.to_nat x:=Fin 1]> (replicate n (Fin 0)))
  else Raise RuntimeError.

(** [zeros(L, B, n).scatter_(2, t[:, :, None], 1)]. *)
Definition scatter (n : nat) (t : ltensor) : result (list xmat) :=
  mapM (mapM (one_hot n)) t.

(** [choose]: entry [idxs[b]] of row [b], through the flattened matrix. *)
Definition choose (matrix : xmat) (idxs : list Z) : result xvec :=
  let unrolled_idxs :=
    zip_with (λ x a, x + a * Z.of_nat (size1 matrix))%Z idxs
             (Z.of_nat <$> seq 0 (length matrix)) in
  let flat := concat matrix in
  mapM (λ u, if decide (0 ≤ u < Z.of_nat (length flat))%Z
             then Ok (flat !!! Z.to_nat u)
             else Raise IndexError) unrolled_idxs.

(** The state of a recurrent cell: [h] for a GRU, [(h, c)] for an LSTM. *)
Inductive cell_state :=
| StateH (h : xmat)
| StateHC (h c : xmat).

#[global] Instance cell_state_inhabited : Inhabited cell_state := populate (StateH []).

(** The library operations that the model only calls: the forward pass of a
    recurrent cell, given its four parameters, and [torch.multinomial(p, 1)[:, 0]],
    indexed by the state of the random generator. *)
Class torch_nn := {
  cell_forward : cell_kind → tensor → tensor → tensor → tensor →
                 xmat → cell_state → cell_state;
  multinomial : nat → xmat → list Z;
}.

Inductive run_mode := Score | Sample.

#[global] Instance run_mode_eq_dec : EqDecision run_mode.
Proof. solve_decision. Defined.

(** The argument [inputs] of [_run]: the tensors that [_inputsToTensors]
    returns, or whatever else the caller passes, here a raw batch. *)
Inductive run_input :=
| Tensors (ts : list (list ltensor))
| Raw (b : batch).

(** [len(inputs[0])]. *)
Definition len_inputs0 (inputs : run_input) : result nat :=
  match inputs with
  | Tensors ts => length <$> py_nth ts 0
  | Raw b => length <$> py_nth b 0
  end.

(** [inputs[i][j].size(d)]: a list has no attribute [size]. *)
Definition input_size_at (inputs : run_input) (i j d : nat) : result nat :=
  match inputs with
  | Tensors ts =>
      row ← py_nth ts i; t ← py_nth row j;
      Ok (match d with 0 => length t | _ => size1 t end)
  | Raw b =>
      x ← py_nth b i; _ ← py_nth x j; Raise AttributeError
  end.

(** The loop state of one encoder on one example. *)
Record encoder_loop := {
  enc_active : ltensor;
  enc_state : cell_state;
  enc_hs : list xmat;
  enc_h : xmat;
}.

(** What the encoders have appended so far. *)
Record encoded := {
  H : list (list (list xmat));
  embeddings : list (list xmat);
  attention_mask : list (list xmat);
}.

(** The loop state of the decoder. *)
Record decoder_loop := {
  dec_target : ltensor;
  dec_score : xvec;
  dec_active : list Z;
  dec_states : list cell_state;
  dec_rng : nat;
}.

(** [p.repeat(n, 1)]. *)
Definition repeat_rows {A} (p : list A) (n : nat) : list A := concat (replicate n p).

Section Forward.
Context {F32 : float32} {NN : torch_nn}.
Variable σ : store.
Variable self : net.

Definition run_cell (c : rnn_cell) (x : xmat) (st : cell_state) : cell_state :=
  cell_forward (cell_type self) (data σ (weight_ih c)) (data σ (weight_hh c))
    (data σ (bias_ih c)) (data σ (bias_hh c)) x st.

Definition _encoder_get_init (encoder_idx : nat) (h : option xmat) (batch_size : nat) : cell_state :=
  let h := match h with
           | None => repeat_rows (of_mat (mat (data σ (encoder_init_h self)))) batch_size
           | Some h => h
           end in
  match cell_type self with
  | GRU => StateH h
  | LSTM => StateHC h (repeat_rows (of_mat (mat (data σ (encoder_init_cs self !!! encoder_idx))))
                         batch_size)
  end.

Definition _decoder_get_init (h : xmat) : cell_state :=
  match cell_type self with
  | GRU => StateH h
  | LSTM => StateHC h (repeat_rows (from_option (λ p, of_mat (mat (data σ p))) [] (decoder_init_c self))
                         (length h))
  end.

Definition _cell_get_h (cell_state : cell_state) : xmat :=
  match cell_state with
  | StateH h => h
  | StateHC h _ => h
  end.

(** The attention weights of [attend]: bilinear scores of the candidates
    [Hs] against the query [h], plus the bias, normalised over the length
    axis. *)
Definition attention_scores (A : fmat) (Hs : list xmat) (mask : xmat) (h : xmat) : xmat :=
  zip_with (λ Hl ml, zip_with fadd (zip_with (bilinear A) Hl h) ml) Hs mask.

Definition attention_weights (A : fmat) (Hs : list xmat) (mask : xmat) (h : xmat) : xmat :=
  softmax0 (attention_scores A Hs mask h).

(** [attend(i, j, h)], with the lists [H] and [attention_mask] of the
    enclosing [_run]. *)
Definition attend (e : encoded) (i j : nat) (h : xmat) : result xmat :=
  if decide (i = 0) then Raise AssertionError
  else
    let Hs := (H e !!! (i - 1)) !!! j in
    let w := attention_weights (mat (data σ (As self !!! (i - 1)))) Hs
               ((attention_mask e !!! (i - 1)) !!! j) h in
    Ok (sum0 (zip_with (λ wl Hl, zip_with (λ x v, fmul x <$> v) wl Hl) w Hs)).

(** One iteration of [for k in range(max_length_inputs[i][j])]. *)
Definition encoder_step (e : encoded) (i j : nat) (inputs_ij : ltensor)
    (scatter_ij : list xmat) (L : nat) (s : encoder_loop) (k : nat) : result encoder_loop :=
  state ← (if decide (i = 0)
           then Ok (run_cell (encoder_cells self !!! i) (scatter_ij !!! k) (enc_state s))
           else c ← attend e i j (enc_h s);
                Ok (run_cell (encoder_cells self !!! i)
                      (zip_with app (scatter_ij !!! k) c) (enc_state s)));
  let active :=
    if decide (k + 1 < L)
    then <[k + 1 := zip_with byte_mul (enc_active s !!! k)
                      (ne_byte (v_inputs self !!! i) <$> (inputs_ij !!! k))]> (enc_active s)
    else enc_active s in
  let h := _cell_get_h state in
  Ok {| enc_active := active; enc_state := state;
        enc_hs := enc_hs s ++ [h]; enc_h := h |}.

(** The body of [for j in range(n_examples)] for encoder [i]: the loop over
    the positions, then the embedding and the attention bias. *)
Definition encoder_loop_init (e : encoded) (i j L batch_size : nat) : encoder_loop :=
  let state := _encoder_get_init i
                 (if decide (0 < i) then Some ((embeddings e !!! (i - 1)) !!! j) else None)
                 batch_size in
  {| enc_active := replicate L (replicate batch_size 1%Z);
     enc_state := state; enc_hs := []; enc_h := _cell_get_h state |}.

Definition encode_example (e : encoded) (i j : nat) (inputs_ij : ltensor)
    (scatter_ij : list xmat) (L batch_size : nat)
    : result (list xmat * xmat * xmat) :=
  s ← for_each (encoder_step e i j inputs_ij scatter_ij L)
        (encoder_loop_init e i j L batch_size) (seq 0 L);
  Hij ← (if decide (enc_hs s = []) then Raise RuntimeError else Ok (enc_hs s)
         : result (list xmat));
  let embedding_idx :=
    (λ b, foldr Z.add 0 (column (enc_active s) b) - 1)%Z <$> seq 0 (size1 (enc_active s)) in
  embedding ← mapM (λ bi : nat * Z,
                 if decide (0 ≤ bi.2 < Z.of_nat (length Hij))%Z
                 then Ok ((Hij !!! Z.to_nat bi.2) !!! bi.1)
                 else Raise RuntimeError)
               (zip (seq 0 (length embedding_idx)) embedding_idx);
  Ok (Hij, embedding, (λ row : list Z, log_byte <$> row) <$> enc_active s).

Definition encoders (ts : list (list ltensor)) (inputs_scatter : list (list (list xmat)))
    (max_length_inputs : list (list nat)) (n_examples batch_size : nat) : result encoded :=
  for_each (λ e i,
    let e := {| H := H e ++ [[]]; embeddings := embeddings e ++ [[]];
                attention_mask := attention_mask e ++ [[]] |} in
    for_each (λ e j,
      '(Hij, embedding, mask) ←
        encode_example e i j ((ts !!! i) !!! j) ((inputs_scatter !!! i) !!! j)
          ((max_length_inputs !!! i) !!! j) batch_size;
      Ok {| H := <[i := H e !!! i ++ [Hij]]> (H e);
            embeddings := <[i := embeddings e !!! i ++ [embedding]]> (embeddings e);
            attention_mask := <[i := attention_mask e !!! i ++ [mask]]> (attention_mask e) |})
      e (seq 0 n_examples))
    {| H := []; embeddings := []; attention_mask := [] |}
    (seq 0 (length (input_vocabularies self))).

(** The per-example features [FC] of one decoder timestep and their pooling. *)
Definition decoder_features (e : encoded) (n_examples : nat) (states : list cell_state)
    : result (list xmat) :=
  mapM (λ j,
    let h := _cell_get_h (states !!! j) in
    c ← attend e (n_encoders self) j h;
    let p_aug := zip_with app h c in
    Ok ((λ row : xvec, tanh_f <$> row)
          <$> linear (mat (data σ (weight (W self)))) (vec (data σ (bias (W self)))) p_aug))
    (seq 0 n_examples).

(** [m = torch.max(torch.cat(FC, 0), 0)[0]]. *)
Definition decoder_pooled (e : encoded) (n_examples : nat) (states : list cell_state)
    : result xmat :=
  FC ← decoder_features e n_examples states;
  torch_max0 FC.

Definition decoder_logsoftmax (e : encoded) (n_examples : nat) (states : list cell_state)
    : result xmat :=
  m ← decoder_pooled e n_examples states;
  Ok (log_softmax1 (linear (mat (data σ (weight (V self)))) (vec (data σ (bias (V self)))) m)).

(** One iteration of [for k in range(max_length_target)]. *)
Definition decoder_step (e : encoded) (n_examples : nat) (mode : run_mode)
    (target_scatter : option (list xmat)) (s : decoder_loop) (k : nat) : result decoder_loop :=
  logsoftmax ← decoder_logsoftmax e n_examples (dec_states s);
  let '(target, rng) :=
    match mode with
    | Sample => (<[k := multinomial (dec_rng s) ((λ row : xvec, exp_f <$> row) <$> logsoftmax)]> (dec_target s),
                 S (dec_rng s))
    | Score => (dec_target s, dec_rng s)
    end in
  let target_k := target !!! k in
  picked ← choose logsoftmax target_k;
  let score := zip_with fadd (dec_score s)
                 (zip_with fmul picked (byte_float <$> dec_active s)) in
  let active := zip_with byte_mul (dec_active s) (ne_byte (v_target self) <$> target_k) in
  states ← for_each (λ states j,
      target_char_scatter ←
        match mode with
        | Score => match target_scatter with
                   | Some ts => Ok (ts !!! k)
                   | None => Raise AttributeError
                   end
        | Sample => mapM (one_hot (v_target self + 1)) target_k
        end;
      Ok (<[j := run_cell (decoder_cell self) target_char_scatter (states !!! j)]> states))
    (dec_states s) (seq 0 n_examples);
  Ok {| dec_target := target; dec_score := score; dec_active := active;
        dec_states := states; dec_rng := rng |}.

Definition decoder_init (e : encoded) (n_examples batch_size : nat) (target : ltensor)
    (rng : nat) : decoder_loop :=
  {| dec_target := target;
     dec_score := replicate batch_size (Fin 0);
     dec_active := replicate batch_size 1%Z;
     dec_states := (λ j, _decoder_get_init ((embeddings e !!! (n_encoders self - 1)) !!! j))
                   <$> seq 0 n_examples;
     dec_rng := rng |}.

Definition _run (inputs : run_input) (target : option ltensor) (mode : run_mode)
    (rng : nat) : result (ltensor * xvec * nat) :=
  _ ← (if decide ((mode = Score ∧ target ≠ None) ∨ mode = Sample)
       then Ok () else Raise AssertionError);
  n_examples ← len_inputs0 inputs;
  max_length_inputs ←
    mapM (λ i, mapM (λ j, input_size_at inputs i j 0) (seq 0 n_examples))
         (seq 0 (n_encoders self));
  let max_length_target := match target with Some t => length t | None => 10 end in
  batch_size ← input_size_at inputs 0 0 1;
  ts ← (match inputs with Tensors ts => Ok ts | Raw _ => Raise AttributeError end);
  inputs_scatter ←
    mapM (λ i, mapM (λ j, scatter ((v_inputs self !!! i) + 1) ((ts !!! i) !!! j))
                    (seq 0 n_examples))
         (seq 0 (n_encoders self));
  target_scatter ←
    match target with
    | Some t => Some <$> scatter (v_target self + 1) t
    | None => Ok None
    end;
  e ← encoders ts inputs_scatter max_length_inputs n_examples batch_size;
  let target :=
    match mode, target with
    | Score, Some t => t
    | _, _ => replicate max_length_target (replicate batch_size 0%Z)
    end in
  s ← for_each (decoder_step e n_examples mode target_scatter)
        (decoder_init e n_examples batch_size target rng) (seq 0 max_length_target);
  Ok (dec_target s, dec_score s, dec_rng s).

(** ** The public operations *)

Definition score (batch_inputs : batch) (batch_target : list (list token)) (rng : nat)
    : result xvec :=
  inputs ← _inputsToTensors self batch_inputs;
  target ← _targetToTensor self batch_target;
  '(_, score, _) ← _run (Tensors inputs) (Some target) Score rng;
  Ok score.

Definition sample (batch_inputs : batch) (rng : nat) : result (list (list token)) :=
  inputs ← _inputsToTensors self batch_inputs;
  '(target, _, _) ← _run (Tensors inputs) None Sample rng;
  _tensorToOutput self target.

Definition sampleAndScore (batch_inputs : batch) (nRepeats : option nat) (rng : nat)
    : result (list (list token) * xvec) :=
  inputs ← _inputsToTensors self batch_inputs;
  match nRepeats with
  | None =>
      '(target, score, _) ← _run (Raw batch_inputs) None Sample rng;
      target ← _tensorToOutput self target;
      Ok (target, score)
  | Some n =>
      '(target, score, _) ←
        for_each (λ '(target, score, rng) _,
            '(t, s, rng) ← _run (Raw batch_inputs) None Sample rng;
            t ← _tensorToOutput self t;
            Ok (target ++ t, score ++ s, rng))
          ([], [], rng) (seq 0 n);
      Ok (target, score)
  end.
End Forward.

(** ** Well-formedness conditions used by the statements *)

(** All rows of a tensor have [B] entries. *)
Definition rect {A} (B : nat) (t : list (list A)) : Prop :=
  Forall (λ row, length row = B) t.

(** What [__init__] establishes between the vocabularies, their indexes and
    their sizes (lines 28-36); [with_target_vocabulary] re-establishes it. *)
Definition net_wf (self : net) : Prop :=
  n_encoders self = length (input_vocabularies self)
  ∧ input_vocabularies_index self = vocabulary_index <$> input_vocabularies self
  ∧ target_vocabulary_index self = vocabulary_index (target_vocabulary self)
  ∧ v_inputs self = length <$> input_vocabularies self
  ∧ v_target self = length (target_vocabulary self).

(** The parameters of the object are distinct objects of the store. *)
Definition allocated (σ : store) (me : net) : Prop :=
  Forall (λ p, p ∈ dom (tensors σ)) (parameters me) ∧ NoDup (parameters me).

(** The shapes of the output projection [V] ([v_target+1] rows and biases)
    and of the decoder-input weights ([v_target+1] columns). *)
Definition output_layer_wf (σ : store) (me : net) : Prop :=
  let v := length (target_vocabulary me) in
  length (mat (data σ (weight (V me)))) = v + 1
  ∧ length (vec (data σ (bias (V me)))) = v + 1
  ∧ rect (v + 1) (mat (data σ (weight_ih (decoder_cell me)))).

(** A batch as the docstring of [_inputsToTensors] describes it:
    [nBatch * nExamples * nEncoders], with at least one instance. *)
Definition well_shaped (self : net) (inputsss : batch) : Prop :=
  inputsss ≠ []
  ∧ ∃ m, Forall (λ inst, length inst = m
                         ∧ Forall (λ ex, length ex = n_encoders self) inst) inputsss.

(** Token [x] occurs in an input sequence and is absent from the vocabulary
    of its encoder; token [x] occurs in a target and is absent from the
    target vocabulary. *)
Definition unknown_input (self : net) (inputsss : batch) (x : token) : Prop :=
  ∃ inst ex i s vocabulary,
    inst ∈ inputsss ∧ ex ∈ inst ∧ ex !! i = Some s
    ∧ input_vocabularies self !! i = Some vocabulary
    ∧ x ∈ s ∧ x ∉ vocabulary.

Definition unknown_target (self : net) (targets : list (list token)) (x : token) : Prop :=
  ∃ s, s ∈ targets ∧ x ∈ s ∧ x ∉ target_vocabulary self.

(** ** A small network, used to instantiate the statements

    One LSTM encoder over the vocabulary [A], target vocabulary [a], hidden
    and embedding size 1. *)
Definition toy_net : net :=
  {| n_encoders := 1; hidden_size := 1; embedding_size := 1;
     input_vocabularies := [["A"%string]];
     target_vocabulary := ["a"%string];
     input_vocabularies_index := [vocabulary_index ["A"%string]];
     target_vocabulary_index := vocabulary_index ["a"%string];
     v_inputs := [1]; v_target := 1; cell_type := LSTM;
     encoder_init_h := 0; encoder_init_cs := [1];
     encoder_cells := [{| weight_ih := 2; weight_hh := 3; bias_ih := 4;
                          bias_hh := 5; input_size := 2 |}];
     decoder_cell := {| weight_ih := 6; weight_hh := 7; bias_ih := 8;
                        bias_hh := 9; input_size := 2 |};
     decoder_init_c := Some 10;
     W := {| weight := 11; bias := 12; out_features := 1 |};
     V := {| weight := 13; bias := 14; out_features := 2 |};
     As := [15];
     opt := None; optstate := None |}.

Definition toy_tensors : list tensor :=
  [ T2 [[0]]; T2 [[0]];
    T2 [[1; 0]; [0; 1]; [1; 1]; [0; 0]]; T2 [[1]; [1]; [1]; [1]];
    T1 [0; 0; 0; 0]; T1 [0; 0; 0; 0];
    T2 [[1; 2]; [3; 4]; [5; 6]; [7; 8]]; T2 [[1]; [1]; [1]; [1]];
    T1 [0; 0; 0; 0]; T1 [0; 0; 0; 0];
    T2 [[0]];
    T2 [[1; 1]]; T1 [0];
    T2 [[1]; [2]]; T1 [3; 4];
    T2 [[1]] ]%R.

Definition toy_store : store :=
  {| objects := {[ 0 := toy_net ]};
     tensors := list_to_map (zip (seq 0 (length toy_tensors)) toy_tensors) |}.

(** A stand-in for the library: a cell whose new state has one row per row
    of its input, and a sampler that always draws the end-of-sequence id 1. *)
Definition toy_nn : torch_nn :=
  {| cell_forward := λ _ _ _ _ _ x st,
       match st with
       | StateH _ => StateH ((λ _, [Fin 0]) <$> x)
       | StateHC _ _ => StateHC ((λ _, [Fin 0]) <$> x) ((λ _, [Fin 0]) <$> x)
       end;
     multinomial := λ _ p, (λ _, 1%Z) <$> p |}.

(** Two float formats used to instantiate the statements: arithmetic without
    rounding and without overflow, and arithmetic that is exact up to the
    largest finite float32 number and overflows beyond it. *)
Definition exact32 : float32 :=
  {| rnd := Fin;
     exp_fin := λ a, Fin (exp a);
     ln_pos := λ a, Fin (ln a);
     tanh_fin := λ a, Fin (tanh a) |}.

Definition max32 : R := IZR 340282346638528859811704183484516925440.

Definition sat32 : float32 :=
  {| rnd := λ x, if decide (max32 < x)%R then PInf
                 else if decide (x < - max32)%R then NInf else Fin x;
     exp_fin := λ a, Fin (exp a);
     ln_pos := λ a, Fin (ln a);
     tanh_fin := λ a, Fin (tanh a) |}.

(** The small network with the output biases [-3e38] and [3e38]. *)
Definition overflow_store : store :=
  set_data toy_store (bias (V toy_net))
    (T1 [IZR (-300000000000000000000000000000000000000);
         IZR 300000000000000000000000000000000000000]).

(** ** Definitions used by the statements *)

Definition ids_of (d : gmap token nat) (s : list token) : list Z :=
  (λ x, Z.of_nat (d !!! x)) <$> s.

Definition known (d : gmap token nat) (s : list token) : Prop :=
  Forall (λ x, is_Some (d !! x)) s.

(** [[x[j][i] for x in inputsss]]. *)
Definition stream (inputsss : batch) (j i : nat) : list (list token) :=
  (λ inst, (inst !!! j) !!! i) <$> inputsss.

Definition inputs_body (self : net) (inputsss : batch) (i : nat)
    (row : list ltensor) (j : nat) : result (list ltensor) :=
  inputs ← mapM (λ x, xj ← py_nth x j; py_nth xj i) inputsss;
  maxlen ← py_max (length <$> inputs);
  v ← py_nth (v_inputs self) i;
  t ← fill_columns (py_nth (input_vocabularies_index self) i) 0 inputs
        (ones_times (maxlen + 1) (length inputs) (Z.of_nat v));
  Ok (row ++ [t]).

(** The entries appended for one token. *)
Definition token_rows (old_vocabulary : list token) (Vw : fmat) (Vb : fvec)
    (ih : fmat) (tok : token) : fmat * fvec * fmat :=
  if py_in tok old_vocabulary then
    match py_index old_vocabulary tok with
    | Ok j => (slice j (j + 1) Vw, slice j (j + 1) Vb, slice j (j + 1) <$> ih)
    | Raise _ => ([], [], [])
    end
  else (_zeros 1 (size1 Vw), (λ x, x * -10)%R <$> _ones 1, _zeros (length ih) 1).

(** A matrix of one column. *)
Definition as_column {A} (col : list A) : list (list A) := (λ x, [x]) <$> col.

(** The columns of the decoder-input weights that the loop collects. *)
Definition token_column (old_vocabulary : list token) (ih : fmat) (tok : token) : fvec :=
  if py_in tok old_vocabulary then
    match py_index old_vocabulary tok with
    | Ok j => column ih j
    | Raise _ => []
    end
  else replicate (length ih) 0%R.

(** The tensors that [with_target_vocabulary] installs. *)
Definition new_V_weight (old : list token) (Vw : fmat) (Vb : fvec) (ih : fmat)
    (new : list token) : fmat :=
  cat0 (((λ tok, (token_rows old Vw Vb ih tok).1.1) <$> new) ++ [last_slice Vw]).
Definition new_V_bias (old : list token) (Vw : fmat) (Vb : fvec) (ih : fmat)
    (new : list token) : fvec :=
  cat0 (((λ tok, (token_rows old Vw Vb ih tok).1.2) <$> new) ++ [last_slice Vb]).
Definition new_decoder_ih (old : list token) (Vw : fmat) (Vb : fvec) (ih : fmat)
    (new : list token) : fmat :=
  cat1 (((λ tok, (token_rows old Vw Vb ih tok).2) <$> new) ++ [last_slice <$> ih]).

Definition clone_inv (σ0 : store) (acc : store * gmap loc loc) : Prop :=
  objects (acc.1) = objects σ0
  ∧ (∀ q, q ∈ dom (tensors σ0) → tensors (acc.1) !! q = tensors σ0 !! q)
  ∧ (∀ p p', (acc.2) !! p = Some p' →
       p ∈ dom (tensors σ0) ∧ (p' ∉ dom (tensors σ0))
       ∧ tensors (acc.1) !! p' = tensors σ0 !! p).

(** The claim that the receiver keeps its vocabulary and tensors. *)
Definition original_preserved (σ : store) (self : loc) (new : list token) : Prop :=
  ∀ σ' r me, with_target_vocabulary σ self new = Ok (σ', r) →
    objects σ !! self = Some me →
    ∃ me1, objects σ' !! self = Some me1
      ∧ target_vocabulary me1 = target_vocabulary me
      ∧ data σ' (weight (V me1)) = data σ (weight (V me))
      ∧ data σ' (bias (V me1)) = data σ (bias (V me))
      ∧ data σ' (weight_ih (decoder_cell me1)) = data σ (weight_ih (decoder_cell me)).

Definition toy_batch : batch := [[[["A"%string]]]].

(** The entry that timestep [k] selects for batch element [b]. *)
Definition selected (logsoftmax : xmat) (target_k : list Z) (b : nat) : xreal :=
  (logsoftmax !!! b) !!! Z.to_nat (target_k !!! b).

(** The library cell returns a hidden state with one row per row of its input. *)
Definition cell_keeps_batch {NN : torch_nn} : Prop :=
  ∀ kind a b c d x st, length (_cell_get_h (cell_forward kind a b c d x st)) = length x.

(** What the encoders hand to the decoder, for a batch of [B] elements. *)
Definition decoder_ready (σ : store) (self : net) (e : encoded)
    (n_examples B : nat) : Prop :=
  n_encoders self ≠ 0 ∧ 0 < n_examples
  ∧ v_target self < length (mat (data σ (weight (V self))))
  ∧ v_target self < length (vec (data σ (bias (V self))))
  ∧ ∀ j, j < n_examples →
      (H e !!! (n_encoders self - 1)) !!! j ≠ []
      ∧ (attention_mask e !!! (n_encoders self - 1)) !!! j ≠ []
      ∧ rect B ((H e !!! (n_encoders self - 1)) !!! j)
      ∧ rect B ((attention_mask e !!! (n_encoders self - 1)) !!! j)
      ∧ length ((embeddings e !!! (n_encoders self - 1)) !!! j) = B.

(** A ground-truth tensor for [B] batch elements over the target ids. *)
Definition target_ready (self : net) (target : ltensor) (B : nat) : Prop :=
  rect B target
  ∧ Forall (Forall (λ x, 0 ≤ x ≤ Z.of_nat (v_target self))%Z) target.

(** The shape invariant of the decoder loop. *)
Definition decoder_inv (target : ltensor) (n_examples B : nat) (s : decoder_loop) : Prop :=
  dec_target s = target
  ∧ length (dec_score s) = B
  ∧ length (dec_active s) = B
  ∧ length (dec_states s) = n_examples
  ∧ Forall (λ st, length (_cell_get_h st) = B) (dec_states s).

(** The format represents 0, and rounding returns a represented number,
    which rounding then keeps. *)
Definition rnd_stable {F32 : float32} : Prop :=
  rnd 0 = Fin 0 ∧ ∀ x y, rnd x = Fin y → rnd y = Fin y.

(** A value of the format: a represented number, an infinity or NaN. *)
Definition float_value {F32 : float32} (x : xreal) : Prop :=
  match x with
  | Fin y => rnd y = Fin y
  | _ => True
  end.

Definition is_finite (x : xreal) : Prop := ∃ r, x = Fin r.


(** The standard model of rounding: up to [big] the rounded value is a
    number within the relative error [u] and the absolute error [eta] of the
    exact one; rounding keeps 0 and the sign; the library [exp] maps the
    non-positive numbers into [[0, 1]] and 0 to 1. *)
Record rnd_laws {F32 : float32} (u eta big : R) : Prop := {
  rnd_zero : rnd 0 = Fin 0;
  rnd_near : ∀ x, (Rabs x <= big)%R →
             ∃ y, rnd x = Fin y ∧ (Rabs (y - x) <= u * Rabs x + eta)%R;
  rnd_nonneg : ∀ x, (0 <= x)%R → rnd x = PInf ∨ ∃ y, rnd x = Fin y ∧ (0 <= y)%R;
  rnd_nonpos : ∀ x, (x <= 0)%R → rnd x = NInf ∨ ∃ y, rnd x = Fin y ∧ (y <= 0)%R;
  exp_fin_0 : exp_fin 0 = Fin 1;
  exp_fin_unit : ∀ a, (a <= 0)%R → ∃ z, exp_fin a = Fin z ∧ (0 <= z <= 1)%R;
}.





(** The decoder loop cut after [k] iterations. *)
Definition decoder_after {F32 : float32} {NN : torch_nn} (σ : store) (self : net) (e : encoded)
    (n_examples : nat) (mode : run_mode) (target_scatter : option (list xmat))
    (s0 : decoder_loop) (k : nat) : result decoder_loop :=
  for_each (decoder_step σ self e n_examples mode target_scatter) s0 (seq 0 k).

(** The log-probability of the token selected at timestep [k] for batch
    element [b]: the entry of the [logsoftmax] computed from the loop state
    that enters iteration [k]. *)
Definition logprob_at {F32 : float32} {NN : torch_nn} (σ : store) (self : net) (e : encoded)
    (n_examples : nat) (mode : run_mode) (target_scatter : option (list xmat))
    (s0 : decoder_loop) (k b : nat) : xreal :=
  match decoder_after σ self e n_examples mode target_scatter s0 k with
  | Ok s =>
      match decoder_logsoftmax σ self e n_examples (dec_states s) with
      | Ok logsoftmax => selected logsoftmax (dec_target s !!! k) b
      | Raise _ => NaN
      end
  | Raise _ => NaN
  end.

(** What the flag of batch element [b] is when iteration [k] starts. *)
Fixpoint flag_before (v : nat) (target : ltensor) (b k : nat) : Z :=
  match k with
  | 0 => 1%Z
  | S k' => byte_mul (flag_before v target b k') (ne_byte v ((target !!! k') !!! b))
  end.

(** The running score of batch element [b] when iteration [k] of the
    score-mode loop starts. *)
Fixpoint running {F32 : float32} {NN : torch_nn} (σ : store) (self : net) (e : encoded)
    (n_examples B : nat) (target : ltensor) (ts : list xmat) (rng : nat)
    (b k : nat) : xreal :=
  match k with
  | 0 => Fin 0
  | S k' =>
      fadd (running σ self e n_examples B target ts rng b k')
        (fmul (logprob_at σ self e n_examples Score (Some ts)
                 (decoder_init σ self e n_examples B target rng) k' b)
              (byte_float (flag_before (v_target self) target b k')))
  end.

(** Batch element [b] of a flag vector is active. *)
Definition active_at (flags : list Z) (b : nat) : Prop :=
  ∃ x, flags !! b = Some x ∧ x ≠ 0%Z.

(** The rows of the encoder mask. *)
Fixpoint mask_row (v : nat) (inputs : ltensor) (B r : nat) : list Z :=
  match r with
  | 0 => replicate B 1%Z
  | S r' => zip_with byte_mul (mask_row v inputs B r') (ne_byte v <$> (inputs !!! r'))
  end.

Definition toy_encoded : encoded :=
  {| H := [[ [ [[Fin 0]]; [[Fin 0]] ] ]];
     embeddings := [[ [[Fin 0]] ]];
     attention_mask := [[ [ [Fin 0]; [NInf] ] ]] |}.

Definition toy_target : ltensor := [[0]; [1]; [1]]%Z.

(** What encoder [i] has appended for example [j], for [B] batch elements. *)
Definition encoded_at (e : encoded) (i j B : nat) : Prop :=
  (H e !!! i) !!! j ≠ []
  ∧ (attention_mask e !!! i) !!! j ≠ []
  ∧ rect B ((H e !!! i) !!! j)
  ∧ rect B ((attention_mask e !!! i) !!! j)
  ∧ length ((embeddings e !!! i) !!! j) = B.

(** An input tensor for [B] batch elements over the ids of a vocabulary of
    size [v]. *)
Definition input_ready (v : nat) (t : ltensor) (B : nat) : Prop :=
  t ≠ [] ∧ rect B t ∧ Forall (Forall (λ x, 0 ≤ x ≤ Z.of_nat v)%Z) t.

(** The tensors, their one-hot encodings and their lengths, as [_run]
    holds them when the encoders start. *)
Definition encoder_inputs_ready (self : net) (ts : list (list ltensor))
    (inputs_scatter : list (list (list xmat))) (max_length_inputs : list (list nat))
    (n_examples B : nat) : Prop :=
  ∀ i j, i < length (input_vocabularies self) → j < n_examples →
    input_ready (v_inputs self !!! i) ((ts !!! i) !!! j) B
    ∧ (max_length_inputs !!! i) !!! j = length ((ts !!! i) !!! j)
    ∧ ∀ k, k < length ((ts !!! i) !!! j) →
        length (((inputs_scatter !!! i) !!! j) !!! k) = B.

(** The encoders [0 .. i-1] are done. *)
Definition encoders_done (e : encoded) (n_examples B i : nat) : Prop :=
  length (H e) = i ∧ length (embeddings e) = i ∧ length (attention_mask e) = i
  ∧ ∀ i' j, i' < i → j < n_examples → encoded_at e i' j B.

(** Encoder [i] has done the examples [0 .. jd-1]. *)
Definition encoders_mid (e : encoded) (n_examples B i jd : nat) : Prop :=
  length (H e) = i + 1 ∧ length (embeddings e) = i + 1
  ∧ length (attention_mask e) = i + 1
  ∧ (∀ i' j, i' < i → j < n_examples → encoded_at e i' j B)
  ∧ length (H e !!! i) = jd ∧ length (embeddings e !!! i) = jd
  ∧ length (attention_mask e !!! i) = jd
  ∧ ∀ j, j < jd → encoded_at e i j B.

(** The encoder pass of [_run] on tensors: the lengths, the one-hot
    encodings and the loops over the encoders and the examples. *)
Definition encoder_pass {F32 : float32} {NN : torch_nn} (σ : store) (self : net) (ts : list (list ltensor))
    (n_examples B : nat) : result encoded :=
  max_length_inputs ←
    mapM (λ i, mapM (λ j, input_size_at (Tensors ts) i j 0) (seq 0 n_examples))
         (seq 0 (n_encoders self));
  inputs_scatter ←
    mapM (λ i, mapM (λ j, scatter ((v_inputs self !!! i) + 1) ((ts !!! i) !!! j))
                    (seq 0 n_examples))
         (seq 0 (n_encoders self));
  encoders σ self ts inputs_scatter max_length_inputs n_examples B.

(** What [_run] needs of the object and of the tensors of a batch of [B]
    elements with [n_examples] examples each. *)
Definition run_ready (σ : store) (self : net) (ts : list (list ltensor))
    (n_examples B : nat) : Prop :=
  n_encoders self = length (input_vocabularies self)
  ∧ n_encoders self ≠ 0 ∧ 0 < n_examples
  ∧ length ts = n_encoders self
  ∧ (∀ i, i < n_encoders self → length (ts !!! i) = n_examples)
  ∧ (∀ i j, i < n_encoders self → j < n_examples →
       input_ready (v_inputs self !!! i) ((ts !!! i) !!! j) B)
  ∧ length (mat (data σ (encoder_init_h self))) = 1
  ∧ v_target self < length (mat (data σ (weight (V self))))
  ∧ v_target self < length (vec (data σ (bias (V self)))).

Definition toy_inputs : list (list ltensor) := [[ [[0]; [1]]%Z ]].

(** What the encoder of the small network appends on the tensor [[0]; [1]]. *)
Definition toy_encoded2 : encoded :=
  {| H := [[ [ [[Fin 0]]; [[Fin 0]] ] ]];
     embeddings := [[ [[Fin 0]] ]];
     attention_mask := [[ [ [log_byte 1]; [log_byte 1] ] ]] |}.

Definition toy_state : cell_state := StateHC [[Fin 0]] [[Fin 0]].

(** The ground truth that ends at timestep 0 and is followed by the id 0. *)
Definition overflow_target : ltensor := [[1]; [0]]%Z.


(** The ids of a column up to its first end-of-sequence id [v], excluded. *)
Fixpoint before_eos (v : Z) (l : list Z) : list Z :=
  match l with
  | [] => []
  | x :: l' => if decide (x = v) then [] else x :: before_eos v l'
  end.

(** Every token of the batch is in the vocabulary of its encoder. *)
Definition known_inputs (self : net) (inputsss : batch) : Prop :=
  ∀ inst ex i s vocabulary,
    inst ∈ inputsss → ex ∈ inst → ex !! i = Some s →
    input_vocabularies self !! i = Some vocabulary →
    Forall (λ x, x ∈ vocabulary) s.

(** The batch cut to what [_inputsToTensors] reads: of every instance the
    examples up to the count of the first instance, of every example the
    sequences of the encoders. *)
Definition trimmed (self : net) (inputsss : batch) : batch :=
  (λ inst, take (n_encoders self) <$> take (length (inputsss !!! 0)) inst) <$> inputsss.

(** Distinct parameters get distinct clones. *)
Definition clones_distinct (ρ : gmap loc loc) : Prop :=
  ∀ p q p', ρ !! p = Some p' → ρ !! q = Some p' → p = q.

(** The ids [0; 1; 1] of one batch element for the encoder of the small
    network, with their one-hot encoding. *)
Definition toy_input : ltensor := [[0]; [1]; [1]]%Z.
Definition toy_scatter : list xmat :=
  [[[Fin 1; Fin 0]]; [[Fin 0; Fin 1]]; [[Fin 0; Fin 1]]].

(** What the forward pass needs of a network and its parameters: the
    relations that [__init__] sets up, at least one encoder, an initial
    encoder state of one row, and an output projection with one row and one
    bias per target id, the end-of-sequence id included. *)
Definition net_ready (σ : store) (self : net) : Prop :=
  net_wf self ∧ n_encoders self ≠ 0
  ∧ length (mat (data σ (encoder_init_h self))) = 1
  ∧ length (mat (data σ (weight (V self)))) = v_target self + 1
  ∧ length (vec (data σ (bias (V self)))) = v_target self + 1.

(** [torch.multinomial(p, 1)[:, 0]] draws, for every row of [p], the index
    of one of its columns. *)
Definition multinomial_valid {NN : torch_nn} : Prop :=
  ∀ rng (p : xmat) C,
    0 < C → rect C p →
    length (multinomial rng p) = length p
    ∧ Forall (λ x, 0 ≤ x < Z.of_nat C)%Z (multinomial rng p).

(** The state of the decoder loop in sample mode. *)
Definition sample_inv (self : net) (L n_examples B : nat) (s : decoder_loop) : Prop :=
  length (dec_target s) = L
  ∧ target_ready self (dec_target s) B
  ∧ length (dec_score s) = B
  ∧ length (dec_active s) = B
  ∧ length (dec_states s) = n_examples
  ∧ Forall (λ st, length (_cell_get_h st) = B) (dec_states s).

(** A second stand-in for the library, whose sampler always draws id 0. *)
Definition first_nn : torch_nn :=
  {| cell_forward := λ _ _ _ _ _ x st,
       match st with
       | StateH _ => StateH ((λ _, [Fin 0]) <$> x)
       | StateHC _ _ => StateHC ((λ _, [Fin 0]) <$> x) ((λ _, [Fin 0]) <$> x)
       end;
     multinomial := λ _ p, (λ _, 0%Z) <$> p |}.

(** The initial values that the library draws ([torch.rand] and the
    initialisers of the layers): the [k]-th draw of a matrix of [r] rows and
    [c] columns, and of a vector of [n] entries. *)
Class torch_init := {
  init2 : nat → nat → nat → fmat;
  init1 : nat → nat → fvec;
}.

Definition init_shapes `{torch_init} : Prop :=
  (∀ k r c, length (init2 k r c) = r ∧ rect c (init2 k r c))
  ∧ (∀ k n, length (init1 k n) = n).

(** The store together with the number of draws made so far. *)
Definition alloc : Type := store * nat.

(** [Parameter(t)] for a fresh two- or one-dimensional tensor. *)
Definition Parameter2 `{torch_init} (a : alloc) (r c : nat) : alloc * loc :=
  let p := fresh (dom (tensors a.1)) in
  ((set_data a.1 p (T2 (init2 a.2 r c)), S a.2), p).

Definition Parameter1 `{torch_init} (a : alloc) (n : nat) : alloc * loc :=
  let p := fresh (dom (tensors a.1)) in
  ((set_data a.1 p (T1 (init1 a.2 n)), S a.2), p).

(** The number of gates of a cell: the rows of its weights are
    [gates * hidden_size]. *)
Definition gates (cell_type : cell_kind) : nat :=
  match cell_type with GRU => 3 | LSTM => 4 end.

(** [nn.GRUCell(input_size, hidden_size, bias=True)] and
    [nn.LSTMCell(input_size, hidden_size, bias=True)]. *)
Definition new_cell `{torch_init} (cell_type : cell_kind) (a : alloc)
    (input_size hidden_size : nat) : alloc * rnn_cell :=
  let '(a, w_ih) := Parameter2 a (gates cell_type * hidden_size) input_size in
  let '(a, w_hh) := Parameter2 a (gates cell_type * hidden_size) hidden_size in
  let '(a, b_ih) := Parameter1 a (gates cell_type * hidden_size) in
  let '(a, b_hh) := Parameter1 a (gates cell_type * hidden_size) in
  (a, {| weight_ih := w_ih; weight_hh := w_hh; bias_ih := b_ih; bias_hh := b_hh;
         input_size := input_size |}).

(** [nn.Linear(in_features, out_features)]. *)
Definition new_linear `{torch_init} (a : alloc) (in_features out_features : nat)
    : alloc * linear_layer :=
  let '(a, w) := Parameter2 a out_features in_features in
  let '(a, b) := Parameter1 a out_features in
  (a, {| weight := w; bias := b; out_features := out_features |}).

(** A list built by one allocation per element of [l]. *)
Definition new_list `{torch_init} {A B} (new : alloc → A → alloc * B) (a : alloc)
    (l : list A) : alloc * list B :=
  foldl (λ acc x, let '(a, y) := new acc.1 x in (a, acc.2 ++ [y])) (a, []) l.

(** [RobustFill.__init__]: the new object is stored under a fresh identity,
    which is returned with the new store. *)
Definition __init__ `{torch_init} (σ : store) (input_vocabularies : list (list token))
    (target_vocabulary : list token) (hidden_size embedding_size : nat)
    (cell_type : cell_kind) : result (store * loc) :=
  let n_encoders := length input_vocabularies in
  let v_inputs := length <$> input_vocabularies in
  let v_target := length target_vocabulary in
  let a : alloc := (σ, 0) in
  let '(a, encoder_init_h) := Parameter2 a 1 hidden_size in
  let '(a, encoder_init_cs) :=
    match cell_type with
    | GRU => (a, [])
    | LSTM => new_list (λ a _, Parameter2 a 1 hidden_size) a (seq 0 (length v_inputs))
    end in
  v0 ← py_nth v_inputs 0;
  let '(a, cell0) := new_cell cell_type a (v0 + 1) hidden_size in
  '(a, cells) ← for_each (λ '(a, cells) i,
      vi ← py_nth v_inputs i;
      let '(a, c) := new_cell cell_type a (vi + 1 + hidden_size) hidden_size in
      Ok (a, cells ++ [c]))
    (a, [cell0]) (seq 1 (n_encoders - 1));
  let '(a, decoder_cell) := new_cell cell_type a (v_target + 1) hidden_size in
  let '(a, decoder_init_c) :=
    match cell_type with
    | GRU => (a, None)
    | LSTM => let '(a, p) := Parameter2 a 1 hidden_size in (a, Some p)
    end in
  let '(a, W) := new_linear a (hidden_size + hidden_size) embedding_size in
  let '(a, V) := new_linear a embedding_size (v_target + 1) in
  let '(a, As) := new_list (λ a _, Parameter2 a hidden_size hidden_size) a
                    (seq 0 n_encoders) in
  let me :=
    _refreshVocabularyIndex
      {| n_encoders := n_encoders; hidden_size := hidden_size;
         embedding_size := embedding_size;
         input_vocabularies := input_vocabularies;
         target_vocabulary := target_vocabulary;
         input_vocabularies_index := []; target_vocabulary_index := ∅;
         v_inputs := v_inputs; v_target := v_target; cell_type := cell_type;
         encoder_init_h := encoder_init_h; encoder_init_cs := encoder_init_cs;
         encoder_cells := cells; decoder_cell := decoder_cell;
         decoder_init_c := decoder_init_c; W := W; V := V; As := As;
         opt := None; optstate := None |} in
  let o := fresh (dom (objects a.1)) in
  Ok (set_object a.1 o me, o).

(** [a'] keeps the objects and the tensors of [a]. *)
Definition extends (a a' : alloc) : Prop :=
  objects a'.1 = objects a.1
  ∧ ∀ q, q ∈ dom (tensors a.1) → tensors a'.1 !! q = tensors a.1 !! q.

(** From [a] to [a'] the distinct parameters [ps] were created. *)
Definition allocates (a a' : alloc) (ps : list loc) : Prop :=
  extends a a' ∧ NoDup ps
  ∧ Forall (λ p, (p ∉ dom (tensors a.1)) ∧ p ∈ dom (tensors a'.1)) ps.

(** An initialiser that fills every tensor with zeros. *)
Definition zero_init : torch_init :=
  {| init2 := λ _ r c, replicate r (replicate c 0%R);
     init1 := λ _ n, replicate n 0%R |}.

(** * Proofs *)

(** ** The result monad *)

Lemma bind_Ok {A B} (m : result A) (f : A → result B) b :
  m ≫= f = Ok b ↔ ∃ a, m = Ok a ∧ f a = Ok b.
Proof.
  destruct m; simpl; split.
  - eauto.
  - by intros (? & [= ->] & ?).
  - done.
  - by intros (? & ? & ?).
Qed.

Lemma bind_Raise {A B} (m : result A) (f : A → result B) e :
  m ≫= f = Raise e ↔ m = Raise e ∨ ∃ a, m = Ok a ∧ f a = Raise e.
Proof.
  destruct m as [a|e']; simpl; split.
  - intros Hf. right. eauto.
  - intros [Hm|(a' & [= <-] & Hf)]; [done|done].
  - intros [= ->]. by left.
  - intros [[= ->]|(a' & [=] & _)]. done.
Qed.

Lemma mapM_Ok_fmap {A B} (f : A → result B) (g : A → B) (l : list A) :
  Forall (λ x, f x = Ok (g x)) l → mapM f l = Ok (g <$> l).
Proof.
  induction 1 as [|x l Hx _ IH]; [done|].
  cbn. rewrite Hx. cbn. by rewrite IH.
Qed.

Lemma mapM_Ok_length {A B} (f : A → result B) (l : list A) k :
  mapM f l = Ok k → length k = length l.
Proof.
  revert k. induction l as [|x l IH]; intros k; cbn.
  - by intros [= <-].
  - destruct (f x); [|done]. cbn. destruct (mapM f l); [|done]. cbn.
    intros [= <-]. cbn. f_equal. by apply IH.
Qed.

Lemma mapM_Ok_lookup {A B} (f : A → result B) (l : list A) k i x :
  mapM f l = Ok k → l !! i = Some x → ∃ y, k !! i = Some y ∧ f x = Ok y.
Proof.
  revert k i. induction l as [|a l IH]; intros k i; cbn; [done|].
  destruct (f a) eqn:Ha; [|done]. cbn. destruct (mapM f l) eqn:Hl; [|done]. cbn.
  intros [= <-]. destruct i; cbn.
  - intros [= ->]. eauto.
  - intros Hi. by apply IH.
Qed.

Lemma mapM_Raise {A B} (f : A → result B) (l : list A) e :
  mapM f l = Raise e → ∃ x, x ∈ l ∧ f x = Raise e.
Proof.
  induction l as [|a l IH]; cbn; [done|].
  destruct (f a) eqn:Ha; cbn.
  - destruct (mapM f l); cbn; [done|]. intros [= ->].
    destruct IH as (x & ? & ?); [done|]. exists x. split; [by constructor|done].
  - intros [= ->]. exists a. split; [by constructor|done].
Qed.

Lemma mapM_is_Ok {A B} (f : A → result B) (l : list A) :
  Forall (λ x, is_Ok (f x)) l → is_Ok (mapM f l).
Proof.
  induction 1 as [|x l [y Hy] _ [k Hk]]; [by eexists|].
  cbn. rewrite Hy. cbn. rewrite Hk. by eexists.
Qed.


(** ** The token index *)

Lemma vocabulary_index_prefix (vocabulary : list token) n :
  n ≤ length vocabulary →
  let d := foldl (λ d j, match vocabulary !! j with
                         | Some x => <[x:=j]> d
                         | None => d
                         end) (∅ : gmap token nat) (seq 0 n) in
  ∀ x, (∀ j, d !! x = Some j → vocabulary !! j = Some x)
       ∧ (x ∈ take n vocabulary → is_Some (d !! x))
       ∧ (d !! x = None → x ∉ take n vocabulary).
Proof.
  induction n as [|n IH]; intros Hn d x.
  - subst d. cbn. rewrite take_0. split_and!; [done| |].
    + by intros ?%elem_of_nil.
    + intros _ ?%elem_of_nil. done.
  - destruct (lookup_lt_is_Some_2 vocabulary n) as [y Hy]; [lia|].
    assert (Hd : d = <[y:=n]> (foldl (λ d j, match vocabulary !! j with
                         | Some x => <[x:=j]> d
                         | None => d
                         end) (∅ : gmap token nat) (seq 0 n))).
    { subst d. rewrite seq_S, foldl_app. cbn. by rewrite Hy. }
    rewrite Hd. clear Hd d.
    destruct (IH ltac:(lia) x) as (IH1 & IH2 & IH3).
    rewrite (take_S_r _ _ _ Hy).
    destruct (decide (y = x)) as [->|Hne].
    + rewrite lookup_insert_eq. split_and!.
      * by intros j [= <-].
      * eauto.
      * done.
    + rewrite lookup_insert_ne by done. split_and!.
      * done.
      * intros [?|?%list_elem_of_singleton]%elem_of_app; [auto|congruence].
      * intros Hnone [?|?%list_elem_of_singleton]%elem_of_app; [by apply IH3|congruence].
Qed.

Lemma vocabulary_index_Some vocabulary x j :
  vocabulary_index vocabulary !! x = Some j → vocabulary !! j = Some x.
Proof.
  intros Hj. by eapply (vocabulary_index_prefix vocabulary (length vocabulary)).
Qed.

Lemma vocabulary_index_elem vocabulary x :
  x ∈ vocabulary → is_Some (vocabulary_index vocabulary !! x).
Proof.
  intros Hx.
  eapply (vocabulary_index_prefix vocabulary (length vocabulary)); [done|].
  by rewrite firstn_all.
Qed.

Lemma vocabulary_index_None vocabulary x :
  vocabulary_index vocabulary !! x = None → x ∉ vocabulary.
Proof.
  intros Hx.
  rewrite <-(firstn_all vocabulary).
  by eapply (vocabulary_index_prefix vocabulary (length vocabulary)).
Qed.

Lemma dict_get_Ok d x j : dict_get d x = Ok j ↔ d !! x = Some j.
Proof. unfold dict_get. destruct (d !! x); split; congruence. Qed.

Lemma dict_get_Raise d x e : dict_get d x = Raise e ↔ d !! x = None ∧ e = KeyError x.
Proof. unfold dict_get. destruct (d !! x); split; (intros [? ?] || intros ?); try split; congruence. Qed.


(** ** Columns of a tensor *)

Lemma rect_lookup {A} B (t : list (list A)) r row :
  rect B t → t !! r = Some row → length row = B.
Proof. intros Ht Hr. by eapply (Forall_lookup_1 _ _ _ _ Ht Hr). Qed.

Lemma set_column_prefix_length {A} (t : list (list A)) k ids :
  length (set_column_prefix t k ids) = length t.
Proof. unfold set_column_prefix. by rewrite length_imap. Qed.

Lemma set_column_prefix_lookup {A} (t : list (list A)) k ids r :
  set_column_prefix t k ids !! r =
  (λ row, match ids !! r with Some x => <[k:=x]> row | None => row end) <$> t !! r.
Proof. unfold set_column_prefix. by rewrite list_lookup_imap. Qed.

Lemma set_column_prefix_rect {A} B (t : list (list A)) k ids :
  rect B t → rect B (set_column_prefix t k ids).
Proof.
  intros Ht. apply Forall_lookup_2. intros r row.
  rewrite set_column_prefix_lookup.
  destruct (t !! r) as [row'|] eqn:Hr; [|done]. cbn. intros [= <-].
  pose proof (rect_lookup _ _ _ _ Ht Hr).
  destruct (ids !! r); by rewrite ?length_insert.
Qed.

Lemma column_length `{Inhabited A} (t : list (list A)) c :
  length (column t c) = length t.
Proof. unfold column. by rewrite length_fmap. Qed.

Lemma column_lookup `{Inhabited A} (t : list (list A)) c r :
  column t c !! r = (λ row, row !!! c) <$> t !! r.
Proof. unfold column. by rewrite list_lookup_fmap. Qed.

Lemma column_set_column_prefix_ne `{Inhabited A} (t : list (list A)) k ids c :
  c ≠ k → column (set_column_prefix t k ids) c = column t c.
Proof.
  intros Hc. apply list_eq. intros r.
  rewrite !column_lookup, set_column_prefix_lookup.
  destruct (t !! r) as [row|]; [|done]. cbn. f_equal.
  destruct (ids !! r); [|done].
  by rewrite list_lookup_total_insert_ne.
Qed.

Lemma column_set_column_prefix_eq `{Inhabited A} B (t : list (list A)) k ids :
  rect B t → k < B → length ids ≤ length t →
  column (set_column_prefix t k ids) k = ids ++ drop (length ids) (column t k).
Proof.
  intros Ht Hk Hids. apply list_eq. intros r.
  rewrite column_lookup, set_column_prefix_lookup.
  destruct (decide (r < length ids)) as [Hr|Hr].
  - rewrite lookup_app_l by done.
    destruct (lookup_lt_is_Some_2 ids r Hr) as [x Hx].
    destruct (lookup_lt_is_Some_2 t r ltac:(lia)) as [row Hrow].
    rewrite Hx, Hrow. cbn. f_equal.
    apply list_lookup_total_insert_eq.
    by rewrite (rect_lookup _ _ _ _ Ht Hrow).
  - rewrite lookup_app_r by lia. rewrite lookup_drop.
    replace (length ids + (r - length ids)) with r by lia.
    rewrite column_lookup.
    rewrite (lookup_ge_None_2 ids r) by lia.
    by destruct (t !! r).
Qed.

Lemma column_ones_times r c v k :
  k < c → column (ones_times r c v) k = replicate r v.
Proof.
  intros Hk. unfold column, ones_times. rewrite fmap_replicate. f_equal.
  rewrite lookup_total_replicate_2 by done. lia.
Qed.

Lemma ones_times_rect r c v : rect c (ones_times r c v).
Proof. unfold rect, ones_times. apply Forall_replicate. by rewrite length_replicate. Qed.

Lemma ones_times_length r c v : length (ones_times r c v) = r.
Proof. unfold ones_times. by rewrite length_replicate. Qed.

(** ** The column-filling loop *)

Lemma mapM_dict_get_known d s :
  known d s → mapM (dict_get d) s = Ok ((λ x, d !!! x) <$> s).
Proof.
  intros Hs. apply mapM_Ok_fmap. eapply Forall_impl; [exact Hs|].
  intros x [j Hj]. cbn. apply dict_get_Ok.
  by rewrite (lookup_total_correct _ _ _ Hj).
Qed.

Lemma fill_columns_known d B seqs : ∀ k t,
  Forall (known d) seqs → rect B t → k + length seqs ≤ B →
  Forall (λ s, length s ≤ length t) seqs →
  ∃ t', fill_columns (Ok d) k seqs t = Ok t'
        ∧ length t' = length t ∧ rect B t'
        ∧ ∀ c, column t' c =
               match seqs !! (c - k) with
               | Some s => if decide (k ≤ c)
                           then ids_of d s ++ drop (length s) (column t c)
                           else column t c
               | None => column t c
               end.
Proof.
  induction seqs as [|s seqs IH]; intros k t Hknown Ht Hk Hlen.
  - exists t. split_and!; try done.
  - apply Forall_cons in Hknown as [Hs Hknown].
    apply Forall_cons in Hlen as [Hls Hlen].
    cbn [length] in Hk.
    set (t1 := if decide (0 < length s)
               then set_column_prefix t k (ids_of d s) else t).
    assert (Ht1 : (if decide (0 < length s)
            then ids ← (d0 ← Ok d; mapM (dict_get d0) s);
                 Ok (set_column_prefix t k (Z.of_nat <$> ids))
            else Ok t) = Ok t1).
    { subst t1. destruct (decide (0 < length s)); [|done].
      cbn. rewrite (mapM_dict_get_known _ _ Hs). cbn.
      unfold ids_of. by rewrite <-list_fmap_compose. }
    assert (Hlt1 : length t1 = length t).
    { subst t1. destruct (decide _); by rewrite ?set_column_prefix_length. }
    assert (Hrt1 : rect B t1).
    { subst t1. destruct (decide _); [by apply set_column_prefix_rect|done]. }
    assert (Hcol : ∀ c, column t1 c =
              if decide (c = k) then ids_of d s ++ drop (length s) (column t c)
              else column t c).
    { intros c. subst t1. destruct (decide (0 < length s)) as [Hpos|Hpos].
      - destruct (decide (c = k)) as [->|Hc].
        + rewrite (column_set_column_prefix_eq B) by
            (try done; try lia; unfold ids_of; rewrite length_fmap; lia).
          unfold ids_of. by rewrite length_fmap.
        + by apply column_set_column_prefix_ne.
      - destruct s; [|cbn in Hpos; lia]. cbn. by destruct (decide _). }
    destruct (IH (S k) t1) as (t' & Hfill & Hlt' & Hrt' & Hcols);
      [done|done|lia|by rewrite Hlt1|].
    exists t'. split_and!.
    + cbn [fill_columns]. rewrite Ht1. exact Hfill.
    + congruence.
    + done.
    + intros c. rewrite Hcols, !Hcol.
      destruct (decide (c = k)) as [->|Hc].
      * replace (k - k) with 0 by lia. replace (k - S k) with 0 by lia. cbn.
        destruct seqs as [|s' seqs']; cbn.
        -- by rewrite decide_True by lia.
        -- rewrite decide_False by lia. by rewrite decide_True by lia.
      * destruct (decide (k ≤ c)) as [Hkc|Hkc].
        -- replace (c - k) with (S (c - S k)) by lia. cbn.
           destruct (seqs !! (c - S k)); [|done].
           by rewrite decide_True by lia.
        -- replace (c - k) with 0 by lia. replace (c - S k) with 0 by lia. cbn.
           destruct seqs as [|s' seqs']; cbn; [done|].
           by rewrite decide_False by lia.
Qed.


Lemma foldl_max_le n ns : n ≤ foldl Nat.max n ns ∧ Forall (λ k, k ≤ foldl Nat.max n ns) ns.
Proof.
  revert n. induction ns as [|k ns IH]; intros n; cbn.
  - split; [lia|constructor].
  - destruct (IH (n `max` k)) as [IH1 IH2]. split; [lia|].
    constructor; [lia|done].
Qed.

Lemma py_max_spec ns :
  ns ≠ [] → ∃ m, py_max ns = Ok m ∧ Forall (λ k, k ≤ m) ns.
Proof.
  destruct ns as [|n ns]; [done|]. intros _. eexists. split; [done|].
  destruct (foldl_max_le n ns). by constructor.
Qed.

Lemma py_nth_Ok {A} (l : list A) i a : py_nth l i = Ok a ↔ l !! i = Some a.
Proof. unfold py_nth. destruct (l !! i); split; congruence. Qed.

Lemma py_getitem_of_nat {A} (l : list A) j : py_getitem l (Z.of_nat j) = py_nth l j.
Proof.
  unfold py_getitem. rewrite decide_True by lia. by rewrite Nat2Z.id.
Qed.

Lemma py_index_app `{EqDecision A} (p q : list A) x :
  x ∉ p → py_index (p ++ x :: q) x = Ok (length p).
Proof.
  induction p as [|y p IH]; intros Hx; cbn.
  - by rewrite decide_True.
  - apply not_elem_of_cons in Hx as [Hne Hx].
    rewrite decide_False by done. by rewrite IH.
Qed.

Lemma fmap_seq_lookup_total `{Inhabited A} (l : list A) :
  (λ i, l !!! i) <$> seq 0 (length l) = l.
Proof.
  apply list_eq. intros i. rewrite list_lookup_fmap.
  destruct (decide (i < length l)) as [Hi|Hi].
  - rewrite lookup_seq_lt by done. cbn.
    destruct (lookup_lt_is_Some_2 l i Hi) as [x Hx].
    by rewrite Hx, (list_lookup_total_correct _ _ _ Hx).
  - rewrite lookup_seq_ge by lia. by rewrite lookup_ge_None_2 by lia.
Qed.

(** Decoding one encoded column gives the sequence back. *)
Lemma output_column_encoded self s n :
  target_vocabulary_index self = vocabulary_index (target_vocabulary self) →
  v_target self = length (target_vocabulary self) →
  Forall (λ x, x ∈ target_vocabulary self) s →
  0 < n →
  output_column self
    (ids_of (target_vocabulary_index self) s ++ replicate n (Z.of_nat (v_target self)))
  = Ok s.
Proof.
  intros Hidx Hv Hs Hn.
  set (d := target_vocabulary_index self).
  set (v := Z.of_nat (v_target self)).
  assert (Hid : Forall (λ x, ∃ j, d !!! x = j ∧ target_vocabulary self !! j = Some x
                             ∧ j < v_target self) s).
  { eapply Forall_impl; [exact Hs|]. intros x Hx. cbn in *.
    subst d. rewrite Hidx.
    destruct (vocabulary_index_elem _ _ Hx) as [j Hj].
    exists j. rewrite (lookup_total_correct _ _ _ Hj).
    pose proof (vocabulary_index_Some _ _ _ Hj) as Hjx.
    split_and!; [done|done|]. rewrite Hv. by eapply lookup_lt_Some. }
  assert (Hnotin : v ∉ ids_of d s).
  { unfold ids_of. intros (x & Hvx & Hx)%list_elem_of_fmap.
    rewrite Forall_forall in Hid. destruct (Hid x Hx) as (j & Hj & _ & Hlt).
    subst v. lia. }
  destruct n as [|n]; [lia|]. cbn [replicate].
  unfold output_column.
  destruct s as [|x s].
  - cbn. fold v. by rewrite decide_True.
  - cbn [ids_of fmap list_fmap app]. cbn [py_nth lookup list_lookup].
    cbn [mbind result_bind].
    assert (Hx0 : Z.of_nat (d !!! x) ≠ v).
    { intros Heq. apply Hnotin. unfold ids_of. cbn. rewrite Heq. by constructor. }
    fold v. rewrite decide_False by done.
    unfold py_in. rewrite bool_decide_eq_true_2.
    2:{ apply elem_of_cons. right. apply elem_of_app. right. by constructor. }
    change (Z.of_nat (d !!! x) :: ((λ x0, Z.of_nat (d !!! x0)) <$> s) ++ v :: replicate n v)
      with (ids_of d (x :: s) ++ v :: replicate n v).
    rewrite py_index_app by done. cbn [mbind result_bind].
    rewrite take_app_length.
    clear Hx0 Hnotin Hs. revert Hid. generalize (x :: s). clear x s.
    intros s Hid. induction Hid as [|x s (j & Hj & Hjx & _) _ IH]; [done|].
    cbn. rewrite py_getitem_of_nat, Hj.
    rewrite (proj2 (py_nth_Ok _ _ _) Hjx). cbn.
    unfold ids_of in IH. by rewrite IH.
Qed.


Lemma size1_rect {A} B (t : list (list A)) : rect B t → t ≠ [] → size1 t = B.
Proof.
  destruct t as [|row t]; [done|]. intros Ht _. unfold size1. cbn.
  by apply Forall_cons in Ht as [? _].
Qed.

Lemma known_of_elem vocabulary s :
  Forall (λ x, x ∈ vocabulary) s → known (vocabulary_index vocabulary) s.
Proof.
  intros Hs. eapply Forall_impl; [exact Hs|]. intros x Hx.
  by apply vocabulary_index_elem.
Qed.

(** The encoded tensor of a batch over the vocabulary: it exists, and its
    column [c] is the ids of sequence [c] followed by end-of-sequence ids. *)
Lemma _targetToTensor_columns self targets :
  target_vocabulary_index self = vocabulary_index (target_vocabulary self) →
  targets ≠ [] →
  Forall (Forall (λ x, x ∈ target_vocabulary self)) targets →
  ∃ t maxlen, _targetToTensor self targets = Ok t
    ∧ length t = maxlen + 1 ∧ rect (length targets) t
    ∧ Forall (λ s, length s ≤ maxlen) targets
    ∧ ∀ c s, targets !! c = Some s →
        column t c = ids_of (target_vocabulary_index self) s
                     ++ replicate (maxlen + 1 - length s) (Z.of_nat (v_target self)).
Proof.
  intros Hidx Hne Hvoc.
  destruct (py_max_spec (length <$> targets)) as (maxlen & Hmax & Hle).
  { by destruct targets. }
  rewrite Forall_fmap in Hle.
  destruct (fill_columns_known (target_vocabulary_index self) (length targets) targets 0
              (ones_times (maxlen + 1) (length targets) (Z.of_nat (v_target self))))
    as (t & Hfill & Hlen & Hrect & Hcols).
  { rewrite Hidx. eapply Forall_impl; [exact Hvoc|]. intros s. apply known_of_elem. }
  { apply ones_times_rect. }
  { lia. }
  { rewrite ones_times_length. eapply Forall_impl; [exact Hle|]. cbn. intros; lia. }
  rewrite ones_times_length in Hlen.
  exists t, maxlen. split_and!; try done.
  - unfold _targetToTensor. rewrite Hmax. exact Hfill.
  - intros c s Hc. rewrite Hcols. rewrite Nat.sub_0_r, Hc.
    rewrite decide_True by lia. f_equal.
    rewrite column_ones_times by (by eapply lookup_lt_Some).
    by rewrite drop_replicate.
Qed.

(** Claim C2.  For every batch of token sequences over the target vocabulary
    and each sequence [s] of the batch, encoding succeeds and decoding the
    encoded tensor gives the batch back; this includes empty sequences. *)
Theorem decode_encode_roundtrip self targets s :
  target_vocabulary_index self = vocabulary_index (target_vocabulary self) →
  v_target self = length (target_vocabulary self) →
  s ∈ targets →
  Forall (Forall (λ x, x ∈ target_vocabulary self)) targets →
  ∃ t, _targetToTensor self targets = Ok t ∧ _tensorToOutput self t = Ok targets.
Proof.
  intros Hidx Hv Hs Hvoc.
  destruct (_targetToTensor_columns self targets Hidx) as
    (t & maxlen & Henc & Hlen & Hrect & Hle & Hcols);
    [by intros ->; apply elem_of_nil in Hs|done|].
  exists t. split; [done|].
  unfold _tensorToOutput.
  rewrite (size1_rect _ _ Hrect) by (destruct t; [cbn in Hlen; lia|done]).
  rewrite <-(fmap_seq_lookup_total targets) at 2.
  apply mapM_Ok_fmap. apply Forall_forall. intros c Hc%elem_of_seq.
  destruct (lookup_lt_is_Some_2 targets c ltac:(lia)) as [sc Hsc].
  rewrite (list_lookup_total_correct _ _ _ Hsc), (Hcols _ _ Hsc).
  apply output_column_encoded; try done.
  - by eapply (Forall_lookup_1 _ _ _ _ Hvoc Hsc).
  - pose proof (Forall_lookup_1 _ _ _ _ Hle Hsc) as Hl. cbn in Hl. lia.
Qed.


Lemma result_cases {A} (m : result A) : is_Ok m ∨ ∃ e, m = Raise e.
Proof. destruct m; [left; by eexists|right; by eexists]. Qed.

Lemma is_Ok_Raise {A} (e : exn) : ¬ is_Ok (@Raise A e).
Proof. by intros [? ?]. Qed.

Lemma for_each_Raise_inv {A S} (body : S → A → result S) l : ∀ s e,
  for_each body s l = Raise e → ∃ a s', a ∈ l ∧ body s' a = Raise e.
Proof.
  induction l as [|a l IH]; intros s e; cbn; [done|].
  destruct (body s a) as [s1|e1] eqn:Hb; cbn.
  - intros (a' & s' & Ha' & Hr)%IH. exists a', s'. split; [by constructor|done].
  - intros [= ->]. exists a, s. split; [by constructor|done].
Qed.

Lemma for_each_not_Ok {A S} (body : S → A → result S) l a : ∀ s,
  a ∈ l → (∀ s', ¬ is_Ok (body s' a)) → ¬ is_Ok (for_each body s l).
Proof.
  induction l as [|a' l IH]; intros s Ha Hbody; [by apply elem_of_nil in Ha|].
  cbn. destruct (body s a') as [s1|e1] eqn:Hb; cbn; [|apply is_Ok_Raise].
  apply elem_of_cons in Ha as [->|Ha].
  - exfalso. apply (Hbody s). rewrite Hb. by eexists.
  - by apply IH.
Qed.

Lemma for_each_is_Ok {A S} (body : S → A → result S) l : ∀ s,
  (∀ a s', a ∈ l → is_Ok (body s' a)) → is_Ok (for_each body s l).
Proof.
  induction l as [|a l IH]; intros s Hbody; [by eexists|].
  cbn. destruct (Hbody a s) as [s1 Hs1]; [by constructor|]. rewrite Hs1. cbn.
  apply IH. intros a' s' Ha'. apply Hbody. by constructor.
Qed.

(** The column loop raises exactly the [KeyError] of an absent token. *)
Lemma fill_columns_is_Ok d seqs : ∀ k t,
  Forall (known d) seqs → is_Ok (fill_columns (Ok d) k seqs t).
Proof.
  induction seqs as [|s seqs IH]; intros k t Hk; [by eexists|].
  apply Forall_cons in Hk as [Hs Hk]. cbn [fill_columns].
  destruct (decide (0 < length s)); cbn.
  - rewrite (mapM_dict_get_known _ _ Hs). cbn. by apply IH.
  - by apply IH.
Qed.

Lemma fill_columns_Raise d seqs : ∀ k t e,
  fill_columns (Ok d) k seqs t = Raise e →
  ∃ s x, s ∈ seqs ∧ x ∈ s ∧ d !! x = None ∧ e = KeyError x.
Proof.
  induction seqs as [|s seqs IH]; intros k t e; cbn [fill_columns]; [done|].
  destruct (decide (0 < length s)); cbn.
  - destruct (mapM (dict_get d) s) as [ids|e'] eqn:Hm; cbn.
    + intros (s' & x & ? & ?)%IH. exists s', x. split; [by constructor|done].
    + intros [= ->]. apply mapM_Raise in Hm as (x & Hx & (? & ?)%dict_get_Raise).
      exists s, x. split; [by constructor|done].
  - intros (s' & x & ? & ?)%IH. exists s', x. split; [by constructor|done].
Qed.

Lemma fill_columns_unknown d seqs s x : ∀ k t,
  s ∈ seqs → x ∈ s → d !! x = None → ¬ is_Ok (fill_columns (Ok d) k seqs t).
Proof.
  induction seqs as [|s' seqs IH]; intros k t Hs Hx Hd; [by apply elem_of_nil in Hs|].
  cbn [fill_columns]. apply elem_of_cons in Hs as [<-|Hs].
  - rewrite decide_True by (destruct s; [by apply elem_of_nil in Hx|cbn; lia]).
    cbn. destruct (mapM (dict_get d) s) as [ids|e'] eqn:Hm; cbn; [|apply is_Ok_Raise].
    exfalso. apply list_elem_of_lookup in Hx as [i Hi].
    destruct (mapM_Ok_lookup _ _ _ _ _ Hm Hi) as (j & _ & Hj%dict_get_Ok). congruence.
  - destruct (decide (0 < length s')); cbn.
    + destruct (mapM (dict_get d) s'); cbn; [by apply IH|apply is_Ok_Raise].
    + by apply IH.
Qed.

(** *** Targets *)

Lemma _targetToTensor_Raise self targets e :
  target_vocabulary_index self = vocabulary_index (target_vocabulary self) →
  targets ≠ [] →
  _targetToTensor self targets = Raise e →
  ∃ x, e = KeyError x ∧ unknown_target self targets x.
Proof.
  intros Hidx Hne. unfold _targetToTensor.
  destruct (py_max_spec (length <$> targets)) as (maxlen & -> & _); [by destruct targets|].
  cbn. intros (s & x & Hs & Hx & Hd & ->)%fill_columns_Raise.
  exists x. split; [done|]. exists s. split_and!; [done|done|].
  rewrite Hidx in Hd. by apply vocabulary_index_None.
Qed.

Lemma _targetToTensor_unknown self targets x :
  target_vocabulary_index self = vocabulary_index (target_vocabulary self) →
  unknown_target self targets x →
  ¬ is_Ok (_targetToTensor self targets).
Proof.
  intros Hidx (s & Hs & Hx & Hv). unfold _targetToTensor.
  destruct (py_max (length <$> targets)); cbn; [|apply is_Ok_Raise].
  eapply fill_columns_unknown; [done|done|].
  rewrite Hidx. destruct (vocabulary_index _ !! x) as [j|] eqn:Hj; [|done].
  exfalso. apply Hv. apply vocabulary_index_Some in Hj.
  by eapply list_elem_of_lookup_2.
Qed.


(** *** Inputs *)

Lemma inputs_body_eq self inputsss m i j row vocabulary :
  net_wf self →
  inputsss ≠ [] →
  Forall (λ inst, length inst = m
                  ∧ Forall (λ ex, length ex = n_encoders self) inst) inputsss →
  j < m → input_vocabularies self !! i = Some vocabulary →
  ∃ t0, inputs_body self inputsss i row j =
        t ← fill_columns (Ok (vocabulary_index vocabulary)) 0 (stream inputsss j i) t0;
        Ok (row ++ [t]).
Proof.
  intros (Hn & Hidx & _ & Hv & _) Hne Hshape Hj Hi.
  pose proof (lookup_lt_Some _ _ _ Hi) as Hilt. rewrite <-Hn in Hilt.
  unfold inputs_body.
  rewrite (mapM_Ok_fmap _ (λ inst, (inst !!! j) !!! i)).
  2:{ eapply Forall_impl; [exact Hshape|]. intros inst [Hm Hex]. cbn in *.
      destruct (lookup_lt_is_Some_2 inst j ltac:(lia)) as [ex Hexj].
      rewrite (proj2 (py_nth_Ok _ _ _) Hexj). cbn.
      rewrite (list_lookup_total_correct _ _ _ Hexj).
      pose proof (Forall_lookup_1 _ _ _ _ Hex Hexj) as Hl. cbn in Hl.
      destruct (lookup_lt_is_Some_2 ex i ltac:(lia)) as [s Hs].
      rewrite (list_lookup_total_correct _ _ _ Hs).
      by apply py_nth_Ok. }
  cbn. fold (stream inputsss j i).
  destruct (py_max_spec (length <$> stream inputsss j i)) as (maxlen & -> & _).
  { unfold stream. by destruct inputsss. }
  cbn. rewrite Hv, Hidx.
  rewrite (proj2 (py_nth_Ok (length <$> input_vocabularies self) i (length vocabulary)))
    by (by rewrite list_lookup_fmap, Hi).
  cbn.
  rewrite (proj2 (py_nth_Ok (vocabulary_index <$> input_vocabularies self) i
                    (vocabulary_index vocabulary)))
    by (by rewrite list_lookup_fmap, Hi).
  by eexists.
Qed.

Lemma _inputsToTensors_unfold self inputsss :
  _inputsToTensors self inputsss =
  for_each (λ tensors i,
    x0 ← py_nth inputsss 0;
    row ← for_each (inputs_body self inputsss i) [] (seq 0 (length x0));
    Ok (tensors ++ [row])) [] (seq 0 (n_encoders self)).
Proof. reflexivity. Qed.

Lemma _inputsToTensors_Raise self inputsss e :
  net_wf self → well_shaped self inputsss →
  _inputsToTensors self inputsss = Raise e →
  ∃ x, e = KeyError x ∧ unknown_input self inputsss x.
Proof.
  intros Hwf [Hne (m & Hshape)]. rewrite _inputsToTensors_unfold.
  intros (i & tensors & Hi%elem_of_seq & Hbody)%for_each_Raise_inv.
  destruct inputsss as [|x0 rest] eqn:Hin; [done|]. rewrite <-Hin in *.
  assert (Hx0 : py_nth inputsss 0 = Ok x0) by (by subst).
  rewrite Hx0 in Hbody. cbn in Hbody.
  assert (Hm : length x0 = m).
  { rewrite Hin in Hshape. by apply Forall_cons in Hshape as [[? _] _]. }
  destruct (for_each (inputs_body self inputsss i) [] (seq 0 (length x0)))
    as [row|e'] eqn:Hrow; [done|]. cbn in Hbody. injection Hbody as ->.
  apply for_each_Raise_inv in Hrow as (j & row & Hj%elem_of_seq & Hrow).
  destruct (lookup_lt_is_Some_2 (input_vocabularies self) i) as [vocabulary Hvoc].
  { destruct Hwf as (<- & _). lia. }
  destruct (inputs_body_eq self inputsss m i j row vocabulary) as [t0 Heq];
    [done|by rewrite Hin|done|lia|done|].
  rewrite Heq in Hrow.
  destruct (fill_columns _ _ _ _) as [t|e'] eqn:Hfill; [done|].
  cbn in Hrow. injection Hrow as ->.
  apply fill_columns_Raise in Hfill as (s & x & Hs & Hx & Hd & ->).
  exists x. split; [done|].
  unfold stream in Hs. apply list_elem_of_fmap in Hs as (inst & -> & Hinst).
  pose proof (proj1 (Forall_forall _ _) Hshape inst Hinst) as [Hlen Hex].
  destruct (lookup_lt_is_Some_2 inst j ltac:(lia)) as [ex Hexj].
  pose proof (Forall_lookup_1 _ _ _ _ Hex Hexj) as Hl. cbn in Hl.
  destruct (lookup_lt_is_Some_2 ex i ltac:(lia)) as [s Hs].
  rewrite (list_lookup_total_correct _ _ _ Hexj),
          (list_lookup_total_correct _ _ _ Hs) in Hx.
  exists inst, ex, i, s, vocabulary. split_and!; try done.
  - by eapply list_elem_of_lookup_2.
  - by apply vocabulary_index_None.
Qed.

Lemma _inputsToTensors_unknown self inputsss x :
  net_wf self → well_shaped self inputsss →
  unknown_input self inputsss x →
  ¬ is_Ok (_inputsToTensors self inputsss).
Proof.
  intros Hwf [Hne (m & Hshape)] (inst & ex & i & s & vocabulary & Hinst & Hex & Hs & Hvoc & Hx & Hnot).
  rewrite _inputsToTensors_unfold.
  pose proof (proj1 (Forall_forall _ _) Hshape inst Hinst) as [Hlen Hexs].
  apply list_elem_of_lookup in Hex as [j Hexj].
  pose proof (lookup_lt_Some _ _ _ Hexj) as Hj.
  pose proof (lookup_lt_Some _ _ _ Hvoc) as Hi.
  apply (for_each_not_Ok _ _ i).
  { apply elem_of_seq. destruct Hwf as (-> & _). lia. }
  intros tensors.
  destruct inputsss as [|x0 rest] eqn:Hin; [done|]. rewrite <-Hin in *.
  assert (Hx0 : py_nth inputsss 0 = Ok x0) by (by subst).
  rewrite Hx0. cbn.
  assert (Hm : length x0 = m).
  { rewrite Hin in Hshape. by apply Forall_cons in Hshape as [[? _] _]. }
  destruct (for_each (inputs_body self inputsss i) [] (seq 0 (length x0)))
    as [row|e'] eqn:Hrow; [|apply is_Ok_Raise].
  exfalso. eapply (for_each_not_Ok (inputs_body self inputsss i) _ j);
    [| |by rewrite Hrow; eexists].
  { apply elem_of_seq. lia. }
  intros row'.
  destruct (inputs_body_eq self inputsss m i j row' vocabulary) as [t0 ->];
    [done|by rewrite Hin|done|lia|done|].
  intros [r Hr]. apply bind_Ok in Hr as (t & Hfill & _).
  eapply (fill_columns_unknown _ (stream inputsss j i) s x);
    [| | |by rewrite Hfill; eexists]; try done.
  - unfold stream. apply list_elem_of_fmap. exists inst. split; [|done].
    by rewrite (list_lookup_total_correct _ _ _ Hexj),
               (list_lookup_total_correct _ _ _ Hs).
  - destruct (vocabulary_index vocabulary !! x) as [k|] eqn:Hk; [|done].
    exfalso. apply Hnot. apply vocabulary_index_Some in Hk.
    by eapply list_elem_of_lookup_2.
Qed.


(** Claim C9.  On a batch of the documented shape, encoding the inputs (resp.
    the targets) raises a [KeyError] exactly when some input (resp. target)
    token is absent from its vocabulary; any exception that encoding raises is
    the [KeyError] of such a token, carried as it is; and [score] and [sample]
    then raise it whatever the encoders and the decoder would compute. *)
Theorem unknown_token_error {F32 : float32} {NN : torch_nn} σ self inputsss targets rng :
  net_wf self → well_shaped self inputsss → targets ≠ [] →
  ((∃ x, unknown_input self inputsss x)
     ↔ ∃ x, _inputsToTensors self inputsss = Raise (KeyError x))
  ∧ (∀ e, _inputsToTensors self inputsss = Raise e →
          ∃ x, e = KeyError x ∧ unknown_input self inputsss x)
  ∧ ((∃ x, unknown_target self targets x)
     ↔ ∃ x, _targetToTensor self targets = Raise (KeyError x))
  ∧ (∀ e, _targetToTensor self targets = Raise e →
          ∃ x, e = KeyError x ∧ unknown_target self targets x)
  ∧ (∀ e, _inputsToTensors self inputsss = Raise e →
          score σ self inputsss targets rng = Raise e
          ∧ sample σ self inputsss rng = Raise e)
  ∧ (∀ e, is_Ok (_inputsToTensors self inputsss) →
          _targetToTensor self targets = Raise e →
          score σ self inputsss targets rng = Raise e).
Proof.
  intros Hwf Hshape Hne.
  pose proof Hwf as (_ & _ & Hidx & _ & _).
  split_and!.
  - split.
    + intros [x Hx].
      destruct (result_cases (_inputsToTensors self inputsss)) as [Hok|[e He]].
      * by destruct (_inputsToTensors_unknown _ _ _ Hwf Hshape Hx).
      * destruct (_inputsToTensors_Raise _ _ _ Hwf Hshape He) as (x' & -> & _). eauto.
    + intros [x Hx].
      destruct (_inputsToTensors_Raise _ _ _ Hwf Hshape Hx) as (x' & _ & ?). eauto.
  - intros e. by apply _inputsToTensors_Raise.
  - split.
    + intros [x Hx].
      destruct (result_cases (_targetToTensor self targets)) as [Hok|[e He]].
      * by destruct (_targetToTensor_unknown _ _ _ Hidx Hx).
      * destruct (_targetToTensor_Raise _ _ _ Hidx Hne He) as (x' & -> & _). eauto.
    + intros [x Hx].
      destruct (_targetToTensor_Raise _ _ _ Hidx Hne Hx) as (x' & _ & ?). eauto.
  - intros e. by apply _targetToTensor_Raise.
  - intros e He. unfold score, sample. by rewrite He.
  - intros e [ts Hts] He. unfold score. by rewrite Hts, He.
Qed.


(** ** Vocabulary transfer: the three lists *)

Lemma py_index_elem `{EqDecision A} (l : list A) x :
  x ∈ l → ∃ j, py_index l x = Ok j ∧ l !! j = Some x.
Proof.
  induction l as [|y l IH]; intros Hx; [by apply elem_of_nil in Hx|].
  cbn. destruct (decide (y = x)) as [->|Hne].
  - by exists 0.
  - apply elem_of_cons in Hx as [?|Hx]; [congruence|].
    destruct (IH Hx) as (j & -> & Hj). by exists (S j).
Qed.

Lemma transfer_token_spec old Vw Vb ih new acc i tok :
  new !! i = Some tok →
  transfer_token old Vw Vb ih new acc i =
  Ok {| V_weight := V_weight acc ++ [(token_rows old Vw Vb ih tok).1.1];
        V_bias := V_bias acc ++ [(token_rows old Vw Vb ih tok).1.2];
        decoder_ih := decoder_ih acc ++ [(token_rows old Vw Vb ih tok).2] |}.
Proof.
  intros Htok. unfold transfer_token, token_rows.
  rewrite (proj2 (py_nth_Ok _ _ _) Htok). cbn [mbind result_bind].
  destruct (py_in tok old) eqn:Hin; [|done].
  apply bool_decide_eq_true in Hin. destruct (py_index_elem _ _ Hin) as (j & Hj & _).
  by rewrite Hj.
Qed.

Lemma transfer_loop old Vw Vb ih new n : ∀ k acc,
  k + n = length new →
  for_each (transfer_token old Vw Vb ih new) acc (seq k n) =
  Ok {| V_weight := V_weight acc ++ ((λ tok, (token_rows old Vw Vb ih tok).1.1) <$> drop k new);
        V_bias := V_bias acc ++ ((λ tok, (token_rows old Vw Vb ih tok).1.2) <$> drop k new);
        decoder_ih := decoder_ih acc ++ ((λ tok, (token_rows old Vw Vb ih tok).2) <$> drop k new) |}.
Proof.
  induction n as [|n IH]; intros k acc Hk.
  - rewrite drop_ge by lia. cbn. rewrite !app_nil_r. by destruct acc.
  - destruct (lookup_lt_is_Some_2 new k ltac:(lia)) as [tok Htok].
    rewrite (drop_S _ _ _ Htok). cbn [seq for_each].
    rewrite (transfer_token_spec _ _ _ _ _ _ _ _ Htok). cbn [mbind result_bind].
    rewrite IH by lia. cbn. by rewrite <-!app_assoc.
Qed.

Lemma concat_singletons {A} (ls : list (list A)) i :
  Forall (λ l, length l = 1) ls → concat ls !! i = ls !! i ≫= (.!! 0).
Proof.
  intros Hls. revert i. induction Hls as [|l ls Hl _ IH]; intros i; [done|].
  destruct l as [|a [|? ?]]; try done. cbn. destruct i; [done|]. cbn. apply IH.
Qed.

Lemma concat_singletons_length {A} (ls : list (list A)) :
  Forall (λ l, length l = 1) ls → length (concat ls) = length ls.
Proof.
  induction 1 as [|l ls Hl _ IH]; [done|]. cbn. rewrite length_app. lia.
Qed.

Lemma slice_singleton {A} (l : list A) j x :
  l !! j = Some x → slice j (j + 1) l = [x].
Proof.
  intros Hj. unfold slice. replace (j + 1 - j) with 1 by lia.
  rewrite (drop_S _ _ _ Hj). cbn. by rewrite take_0.
Qed.

Lemma last_slice_singleton {A} (l : list A) n x :
  length l = n + 1 → l !! n = Some x → last_slice l = [x].
Proof.
  intros Hl Hn. unfold last_slice. rewrite Hl. replace (n + 1 - 1) with n by lia.
  rewrite (drop_S _ _ _ Hn). by rewrite drop_ge by lia.
Qed.

(** Rows of a horizontal concatenation. *)
Lemma foldl_zip_app_lookup {A} (ms : list (list (list A))) : ∀ (m : list (list A)) r row,
  m !! r = Some row →
  Forall (λ m', is_Some (m' !! r)) ms →
  foldl (zip_with app) m ms !! r = Some (row ++ concat ((λ m', m' !!! r) <$> ms)).
Proof.
  induction ms as [|m' ms IH]; intros m r row Hr Hms.
  - cbn. by rewrite app_nil_r.
  - apply Forall_cons in Hms as [[row' Hrow'] Hms]. cbn.
    rewrite (IH _ r (row ++ row')); [|by rewrite lookup_zip_with, Hr, Hrow'|done].
    by rewrite (list_lookup_total_correct _ _ _ Hrow'), <-app_assoc.
Qed.

Lemma foldl_zip_app_length {A} (ms : list (list (list A))) n : ∀ (m : list (list A)),
  length m = n → Forall (λ m', length m' = n) ms →
  length (foldl (zip_with app) m ms) = n.
Proof.
  induction ms as [|m' ms IH]; intros m Hm Hms; [done|].
  apply Forall_cons in Hms as [Hm' Hms]. cbn. apply IH; [|done].
  rewrite length_zip_with. lia.
Qed.

Lemma cat1_lookup {A} (ms : list (list (list A))) r :
  ms ≠ [] → Forall (λ m, is_Some (m !! r)) ms →
  cat1 ms !! r = Some (concat ((λ m, m !!! r) <$> ms)).
Proof.
  destruct ms as [|m ms]; [done|]. intros _ [[row Hrow] Hms]%Forall_cons. cbn.
  rewrite (foldl_zip_app_lookup _ _ _ _ Hrow Hms).
  by rewrite (list_lookup_total_correct _ _ _ Hrow).
Qed.

Lemma cat1_length {A} (ms : list (list (list A))) n :
  ms ≠ [] → Forall (λ m, length m = n) ms → length (cat1 ms) = n.
Proof.
  destruct ms as [|m ms]; [done|]. intros _ [Hm Hms]%Forall_cons. cbn.
  by apply foldl_zip_app_length.
Qed.


Lemma slice_as_column `{Inhabited A} B (m : list (list A)) j :
  rect B m → j < B → slice j (j + 1) <$> m = as_column (column m j).
Proof.
  intros Hm Hj. unfold as_column, column. rewrite <-list_fmap_compose.
  apply Forall_fmap_ext_1. eapply Forall_impl; [exact Hm|].
  intros row Hrow. cbn in *.
  destruct (lookup_lt_is_Some_2 row j ltac:(lia)) as [x Hx].
  by rewrite (slice_singleton _ _ _ Hx), (list_lookup_total_correct _ _ _ Hx).
Qed.

Lemma last_slice_as_column `{Inhabited A} n (m : list (list A)) :
  rect (n + 1) m → last_slice <$> m = as_column (column m n).
Proof.
  intros Hm. unfold as_column, column. rewrite <-list_fmap_compose.
  apply Forall_fmap_ext_1. eapply Forall_impl; [exact Hm|].
  intros row Hrow. cbn in *.
  destruct (lookup_lt_is_Some_2 row n ltac:(lia)) as [x Hx].
  by rewrite (last_slice_singleton _ _ _ Hrow Hx), (list_lookup_total_correct _ _ _ Hx).
Qed.

Lemma zeros_as_column n : _zeros n 1 = as_column (replicate n 0%R).
Proof. unfold _zeros, as_column. by rewrite fmap_replicate. Qed.

Lemma cat1_as_column_lookup `{Inhabited A} n (cols : list (list A)) r :
  cols ≠ [] → Forall (λ c, length c = n) cols → r < n →
  cat1 (as_column <$> cols) !! r = Some ((λ col, col !!! r) <$> cols).
Proof.
  intros Hne Hcols Hr.
  rewrite cat1_lookup.
  - f_equal. rewrite <-list_fmap_compose.
    induction Hcols as [|col cols Hcol _ IH]; [done|]. cbn.
    destruct (lookup_lt_is_Some_2 col r ltac:(lia)) as [x Hx].
    unfold as_column at 1.
    rewrite (list_lookup_total_correct ((λ x, [x]) <$> col) r [x])
      by (by rewrite list_lookup_fmap, Hx).
    rewrite (list_lookup_total_correct _ _ _ Hx). cbn. f_equal.
    destruct cols; [done|]. by apply IH.
  - by destruct cols.
  - apply Forall_fmap. eapply Forall_impl; [exact Hcols|]. intros col Hcol. cbn in *.
    apply lookup_lt_is_Some_2. unfold as_column. rewrite length_fmap. lia.
Qed.

Lemma cat1_as_column_length {A} n (cols : list (list A)) :
  cols ≠ [] → Forall (λ c, length c = n) cols →
  length (cat1 (as_column <$> cols)) = n.
Proof.
  intros Hne Hcols. apply cat1_length; [by destruct cols|].
  apply Forall_fmap. eapply Forall_impl; [exact Hcols|]. intros col Hcol. cbn in *.
  unfold as_column. by rewrite length_fmap.
Qed.

Lemma cat1_as_column_rect `{Inhabited A} n (cols : list (list A)) :
  cols ≠ [] → Forall (λ c, length c = n) cols →
  rect (length cols) (cat1 (as_column <$> cols)).
Proof.
  intros Hne Hcols. apply Forall_lookup_2. intros r row Hrow.
  pose proof (lookup_lt_Some _ _ _ Hrow) as Hr.
  rewrite (cat1_as_column_length n) in Hr by done.
  rewrite (cat1_as_column_lookup n) in Hrow by done.
  injection Hrow as <-. by rewrite length_fmap.
Qed.

Lemma cat1_as_column_column `{Inhabited A} n (cols : list (list A)) i col :
  Forall (λ c, length c = n) cols → cols !! i = Some col →
  column (cat1 (as_column <$> cols)) i = col.
Proof.
  intros Hcols Hi.
  assert (Hne : cols ≠ []) by (by destruct cols).
  apply list_eq. intros r. rewrite column_lookup.
  pose proof (Forall_lookup_1 _ _ _ _ Hcols Hi) as Hlen. cbn in Hlen.
  destruct (decide (r < n)) as [Hr|Hr].
  - rewrite (cat1_as_column_lookup n) by done. cbn.
    rewrite (list_lookup_total_correct ((λ col, col !!! r) <$> cols) i (col !!! r))
      by (by rewrite list_lookup_fmap, Hi).
    destruct (lookup_lt_is_Some_2 col r ltac:(lia)) as [x Hx].
    by rewrite Hx, (list_lookup_total_correct _ _ _ Hx).
  - rewrite (lookup_ge_None_2 (cat1 _)) by (rewrite (cat1_as_column_length n) by done; lia).
    by rewrite lookup_ge_None_2 by lia.
Qed.

Lemma token_rows_column old Vw Vb ih tok :
  rect (length old + 1) ih →
  (token_rows old Vw Vb ih tok).2 = as_column (token_column old ih tok).
Proof.
  intros Hih. unfold token_rows, token_column.
  destruct (py_in tok old) eqn:Hin; [|apply zeros_as_column].
  apply bool_decide_eq_true in Hin.
  destruct (py_index_elem _ _ Hin) as (j & -> & Hj). cbn.
  apply (slice_as_column (length old + 1)); [done|].
  apply lookup_lt_Some in Hj. lia.
Qed.

Lemma token_column_length old ih tok :
  length (token_column old ih tok) = length ih.
Proof.
  unfold token_column. destruct (py_in tok old) eqn:Hin; [|by rewrite length_replicate].
  apply bool_decide_eq_true in Hin.
  destruct (py_index_elem _ _ Hin) as (j & -> & Hj). by rewrite column_length.
Qed.

Lemma token_rows_singletons old Vw Vb ih tok :
  length Vw = length old + 1 → length Vb = length old + 1 →
  length (token_rows old Vw Vb ih tok).1.1 = 1
  ∧ length (token_rows old Vw Vb ih tok).1.2 = 1.
Proof.
  intros Hw Hb. unfold token_rows.
  destruct (py_in tok old) eqn:Hin; [|done].
  apply bool_decide_eq_true in Hin.
  destruct (py_index_elem _ _ Hin) as (j & -> & Hj). cbn.
  apply lookup_lt_Some in Hj.
  destruct (lookup_lt_is_Some_2 Vw j ltac:(lia)) as [x Hx].
  destruct (lookup_lt_is_Some_2 Vb j ltac:(lia)) as [y Hy].
  by rewrite (slice_singleton _ _ _ Hx), (slice_singleton _ _ _ Hy).
Qed.


Section pure_transfer.
Variables (old new : list token) (Vw : fmat) (Vb : fvec) (ih : fmat).
Hypothesis HVw : length Vw = length old + 1.
Hypothesis HVb : length Vb = length old + 1.
Hypothesis Hih : rect (length old + 1) ih.

Local Abbreviation Vw' := (new_V_weight old Vw Vb ih new).
Local Abbreviation Vb' := (new_V_bias old Vw Vb ih new).
Local Abbreviation ih' := (new_decoder_ih old Vw Vb ih new).

Lemma new_decoder_ih_columns :
  ih' = cat1 (as_column <$> ((token_column old ih <$> new) ++ [column ih (length old)])).
Proof using Hih.
  unfold new_decoder_ih. f_equal. rewrite fmap_app. cbn. f_equal.
  - rewrite <-list_fmap_compose. apply list_fmap_ext. intros _ tok _. cbn.
    by apply token_rows_column.
  - f_equal. by apply last_slice_as_column.
Qed.

Lemma new_columns_lengths :
  Forall (λ c, length c = length ih)
    ((token_column old ih <$> new) ++ [column ih (length old)]).
Proof.
  apply Forall_app. split.
  - apply Forall_fmap, Forall_forall. intros tok _. cbn. apply token_column_length.
  - repeat constructor. by rewrite column_length.
Qed.

Lemma new_rows_singletons :
  Forall (λ l, length l = 1)
    (((λ tok, (token_rows old Vw Vb ih tok).1.1) <$> new) ++ [last_slice Vw])
  ∧ Forall (λ l, length l = 1)
    (((λ tok, (token_rows old Vw Vb ih tok).1.2) <$> new) ++ [last_slice Vb]).
Proof using HVw HVb.
  destruct (lookup_lt_is_Some_2 Vw (length old) ltac:(lia)) as [x Hx].
  destruct (lookup_lt_is_Some_2 Vb (length old) ltac:(lia)) as [y Hy].
  split; apply Forall_app; split.
  - apply Forall_fmap, Forall_forall. intros tok _. cbn.
    by apply token_rows_singletons.
  - repeat constructor. by rewrite (last_slice_singleton _ _ _ HVw Hx).
  - apply Forall_fmap, Forall_forall. intros tok _. cbn.
    by apply token_rows_singletons.
  - repeat constructor. by rewrite (last_slice_singleton _ _ _ HVb Hy).
Qed.

Lemma new_shapes :
  length Vw' = length new + 1 ∧ length Vb' = length new + 1
  ∧ length ih' = length ih ∧ rect (length new + 1) ih'.
Proof using HVw HVb Hih.
  destruct new_rows_singletons as [Hw Hb].
  split_and!.
  - unfold new_V_weight, cat0.
    rewrite (concat_singletons_length _ Hw), length_app, length_fmap. cbn. lia.
  - unfold new_V_bias, cat0.
    rewrite (concat_singletons_length _ Hb), length_app, length_fmap. cbn. lia.
  - rewrite new_decoder_ih_columns.
    apply cat1_as_column_length; [by destruct new|apply new_columns_lengths].
  - rewrite new_decoder_ih_columns.
    replace (length new + 1) with
      (length ((token_column old ih <$> new) ++ [column ih (length old)]))
      by (rewrite length_app, length_fmap; cbn; lia).
    apply (cat1_as_column_rect (length ih)); [by destruct new|apply new_columns_lengths].
Qed.

(** A token of both vocabularies keeps its row, bias and column. *)
Lemma new_known i tok :
  new !! i = Some tok → tok ∈ old →
  ∃ j, py_index old tok = Ok j ∧ old !! j = Some tok
       ∧ Vw' !! i = Vw !! j ∧ Vb' !! i = Vb !! j
       ∧ column ih' i = column ih j.
Proof using HVw HVb Hih.
  intros Hi Hin. destruct (py_index_elem _ _ Hin) as (j & Hj & Holdj).
  exists j. split_and!; [done|done| | |].
  - unfold new_V_weight, cat0.
    rewrite concat_singletons by apply new_rows_singletons.
    rewrite lookup_app_l by (rewrite length_fmap; by eapply lookup_lt_Some).
    rewrite list_lookup_fmap, Hi. cbn.
    unfold token_rows, py_in. rewrite (bool_decide_eq_true_2 _ Hin), Hj. cbn.
    destruct (lookup_lt_is_Some_2 Vw j) as [x Hx];
      [apply lookup_lt_Some in Holdj; lia|].
    by rewrite (slice_singleton _ _ _ Hx), Hx.
  - unfold new_V_bias, cat0.
    rewrite concat_singletons by apply new_rows_singletons.
    rewrite lookup_app_l by (rewrite length_fmap; by eapply lookup_lt_Some).
    rewrite list_lookup_fmap, Hi. cbn.
    unfold token_rows, py_in. rewrite (bool_decide_eq_true_2 _ Hin), Hj. cbn.
    destruct (lookup_lt_is_Some_2 Vb j) as [x Hx];
      [apply lookup_lt_Some in Holdj; lia|].
    by rewrite (slice_singleton _ _ _ Hx), Hx.
  - rewrite new_decoder_ih_columns.
    rewrite (cat1_as_column_column (length ih) _ i (token_column old ih tok)).
    + unfold token_column, py_in. by rewrite (bool_decide_eq_true_2 _ Hin), Hj.
    + apply new_columns_lengths.
    + rewrite lookup_app_l by (rewrite length_fmap; by eapply lookup_lt_Some).
      by rewrite list_lookup_fmap, Hi.
Qed.

(** A token of the new vocabulary only: zero weights, bias minus ten. *)
Lemma new_unknown i tok :
  new !! i = Some tok → tok ∉ old →
  Vw' !! i = Some (replicate (size1 Vw) 0%R) ∧ Vb' !! i = Some (-10)%R
  ∧ column ih' i = replicate (length ih) 0%R.
Proof using HVw HVb Hih.
  intros Hi Hin. split_and!.
  - unfold new_V_weight, cat0.
    rewrite concat_singletons by apply new_rows_singletons.
    rewrite lookup_app_l by (rewrite length_fmap; by eapply lookup_lt_Some).
    rewrite list_lookup_fmap, Hi. cbn.
    unfold token_rows, py_in. by rewrite (bool_decide_eq_false_2 _ Hin).
  - unfold new_V_bias, cat0.
    rewrite concat_singletons by apply new_rows_singletons.
    rewrite lookup_app_l by (rewrite length_fmap; by eapply lookup_lt_Some).
    rewrite list_lookup_fmap, Hi. cbn.
    unfold token_rows, py_in. rewrite (bool_decide_eq_false_2 _ Hin). cbn.
    f_equal. lra.
  - rewrite new_decoder_ih_columns.
    rewrite (cat1_as_column_column (length ih) _ i (token_column old ih tok)).
    + unfold token_column, py_in. by rewrite (bool_decide_eq_false_2 _ Hin).
    + apply new_columns_lengths.
    + rewrite lookup_app_l by (rewrite length_fmap; by eapply lookup_lt_Some).
      by rewrite list_lookup_fmap, Hi.
Qed.

(** The end-of-sequence row, bias and column come last, unchanged. *)
Lemma new_eos :
  Vw' !! length new = Vw !! length old ∧ Vb' !! length new = Vb !! length old
  ∧ column ih' (length new) = column ih (length old).
Proof using HVw HVb Hih.
  destruct (lookup_lt_is_Some_2 Vw (length old) ltac:(lia)) as [x Hx].
  destruct (lookup_lt_is_Some_2 Vb (length old) ltac:(lia)) as [y Hy].
  split_and!.
  - unfold new_V_weight, cat0.
    rewrite concat_singletons by apply new_rows_singletons.
    rewrite lookup_app_r by (by rewrite length_fmap).
    rewrite length_fmap, Nat.sub_diag. cbn.
    by rewrite (last_slice_singleton _ _ _ HVw Hx).
  - unfold new_V_bias, cat0.
    rewrite concat_singletons by apply new_rows_singletons.
    rewrite lookup_app_r by (by rewrite length_fmap).
    rewrite length_fmap, Nat.sub_diag. cbn.
    by rewrite (last_slice_singleton _ _ _ HVb Hy).
  - rewrite new_decoder_ih_columns.
    apply (cat1_as_column_column (length ih)); [apply new_columns_lengths|].
    rewrite lookup_app_r by (by rewrite length_fmap).
    by rewrite length_fmap, Nat.sub_diag.
Qed.
End pure_transfer.


(** ** [deepcopy] *)

Lemma clone_parameter_inv σ0 acc p :
  clone_inv σ0 acc → p ∈ dom (tensors σ0) →
  clone_inv σ0 (clone_parameter acc p)
  ∧ is_Some ((clone_parameter acc p).2 !! p)
  ∧ (∀ q, is_Some (acc.2 !! q) → (clone_parameter acc p).2 !! q = acc.2 !! q).
Proof.
  destruct acc as [σ ρ]. intros (Hobj & Hframe & Hρ) Hp. cbn in Hobj, Hframe, Hρ.
  unfold clone_parameter.
  destruct (ρ !! p) as [p0|] eqn:Hρp.
  - split_and!; [by split_and!|cbn; by rewrite Hρp|done].
  - set (p' := fresh (dom (tensors σ))).
    assert (Hfresh : p' ∉ dom (tensors σ)) by apply is_fresh.
    assert (Hsub : ∀ q, q ∈ dom (tensors σ0) → q ∈ dom (tensors σ)).
    { intros q Hq. apply elem_of_dom. rewrite (Hframe q Hq). by apply elem_of_dom. }
    assert (Hp'0 : p' ∉ dom (tensors σ0)) by (intros ?; by apply Hfresh, Hsub).
    split_and!.
    + split_and!; cbn.
      * done.
      * intros q Hq. rewrite lookup_insert_ne; [by apply Hframe|].
        intros ->. by apply Hp'0.
      * intros q q' Hq. destruct (decide (p = q)) as [<-|Hne].
        -- rewrite lookup_insert_eq in Hq. injection Hq as <-.
           split_and!; [done|done|]. rewrite lookup_insert_eq.
           unfold data. cbn in Hframe.
           apply elem_of_dom in Hp as [t Ht]. rewrite Ht.
           by rewrite (lookup_total_correct (tensors σ) p t) by (by rewrite Hframe; [|apply elem_of_dom; eauto]).
        -- rewrite lookup_insert_ne in Hq by done.
           destruct (Hρ q q' Hq) as (Hq0 & Hq'0 & Hdata). split_and!; [done|done|].
           rewrite lookup_insert_ne; [done|]. intros <-.
           apply Hfresh, elem_of_dom. cbn in Hdata. rewrite Hdata. by apply elem_of_dom.
    + cbn. rewrite lookup_insert_eq. by eexists.
    + cbn. intros q [q' Hq]. rewrite lookup_insert_ne; [done|]. intros <-. congruence.
Qed.

Lemma clone_parameters_inv σ0 ps : ∀ acc,
  clone_inv σ0 acc → (∀ p, p ∈ ps → p ∈ dom (tensors σ0)) →
  clone_inv σ0 (foldl clone_parameter acc ps)
  ∧ (∀ p, p ∈ ps → is_Some ((foldl clone_parameter acc ps).2 !! p))
  ∧ (∀ q, is_Some (acc.2 !! q) → (foldl clone_parameter acc ps).2 !! q = acc.2 !! q).
Proof.
  induction ps as [|p ps IH]; intros acc Hinv Hps.
  - split_and!; [done| |done]. by intros p ?%elem_of_nil.
  - cbn. destruct (clone_parameter_inv σ0 acc p Hinv) as (Hinv1 & Hp1 & Hkeep1).
    { apply Hps. by constructor. }
    destruct (IH (clone_parameter acc p) Hinv1) as (Hinv2 & Hps2 & Hkeep2).
    { intros q Hq. apply Hps. by constructor. }
    split_and!; [done| |].
    + intros q [->|Hq]%elem_of_cons; [|by apply Hps2].
      rewrite Hkeep2 by done. done.
    + intros q Hq. rewrite Hkeep2; [by apply Hkeep1|]. by rewrite Hkeep1.
Qed.

Lemma deepcopy_spec σ n :
  (∀ p, p ∈ parameters n → p ∈ dom (tensors σ)) →
  ∃ σ' ρ o, deepcopy σ n = (σ', o)
    ∧ (o ∉ dom (objects σ))
    ∧ objects σ' = <[o := rename_net ρ n]> (objects σ)
    ∧ (∀ q, q ∈ dom (tensors σ) → tensors σ' !! q = tensors σ !! q)
    ∧ (∀ p, p ∈ parameters n →
         ∃ p', ρ !! p = Some p' ∧ (p' ∉ dom (tensors σ))
               ∧ tensors σ' !! p' = tensors σ !! p).
Proof.
  intros Hps. unfold deepcopy.
  destruct (clone_parameters_inv σ (parameters n) (σ, ∅)) as (Hinv & Hsome & _).
  { split_and!; cbn; [done|done|]. intros p p'. by rewrite lookup_empty. }
  { done. }
  destruct (foldl clone_parameter (σ, ∅) (parameters n)) as [σ1 ρ].
  destruct Hinv as (Hobj & Hframe & Hρ). cbn in *.
  eexists _, ρ, _. split; [reflexivity|]. split_and!.
  - rewrite <-Hobj. apply is_fresh.
  - cbn. by rewrite Hobj.
  - cbn. done.
  - intros p Hp. destruct (Hsome p Hp) as [p' Hp']. exists p'.
    destruct (Hρ p p' Hp') as (_ & ? & ?). by split_and!.
Qed.


Lemma parameters_rename ρ n :
  parameters (rename_net ρ n) = (λ p, ρ !!! p) <$> parameters n.
Proof.
  unfold parameters, rename_net, cell_parameters. cbn.
  rewrite !fmap_app. cbn. f_equal. f_equal. f_equal.
  - induction (encoder_cells n) as [|c cs IH]; [done|]. cbn. by rewrite IH.
  - f_equal. f_equal. f_equal. f_equal. f_equal. by destruct (decoder_init_c n).
Qed.

(** The receiver after the surgery. *)
Lemma transfer_in_place_spec σ self me new :
  let Vw := mat (data σ (weight (V me))) in
  let Vb := vec (data σ (bias (V me))) in
  let ih := mat (data σ (weight_ih (decoder_cell me))) in
  let old := target_vocabulary me in
  ∃ σ1 me1, transfer_in_place σ self me new = Ok (σ1, me1)
    ∧ objects σ1 = <[self := me1]> (objects σ)
    ∧ tensors σ1 = <[weight_ih (decoder_cell me) := T2 (new_decoder_ih old Vw Vb ih new)]>
                    (<[bias (V me) := T1 (new_V_bias old Vw Vb ih new)]>
                      (<[weight (V me) := T2 (new_V_weight old Vw Vb ih new)]> (tensors σ)))
    ∧ target_vocabulary me1 = new
    ∧ v_target me1 = length new
    ∧ target_vocabulary_index me1 = vocabulary_index new
    ∧ input_vocabularies me1 = input_vocabularies me
    ∧ input_vocabularies_index me1 = vocabulary_index <$> input_vocabularies me
    ∧ n_encoders me1 = n_encoders me ∧ v_inputs me1 = v_inputs me
    ∧ weight (V me1) = weight (V me) ∧ bias (V me1) = bias (V me)
    ∧ weight_ih (decoder_cell me1) = weight_ih (decoder_cell me)
    ∧ parameters me1 = parameters me
    ∧ opt me1 = None ∧ optstate me1 = None.
Proof.
  intros Vw Vb ih old. unfold transfer_in_place.
  fold Vw Vb ih old.
  rewrite (transfer_loop old Vw Vb ih new (length new) 0) by lia.
  rewrite drop_0. cbn [mbind result_bind V_weight V_bias decoder_ih app].
  eexists _, _. split; [reflexivity|].
  split_and!; reflexivity.
Qed.

(** What a call that changes the vocabulary does to the store. *)
Lemma with_target_vocabulary_spec σ self me new :
  objects σ !! self = Some me →
  new ≠ target_vocabulary me →
  (∀ p, p ∈ parameters me → p ∈ dom (tensors σ)) →
  let Vw := mat (data σ (weight (V me))) in
  let Vb := vec (data σ (bias (V me))) in
  let ih := mat (data σ (weight_ih (decoder_cell me))) in
  let old := target_vocabulary me in
  let tensors1 :=
    <[weight_ih (decoder_cell me) := T2 (new_decoder_ih old Vw Vb ih new)]>
      (<[bias (V me) := T1 (new_V_bias old Vw Vb ih new)]>
        (<[weight (V me) := T2 (new_V_weight old Vw Vb ih new)]> (tensors σ))) in
  ∃ σ' copy me1 ρ,
    with_target_vocabulary σ self new = Ok (σ', Some copy)
    ∧ (copy ∉ dom (objects σ))
    ∧ objects σ' = <[copy := rename_net ρ me1]> (<[self := me1]> (objects σ))
    ∧ target_vocabulary me1 = new
    ∧ v_target me1 = length new
    ∧ target_vocabulary_index me1 = vocabulary_index new
    ∧ weight (V me1) = weight (V me) ∧ bias (V me1) = bias (V me)
    ∧ weight_ih (decoder_cell me1) = weight_ih (decoder_cell me)
    ∧ parameters me1 = parameters me
    ∧ (∀ q, q ∈ dom (tensors σ) → tensors σ' !! q = tensors1 !! q)
    ∧ (∀ p, p ∈ parameters me →
         ∃ p', ρ !! p = Some p' ∧ (p' ∉ dom (tensors σ))
               ∧ tensors σ' !! p' = tensors1 !! p).
Proof.
  intros Hself Hne Hdom Vw Vb ih old tensors1.
  destruct (transfer_in_place_spec σ self me new) as
    (σ1 & me1 & Hin & Hobj1 & Hten1 & Htv & Hv & Hidx & _ & _ & _ & _ & HVw & HVb & Hih & Hps & _).
  fold Vw Vb ih old in Hten1. fold tensors1 in Hten1.
  assert (Hsub : ∀ q, q ∈ dom (tensors σ) → q ∈ dom (tensors σ1)).
  { intros q Hq. rewrite Hten1. subst tensors1. rewrite !dom_insert. set_solver. }
  destruct (deepcopy_spec σ1 me1) as (σ' & ρ & copy & Hcopy & Hfresh & Hobj & Hframe & Hρ).
  { intros p Hp. apply Hsub, Hdom. by rewrite <-Hps. }
  exists σ', copy, me1, ρ. split_and!; try done.
  - unfold with_target_vocabulary, get_object. rewrite Hself. cbn [mbind result_bind].
    rewrite decide_False by done. rewrite Hin. cbn [mbind result_bind].
    by rewrite Hcopy.
  - rewrite Hobj1 in Hfresh. rewrite dom_insert in Hfresh. set_solver.
  - by rewrite Hobj, Hobj1.
  - intros q Hq. rewrite <-Hten1. by apply Hframe, Hsub.
  - intros p Hp. rewrite <-Hps in Hp. destruct (Hρ p Hp) as (p' & Hp' & Hnot & Hdata).
    exists p'. split_and!; [done| |by rewrite <-Hten1].
    intros ?. by apply Hnot, Hsub.
Qed.


Lemma output_parameters me :
  weight (V me) ∈ parameters me ∧ bias (V me) ∈ parameters me
  ∧ weight_ih (decoder_cell me) ∈ parameters me.
Proof.
  unfold parameters, cell_parameters.
  split_and!; rewrite !elem_of_app, ?elem_of_cons; tauto.
Qed.

Lemma output_parameters_distinct me :
  NoDup (parameters me) →
  weight (V me) ≠ bias (V me)
  ∧ weight (V me) ≠ weight_ih (decoder_cell me)
  ∧ bias (V me) ≠ weight_ih (decoder_cell me).
Proof.
  unfold parameters, cell_parameters.
  intros (_ & _ & (_ & _ & (_ & _ & (_ & Hd & Hnd)%NoDup_app)%NoDup_app)%NoDup_app)%NoDup_app.
  apply NoDup_app in Hnd as (_ & _ & (HF & _ & _)%NoDup_app).
  assert (Hih : ∀ q, q ∈ [weight (W me); bias (W me); weight (V me); bias (V me)] →
                     q ≠ weight_ih (decoder_cell me)).
  { intros q Hq ->. apply (Hd (weight_ih (decoder_cell me))); [by constructor|].
    apply elem_of_app. right. apply elem_of_app. by left. }
  split_and!.
  - apply NoDup_cons in HF as [_ HF]. apply NoDup_cons in HF as [_ HF].
    apply NoDup_cons in HF as [HF _]. intros Heq. apply HF. rewrite Heq. by constructor.
  - apply Hih. rewrite !elem_of_cons. tauto.
  - apply Hih. rewrite !elem_of_cons. tauto.
Qed.

(** The tensors of the returned copy are the transferred ones. *)
Lemma with_target_vocabulary_copy σ self me new :
  objects σ !! self = Some me →
  allocated σ me →
  new ≠ target_vocabulary me →
  let Vw := mat (data σ (weight (V me))) in
  let Vb := vec (data σ (bias (V me))) in
  let ih := mat (data σ (weight_ih (decoder_cell me))) in
  let old := target_vocabulary me in
  ∃ σ' copy me1 me',
    with_target_vocabulary σ self new = Ok (σ', Some copy)
    ∧ (copy ∉ dom (objects σ))
    ∧ objects σ' !! self = Some me1
    ∧ objects σ' !! copy = Some me'
    ∧ (∀ o, o ≠ self → o ≠ copy → objects σ' !! o = objects σ !! o)
    ∧ target_vocabulary me1 = new ∧ target_vocabulary me' = new
    ∧ v_target me' = length new
    ∧ target_vocabulary_index me' = vocabulary_index new
    ∧ parameters me1 = parameters me
    ∧ Forall (λ p, p ∉ dom (tensors σ)) (parameters me')
    ∧ Forall2 (λ p p', data σ' p' = data σ' p) (parameters me1) (parameters me')
    ∧ data σ' (weight (V me1)) = T2 (new_V_weight old Vw Vb ih new)
    ∧ data σ' (bias (V me1)) = T1 (new_V_bias old Vw Vb ih new)
    ∧ data σ' (weight_ih (decoder_cell me1)) = T2 (new_decoder_ih old Vw Vb ih new)
    ∧ data σ' (weight (V me')) = T2 (new_V_weight old Vw Vb ih new)
    ∧ data σ' (bias (V me')) = T1 (new_V_bias old Vw Vb ih new)
    ∧ data σ' (weight_ih (decoder_cell me')) = T2 (new_decoder_ih old Vw Vb ih new)
    ∧ (∀ q, q ∈ dom (tensors σ) → q ∉ [weight (V me); bias (V me); weight_ih (decoder_cell me)] →
            tensors σ' !! q = tensors σ !! q).
Proof.
  intros Hself [Halloc Hnd] Hne Vw Vb ih old.
  rewrite Forall_forall in Halloc.
  destruct (with_target_vocabulary_spec σ self me new Hself Hne Halloc) as
    (σ' & copy & me1 & ρ & Hcall & Hfresh & Hobj & Htv & Hv & Hidx & HVw & HVb & Hih
       & Hps & Hframe & Hρ).
  fold Vw Vb ih old in Hframe, Hρ.
  destruct (output_parameters me) as (Hw_in & Hb_in & Hih_in).
  destruct (output_parameters_distinct me Hnd) as (Hwb & Hwi & Hbi).
  set (tensors1 := <[weight_ih (decoder_cell me) := T2 (new_decoder_ih old Vw Vb ih new)]>
      (<[bias (V me) := T1 (new_V_bias old Vw Vb ih new)]>
        (<[weight (V me) := T2 (new_V_weight old Vw Vb ih new)]> (tensors σ)))) in *.
  assert (H1w : tensors1 !! weight (V me) = Some (T2 (new_V_weight old Vw Vb ih new))).
  { subst tensors1. rewrite lookup_insert_ne by done. rewrite lookup_insert_ne by done.
    by rewrite lookup_insert_eq. }
  assert (H1b : tensors1 !! bias (V me) = Some (T1 (new_V_bias old Vw Vb ih new))).
  { subst tensors1. rewrite lookup_insert_ne by done. by rewrite lookup_insert_eq. }
  assert (H1i : tensors1 !! weight_ih (decoder_cell me)
                = Some (T2 (new_decoder_ih old Vw Vb ih new))).
  { subst tensors1. by rewrite lookup_insert_eq. }
  assert (Hdata : ∀ p, p ∈ parameters me →
            data σ' p = tensors1 !!! p ∧ data σ' (ρ !!! p) = tensors1 !!! p
            ∧ (ρ !!! p) ∉ dom (tensors σ)).
  { intros p Hp. destruct (Hρ p Hp) as (p' & Hp' & Hnot & Hd).
    rewrite (lookup_total_correct _ _ _ Hp'). unfold data.
    rewrite !lookup_total_alt, Hd, (Hframe p (Halloc p Hp)). done. }
  assert (Hself_ne : copy ≠ self).
  { intros ->. apply Hfresh, elem_of_dom. eauto. }
  exists σ', copy, me1, (rename_net ρ me1). split_and!; try done.
  - rewrite Hobj. rewrite lookup_insert_ne by done. by rewrite lookup_insert_eq.
  - rewrite Hobj. by rewrite lookup_insert_eq.
  - intros o Ho1 Ho2. rewrite Hobj. by rewrite !lookup_insert_ne.
  - rewrite parameters_rename, Hps. apply Forall_fmap, Forall_forall.
    intros p Hp. cbn. by apply Hdata.
  - rewrite parameters_rename, Hps. apply Forall2_fmap_r, Forall_Forall2_diag, Forall_forall.
    intros p Hp. destruct (Hdata p Hp) as (Hd1 & Hd2 & _). exact (eq_trans Hd2 (eq_sym Hd1)).
  - rewrite HVw. destruct (Hdata _ Hw_in) as (-> & _). by rewrite (lookup_total_correct _ _ _ H1w).
  - rewrite HVb. destruct (Hdata _ Hb_in) as (-> & _). by rewrite (lookup_total_correct _ _ _ H1b).
  - rewrite Hih. destruct (Hdata _ Hih_in) as (-> & _). by rewrite (lookup_total_correct _ _ _ H1i).
  - change (weight (V (rename_net ρ me1))) with (ρ !!! weight (V me1)). rewrite HVw.
    destruct (Hdata _ Hw_in) as (_ & Hd & _). rewrite Hd.
    by rewrite (lookup_total_correct _ _ _ H1w).
  - change (bias (V (rename_net ρ me1))) with (ρ !!! bias (V me1)). rewrite HVb.
    destruct (Hdata _ Hb_in) as (_ & Hd & _). rewrite Hd.
    by rewrite (lookup_total_correct _ _ _ H1b).
  - change (weight_ih (decoder_cell (rename_net ρ me1)))
      with (ρ !!! weight_ih (decoder_cell me1)). rewrite Hih.
    destruct (Hdata _ Hih_in) as (_ & Hd & _). rewrite Hd.
    by rewrite (lookup_total_correct _ _ _ H1i).
  - intros q Hq Hnot. rewrite (Hframe q Hq). subst tensors1.
    rewrite !not_elem_of_cons in Hnot. destruct Hnot as (? & ? & ? & _).
    by rewrite !lookup_insert_ne.
Qed.


Lemma toy_store_self : objects toy_store !! 0 = Some toy_net.
Proof. reflexivity. Qed.

Lemma toy_allocated : allocated toy_store toy_net.
Proof.
  split.
  - compute_done.
  - compute_done.
Qed.

Lemma toy_output_layer_wf : output_layer_wf toy_store toy_net.
Proof.
  unfold output_layer_wf. split_and!; [reflexivity|reflexivity|].
  unfold rect. cbn. repeat constructor.
Qed.

(** Claim C1.  After [with_target_vocabulary] with a vocabulary that differs
    from the current one, in the returned model: a token of both vocabularies
    keeps its output-projection weight row, its bias entry and its
    decoder-input weight column (those at the position [old.index(token)]);
    a token of the new vocabulary only has bias -10 and an all-zero row and
    column; the end-of-sequence row, bias and column sit last, at index
    [len(new_vocabulary)], and are the last ones of the old model. *)
Theorem with_target_vocabulary_transfers σ self me new :
  objects σ !! self = Some me →
  allocated σ me →
  output_layer_wf σ me →
  new ≠ target_vocabulary me →
  let old := target_vocabulary me in
  let Vw := mat (data σ (weight (V me))) in
  let Vb := vec (data σ (bias (V me))) in
  let ih := mat (data σ (weight_ih (decoder_cell me))) in
  ∃ σ' copy me',
    with_target_vocabulary σ self new = Ok (σ', Some copy)
    ∧ objects σ' !! copy = Some me'
    ∧ target_vocabulary me' = new
    ∧ let Vw' := mat (data σ' (weight (V me'))) in
      let Vb' := vec (data σ' (bias (V me'))) in
      let ih' := mat (data σ' (weight_ih (decoder_cell me'))) in
      (length Vw' = length new + 1 ∧ length Vb' = length new + 1
       ∧ length ih' = length ih ∧ rect (length new + 1) ih')
      ∧ (∀ i tok, new !! i = Some tok → tok ∈ old →
           ∃ j, py_index old tok = Ok j
                ∧ Vw' !! i = Vw !! j ∧ Vb' !! i = Vb !! j
                ∧ column ih' i = column ih j)
      ∧ (∀ i tok, new !! i = Some tok → tok ∉ old →
           Vw' !! i = Some (replicate (size1 Vw) 0%R)
           ∧ Vb' !! i = Some (-10)%R
           ∧ column ih' i = replicate (length ih) 0%R)
      ∧ (Vw' !! length new = last Vw ∧ Vb' !! length new = last Vb
         ∧ column ih' (length new) = column ih (length old)).
Proof.
  intros Hself Halloc (HVw & HVb & Hih) Hne old Vw Vb ih.
  destruct (with_target_vocabulary_copy σ self me new Hself Halloc Hne) as
    (σ' & copy & me1 & me' & Hcall & _ & _ & Hcopy & _ & _ & Htv & _ & _ & _ & _ & _
       & _ & _ & _ & Hw' & Hb' & Hih' & _).
  fold old Vw Vb ih in HVw, HVb, Hih, Hw', Hb', Hih'.
  exists σ', copy, me'. split_and!; [done|done|done|].
  rewrite Hw', Hb', Hih'. cbn [mat vec].
  split_and!.
  - by apply new_shapes.
  - by apply new_shapes.
  - by apply new_shapes.
  - by apply new_shapes.
  - intros i tok Hi Hin.
    destruct (new_known old new Vw Vb ih HVw HVb Hih i tok Hi Hin) as (j & ? & _ & ? & ? & ?).
    by exists j.
  - intros i tok Hi Hin. exact (new_unknown old new Vw Vb ih HVw HVb Hih i tok Hi Hin).
  - rewrite !last_lookup, HVw. replace (Init.Nat.pred (length old + 1)) with (length old) by lia.
    by apply new_eos.
  - rewrite !last_lookup, HVb. replace (Init.Nat.pred (length old + 1)) with (length old) by lia.
    by apply new_eos.
  - by apply new_eos.
Qed.

(** Claim C1 on the small network, new vocabulary [b; a]. *)
Lemma with_target_vocabulary_transfers_witness :
  ∃ σ' copy me',
    with_target_vocabulary toy_store 0 ["b"%string; "a"%string] = Ok (σ', Some copy)
    ∧ objects σ' !! copy = Some me'
    ∧ vec (data σ' (bias (V me'))) !! 0 = Some (-10)%R
    ∧ vec (data σ' (bias (V me'))) !! 1 = Some 3%R
    ∧ vec (data σ' (bias (V me'))) !! 2 = Some 4%R.
Proof.
  destruct (with_target_vocabulary_transfers toy_store 0 toy_net ["b"%string; "a"%string]
              toy_store_self toy_allocated toy_output_layer_wf ltac:(discriminate))
    as (σ' & copy & me' & Hcall & Hcopy & _ & _ & Hknown & Hunknown & _ & Heos & _).
  exists σ', copy, me'. split_and!; [done|done| | |].
  - apply (Hunknown 0 "b"%string); [reflexivity|].
    cbn. intros Hin. apply list_elem_of_singleton in Hin. discriminate.
  - destruct (Hknown 1 "a"%string) as (j & Hj & _ & Hb & _); [reflexivity|by constructor|].
    cbn in Hj. injection Hj as <-. exact Hb.
  - exact Heos.
Defined.


(** Claim C7, as amended.  [with_target_vocabulary] rewrites the receiver in
    place and returns a deep copy of the rewritten receiver: after the call
    the original holds the new vocabulary and the transferred tensors; the
    returned object and every parameter of it are fresh, so that the copy
    shares no parameter with the original, each parameter of the copy holds
    the data of the matching parameter of the original, and writing to one
    does not change the other. *)
Theorem with_target_vocabulary_copies σ self me new :
  objects σ !! self = Some me →
  allocated σ me →
  new ≠ target_vocabulary me →
  let old := target_vocabulary me in
  let Vw := mat (data σ (weight (V me))) in
  let Vb := vec (data σ (bias (V me))) in
  let ih := mat (data σ (weight_ih (decoder_cell me))) in
  ∃ σ' copy me1 me',
    with_target_vocabulary σ self new = Ok (σ', Some copy)
    ∧ copy ≠ self ∧ (copy ∉ dom (objects σ))
    ∧ objects σ' !! self = Some me1
    ∧ objects σ' !! copy = Some me'
    ∧ (∀ o, o ≠ self → o ≠ copy → objects σ' !! o = objects σ !! o)
    ∧ target_vocabulary me1 = new ∧ target_vocabulary me' = new
    ∧ parameters me1 = parameters me
    ∧ data σ' (weight (V me1)) = T2 (new_V_weight old Vw Vb ih new)
    ∧ data σ' (bias (V me1)) = T1 (new_V_bias old Vw Vb ih new)
    ∧ data σ' (weight_ih (decoder_cell me1)) = T2 (new_decoder_ih old Vw Vb ih new)
    ∧ Forall (λ p, p ∉ dom (tensors σ)) (parameters me')
    ∧ (∀ p, p ∈ parameters me' → p ∉ parameters me1)
    ∧ Forall2 (λ p p', data σ' p' = data σ' p) (parameters me1) (parameters me')
    ∧ (∀ p q t, p ∈ parameters me' → q ∈ parameters me1 →
         data (set_data σ' p t) q = data σ' q ∧ data (set_data σ' q t) p = data σ' p).
Proof.
  intros Hself Halloc Hne old Vw Vb ih.
  destruct (with_target_vocabulary_copy σ self me new Hself Halloc Hne) as
    (σ' & copy & me1 & me' & Hcall & Hfresh & Hme1 & Hcopy & Hframe & Htv1 & Htv & _ & _
       & Hps & Hnew & Hsame & Hw & Hb & Hih & _).
  destruct Halloc as [Hdom _]. rewrite Forall_forall in Hdom.
  assert (Hdisj : ∀ p, p ∈ parameters me' → p ∉ parameters me1).
  { intros p Hp Hp1. rewrite Hps in Hp1.
    by apply (proj1 (Forall_forall _ _) Hnew p Hp), Hdom. }
  exists σ', copy, me1, me'. split_and!; try done.
  - intros ->. apply Hfresh, elem_of_dom. eauto.
  - intros p q t Hp Hq.
    assert (p ≠ q) by (intros ->; by apply (Hdisj q)).
    unfold data, set_data. cbn. by rewrite !lookup_total_insert_ne.
Qed.

(** Claim C7, as amended, on the small network. *)
Lemma with_target_vocabulary_copies_witness :
  ∃ σ' copy me1 me',
    with_target_vocabulary toy_store 0 ["b"%string] = Ok (σ', Some copy)
    ∧ copy ≠ 0
    ∧ objects σ' !! 0 = Some me1 ∧ objects σ' !! copy = Some me'
    ∧ target_vocabulary me1 = ["b"%string] ∧ target_vocabulary me' = ["b"%string]
    ∧ (∀ p, p ∈ parameters me' → p ∉ parameters me1).
Proof.
  destruct (with_target_vocabulary_copies toy_store 0 toy_net ["b"%string]
              toy_store_self toy_allocated ltac:(discriminate))
    as (σ' & copy & me1 & me' & Hcall & Hne & _ & Hme1 & Hcopy & _ & Htv1 & Htv & _
          & _ & _ & _ & _ & Hdisj & _).
  exists σ', copy, me1, me'. by split_and!.
Defined.

(** Claim C7 as stated fails on the small network: after the call the
    receiver itself holds the new vocabulary. *)
Lemma original_not_preserved : ¬ original_preserved toy_store 0 ["b"%string].
Proof.
  intros Hkeep.
  destruct (with_target_vocabulary_copy toy_store 0 toy_net ["b"%string]
              toy_store_self toy_allocated ltac:(discriminate))
    as (σ' & copy & me1 & me' & Hcall & _ & Hme1 & _ & _ & Htv1 & _).
  destruct (Hkeep σ' (Some copy) toy_net Hcall toy_store_self) as (me2 & Hme2 & Htv2 & _).
  rewrite Hme1 in Hme2. injection Hme2 as <-.
  rewrite Htv1 in Htv2. discriminate.
Qed.


Section run_raw.
Context {F32 : float32} {NN : torch_nn}.

Lemma input_size_at_Raw b i j d : ¬ is_Ok (input_size_at (Raw b) i j d).
Proof.
  unfold input_size_at. intros [n Hn].
  destruct (py_nth b i) as [x|]; [|done]. cbn in Hn.
  by destruct (py_nth x j).
Qed.

Lemma not_Ok_Raise {A} (m : result A) : ¬ is_Ok m → ∃ e, m = Raise e.
Proof. destruct m as [a|e]; [intros []; by eexists|by eexists]. Qed.

(** [_run] cannot get past the size queries when it is handed a raw batch. *)
Lemma _run_Raw_raises σ self b target mode rng :
  ∃ e, _run σ self (Raw b) target mode rng = Raise e.
Proof.
  apply not_Ok_Raise. intros [r Hr]. unfold _run in Hr.
  apply bind_Ok in Hr as (? & _ & Hr).
  apply bind_Ok in Hr as (n_examples & _ & Hr).
  apply bind_Ok in Hr as (max_length_inputs & _ & Hr).
  apply bind_Ok in Hr as (batch_size & Hb & _).
  apply (input_size_at_Raw b 0 0 1). by eexists.
Qed.

Lemma sampleAndScore_raises σ self batch_inputs nRepeats rng :
  nRepeats ≠ Some 0 →
  ∃ e, sampleAndScore σ self batch_inputs nRepeats rng = Raise e.
Proof.
  intros Hn. apply not_Ok_Raise. intros [r Hr]. unfold sampleAndScore in Hr.
  apply bind_Ok in Hr as (inputs & _ & Hr).
  destruct (_run_Raw_raises σ self batch_inputs None Sample rng) as [e He].
  destruct nRepeats as [[|n]|]; [done| |].
  - apply bind_Ok in Hr as (? & Hr & _). cbn [seq for_each] in Hr.
    apply bind_Ok in Hr as (? & Hr & _).
    apply bind_Ok in Hr as (? & Hr & _). congruence.
  - apply bind_Ok in Hr as (? & Hr & _). congruence.
Qed.
End run_raw.

(** Claim C8.  On a batch of one instance [sample] returns a sequence, while
    [sampleAndScore] raises [AttributeError], both without a repeat count and
    with [nRepeats = 2]: it hands the raw batch to [_run]. *)
Theorem sampleAndScore_toy :
  @sample exact32 toy_nn toy_store toy_net toy_batch 0 = Ok [[]]
  ∧ @sampleAndScore exact32 toy_nn toy_store toy_net toy_batch None 0 = Raise AttributeError
  ∧ @sampleAndScore exact32 toy_nn toy_store toy_net toy_batch (Some 2) 0 = Raise AttributeError.
Proof. split_and!; vm_compute; reflexivity. Qed.


(** ** Sums of reals *)



(** ** Shape of the soft-max *)

Section softmax_shape.
Context {F32 : float32}.



Lemma softmax0_length scores : length (softmax0 scores) = length scores.
Proof. unfold softmax0. by rewrite length_imap. Qed.

Lemma softmax0_rect n scores : rect n scores → rect n (softmax0 scores).
Proof.
  intros Ht. unfold softmax0, rect. apply Forall_lookup_2. intros l row Hrow.
  rewrite list_lookup_imap in Hrow.
  destruct (scores !! l) as [r|] eqn:Hr; [|done]. injection Hrow as <-.
  rewrite length_imap. exact (Forall_lookup_1 _ _ _ _ Ht Hr).
Qed.

End softmax_shape.


(** ** Loops over a range *)

Lemma for_each_app {A St} (body : St → A → result St) l1 l2 s :
  for_each body s (l1 ++ l2) = s' ← for_each body s l1; for_each body s' l2.
Proof.
  revert s. induction l1 as [|a l1 IH]; intros s; [done|].
  cbn. destruct (body s a); [|done]. cbn. apply IH.
Qed.

Lemma for_each_seq_S {St} (body : St → nat → result St) s n :
  for_each body s (seq 0 (S n)) = s' ← for_each body s (seq 0 n); body s' n.
Proof.
  rewrite seq_S, for_each_app. cbn. destruct (for_each body s (seq 0 n)); [|done].
  cbn. by destruct (body a n).
Qed.

(** ** Shapes *)

Lemma foldl_zip_with_length {A} (f : A → A → A) n (ms : list (list A)) : ∀ m,
  length m = n → Forall (λ m', length m' = n) ms →
  length (foldl (zip_with f) m ms) = n.
Proof.
  induction ms as [|m' ms IH]; intros m Hm Hms; [done|].
  apply Forall_cons in Hms as [Hm' Hms]. cbn. apply IH; [|done].
  rewrite length_zip_with. lia.
Qed.

Lemma sum0_length {F32 : float32} n (ms : list xmat) :
  ms ≠ [] → Forall (λ m, length m = n) ms → length (sum0 ms) = n.
Proof.
  destruct ms as [|m ms]; [done|]. intros _ [Hm Hms]%Forall_cons. cbn.
  by apply foldl_zip_with_length.
Qed.

Lemma torch_max0_length n (ms : list xmat) :
  ms ≠ [] → Forall (λ m, length m = n) ms →
  ∃ m, torch_max0 ms = Ok m ∧ length m = n.
Proof.
  destruct ms as [|m ms]; [done|]. intros _ [Hm Hms]%Forall_cons. cbn.
  eexists. split; [done|]. by apply foldl_zip_with_length.
Qed.

Lemma linear_length {F32 : float32} w b x : length (linear w b x) = length x.
Proof. unfold linear. by rewrite length_fmap. Qed.

Lemma linear_rect {F32 : float32} w b x : rect (length w `min` length b) (linear w b x).
Proof.
  unfold linear, rect, of_vec. apply Forall_fmap, Forall_forall. intros xr _. cbn.
  by rewrite length_zip_with, !length_fmap.
Qed.

Lemma log_softmax1_length {F32 : float32} x : length (log_softmax1 x) = length x.
Proof. unfold log_softmax1. by rewrite length_fmap. Qed.

Lemma log_softmax1_rect {F32 : float32} n x : rect n x → rect n (log_softmax1 x).
Proof.
  intros Hx. unfold log_softmax1, rect. apply Forall_fmap.
  eapply Forall_impl; [exact Hx|]. intros row Hrow. cbn.
  unfold log_softmax_vec. by rewrite length_fmap.
Qed.

(** ** [choose] *)

Lemma concat_rect_lookup {A} C (m : list (list A)) b row i :
  rect C m → m !! b = Some row → i < C →
  concat m !! (b * C + i) = row !! i.
Proof.
  intros Hm. revert b. induction Hm as [|r m Hr _ IH]; intros b Hb Hi; [done|].
  cbn. destruct b as [|b]; cbn in *.
  - injection Hb as ->. rewrite lookup_app_l by lia. done.
  - rewrite lookup_app_r by lia. rewrite <-(IH b Hb Hi). f_equal. lia.
Qed.

Lemma concat_rect_length {A} C (m : list (list A)) :
  rect C m → length (concat m) = length m * C.
Proof.
  induction 1 as [|r m Hr _ IH]; [done|]. cbn. rewrite length_app. lia.
Qed.

Lemma choose_selected C (matrix : xmat) (idxs : list Z) :
  rect C matrix → length idxs = length matrix →
  Forall (λ x, 0 ≤ x < Z.of_nat C)%Z idxs →
  choose matrix idxs = Ok ((λ b, selected matrix idxs b) <$> seq 0 (length matrix)).
Proof.
  intros Hm Hlen Hidx. unfold choose.
  destruct matrix as [|row0 matrix'] eqn:Hmat.
  { destruct idxs; [done|done]. }
  rewrite <-Hmat in *.
  assert (HC : size1 matrix = C).
  { rewrite Hmat. unfold size1. cbn. rewrite Hmat in Hm. by apply Forall_cons in Hm as [? _]. }
  rewrite HC. clear Hmat row0 matrix'.
  assert (Hseq : zip_with (λ x a, x + a * Z.of_nat C)%Z idxs (Z.of_nat <$> seq 0 (length matrix))
                 = (λ b, (idxs !!! b) + Z.of_nat b * Z.of_nat C)%Z <$> seq 0 (length matrix)).
  { apply list_eq. intros b. rewrite lookup_zip_with, !list_lookup_fmap.
    destruct (decide (b < length matrix)) as [Hb|Hb].
    - rewrite lookup_seq_lt by done. cbn.
      destruct (lookup_lt_is_Some_2 idxs b ltac:(lia)) as [x Hx].
      by rewrite Hx, (list_lookup_total_correct _ _ _ Hx).
    - rewrite lookup_seq_ge by lia. cbn.
      by rewrite (lookup_ge_None_2 idxs) by lia. }
  rewrite Hseq.
  set (f := λ u, if decide (0 ≤ u < Z.of_nat (length (concat matrix)))%Z
                 then Ok (concat matrix !!! Z.to_nat u) else Raise IndexError).
  assert (Hgen : ∀ l, Forall (λ b, b < length matrix) l →
            mapM f ((λ b, (idxs !!! b) + Z.of_nat b * Z.of_nat C)%Z <$> l)
            = Ok ((λ b, selected matrix idxs b) <$> l)).
  { induction 1 as [|b l Hb _ IH]; [done|].
    cbn [fmap list_fmap mapM]. rewrite IH.
    destruct (lookup_lt_is_Some_2 idxs b ltac:(lia)) as [x Hx].
    destruct (lookup_lt_is_Some_2 matrix b Hb) as [row Hrow].
    pose proof (Forall_lookup_1 _ _ _ _ Hidx Hx) as Hxr. cbn in Hxr.
    pose proof (concat_rect_length _ _ Hm) as Hflat.
    rewrite (list_lookup_total_correct _ _ _ Hx).
    unfold f at 1. rewrite decide_True by nia.
    cbn. do 2 f_equal. unfold selected.
    rewrite (list_lookup_total_correct _ _ _ Hx), (list_lookup_total_correct _ _ _ Hrow).
    replace (Z.to_nat (x + Z.of_nat b * Z.of_nat C)) with (b * C + Z.to_nat x) by nia.
    pose proof (concat_rect_lookup C matrix b row (Z.to_nat x) Hm Hrow ltac:(lia)) as Hc.
    pose proof (Forall_lookup_1 _ _ _ _ Hm Hrow) as Hrl. cbn in Hrl.
    destruct (lookup_lt_is_Some_2 row (Z.to_nat x) ltac:(lia)) as [y Hy].
    rewrite Hy in Hc.
    by rewrite (list_lookup_total_correct _ _ _ Hc), (list_lookup_total_correct _ _ _ Hy). }
  apply Hgen. apply Forall_forall. intros b Hb%elem_of_seq. lia.
Qed.


Lemma Forall_zip_with2 {A B C} (f : A → B → C) (P : A → Prop) (Q : B → Prop)
    (R : C → Prop) l1 l2 :
  Forall P l1 → Forall Q l2 → (∀ x y, P x → Q y → R (f x y)) →
  Forall R (zip_with f l1 l2).
Proof.
  intros H1 H2 Hf. revert l2 H2. induction H1 as [|x l1 Hx _ IH]; intros l2 H2; [constructor|].
  destruct H2 as [|y l2 Hy H2]; [constructor|]. cbn. constructor; [by apply Hf|by apply IH].
Qed.

Lemma zip_with_nonempty {A B C} (f : A → B → C) l1 l2 :
  l1 ≠ [] → l2 ≠ [] → zip_with f l1 l2 ≠ [].
Proof. by destruct l1, l2. Qed.

Section attend_shape.
Context {F32 : float32} {NN : torch_nn}.
Variables (σ : store) (self : net).

Lemma attention_weights_rows A Hs mask h B :
  rect B Hs → rect B mask → length h = B →
  rect B (attention_weights A Hs mask h)
  ∧ (Hs ≠ [] → mask ≠ [] → attention_weights A Hs mask h ≠ []).
Proof.
  intros HHs Hmask Hh. unfold attention_weights. split.
  - apply softmax0_rect. unfold attention_scores.
    eapply (Forall_zip_with2 _ _ _ _ _ _ HHs Hmask).
    intros Hl ml HHl Hml. cbn in *.
    rewrite !length_zip_with. lia.
  - intros Hne1 Hne2 Hw. apply (f_equal length) in Hw.
    rewrite softmax0_length in Hw. unfold attention_scores in Hw.
    destruct Hs, mask; done.
Qed.

(** The context vector has one row per batch element. *)
Lemma attend_length e i j h B :
  i ≠ 0 →
  (H e !!! (i - 1)) !!! j ≠ [] → (attention_mask e !!! (i - 1)) !!! j ≠ [] →
  rect B ((H e !!! (i - 1)) !!! j) → rect B ((attention_mask e !!! (i - 1)) !!! j) →
  length h = B →
  ∃ c, attend σ self e i j h = Ok c ∧ length c = B.
Proof.
  intros Hi HHne Hmne HHs Hmask Hh. unfold attend.
  rewrite decide_False by done. eexists. split; [reflexivity|].
  destruct (attention_weights_rows (mat (data σ (As self !!! (i - 1))))
              _ _ h B HHs Hmask Hh) as [Hw Hwne].
  apply sum0_length.
  - apply zip_with_nonempty; [by apply Hwne|done].
  - eapply (Forall_zip_with2 _ _ _ _ _ _ Hw HHs).
    intros wl Hl Hwl HHl. cbn in *. rewrite length_zip_with. lia.
Qed.

Lemma attend_is_Ok e i j h : i ≠ 0 → is_Ok (attend σ self e i j h).
Proof. intros Hi. unfold attend. rewrite decide_False by done. by eexists. Qed.
End attend_shape.


Lemma mapM_Ok_Forall {A B} (f : A → result B) (P : B → Prop) (l : list A) :
  Forall (λ x, ∃ y, f x = Ok y ∧ P y) l →
  ∃ k, mapM f l = Ok k ∧ length k = length l ∧ Forall P k.
Proof.
  induction 1 as [|x l (y & Hy & HP) _ (k & Hk & Hlen & HPk)].
  - exists []. by split_and!.
  - exists (y :: k). cbn. rewrite Hy. cbn. rewrite Hk. cbn.
    split_and!; [done|by f_equal|by constructor].
Qed.

Section decoder.
Context {F32 : float32} {NN : torch_nn}.
Variables (σ : store) (self : net) (e : encoded) (n_examples B : nat).
Hypothesis Hcell : cell_keeps_batch.
Hypothesis Hready : decoder_ready σ self e n_examples B.

Lemma decoder_features_shape states :
  length states = n_examples →
  Forall (λ st, length (_cell_get_h st) = B) states →
  ∃ FC, decoder_features σ self e n_examples states = Ok FC
        ∧ length FC = n_examples ∧ Forall (λ m, length m = B) FC.
Proof using Hready.
  intros Hlen Hst. destruct Hready as (Hne & Hn & _ & _ & Hctx).
  unfold decoder_features.
  destruct (mapM_Ok_Forall
    (λ j, let h := _cell_get_h (states !!! j) in
          c ← attend σ self e (n_encoders self) j h;
          let p_aug := zip_with app h c in
          Ok ((λ row : xvec, tanh_f <$> row)
                <$> linear (mat (data σ (weight (W self))))
                      (vec (data σ (bias (W self)))) p_aug))
    (λ m, length m = B) (seq 0 n_examples)) as (FC & HFC & HFClen & HFCB).
  - apply Forall_forall. intros j Hj%elem_of_seq. cbn zeta.
    destruct (Hctx j ltac:(lia)) as (H1 & H2 & H3 & H4 & _).
    destruct (lookup_lt_is_Some_2 states j ltac:(lia)) as [st Hstj].
    pose proof (Forall_lookup_1 _ _ _ _ Hst Hstj) as Hh. cbn in Hh.
    rewrite (list_lookup_total_correct _ _ _ Hstj).
    destruct (attend_length σ self e (n_encoders self) j (_cell_get_h st) B
                Hne H1 H2 H3 H4 Hh) as (c & -> & Hc).
    cbn. eexists. split; [reflexivity|].
    rewrite length_fmap, linear_length, length_zip_with. lia.
  - exists FC. rewrite length_seq in HFClen. by split_and!.
Qed.

Lemma decoder_logsoftmax_shape states :
  length states = n_examples →
  Forall (λ st, length (_cell_get_h st) = B) states →
  ∃ lp C, decoder_logsoftmax σ self e n_examples states = Ok lp
          ∧ length lp = B ∧ rect C lp ∧ v_target self < C.
Proof using Hready.
  intros Hlen Hst.
  destruct (decoder_features_shape states Hlen Hst) as (FC & HFC & HFClen & HFCB).
  destruct Hready as (_ & Hn & HVw & HVb & _).
  destruct (torch_max0_length B FC) as (m & Hm & Hmlen); [intros ->; cbn in *; lia|done|].
  unfold decoder_logsoftmax, decoder_pooled. rewrite HFC. cbn. rewrite Hm. cbn.
  eexists _, _. split; [reflexivity|]. split_and!.
  - by rewrite log_softmax1_length, linear_length.
  - apply log_softmax1_rect, linear_rect.
  - lia.
Qed.

(** The loop over the examples that feeds the token to every decoder cell. *)
Lemma decoder_states_loop (ts : list xmat) k m : ∀ a states,
  a + m = length states →
  length (ts !!! k) = B →
  Forall (λ st, length (_cell_get_h st) = B) (take a states) →
  ∃ states',
    for_each (λ states j,
        target_char_scatter ← Ok (ts !!! k);
        Ok (<[j := run_cell σ self (decoder_cell self) target_char_scatter (states !!! j)]> states))
      states (seq a m) = Ok states'
    ∧ length states' = length states
    ∧ Forall (λ st, length (_cell_get_h st) = B) states'.
Proof using Hcell.
  induction m as [|m IH]; intros a states Ha Hts Hst.
  - exists states. split_and!; [done|done|]. by rewrite firstn_all2 in Hst by lia.
  - cbn [seq for_each]. cbn [mbind result_bind].
    set (st' := run_cell σ self (decoder_cell self) (ts !!! k) (states !!! a)).
    destruct (IH (S a) (<[a := st']> states)) as (states' & Hloop & Hlen' & Hst').
    + rewrite length_insert. lia.
    + done.
    + destruct (lookup_lt_is_Some_2 states a ltac:(lia)) as [st0 Hst0].
      rewrite (take_S_r _ _ st'); [|by rewrite list_lookup_insert_eq by lia].
      rewrite take_insert_ge by lia.
      apply Forall_app. split; [done|]. repeat constructor.
      subst st'. unfold run_cell. by rewrite Hcell.
    + exists states'. split_and!; [done| |done]. by rewrite Hlen', length_insert.
Qed.
End decoder.


Lemma one_hot_Ok n x :
  (0 ≤ x < Z.of_nat n)%Z → ∃ v, one_hot n x = Ok v.
Proof. intros Hx. unfold one_hot. rewrite decide_True by done. by eexists. Qed.

Lemma scatter_ready self target B :
  target_ready self target B →
  ∃ ts, scatter (v_target self + 1) target = Ok ts
        ∧ length ts = length target
        ∧ ∀ k, k < length target → length (ts !!! k) = B.
Proof.
  intros [Hrect Hids]. unfold scatter.
  destruct (mapM_Ok_Forall (mapM (one_hot (v_target self + 1)))
              (λ m, length m = B) target) as (ts & Hts & Hlen & HB).
  - apply Forall_forall. intros row Hrow.
    pose proof (proj1 (Forall_forall _ _) Hrect row Hrow) as Hl. cbn in Hl.
    pose proof (proj1 (Forall_forall _ _) Hids row Hrow) as Hr. cbn in Hr.
    destruct (mapM_Ok_Forall (one_hot (v_target self + 1)) (λ _, True) row)
      as (m & Hm & Hmlen & _).
    + eapply Forall_impl; [exact Hr|]. intros x Hx. cbn in Hx.
      destruct (one_hot_Ok (v_target self + 1) x ltac:(lia)) as [v Hv]. eauto.
    + exists m. split; [done|]. lia.
  - exists ts. split_and!; [done|done|].
    intros k Hk. destruct (lookup_lt_is_Some_2 ts k ltac:(lia)) as [m Hm].
    rewrite (list_lookup_total_correct _ _ _ Hm).
    by apply (Forall_lookup_1 _ _ _ _ HB Hm).
Qed.

Section decoder_step.
Context {F32 : float32} {NN : torch_nn}.
Variables (σ : store) (self : net) (e : encoded) (n_examples B : nat).
Variables (target : ltensor) (ts : list xmat).
Hypothesis Hcell : cell_keeps_batch.
Hypothesis Hready : decoder_ready σ self e n_examples B.
Hypothesis Htarget : target_ready self target B.
Hypothesis Hts : ∀ k, k < length target → length (ts !!! k) = B.

(** One timestep in score mode. *)
Lemma decoder_step_score s k :
  decoder_inv target n_examples B s → k < length target →
  ∃ lp s',
    decoder_logsoftmax σ self e n_examples (dec_states s) = Ok lp
    ∧ decoder_step σ self e n_examples Score (Some ts) s k = Ok s'
    ∧ decoder_inv target n_examples B s'
    ∧ dec_score s' =
        zip_with fadd (dec_score s)
          (zip_with fmul ((λ b, selected lp (target !!! k) b) <$> seq 0 B)
                    (byte_float <$> dec_active s))
    ∧ dec_active s' =
        zip_with byte_mul (dec_active s) (ne_byte (v_target self) <$> (target !!! k)).
Proof using Hcell Hready Htarget Hts.
  intros (Htgt & Hscore & Hact & Hnst & Hst) Hk.
  destruct (decoder_logsoftmax_shape σ self e n_examples B Hready (dec_states s) Hnst Hst)
    as (lp & C & Hlp & Hlplen & Hlprect & HC).
  destruct Htarget as [Hrect Hids].
  destruct (lookup_lt_is_Some_2 target k Hk) as [row Hrow].
  pose proof (Forall_lookup_1 _ _ _ _ Hrect Hrow) as Hrowlen. cbn in Hrowlen.
  pose proof (Forall_lookup_1 _ _ _ _ Hids Hrow) as Hrowids. cbn in Hrowids.
  assert (Hchoose : choose lp (target !!! k)
                    = Ok ((λ b, selected lp (target !!! k) b) <$> seq 0 B)).
  { rewrite <-Hlplen. apply (choose_selected C); [done| |].
    - rewrite (list_lookup_total_correct _ _ _ Hrow). lia.
    - rewrite (list_lookup_total_correct _ _ _ Hrow).
      eapply Forall_impl; [exact Hrowids|]. intros x Hx. cbn in Hx. lia. }
  destruct (decoder_states_loop σ self B Hcell ts k n_examples 0 (dec_states s))
    as (states' & Hloop & Hlen' & Hst'); [lia|by apply Hts|by rewrite take_0|].
  exists lp. eexists. split; [done|].
  unfold decoder_step. rewrite Hlp. cbn [mbind result_bind].
  rewrite Htgt, Hchoose. cbn [mbind result_bind].
  split.
  - cbn [mbind result_bind] in Hloop. rewrite Hloop. cbn [mbind result_bind]. reflexivity.
  - split_and!; cbn.
    + split_and!; cbn; [done| | |lia|done].
      * rewrite !length_zip_with, !length_fmap, length_seq. lia.
      * rewrite length_zip_with, length_fmap.
        rewrite (list_lookup_total_correct _ _ _ Hrow). lia.
    + done.
    + done.
Qed.
End decoder_step.


Section float_values.
Context {F32 : float32}.
Hypothesis Hrnd : rnd_stable.

Lemma rnd_float_value x : float_value (rnd x).
Proof using Hrnd. destruct (rnd x) eqn:Hx; cbn; [|done..]. by apply (proj2 Hrnd x). Qed.

Lemma fadd_float_value x y : float_value (fadd x y).
Proof using Hrnd. destruct x, y; cbn; try done. apply rnd_float_value. Qed.

Lemma fsub_float_value x y : float_value (fsub x y).
Proof using Hrnd. apply fadd_float_value. Qed.

Lemma fadd_0_r x : float_value x → fadd x (Fin 0) = x.
Proof using Hrnd. destruct x; cbn; try done. by rewrite Rplus_0_r. Qed.

Lemma fadd_0_l x : float_value x → fadd (Fin 0) x = x.
Proof using Hrnd. destruct x; cbn; try done. by rewrite Rplus_0_l. Qed.

Lemma fmul_1_r x : float_value x → fmul x (Fin 1) = x.
Proof using Hrnd.
  destruct x; cbn; try done.
  - by rewrite Rmult_1_r.
  - intros _. rewrite decide_False by lra. by rewrite bool_decide_true by lra.
  - intros _. rewrite decide_False by lra. by rewrite bool_decide_false by lra.
Qed.

Lemma fmul_0_r x : is_finite x → fmul x (Fin 0) = Fin 0.
Proof using Hrnd. intros [r ->]. cbn. rewrite Rmult_0_r. apply Hrnd. Qed.

Lemma fsum_snoc l x : fsum (l ++ [x]) = fadd (fsum l) x.
Proof using Type. unfold fsum. by rewrite foldl_app. Qed.

Lemma fsum_seq_S (f : nat → xreal) n :
  fsum (f <$> seq 0 (S n)) = fadd (fsum (f <$> seq 0 n)) (f n).
Proof using Type.
  rewrite seq_S, fmap_app. change (f <$> [0 + n]) with [f n]. apply fsum_snoc.
Qed.

Lemma log_softmax1_float_value x : Forall (Forall float_value) (log_softmax1 x).
Proof using Hrnd.
  unfold log_softmax1, log_softmax_vec. apply Forall_fmap, Forall_forall.
  intros row _. cbn. apply Forall_fmap, Forall_forall. intros a _. cbn.
  apply fsub_float_value.
Qed.

Lemma selected_float_value m t b :
  Forall (Forall float_value) m → float_value (selected m t b).
Proof using Type.
  intros Hm. unfold selected. rewrite !list_lookup_total_alt.
  destruct (m !! b) as [row|] eqn:Hrow; cbn; [|done].
  destruct (row !! _) as [x|] eqn:Hx; cbn; [|done].
  exact (Forall_lookup_1 _ _ _ _ (Forall_lookup_1 _ _ _ _ Hm Hrow) Hx).
Qed.
End float_values.

(** Without an operand that is NaN or an infinity of the wrong sign, the
    product of minus infinity and the flag 0 is NaN. *)
Lemma fmul_NInf_0 {F32 : float32} : fmul NInf (Fin 0) = NaN.
Proof. cbn. by rewrite decide_True. Qed.

Lemma exact32_stable : @rnd_stable exact32.
Proof. split; [done|]. cbn. by intros x y [= ->]. Qed.


(** ** Powers of [1 + u] and [1 - u] *)



Lemma pow_1mu_unit u n : (0 <= u < 1)%R → (0 < (1 - u) ^ n <= 1)%R.
Proof.
  intros Hu. induction n as [|n IH]; cbn; [lra|].
  split; [apply Rmult_lt_0_compat; lra|]. nra.
Qed.

Lemma pow_1mu_step u n : (0 <= u < 1)%R → ((1 - u) ^ S n <= (1 - u) ^ n)%R.
Proof. intros Hu. pose proof (pow_1mu_unit u n Hu). cbn. nra. Qed.




Lemma Rabs_le_between a b : (Rabs a <= b)%R → (- b <= a <= b)%R.
Proof. unfold Rabs. destruct (Rcase_abs a); lra. Qed.

Section rounding.
Context {F32 : float32}.
Variables (u eta big : R).
Hypothesis Hlaws : rnd_laws u eta big.


End rounding.


(** ** The running maximum *)






Section softmax.
Context {F32 : float32}.
Variables (u eta big : R).
Hypothesis Hlaws : rnd_laws u eta big.

(** ** The shifted exponentials lie in [[0, 1]] *)



(** ** The quotient by the sum *)

End softmax.





Section normalised.
Context {F32 : float32}.
Variables (u eta big : R).
Hypothesis Hlaws : rnd_laws u eta big.

End normalised.




Lemma flag_before_bit v target b k :
  flag_before v target b k = 0%Z ∨ flag_before v target b k = 1%Z.
Proof.
  induction k as [|k IH]; [by right|]. cbn. unfold byte_mul, ne_byte.
  destruct (decide _); destruct IH as [-> | ->]; cbn; auto.
Qed.

Lemma flag_before_one v target b k :
  (∀ k', k' < k → (target !!! k') !!! b ≠ Z.of_nat v) → flag_before v target b k = 1%Z.
Proof.
  induction k as [|k IH]; intros Hk; [done|]. cbn.
  rewrite IH by (intros; apply Hk; lia).
  unfold ne_byte. rewrite decide_True by (apply Hk; lia). done.
Qed.

Lemma flag_before_zero v target b k0 k :
  (target !!! k0) !!! b = Z.of_nat v → k0 < k → flag_before v target b k = 0%Z.
Proof.
  intros Heos Hk. induction k as [|k IH]; [lia|]. cbn.
  destruct (decide (k = k0)) as [->|Hne].
  - unfold ne_byte. rewrite decide_False by (intros Hn; by apply Hn).
    unfold byte_mul. by rewrite Z.mul_0_r.
  - by rewrite IH by lia.
Qed.

Section decoder_trace.
Context {F32 : float32} {NN : torch_nn}.
Variables (σ : store) (self : net) (e : encoded) (n_examples B : nat).
Variables (target : ltensor) (ts : list xmat) (rng : nat).
Hypothesis Hcell : cell_keeps_batch.
Hypothesis Hready : decoder_ready σ self e n_examples B.
Hypothesis Htarget : target_ready self target B.
Hypothesis Hts : ∀ k, k < length target → length (ts !!! k) = B.

Local Abbreviation s0 := (decoder_init σ self e n_examples B target rng).
Local Abbreviation after := (decoder_after σ self e n_examples Score (Some ts) s0).
Local Abbreviation lp_at := (logprob_at σ self e n_examples Score (Some ts) s0).

Lemma decoder_init_inv : decoder_inv target n_examples B s0.
Proof using Hready.
  destruct Hready as (_ & _ & _ & _ & Hctx).
  unfold decoder_inv, decoder_init. cbn.
  rewrite !length_replicate, length_fmap, length_seq. split_and!; try done.
  apply Forall_fmap, Forall_forall. intros j Hj%elem_of_seq. cbn.
  destruct (Hctx j ltac:(lia)) as (_ & _ & _ & _ & Hemb).
  unfold _decoder_get_init. by destruct (cell_type self).
Qed.

Lemma decoder_trace k :
  k ≤ length target →
  ∃ s, after k = Ok s
       ∧ decoder_inv target n_examples B s
       ∧ ∀ b, b < B →
           dec_active s !! b = Some (flag_before (v_target self) target b k)
           ∧ dec_score s !! b = Some (running σ self e n_examples B target ts rng b k).
Proof using Hcell Hready Htarget Hts.
  induction k as [|k IH]; intros Hk.
  - exists s0. split_and!; [done|apply decoder_init_inv|].
    intros b Hb. cbn. by rewrite !lookup_replicate_2.
  - destruct (IH ltac:(lia)) as (s & Hs & Hinv & Hb).
    destruct (decoder_step_score σ self e n_examples B target ts Hcell Hready Htarget Hts
                s k Hinv ltac:(lia)) as (lp & s' & Hlp & Hstep & Hinv' & Hscore & Hact).
    exists s'. split_and!; [|done|].
    + unfold decoder_after in *. rewrite for_each_seq_S, Hs. exact Hstep.
    + intros b Hbb. destruct (Hb b Hbb) as [Hab Hsb].
      destruct Htarget as [Hrect _].
      destruct (lookup_lt_is_Some_2 target k ltac:(lia)) as [row Hrow].
      pose proof (Forall_lookup_1 _ _ _ _ Hrect Hrow) as Hrowlen. cbn in Hrowlen.
      destruct (lookup_lt_is_Some_2 row b ltac:(lia)) as [t Ht].
      split.
      * cbn [flag_before].
        rewrite Hact, lookup_zip_with, Hab, list_lookup_fmap.
        rewrite (list_lookup_total_correct _ _ _ Hrow), Ht.
        by rewrite (list_lookup_total_correct _ _ _ Ht).
      * cbn [running].
        rewrite Hscore, lookup_zip_with, Hsb, lookup_zip_with, !list_lookup_fmap.
        rewrite lookup_seq_lt by done. rewrite Hab.
        unfold logprob_at. rewrite Hs, Hlp.
        destruct Hinv as (-> & _). done.
Qed.
End decoder_trace.


Section score_mode.
Context {F32 : float32} {NN : torch_nn}.
Variables (σ : store) (self : net) (e : encoded) (n_examples B : nat).
Variables (target : ltensor) (rng : nat).
Hypothesis Hrnd : rnd_stable.
Hypothesis Hcell : cell_keeps_batch.
Hypothesis Hready : decoder_ready σ self e n_examples B.
Hypothesis Htarget : target_ready self target B.

Local Abbreviation s0 := (decoder_init σ self e n_examples B target rng).

Lemma logprob_at_float_value mode ts s k b :
  float_value (logprob_at σ self e n_examples mode ts s k b).
Proof using Hrnd.
  unfold logprob_at. destruct (decoder_after _ _ _ _ _ _ _ _) as [s'|]; [|done].
  unfold decoder_logsoftmax.
  destruct (decoder_pooled _ _ _ _ _) as [m|]; [|done]. cbn.
  apply selected_float_value, log_softmax1_float_value, Hrnd.
Qed.

Lemma running_float_value ts b k :
  float_value (running σ self e n_examples B target ts rng b k).
Proof using Hrnd.
  destruct k as [|k]; cbn [running]; [apply Hrnd|]. by apply fadd_float_value.
Qed.

(** Up to the first end-of-sequence id the running score is the float sum,
    from the left, of the selected log-probabilities. *)
Lemma running_sum ts b pos k :
  (∀ k', k' < pos → (target !!! k') !!! b ≠ Z.of_nat (v_target self)) →
  k ≤ pos + 1 →
  running σ self e n_examples B target ts rng b k =
  fsum ((λ k', logprob_at σ self e n_examples Score (Some ts) s0 k' b) <$> seq 0 k).
Proof using Hrnd.
  intros Hpos. induction k as [|k IH]; intros Hk; [done|].
  rewrite fsum_seq_S. cbn [running]. rewrite IH by lia.
  rewrite flag_before_one by (intros; apply Hpos; lia).
  unfold byte_float. by rewrite fmul_1_r by (done || apply logprob_at_float_value).
Qed.

(** A masked timestep whose selected log-probability is finite adds 0. *)
Lemma running_frozen ts b k0 k :
  (target !!! k0) !!! b = Z.of_nat (v_target self) → k0 < k →
  is_finite (logprob_at σ self e n_examples Score (Some ts) s0 k b) →
  running σ self e n_examples B target ts rng b (S k)
  = running σ self e n_examples B target ts rng b k.
Proof using Hrnd.
  intros Heos Hk Hfin. cbn [running].
  rewrite (flag_before_zero _ _ _ k0) by done. unfold byte_float.
  rewrite fmul_0_r by done. apply fadd_0_r; [done|apply running_float_value].
Qed.

(** A masked timestep whose selected log-probability is minus infinity
    turns the running score into NaN. *)
Lemma running_NaN ts b k0 k :
  (target !!! k0) !!! b = Z.of_nat (v_target self) → k0 < k →
  logprob_at σ self e n_examples Score (Some ts) s0 k b = NInf →
  running σ self e n_examples B target ts rng b (S k) = NaN.
Proof using Type.
  intros Heos Hk Hlp. cbn [running].
  rewrite (flag_before_zero _ _ _ k0) by done. unfold byte_float.
  rewrite Hlp, fmul_NInf_0. by destruct (running _ _ _ _ _ _ _ _ _ _).
Qed.

Lemma running_frozen_from ts b k0 k :
  (target !!! k0) !!! b = Z.of_nat (v_target self) → k0 < k →
  (∀ k', k0 < k' < k →
     is_finite (logprob_at σ self e n_examples Score (Some ts) s0 k' b)) →
  running σ self e n_examples B target ts rng b k
  = running σ self e n_examples B target ts rng b (S k0).
Proof using Hrnd.
  intros Heos Hk. induction k as [|k IH]; [lia|]. intros Hfin.
  destruct (decide (k = k0)) as [->|Hne]; [done|].
  rewrite (running_frozen ts b k0 k) by (done || lia || apply Hfin; lia).
  apply IH; [lia|]. intros k' Hk'. apply Hfin. lia.
Qed.

(** The decoder loop in score mode runs to its end and leaves the running
    scores in [dec_score]. *)
Lemma decoder_score_running :
  ∃ ts s,
    scatter (v_target self + 1) target = Ok ts
    ∧ for_each (decoder_step σ self e n_examples Score (Some ts)) s0
        (seq 0 (length target)) = Ok s
    ∧ dec_target s = target
    ∧ (∀ b, b < B →
         dec_score s !! b
         = Some (running σ self e n_examples B target ts rng b (length target)))
    ∧ ∀ k, k < length target →
        ∃ s1 s2,
          decoder_after σ self e n_examples Score (Some ts) s0 k = Ok s1
          ∧ decoder_step σ self e n_examples Score (Some ts) s1 k = Ok s2
          ∧ ∀ b, b < B →
              dec_score s1 !! b = Some (running σ self e n_examples B target ts rng b k)
              ∧ dec_score s2 !! b
                = Some (running σ self e n_examples B target ts rng b (S k)).
Proof using Hcell Hready Htarget.
  destruct (scatter_ready self target B Htarget) as (ts & Hscatter & _ & Hts).
  destruct (decoder_trace σ self e n_examples B target ts rng Hcell Hready Htarget Hts
              (length target) ltac:(lia)) as (s & Hs & Hinv & Hsb).
  exists ts, s. split_and!; [done|exact Hs|by destruct Hinv| |].
  - intros b Hb. by destruct (Hsb b Hb).
  - intros k Hk.
    destruct (decoder_trace σ self e n_examples B target ts rng Hcell Hready Htarget Hts
                k ltac:(lia)) as (s1 & Hs1 & Hinv1 & Hsb1).
    destruct (decoder_trace σ self e n_examples B target ts rng Hcell Hready Htarget Hts
                (S k) ltac:(lia)) as (s2 & Hs2 & Hinv2 & Hsb2).
    exists s1, s2. split_and!; [exact Hs1| |].
    + unfold decoder_after in Hs1, Hs2. rewrite for_each_seq_S, Hs1 in Hs2. exact Hs2.
    + intros b Hb. split; [by destruct (Hsb1 b Hb)|by destruct (Hsb2 b Hb)].
Qed.
End score_mode.


(** Claim C4.  With one example ([n_examples = 1]) the pooled feature matrix
    [m] of the decoder is the feature matrix of that example, whatever the
    decoder state, hence at every timestep and for every batch element. *)
Theorem pooling_single_example {F32 : float32} σ self e states :
  n_encoders self ≠ 0 →
  ∃ fc, decoder_features σ self e 1 states = Ok [fc]
        ∧ decoder_pooled σ self e 1 states = Ok fc.
Proof.
  intros Hne. unfold decoder_pooled, decoder_features. cbn [seq mapM].
  destruct (attend_is_Ok σ self e (n_encoders self) 0 (_cell_get_h (states !!! 0)) Hne)
    as [c Hc].
  rewrite Hc. cbn. eexists. split; reflexivity.
Qed.

(** ** The active masks *)

Lemma mask_row_lookup v inputs B r b :
  rect B inputs → r ≤ length inputs → b < B →
  mask_row v inputs B r !! b = Some (flag_before v inputs b r).
Proof.
  intros Hrect. induction r as [|r IH]; intros Hr Hb.
  - cbn. by rewrite lookup_replicate_2.
  - cbn [mask_row flag_before]. rewrite lookup_zip_with, IH by lia. cbn.
    destruct (lookup_lt_is_Some_2 inputs r ltac:(lia)) as [row Hrow].
    pose proof (Forall_lookup_1 _ _ _ _ Hrect Hrow) as Hl. cbn in Hl.
    destruct (lookup_lt_is_Some_2 row b ltac:(lia)) as [t Ht].
    rewrite (list_lookup_total_correct _ _ _ Hrow), list_lookup_fmap, Ht. cbn.
    by rewrite (list_lookup_total_correct _ _ _ Ht).
Qed.

Lemma mask_row_length v inputs B r :
  rect B inputs → r ≤ length inputs → length (mask_row v inputs B r) = B.
Proof.
  intros Hrect. induction r as [|r IH]; intros Hr; cbn.
  - by rewrite length_replicate.
  - rewrite length_zip_with, IH, length_fmap by lia.
    destruct (lookup_lt_is_Some_2 inputs r ltac:(lia)) as [row Hrow].
    pose proof (Forall_lookup_1 _ _ _ _ Hrect Hrow) as Hl. cbn in Hl.
    rewrite (list_lookup_total_correct _ _ _ Hrow). lia.
Qed.

Lemma flag_before_step v target b k :
  flag_before v target b (S k) ≠ 0%Z
  ↔ flag_before v target b k ≠ 0%Z ∧ (target !!! k) !!! b ≠ Z.of_nat v.
Proof.
  cbn. unfold byte_mul, ne_byte.
  destruct (flag_before_bit v target b k) as [-> | ->];
    destruct (decide _); cbn; split; try tauto; try lia.
Qed.

Lemma flag_before_mono v target b k k' :
  k ≤ k' → flag_before v target b k = 0%Z → flag_before v target b k' = 0%Z.
Proof.
  intros Hk H0. induction Hk as [|k' _ IH]; [done|].
  cbn. rewrite IH. unfold byte_mul. done.
Qed.

Section encoder_mask.
Context {F32 : float32} {NN : torch_nn}.
Variables (σ : store) (self : net) (e : encoded) (i j : nat).
Variables (inputs_ij : ltensor) (scatter_ij : list xmat) (B : nat).
Hypothesis Hrect : rect B inputs_ij.

Local Abbreviation L := (length inputs_ij).
Local Abbreviation v := (v_inputs self !!! i).

Lemma encoder_step_active s k :
  ∃ s', encoder_step σ self e i j inputs_ij scatter_ij L s k = Ok s'
    ∧ enc_active s' =
        if decide (k + 1 < L)
        then <[k + 1 := zip_with byte_mul (enc_active s !!! k)
                          (ne_byte v <$> (inputs_ij !!! k))]> (enc_active s)
        else enc_active s.
Proof.
  unfold encoder_step. destruct (decide (i = 0)) as [Hi|Hi].
  - cbn. eexists. split; reflexivity.
  - destruct (attend_is_Ok σ self e i j (enc_h s) Hi) as [c Hc]. rewrite Hc.
    cbn. eexists. split; reflexivity.
Qed.

(** After [n] iterations the rows up to [n] are final, the others still
    all ones. *)
Lemma encoder_loop_active n :
  n ≤ L →
  ∃ s, for_each (encoder_step σ self e i j inputs_ij scatter_ij L)
         (encoder_loop_init σ self e i j L B) (seq 0 n) = Ok s
    ∧ length (enc_active s) = L
    ∧ (∀ r, r ≤ n → r < L → enc_active s !! r = Some (mask_row v inputs_ij B r))
    ∧ (∀ r, n < r → r < L → enc_active s !! r = Some (replicate B 1%Z)).
Proof.
  induction n as [|n IH]; intros Hn.
  - eexists. split; [reflexivity|]. cbn. rewrite length_replicate.
    split_and!; [done| |].
    + intros r Hr Hl. assert (r = 0) as -> by lia. by rewrite lookup_replicate_2.
    + intros r Hr Hl. by rewrite lookup_replicate_2.
  - destruct (IH ltac:(lia)) as (s & Hs & Hlen & Hdone & Htodo).
    destruct (encoder_step_active s n) as (s' & Hstep & Hact).
    exists s'. rewrite for_each_seq_S, Hs. split; [exact Hstep|].
    rewrite Hact. destruct (decide (n + 1 < L)) as [Hlt|Hge].
    + rewrite length_insert. split_and!; [done| |].
      * intros r Hr Hl. destruct (decide (r = n + 1)) as [->|Hne].
        -- rewrite list_lookup_insert_eq by lia.
           replace (n + 1) with (S n) by lia. cbn [mask_row].
           pose proof (Hdone n ltac:(lia) ltac:(lia)) as Hrow.
           by rewrite (list_lookup_total_correct (enc_active s) n _ Hrow).
        -- rewrite list_lookup_insert_ne by lia. apply Hdone; lia.
      * intros r Hr Hl. rewrite list_lookup_insert_ne by lia. apply Htodo; lia.
    + split_and!; [done| |].
      * intros r Hr Hl. apply Hdone; lia.
      * intros r Hr Hl. lia.
Qed.
End encoder_mask.

Section decoder_flags.
Context {F32 : float32} {NN : torch_nn}.
Variables (σ : store) (self : net) (e : encoded) (n_examples : nat).
Variables (mode : run_mode) (target_scatter : option (list xmat)).

Lemma decoder_step_active s k s' :
  decoder_step σ self e n_examples mode target_scatter s k = Ok s' →
  ∃ X, dec_active s' = zip_with byte_mul (dec_active s) X.
Proof.
  unfold decoder_step. intros Hstep.
  apply bind_Ok in Hstep as (lp & _ & Hstep).
  destruct mode.
  - apply bind_Ok in Hstep as (picked & _ & Hstep).
    apply bind_Ok in Hstep as (states & _ & Hstep).
    injection Hstep as <-. cbn. by eexists.
  - apply bind_Ok in Hstep as (picked & _ & Hstep).
    apply bind_Ok in Hstep as (states & _ & Hstep).
    injection Hstep as <-. cbn. by eexists.
Qed.

Lemma byte_mul_active flags X b :
  active_at (zip_with byte_mul flags X) b → active_at flags b.
Proof.
  intros (x & Hx & Hne). apply lookup_zip_with_Some in Hx as (a & t & -> & Ha & _).
  exists a. split; [done|]. intros ->. apply Hne. unfold byte_mul. done.
Qed.

Lemma decoder_loop_active ks : ∀ s s' b,
  for_each (decoder_step σ self e n_examples mode target_scatter) s ks = Ok s' →
  active_at (dec_active s') b → active_at (dec_active s) b.
Proof.
  induction ks as [|k ks IH]; intros s s' b Hrun Hact.
  - cbn in Hrun. by injection Hrun as ->.
  - cbn in Hrun. apply bind_Ok in Hrun as (s1 & Hstep & Hrun).
    destruct (decoder_step_active s k s1 Hstep) as [X HX].
    apply (byte_mul_active _ X). rewrite <-HX. by apply (IH s1 s').
Qed.
End decoder_flags.


(** Claim C5.  The encoder loop of any encoder [i] and example [j] ends, and
    in its mask position 0 is active, position [k+1] is active iff position
    [k] is active and the token read at [k] is not the end-of-sequence id of
    encoder [i], and a position that is inactive stays inactive; the flags of
    the decoder loop, in either mode, never turn active again either. *)
Theorem active_masks_monotone {F32 : float32} {NN : torch_nn} σ self e i j (inputs_ij : ltensor)
    (scatter_ij : list xmat) B :
  rect B inputs_ij →
  (∃ s, for_each (encoder_step σ self e i j inputs_ij scatter_ij (length inputs_ij))
          (encoder_loop_init σ self e i j (length inputs_ij) B)
          (seq 0 (length inputs_ij)) = Ok s
     ∧ length (enc_active s) = length inputs_ij
     ∧ rect B (enc_active s)
     ∧ ∀ b, b < B →
         (0 < length inputs_ij → (enc_active s !!! 0) !!! b = 1%Z)
         ∧ (∀ k, k + 1 < length inputs_ij →
              (enc_active s !!! (k + 1)) !!! b ≠ 0%Z
              ↔ (enc_active s !!! k) !!! b ≠ 0%Z
                ∧ (inputs_ij !!! k) !!! b ≠ Z.of_nat (v_inputs self !!! i))
         ∧ (∀ k k', k ≤ k' → k' < length inputs_ij →
              (enc_active s !!! k) !!! b = 0%Z → (enc_active s !!! k') !!! b = 0%Z))
  ∧ (∀ n_examples mode target_scatter s0 k k' sk sk' b,
       k ≤ k' →
       decoder_after σ self e n_examples mode target_scatter s0 k = Ok sk →
       decoder_after σ self e n_examples mode target_scatter s0 k' = Ok sk' →
       active_at (dec_active sk') b → active_at (dec_active sk) b).
Proof.
  intros Hrect. split.
  - destruct (encoder_loop_active σ self e i j inputs_ij scatter_ij B
                (length inputs_ij) ltac:(lia)) as (s & Hs & Hlen & Hrows & _).
    exists s. split_and!; [done|done| |].
    + apply Forall_lookup_2. intros r row Hr.
      pose proof (lookup_lt_Some _ _ _ Hr) as Hlt.
      rewrite Hrows in Hr by lia. injection Hr as <-.
      apply mask_row_length; [done|lia].
    + intros b Hb.
      assert (Hentry : ∀ r, r < length inputs_ij →
                (enc_active s !!! r) !!! b
                = flag_before (v_inputs self !!! i) inputs_ij b r).
      { intros r Hr.
        pose proof (Hrows r ltac:(lia) Hr) as Hrow.
        rewrite (list_lookup_total_correct (enc_active s) r _ Hrow).
        apply list_lookup_total_correct. apply mask_row_lookup; [done|lia|done]. }
      split_and!.
      * intros HL. by rewrite Hentry.
      * intros k Hk. rewrite !Hentry by lia. replace (k + 1) with (S k) by lia.
        apply flag_before_step.
      * intros k k' Hkk Hk'. rewrite !Hentry by lia. by apply flag_before_mono.
  - intros n_examples mode target_scatter s0 k k' sk sk' b Hkk Hsk Hsk'.
    unfold decoder_after in *.
    replace k' with (k + (k' - k)) in Hsk' by lia.
    rewrite seq_app, for_each_app, Hsk in Hsk'. cbn [mbind result_bind] in Hsk'.
    exact (decoder_loop_active σ self e n_examples mode target_scatter _ sk sk' b Hsk').
Qed.

(** ** Instances on the small network *)

Lemma toy_cell_keeps_batch : @cell_keeps_batch toy_nn.
Proof. intros kind a b c d x st. cbn. destruct st; cbn; by rewrite length_fmap. Qed.

Lemma toy_decoder_ready : decoder_ready toy_store toy_net toy_encoded 1 1.
Proof.
  unfold decoder_ready. split_and!; [done|lia|compute_done|compute_done|].
  intros j Hj. assert (j = 0) as -> by lia. cbn.
  split_and!; [done|done| | |done]; repeat constructor.
Qed.

Lemma toy_target_ready : target_ready toy_net toy_target 1.
Proof. split; repeat constructor; cbn; lia. Qed.

Lemma toy_net_wf : net_wf toy_net.
Proof. by split_and!. Qed.

(** Claim C5 on the small network, input ids [0; 1; 1]. *)
Lemma active_masks_monotone_witness :
  ∃ s, for_each (@encoder_step exact32 toy_nn toy_store toy_net toy_encoded 0 0
                   [[0]; [1]; [1]]%Z [] 3)
         (@encoder_loop_init toy_store toy_net toy_encoded 0 0 3 1) (seq 0 3) = Ok s
       ∧ (enc_active s !!! 0) !!! 0 = 1%Z.
Proof.
  destruct (@active_masks_monotone exact32 toy_nn toy_store toy_net toy_encoded 0 0
              [[0]; [1]; [1]]%Z [] 1 ltac:(repeat constructor))
    as [(s & Hs & _ & _ & Hb) _].
  exists s. split; [exact Hs|].
  destruct (Hb 0 ltac:(lia)) as (H0 & _). apply H0. cbn. lia.
Defined.

(** Claim C4 on the small network. *)
Lemma pooling_single_example_witness :
  ∃ fc, decoder_features (F32:=exact32) toy_store toy_net toy_encoded 1 [StateH [[Fin 0]]] = Ok [fc]
        ∧ decoder_pooled (F32:=exact32) toy_store toy_net toy_encoded 1 [StateH [[Fin 0]]] = Ok fc.
Proof.
  apply (pooling_single_example (F32:=exact32) toy_store toy_net toy_encoded [StateH [[Fin 0]]]).
  cbn. lia.
Defined.

(** Claim C2 on the batch [[a]; []]. *)
Lemma decode_encode_roundtrip_witness :
  ∃ t, _targetToTensor toy_net [["a"%string]; []] = Ok t
       ∧ _tensorToOutput toy_net t = Ok [["a"%string]; []].
Proof.
  apply (decode_encode_roundtrip toy_net [["a"%string]; []] ["a"%string]).
  - reflexivity.
  - reflexivity.
  - by constructor.
  - repeat constructor.
Defined.

(** Claim C9 on a batch holding the unknown token [z]. *)
Lemma unknown_token_error_witness :
  ∃ x, _inputsToTensors toy_net [[[["z"%string]]]] = Raise (KeyError x).
Proof.
  destruct (@unknown_token_error exact32 toy_nn toy_store toy_net [[[["z"%string]]]] [["a"%string]] 0
              toy_net_wf) as ([Hin _] & _).
  - split; [discriminate|]. exists 1. repeat constructor.
  - discriminate.
  - apply Hin. exists "z"%string.
    exists [[["z"%string]]], [["z"%string]], 0, ["z"%string], ["A"%string].
    split_and!; try (by constructor); try reflexivity.
    intros Hz. apply list_elem_of_singleton in Hz. discriminate.
Defined.


Lemma Ok_inj {A} (a b : A) : Ok a = Ok b → a = b.
Proof. by intros [= ->]. Qed.

Lemma repeat_rows_length {A} (p : list A) n : length p = 1 → length (repeat_rows p n) = n.
Proof.
  intros Hp. unfold repeat_rows.
  induction n as [|n IH]; [done|]. cbn. rewrite length_app, IH. lia.
Qed.

Lemma sum_bits (l : list Z) :
  Forall (λ x, x = 0 ∨ x = 1)%Z l → (0 ≤ foldr Z.add 0 l ≤ Z.of_nat (length l))%Z.
Proof.
  induction 1 as [|x l [-> | ->] _ IH]; cbn [foldr length]; lia.
Qed.

Lemma scatter_input_ready v t B :
  input_ready v t B →
  ∃ sc, scatter (v + 1) t = Ok sc
        ∧ length sc = length t
        ∧ ∀ k, k < length t → length (sc !!! k) = B.
Proof.
  intros (_ & Hrect & Hids). unfold scatter.
  destruct (mapM_Ok_Forall (mapM (one_hot (v + 1))) (λ m, length m = B) t)
    as (sc & Hsc & Hlen & HB).
  - apply Forall_forall. intros row Hrow.
    pose proof (proj1 (Forall_forall _ _) Hrect row Hrow) as Hl. cbn in Hl.
    pose proof (proj1 (Forall_forall _ _) Hids row Hrow) as Hr. cbn in Hr.
    destruct (mapM_Ok_Forall (one_hot (v + 1)) (λ _, True) row) as (m & Hm & Hmlen & _).
    + eapply Forall_impl; [exact Hr|]. intros x Hx. cbn in Hx.
      destruct (one_hot_Ok (v + 1) x ltac:(lia)) as [w Hw]. eauto.
    + exists m. split; [done|]. lia.
  - exists sc. split_and!; [done|done|].
    intros k Hk. destruct (lookup_lt_is_Some_2 sc k ltac:(lia)) as [m Hm].
    rewrite (list_lookup_total_correct _ _ _ Hm).
    by apply (Forall_lookup_1 _ _ _ _ HB Hm).
Qed.

Section encoder_shapes.
Context {F32 : float32} {NN : torch_nn}.
Variables (σ : store) (self : net) (e : encoded) (i j : nat).
Variables (inputs_ij : ltensor) (scatter_ij : list xmat) (B : nat).
Hypothesis Hcell : cell_keeps_batch.
Hypothesis Hinput : input_ready (v_inputs self !!! i) inputs_ij B.
Hypothesis Hscatter : ∀ k, k < length inputs_ij → length (scatter_ij !!! k) = B.
Hypothesis Hinit : length (mat (data σ (encoder_init_h self))) = 1.
Hypothesis Hprev : i ≠ 0 → encoded_at e (i - 1) j B.

Local Abbreviation L := (length inputs_ij).

Lemma encoder_loop_init_h : length (enc_h (encoder_loop_init σ self e i j L B)) = B.
Proof using All.
  unfold encoder_loop_init, _encoder_get_init. cbn.
  destruct (decide (0 < i)) as [Hi|Hi].
  - destruct (Hprev ltac:(lia)) as (_ & _ & _ & _ & Hemb).
    by destruct (cell_type self).
  - destruct (cell_type self); cbn; apply repeat_rows_length;
      unfold of_mat; by rewrite length_fmap.
Qed.

Lemma encoder_step_shape s k :
  k < L → length (enc_h s) = B →
  ∃ s', encoder_step σ self e i j inputs_ij scatter_ij L s k = Ok s'
    ∧ enc_hs s' = enc_hs s ++ [enc_h s']
    ∧ length (enc_h s') = B.
Proof using All.
  intros Hk Hh. unfold encoder_step. destruct (decide (i = 0)) as [Hi|Hi].
  - cbn. eexists. split; [reflexivity|]. cbn. split; [done|].
    unfold run_cell. rewrite Hcell. by apply Hscatter.
  - destruct (Hprev Hi) as (H1 & H2 & H3 & H4 & _).
    destruct (attend_length σ self e i j (enc_h s) B Hi H1 H2 H3 H4 Hh) as (c & Hc & Hclen).
    rewrite Hc. cbn. eexists. split; [reflexivity|]. cbn. split; [done|].
    unfold run_cell. rewrite Hcell, length_zip_with, Hscatter by done. lia.
Qed.

Lemma encoder_loop_shapes n :
  n ≤ L →
  ∃ s, for_each (encoder_step σ self e i j inputs_ij scatter_ij L)
         (encoder_loop_init σ self e i j L B) (seq 0 n) = Ok s
    ∧ length (enc_hs s) = n
    ∧ Forall (λ h, length h = B) (enc_hs s)
    ∧ length (enc_h s) = B.
Proof using All.
  induction n as [|n IH]; intros Hn.
  - eexists. split; [reflexivity|]. split_and!; [done|constructor|].
    apply encoder_loop_init_h.
  - destruct (IH ltac:(lia)) as (s & Hs & Hlen & Hall & Hh).
    destruct (encoder_step_shape s n ltac:(lia) Hh) as (s' & Hstep & Hhs & Hh').
    exists s'. rewrite for_each_seq_S, Hs. split; [exact Hstep|].
    rewrite Hhs. split_and!; [|apply Forall_app; split; [done|by repeat constructor]|done].
    rewrite length_app. cbn. lia.
Qed.

(** One encoder on one example: it succeeds and appends well-shaped data. *)
Lemma encode_example_shape :
  ∃ Hij embedding mask,
    encode_example σ self e i j inputs_ij scatter_ij L B = Ok (Hij, embedding, mask)
    ∧ Hij ≠ [] ∧ mask ≠ [] ∧ rect B Hij ∧ rect B mask ∧ length embedding = B.
Proof using All.
  destruct Hinput as (Hne & Hrect & _).
  assert (HL : 0 < L) by (destruct inputs_ij; [done|cbn; lia]).
  destruct (encoder_loop_shapes L ltac:(lia)) as (s & Hs & Hlen & Hall & _).
  destruct (encoder_loop_active σ self e i j inputs_ij scatter_ij B L ltac:(lia))
    as (s' & Hs' & Halen & Hrows & _).
  rewrite Hs in Hs'. apply Ok_inj in Hs' as <-.
  assert (Harect : rect B (enc_active s)).
  { apply Forall_lookup_2. intros r row Hr.
    pose proof (lookup_lt_Some _ _ _ Hr) as Hlt.
    rewrite Hrows in Hr by lia. injection Hr as <-.
    apply mask_row_length; [done|lia]. }
  assert (Hsize : size1 (enc_active s) = B).
  { apply size1_rect; [done|]. intros Hnil. rewrite Hnil in Halen. cbn in Halen. lia. }
  assert (Hentry : ∀ r b, r < L → b < B →
            (enc_active s !!! r) !!! b = flag_before (v_inputs self !!! i) inputs_ij b r).
  { intros r b Hr Hb. pose proof (Hrows r ltac:(lia) Hr) as Hrow.
    rewrite (list_lookup_total_correct (enc_active s) r _ Hrow).
    apply list_lookup_total_correct. apply mask_row_lookup; [done|lia|done]. }
  assert (Hidx : ∀ b, b < B →
            (1 ≤ foldr Z.add 0 (column (enc_active s) b) ≤ Z.of_nat L)%Z).
  { intros b Hb.
    assert (Hcol : column (enc_active s) b
                   = (λ r, flag_before (v_inputs self !!! i) inputs_ij b r) <$> seq 0 L).
    { apply list_eq. intros r. rewrite column_lookup, list_lookup_fmap.
      destruct (decide (r < L)) as [Hr|Hr].
      - rewrite lookup_seq_lt by done. cbn.
        pose proof (Hrows r ltac:(lia) Hr) as Hrow. rewrite Hrow. cbn. f_equal.
        rewrite <-(Hentry r b Hr Hb).
        by rewrite (list_lookup_total_correct (enc_active s) r _ Hrow).
      - rewrite lookup_seq_ge by lia. by rewrite lookup_ge_None_2 by lia. }
    rewrite Hcol. destruct L as [|L'] eqn:HLeq; [lia|].
    cbn [seq fmap list_fmap foldr flag_before].
    pose proof (sum_bits ((λ r, flag_before (v_inputs self !!! i) inputs_ij b r)
                            <$> seq 1 L')) as Hsum.
    rewrite length_fmap, length_seq in Hsum.
    assert (Hbits : Forall (λ x, x = 0 ∨ x = 1)%Z
              ((λ r, flag_before (v_inputs self !!! i) inputs_ij b r) <$> seq 1 L')).
    { apply Forall_fmap, Forall_forall. intros r _. cbn. apply flag_before_bit. }
    specialize (Hsum Hbits). lia. }
  unfold encode_example. rewrite Hs. cbn [mbind result_bind].
  rewrite decide_False by (intros Hnil; rewrite Hnil in Hlen; cbn in Hlen; lia).
  cbn [mbind result_bind]. rewrite Hsize.
  destruct (mapM_Ok_Forall
    (λ bi : nat * Z,
       if decide (0 ≤ bi.2 < Z.of_nat (length (enc_hs s)))%Z
       then Ok ((enc_hs s !!! Z.to_nat bi.2) !!! bi.1) else Raise RuntimeError)
    (λ _, True)
    (zip (seq 0 (length ((λ b, foldr Z.add 0 (column (enc_active s) b) - 1)%Z <$> seq 0 B)))
         ((λ b, foldr Z.add 0 (column (enc_active s) b) - 1)%Z <$> seq 0 B)))
    as (embedding & Hemb & Hemblen & _).
  { apply Forall_forall. intros [b ix] Hin. cbn.
    apply elem_of_zip_r in Hin. apply list_elem_of_fmap in Hin as (b' & -> & Hb'%elem_of_seq).
    pose proof (Hidx b' ltac:(lia)). rewrite decide_True by lia. by eexists. }
  rewrite Hemb. cbn [mbind result_bind].
  eexists _, _, _. split; [reflexivity|].
  split_and!.
  - intros Hnil. rewrite Hnil in Hlen. cbn in Hlen. lia.
  - intros Hnil%fmap_nil_inv. rewrite Hnil in Halen. cbn in Halen. lia.
  - exact Hall.
  - unfold rect. apply Forall_fmap. eapply Forall_impl; [exact Harect|].
    intros row Hrow. cbn in *. by rewrite length_fmap.
  - rewrite Hemblen, length_zip, !length_fmap, !length_seq. lia.
Qed.
End encoder_shapes.


Lemma for_each_seq_inv {St} (body : St → nat → result St) (I : nat → St → Prop) n :
  ∀ a s,
  I a s →
  (∀ k s, a ≤ k < a + n → I k s → ∃ s', body s k = Ok s' ∧ I (S k) s') →
  ∃ s', for_each body s (seq a n) = Ok s' ∧ I (a + n) s'.
Proof.
  induction n as [|n IH]; intros a s Hs Hbody.
  - exists s. rewrite Nat.add_0_r. by split.
  - destruct (Hbody a s ltac:(lia) Hs) as (s1 & Hs1 & HI1).
    destruct (IH (S a) s1 HI1) as (s' & Hs' & HI').
    { intros k s2 Hk. apply Hbody. lia. }
    exists s'. cbn [seq for_each]. rewrite Hs1. cbn [mbind result_bind].
    split; [done|]. by replace (a + S n) with (S a + n) by lia.
Qed.

Section encoders.
Context {F32 : float32} {NN : torch_nn}.
Variables (σ : store) (self : net).
Variables (ts : list (list ltensor)) (inputs_scatter : list (list (list xmat))).
Variables (max_length_inputs : list (list nat)) (n_examples B : nat).
Hypothesis Hcell : cell_keeps_batch.
Hypothesis Hinit : length (mat (data σ (encoder_init_h self))) = 1.
Hypothesis Hin : encoder_inputs_ready self ts inputs_scatter max_length_inputs n_examples B.

Lemma encoders_example_step e i j :
  i < length (input_vocabularies self) → j < n_examples →
  encoders_mid e n_examples B i j →
  ∃ e',
    ('(Hij, embedding, mask) ←
        encode_example σ self e i j ((ts !!! i) !!! j) ((inputs_scatter !!! i) !!! j)
          ((max_length_inputs !!! i) !!! j) B;
      Ok {| H := <[i := H e !!! i ++ [Hij]]> (H e);
            embeddings := <[i := embeddings e !!! i ++ [embedding]]> (embeddings e);
            attention_mask := <[i := attention_mask e !!! i ++ [mask]]> (attention_mask e) |})
    = Ok e'
    ∧ encoders_mid e' n_examples B i (S j).
Proof using All.
  intros Hi Hj (HlH & Hle & Hlm & Hprev & HjH & Hje & Hjm & Hcur).
  destruct (Hin i j Hi Hj) as (Hready & Hmax & Hsc).
  destruct (encode_example_shape σ self e i j ((ts !!! i) !!! j)
              ((inputs_scatter !!! i) !!! j) B Hcell Hready Hsc Hinit)
    as (Hij & emb & mask & Henc & H1 & H2 & H3 & H4 & H5).
  { intros Hi0. apply Hprev; [lia|done]. }
  rewrite Hmax, Henc. cbn [mbind result_bind]. eexists. split; [reflexivity|].
  unfold encoders_mid. cbn [H embeddings attention_mask].
  rewrite !length_insert.
  rewrite !list_lookup_total_insert_eq by lia.
  rewrite !length_app. cbn [length].
  split_and!; try lia.
  - intros i' j' Hi' Hj'. unfold encoded_at. cbn [H embeddings attention_mask].
    rewrite !list_lookup_total_insert_ne by lia. by apply Hprev.
  - intros j' Hj'. unfold encoded_at. cbn [H embeddings attention_mask].
    rewrite !list_lookup_total_insert_eq by lia.
    destruct (decide (j' = j)) as [->|Hne].
    + rewrite !lookup_total_app_r by lia.
      rewrite HjH, Hje, Hjm, Nat.sub_diag. cbn. by split_and!.
    + rewrite !lookup_total_app_l by lia. apply Hcur. lia.
Qed.

Lemma encoders_encoder_step e i :
  i < length (input_vocabularies self) →
  encoders_done e n_examples B i →
  ∃ e',
    for_each (λ e j,
      '(Hij, embedding, mask) ←
        encode_example σ self e i j ((ts !!! i) !!! j) ((inputs_scatter !!! i) !!! j)
          ((max_length_inputs !!! i) !!! j) B;
      Ok {| H := <[i := H e !!! i ++ [Hij]]> (H e);
            embeddings := <[i := embeddings e !!! i ++ [embedding]]> (embeddings e);
            attention_mask := <[i := attention_mask e !!! i ++ [mask]]> (attention_mask e) |})
      {| H := H e ++ [[]]; embeddings := embeddings e ++ [[]];
         attention_mask := attention_mask e ++ [[]] |} (seq 0 n_examples)
    = Ok e'
    ∧ encoders_done e' n_examples B (S i).
Proof using All.
  intros Hi (HlH & Hle & Hlm & Hprev).
  destruct (for_each_seq_inv
    (λ e j,
      '(Hij, embedding, mask) ←
        encode_example σ self e i j ((ts !!! i) !!! j) ((inputs_scatter !!! i) !!! j)
          ((max_length_inputs !!! i) !!! j) B;
      Ok {| H := <[i := H e !!! i ++ [Hij]]> (H e);
            embeddings := <[i := embeddings e !!! i ++ [embedding]]> (embeddings e);
            attention_mask := <[i := attention_mask e !!! i ++ [mask]]> (attention_mask e) |})
    (λ j e, encoders_mid e n_examples B i j) n_examples 0
    {| H := H e ++ [[]]; embeddings := embeddings e ++ [[]];
       attention_mask := attention_mask e ++ [[]] |}) as (e' & He' & Hmid).
  - unfold encoders_mid. cbn [H embeddings attention_mask].
    rewrite !length_app. cbn [length].
    rewrite !lookup_total_app_r by lia. rewrite HlH, Hle, Hlm, Nat.sub_diag. cbn.
    split_and!; try lia.
    intros i' j' Hi' Hj'. unfold encoded_at. cbn [H embeddings attention_mask].
    rewrite !lookup_total_app_l by lia. by apply Hprev.
  - intros j e1 Hj Hmid. apply encoders_example_step; [done|lia|done].
  - exists e'. split; [exact He'|].
    destruct Hmid as (H1 & H2 & H3 & Hp & _ & _ & _ & Hcur). cbn in Hcur.
    unfold encoders_done. split_and!; try lia.
    intros i' j' Hi' Hj'. destruct (decide (i' = i)) as [->|Hne].
    + by apply Hcur.
    + apply Hp; [lia|done].
Qed.

(** All encoders succeed and leave well-shaped data for every example. *)
Lemma encoders_shape :
  ∃ e, encoders σ self ts inputs_scatter max_length_inputs n_examples B = Ok e
       ∧ encoders_done e n_examples B (length (input_vocabularies self)).
Proof using All.
  unfold encoders.
  destruct (for_each_seq_inv
    (λ e i,
      let e := {| H := H e ++ [[]]; embeddings := embeddings e ++ [[]];
                  attention_mask := attention_mask e ++ [[]] |} in
      for_each (λ e j,
        '(Hij, embedding, mask) ←
          encode_example σ self e i j ((ts !!! i) !!! j) ((inputs_scatter !!! i) !!! j)
            ((max_length_inputs !!! i) !!! j) B;
        Ok {| H := <[i := H e !!! i ++ [Hij]]> (H e);
              embeddings := <[i := embeddings e !!! i ++ [embedding]]> (embeddings e);
              attention_mask := <[i := attention_mask e !!! i ++ [mask]]> (attention_mask e) |})
        e (seq 0 n_examples))
    (λ i e, encoders_done e n_examples B i) (length (input_vocabularies self)) 0
    {| H := []; embeddings := []; attention_mask := [] |}) as (e & He & Hdone).
  - unfold encoders_done. cbn. split_and!; try done. intros; lia.
  - intros i e1 Hi Hdone. cbn zeta. apply encoders_encoder_step; [lia|done].
  - exists e. split; [exact He|done].
Qed.
End encoders.


Lemma mapM_seq_Ok {A} `{Inhabited A} (f : nat → result A) (P : nat → A → Prop) n :
  ∀ a,
  (∀ i, a ≤ i < a + n → ∃ y, f i = Ok y ∧ P i y) →
  ∃ k, mapM f (seq a n) = Ok k ∧ length k = n ∧ ∀ i, i < n → P (a + i) (k !!! i).
Proof.
  induction n as [|n IH]; intros a Hf.
  - exists []. split_and!; [done|done|]. intros; lia.
  - destruct (Hf a ltac:(lia)) as (y & Hy & HP).
    destruct (IH (S a)) as (k & Hk & Hlen & HPk).
    { intros i Hi. apply Hf. lia. }
    exists (y :: k). cbn [seq]. cbn. rewrite Hy. cbn. rewrite Hk. cbn.
    split_and!; [done|by f_equal|].
    intros [|i] Hi; cbn.
    + by rewrite Nat.add_0_r.
    + replace (a + S i) with (S a + i) by lia. apply HPk. lia.
Qed.

Section run_score.
Context {F32 : float32} {NN : torch_nn}.
Variables (σ : store) (self : net) (ts : list (list ltensor)) (n_examples B : nat).
Hypothesis Hcell : cell_keeps_batch.
Hypothesis Hrun : run_ready σ self ts n_examples B.

Lemma run_ready_lookup i j :
  i < n_encoders self → j < n_examples →
  ∃ row, ts !! i = Some row ∧ ts !!! i = row
         ∧ row !! j = Some ((ts !!! i) !!! j).
Proof using Hrun.
  intros Hi Hj. destruct Hrun as (_ & _ & _ & Hlen & Hrows & _).
  destruct (lookup_lt_is_Some_2 ts i ltac:(lia)) as [row Hrow].
  pose proof (list_lookup_total_correct ts i row Hrow) as Hrow'.
  exists row. split_and!; [done|done|].
  specialize (Hrows i Hi). rewrite Hrow' in *.
  destruct (lookup_lt_is_Some_2 row j ltac:(lia)) as [t Ht].
  by rewrite (list_lookup_total_correct row j t Ht).
Qed.

Lemma input_size_at_0 i j :
  i < n_encoders self → j < n_examples →
  input_size_at (Tensors ts) i j 0 = Ok (length ((ts !!! i) !!! j)).
Proof using Hrun.
  intros Hi Hj. destruct (run_ready_lookup i j Hi Hj) as (row & Hrow & Hrow' & Ht).
  unfold input_size_at, py_nth. rewrite Hrow. cbn. rewrite <- Hrow' at 1.
  by rewrite Hrow' in Ht |- *; rewrite Ht.
Qed.

Lemma input_size_at_1 :
  input_size_at (Tensors ts) 0 0 1 = Ok B.
Proof using Hrun.
  pose proof Hrun as (_ & Hn & Hm & _ & _ & Hin & _).
  destruct (run_ready_lookup 0 0 ltac:(lia) ltac:(lia)) as (row & Hrow & Hrow' & Ht).
  destruct (Hin 0 0 ltac:(lia) ltac:(lia)) as (Hne & Hrect & _).
  unfold input_size_at, py_nth. rewrite Hrow. cbn.
  rewrite Hrow' in Ht. rewrite Ht. cbn. f_equal.
  rewrite <- Hrow'. by apply size1_rect.
Qed.

Lemma len_inputs0_ready : len_inputs0 (Tensors ts) = Ok n_examples.
Proof using Hrun.
  pose proof Hrun as (_ & Hn & Hm & _ & Hrows & _).
  destruct (run_ready_lookup 0 0 ltac:(lia) ltac:(lia)) as (row & Hrow & Hrow' & _).
  unfold len_inputs0, py_nth. rewrite Hrow. cbn. f_equal.
  rewrite <- Hrow'. apply Hrows. lia.
Qed.

Lemma max_length_inputs_ready :
  ∃ mli,
    mapM (λ i, mapM (λ j, input_size_at (Tensors ts) i j 0) (seq 0 n_examples))
         (seq 0 (n_encoders self)) = Ok mli
    ∧ ∀ i j, i < n_encoders self → j < n_examples →
        (mli !!! i) !!! j = length ((ts !!! i) !!! j).
Proof using Hrun.
  destruct (mapM_seq_Ok
    (λ i, mapM (λ j, input_size_at (Tensors ts) i j 0) (seq 0 n_examples))
    (λ i row, ∀ j, j < n_examples → row !!! j = length ((ts !!! i) !!! j))
    (n_encoders self) 0) as (mli & Hmli & _ & Hrows).
  - intros i Hi.
    destruct (mapM_seq_Ok (λ j, input_size_at (Tensors ts) i j 0)
      (λ j x, x = length ((ts !!! i) !!! j)) n_examples 0) as (row & Hrow & _ & Hx).
    + intros j Hj. eexists. split; [apply input_size_at_0; lia|done].
    + exists row. split; [done|]. intros j Hj. apply (Hx j Hj).
  - exists mli. split; [done|]. intros i j Hi Hj. by apply (Hrows i Hi).
Qed.

Lemma inputs_scatter_ready :
  ∃ sc,
    mapM (λ i, mapM (λ j, scatter ((v_inputs self !!! i) + 1) ((ts !!! i) !!! j))
                    (seq 0 n_examples))
         (seq 0 (n_encoders self)) = Ok sc
    ∧ ∀ i j k, i < n_encoders self → j < n_examples →
        k < length ((ts !!! i) !!! j) → length (((sc !!! i) !!! j) !!! k) = B.
Proof using Hrun.
  pose proof Hrun as (_ & _ & _ & _ & _ & Hin & _).
  destruct (mapM_seq_Ok
    (λ i, mapM (λ j, scatter ((v_inputs self !!! i) + 1) ((ts !!! i) !!! j))
               (seq 0 n_examples))
    (λ i row, ∀ j k, j < n_examples → k < length ((ts !!! i) !!! j) →
                     length ((row !!! j) !!! k) = B)
    (n_encoders self) 0) as (sc & Hsc & _ & Hrows).
  - intros i Hi.
    destruct (mapM_seq_Ok (λ j, scatter ((v_inputs self !!! i) + 1) ((ts !!! i) !!! j))
      (λ j x, ∀ k, k < length ((ts !!! i) !!! j) → length (x !!! k) = B)
      n_examples 0) as (row & Hrow & _ & Hx).
    + intros j Hj.
      destruct (scatter_input_ready _ _ _ (Hin i j ltac:(lia) ltac:(lia)))
        as (x & Hx & _ & HB).
      exists x. by split.
    + exists row. split; [done|]. intros j k Hj. apply (Hx j Hj).
  - exists sc. split; [done|]. intros i j k Hi Hj. by apply (Hrows i Hi).
Qed.

(** The encoder pass succeeds and hands well-shaped data to the decoder. *)
Lemma encoder_pass_ready :
  ∃ e, encoder_pass σ self ts n_examples B = Ok e
       ∧ decoder_ready σ self e n_examples B.
Proof using All.
  pose proof Hrun as (Hwf & Hn & Hm & _ & _ & Hin & Hinit & HV1 & HV2).
  destruct max_length_inputs_ready as (mli & Hmli & Hlen).
  destruct inputs_scatter_ready as (sc & Hsc & HscB).
  destruct (encoders_shape σ self ts sc mli n_examples B Hcell Hinit) as (e & He & Hdone).
  { intros i j Hi Hj. rewrite <- Hwf in Hi. split_and!.
    - by apply Hin.
    - by apply Hlen.
    - intros k. by apply HscB. }
  exists e. unfold encoder_pass. rewrite Hmli. cbn [mbind result_bind].
  rewrite Hsc. cbn [mbind result_bind]. split; [done|].
  destruct Hdone as (_ & _ & _ & Hat). rewrite <- Hwf in Hat.
  split_and!; try done.
  intros j Hj. apply (Hat (n_encoders self - 1) j); [lia|done].
Qed.

(** [_run] in score mode is the encoder pass followed by the decoder loop. *)
Lemma _run_Score target rng e tsc s :
  encoder_pass σ self ts n_examples B = Ok e →
  scatter (v_target self + 1) target = Ok tsc →
  for_each (decoder_step σ self e n_examples Score (Some tsc))
    (decoder_init σ self e n_examples B target rng) (seq 0 (length target)) = Ok s →
  _run σ self (Tensors ts) (Some target) Score rng
  = Ok (dec_target s, dec_score s, dec_rng s).
Proof using Hrun.
  intros He Htsc Hs. unfold _run.
  rewrite decide_True by (left; done). cbn [mbind result_bind].
  rewrite len_inputs0_ready. cbn [mbind result_bind].
  unfold encoder_pass in He.
  destruct (mapM (λ i, mapM (λ j, input_size_at (Tensors ts) i j 0) (seq 0 n_examples))
              (seq 0 (n_encoders self))) as [mli|] eqn:Hmli; [|done].
  cbn [mbind result_bind] in He |- *.
  rewrite input_size_at_1. cbn [mbind result_bind].
  destruct (mapM (λ i, mapM (λ j, scatter ((v_inputs self !!! i) + 1) ((ts !!! i) !!! j))
                              (seq 0 n_examples))
              (seq 0 (n_encoders self))) as [sc|] eqn:Hsc; [|done].
  cbn [mbind result_bind] in He |- *.
  rewrite Htsc. cbn. rewrite He. cbn [mbind result_bind].
  rewrite Hs. done.
Qed.
End run_score.


Lemma decoder_step_Score_rng {F32 : float32} {NN : torch_nn} σ self e n_examples tsc s k s' :
  decoder_step σ self e n_examples Score tsc s k = Ok s' → dec_rng s' = dec_rng s.
Proof.
  unfold decoder_step. intros Hstep.
  apply bind_Ok in Hstep as (logsoftmax & _ & Hstep). cbn zeta in Hstep.
  apply bind_Ok in Hstep as (picked & _ & Hstep).
  apply bind_Ok in Hstep as (states & _ & Hstep).
  by injection Hstep as <-.
Qed.

Lemma decoder_loop_Score_rng {F32 : float32} {NN : torch_nn} σ self e n_examples tsc ks : ∀ s s',
  for_each (decoder_step σ self e n_examples Score tsc) s ks = Ok s' →
  dec_rng s' = dec_rng s.
Proof.
  induction ks as [|k ks IH]; intros s s' Hs; cbn in Hs.
  - by injection Hs as <-.
  - apply bind_Ok in Hs as (s1 & Hs1 & Hs).
    rewrite (IH _ _ Hs). by apply decoder_step_Score_rng in Hs1.
Qed.

(** A timestep at which the flag is 0 and the selected log-probability is
    not a finite number turns the running score into NaN. *)
Lemma running_masked_NaN {F32 : float32} {NN : torch_nn} σ self e n_examples B target ts rng b k0 k :
  (target !!! k0) !!! b = Z.of_nat (v_target self) → k0 < k →
  ¬ is_finite (logprob_at σ self e n_examples Score (Some ts)
                 (decoder_init σ self e n_examples B target rng) k b) →
  running σ self e n_examples B target ts rng b (S k) = NaN.
Proof.
  intros Heos Hk Hlp. cbn [running].
  rewrite (flag_before_zero _ _ _ k0) by done. unfold byte_float.
  destruct (logprob_at _ _ _ _ _ _ _ _ _) as [r| | |].
  - destruct Hlp. by eexists.
  - cbn. rewrite decide_True by done. by destruct (running _ _ _ _ _ _ _ _ _ _).
  - cbn. rewrite decide_True by done. by destruct (running _ _ _ _ _ _ _ _ _ _).
  - cbn. by destruct (running _ _ _ _ _ _ _ _ _ _).
Qed.


(** Claim C3, as amended.  [_run] in score mode on the tensors of a batch, in
    a float format whose rounding keeps 0 and the numbers it returns: once
    the token read for batch element [b] at timestep [k0] is the
    end-of-sequence id, every later timestep [k] runs; it leaves the running
    score of [b] unchanged when the log-probability that it selects is
    finite, and turns it into NaN when that log-probability is an infinity
    or NaN, the product with the flag 0 being NaN then.  When the
    log-probabilities selected after [k0] are all finite, the score that
    [_run] returns for [b] is the running score right after timestep [k0],
    whatever tokens follow in the ground-truth tensor. *)
Theorem score_frozen_after_eos {F32 : float32} {NN : torch_nn} σ self ts n_examples B target rng b k0 :
  rnd_stable →
  cell_keeps_batch →
  run_ready σ self ts n_examples B →
  target_ready self target B →
  b < B → k0 < length target →
  (target !!! k0) !!! b = Z.of_nat (v_target self) →
  ∃ e tsc,
    encoder_pass σ self ts n_examples B = Ok e
    ∧ scatter (v_target self + 1) target = Ok tsc
    ∧ (∀ k, k0 < k < length target →
         ∃ s s' x,
           decoder_after σ self e n_examples Score (Some tsc)
             (decoder_init σ self e n_examples B target rng) k = Ok s
           ∧ decoder_step σ self e n_examples Score (Some tsc) s k = Ok s'
           ∧ dec_score s !! b = Some x
           ∧ (is_finite (logprob_at σ self e n_examples Score (Some tsc)
                           (decoder_init σ self e n_examples B target rng) k b) →
              dec_score s' !! b = Some x)
           ∧ (¬ is_finite (logprob_at σ self e n_examples Score (Some tsc)
                             (decoder_init σ self e n_examples B target rng) k b) →
              dec_score s' !! b = Some NaN))
    ∧ ∃ s x score,
        decoder_after σ self e n_examples Score (Some tsc)
          (decoder_init σ self e n_examples B target rng) (S k0) = Ok s
        ∧ dec_score s !! b = Some x
        ∧ _run σ self (Tensors ts) (Some target) Score rng = Ok (target, score, rng)
        ∧ ((∀ k, k0 < k < length target →
              is_finite (logprob_at σ self e n_examples Score (Some tsc)
                           (decoder_init σ self e n_examples B target rng) k b)) →
           score !! b = Some x).
Proof.
  intros Hrnd Hcell Hrun Htarget Hb Hk0 Heos.
  destruct (encoder_pass_ready σ self ts n_examples B Hcell Hrun) as (e & He & Hready).
  destruct (decoder_score_running σ self e n_examples B target rng Hcell Hready Htarget)
    as (tsc & sn & Htsc & Hsn & Htgt & Hscore & Hsteps).
  exists e, tsc. split_and!; [done|done| |].
  - intros k Hk. destruct (Hsteps k ltac:(lia)) as (s1 & s2 & Hs1 & Hs2 & Hsc).
    destruct (Hsc b Hb) as [Hx1 Hx2].
    exists s1, s2, (running σ self e n_examples B target tsc rng b k).
    split_and!; [done|done|done| |].
    + intros Hfin. rewrite Hx2. f_equal.
      apply (running_frozen σ self e n_examples B target rng Hrnd tsc b k0); [done|lia|done].
    + intros Hinf. rewrite Hx2. f_equal.
      apply (running_masked_NaN σ self e n_examples B target tsc rng b k0); [done|lia|done].
  - destruct (Hsteps k0 Hk0) as (s1 & s2 & Hs1 & Hs2 & Hsc).
    destruct (Hsc b Hb) as [_ Hx2].
    exists s2, (running σ self e n_examples B target tsc rng b (S k0)), (dec_score sn).
    split_and!; [|done| |].
    + unfold decoder_after in *. by rewrite for_each_seq_S, Hs1.
    + rewrite (_run_Score σ self ts n_examples B Hrun target rng e tsc sn He Htsc Hsn).
      rewrite Htgt. by rewrite (decoder_loop_Score_rng _ _ _ _ _ _ _ _ Hsn).
    + intros Hfin. rewrite (Hscore b Hb). f_equal.
      destruct (decide (length target = S k0)) as [->|Hne]; [done|].
      apply (running_frozen_from σ self e n_examples B target rng Hrnd tsc b k0);
        [done|lia|]. intros k Hk. apply Hfin. lia.
Qed.

(** ** The toy batch as tensors *)

Lemma toy_run_ready : run_ready toy_store toy_net toy_inputs 1 1.
Proof.
  unfold run_ready. split_and!; try done; try lia; try compute_done.
  - intros i Hi. cbn in Hi. by assert (i = 0) as -> by lia.
  - intros i j Hi Hj. cbn in Hi. assert (i = 0) as -> by lia. assert (j = 0) as -> by lia.
    cbn. split_and!; [done| |]; repeat constructor; cbn; lia.
Qed.

(** ** Evaluation in the two formats *)

Lemma sat_rnd_in x : (- max32 <= x <= max32)%R → @rnd sat32 x = Fin x.
Proof.
  intros Hx. cbn. rewrite decide_False by lra. by rewrite decide_False by lra.
Qed.

Lemma sat_rnd_lo x : (x < - max32)%R → @rnd sat32 x = NInf.
Proof.
  intros Hx. cbn. assert (0 < max32)%R by (unfold max32; lra).
  rewrite decide_False by lra. by rewrite decide_True by lra.
Qed.

Lemma sat_rnd_hi x : (max32 < x)%R → @rnd sat32 x = PInf.
Proof. intros Hx. cbn. by rewrite decide_True by lra. Qed.

Lemma tanh_0 : tanh 0 = 0%R.
Proof. unfold tanh. rewrite sinh_0. unfold Rdiv. apply Rmult_0_l. Qed.

Ltac exp_facts :=
  repeat match goal with
         | |- context [exp ?x] =>
             lazymatch goal with
             | _ : (0 < exp x)%R |- _ => fail
             | _ => pose proof (exp_pos x)
             end
         end.

Ltac real_side := unfold max32; exp_facts; lra.

Ltac float_step :=
  match goal with
  | |- context [@rnd exact32 ?x] => change (@rnd exact32 x) with (Fin x)
  | |- context [@rnd sat32 ?x] =>
      first [ rewrite (sat_rnd_in x) by real_side
            | rewrite (sat_rnd_lo x) by real_side
            | rewrite (sat_rnd_hi x) by real_side ]
  | |- context [@decide (@eq R ?a ?b) ?d] =>
      first [ rewrite (decide_True (P := a = b)) by real_side
            | rewrite (decide_False (P := a = b)) by real_side ]
  | |- context [@decide (?a < ?b)%R ?d] =>
      first [ rewrite (decide_True (P := (a < b)%R)) by real_side
            | rewrite (decide_False (P := (a < b)%R)) by real_side ]
  | |- context [@bool_decide (?a <= ?b)%R ?d] =>
      first [ rewrite (bool_decide_true (a <= b)%R) by real_side
            | rewrite (bool_decide_false (a <= b)%R) by real_side ]
  | |- context [@bool_decide (?a < ?b)%R ?d] =>
      first [ rewrite (bool_decide_true (a < b)%R) by real_side
            | rewrite (bool_decide_false (a < b)%R) by real_side ]
  | |- context [exp 0] => rewrite exp_0
  | |- context [ln 1] => rewrite ln_1
  | |- context [tanh 0] => rewrite tanh_0
  | |- context [exp ?x] =>
      progress (replace x with 0%R by lra); rewrite exp_0
  | |- context [ln ?x] =>
      progress (replace x with 1%R by lra); rewrite ln_1
  | |- context [tanh ?x] =>
      progress (replace x with 0%R by lra); rewrite tanh_0
  end.

Ltac float_cbn :=
  cbn [fmap list_fmap zip_with foldl imap app length seq lookup_total list_lookup_total
       column size1 hd of_vec of_mat
       fadd fsub fneg fmul fdiv fle fmax exp_f ln_f tanh_f fsum fdot finf
       exp_fin ln_pos tanh_fin sat32 exact32 compose
       linear bilinear fmax_list shifted_exp softmax_vec log_softmax_vec softmax0
       log_softmax1 sum0 torch_max0 mbind result_bind mret result_ret].

Ltac float_eval := repeat (float_cbn; float_step); float_cbn.

Lemma overflow_encoder_pass :
  @encoder_pass sat32 toy_nn overflow_store toy_net toy_inputs 1 1 = Ok toy_encoded2.
Proof. vm_compute. reflexivity. Qed.

Lemma exact_encoder_pass :
  @encoder_pass exact32 toy_nn toy_store toy_net toy_inputs 1 1 = Ok toy_encoded2.
Proof. vm_compute. reflexivity. Qed.

Ltac toy_params σ :=
  assert (mat (data σ (As toy_net !!! (1 - 1))) = [[1%R]]) as HA
    by (vm_compute; reflexivity);
  assert (mat (data σ (weight (W toy_net))) = [[1; 1]]%R) as HWw
    by (vm_compute; reflexivity);
  assert (vec (data σ (bias (W toy_net))) = [0%R]) as HWb
    by (vm_compute; reflexivity);
  assert (mat (data σ (weight (V toy_net))) = [[1]; [2]]%R) as HVw
    by (vm_compute; reflexivity).

Lemma overflow_attend :
  attend (F32:=sat32) overflow_store toy_net toy_encoded2 1 0 [[Fin 0]] = Ok [[Fin 0]].
Proof.
  toy_params overflow_store.
  unfold attend, attention_weights, attention_scores. rewrite decide_False by done.
  rewrite HA.
  change ((H toy_encoded2 !!! (1 - 1)) !!! 0) with [ [[Fin 0]]; [[Fin 0]] ].
  change ((attention_mask toy_encoded2 !!! (1 - 1)) !!! 0)
    with [ [Fin (ln 1)]; [Fin (ln 1)] ].
  float_eval. do 4 f_equal. lra.
Qed.

Lemma exact_attend :
  attend (F32:=exact32) toy_store toy_net toy_encoded2 1 0 [[Fin 0]] = Ok [[Fin 0]].
Proof.
  toy_params toy_store.
  unfold attend, attention_weights, attention_scores. rewrite decide_False by done.
  rewrite HA.
  change ((H toy_encoded2 !!! (1 - 1)) !!! 0) with [ [[Fin 0]]; [[Fin 0]] ].
  change ((attention_mask toy_encoded2 !!! (1 - 1)) !!! 0)
    with [ [Fin (ln 1)]; [Fin (ln 1)] ].
  float_eval. do 4 f_equal. lra.
Qed.

(** The log-probabilities of the two target ids: with the biases [-3e38] and
    [3e38] the first one underflows to minus infinity. *)
Lemma overflow_logsoftmax :
  decoder_logsoftmax (F32:=sat32) overflow_store toy_net toy_encoded2 1 [toy_state]
  = Ok [[NInf; Fin 0]].
Proof.
  toy_params overflow_store.
  assert (vec (data overflow_store (bias (V toy_net)))
          = [IZR (-300000000000000000000000000000000000000);
             IZR 300000000000000000000000000000000000000]) as HVb
    by (vm_compute; reflexivity).
  unfold decoder_logsoftmax, decoder_pooled, decoder_features.
  cbn [seq mapM]. change (n_encoders toy_net) with 1.
  change (_cell_get_h ([toy_state] !!! 0)) with [[Fin 0]].
  rewrite overflow_attend. cbn [mbind result_bind mret result_ret].
  rewrite HWw, HWb, HVw, HVb.
  float_eval. repeat f_equal. lra.
Qed.

(** Without rounding both log-probabilities are finite. *)
Lemma exact_logsoftmax :
  ∃ a b, decoder_logsoftmax (F32:=exact32) toy_store toy_net toy_encoded2 1 [toy_state]
         = Ok [[Fin a; Fin b]].
Proof.
  toy_params toy_store.
  assert (vec (data toy_store (bias (V toy_net))) = [3; 4]%R) as HVb
    by (vm_compute; reflexivity).
  unfold decoder_logsoftmax, decoder_pooled, decoder_features.
  cbn [seq mapM]. change (n_encoders toy_net) with 1.
  change (_cell_get_h ([toy_state] !!! 0)) with [[Fin 0]].
  rewrite exact_attend. cbn [mbind result_bind mret result_ret].
  rewrite HWw, HWb, HVw, HVb.
  float_eval. by eexists _, _.
Qed.

(** ** The decoder of the small network: its state is the same at every
    timestep *)

Section toy_decoder.
Context {F32 : float32}.
Variables (σ : store) (e : encoded) (ts : list xmat).

Lemma toy_step_states s k s' :
  decoder_step (NN:=toy_nn) σ toy_net e 1 Score (Some ts) s k = Ok s' →
  dec_states s = [toy_state] → length (ts !!! k) = 1 →
  dec_states s' = [toy_state].
Proof using Type.
  unfold decoder_step. intros Hstep Hst Hlen.
  apply bind_Ok in Hstep as (logsoftmax & _ & Hstep). cbn zeta in Hstep.
  apply bind_Ok in Hstep as (picked & _ & Hstep).
  apply bind_Ok in Hstep as (states & Hstates & Hstep).
  injection Hstep as <-. cbn. rewrite Hst in Hstates. cbn in Hstates.
  injection Hstates as <-.
  destruct (ts !!! k) as [|r [|r' x]]; [done| |done]. reflexivity.
Qed.

Lemma toy_after_states s0 k : ∀ s,
  decoder_after (NN:=toy_nn) σ toy_net e 1 Score (Some ts) s0 k = Ok s →
  dec_states s0 = [toy_state] → (∀ k', k' < k → length (ts !!! k') = 1) →
  dec_states s = [toy_state].
Proof using Type.
  unfold decoder_after. induction k as [|k IH]; intros s Hs Hst Hlen.
  - cbn in Hs. by injection Hs as <-.
  - rewrite for_each_seq_S in Hs. apply bind_Ok in Hs as (s1 & Hs1 & Hstep).
    apply (toy_step_states s1 k s Hstep); [|apply Hlen; lia].
    apply IH; [done|done|]. intros k' Hk'. apply Hlen. lia.
Qed.

Lemma toy_logprob s0 k b s lsm :
  decoder_after (NN:=toy_nn) σ toy_net e 1 Score (Some ts) s0 k = Ok s →
  dec_states s = [toy_state] →
  decoder_logsoftmax σ toy_net e 1 [toy_state] = Ok lsm →
  logprob_at (NN:=toy_nn) σ toy_net e 1 Score (Some ts) s0 k b
  = selected lsm (dec_target s !!! k) b.
Proof using Type.
  intros Hs Hst Hlsm. unfold logprob_at. by rewrite Hs, Hst, Hlsm.
Qed.

Variables (target : ltensor) (rng : nat).
Hypothesis Hready : decoder_ready σ toy_net e 1 1.
Hypothesis Htarget : target_ready toy_net target 1.
Hypothesis Hts : scatter 2 target = Ok ts.
Hypothesis Hinit : dec_states (decoder_init σ toy_net e 1 1 target rng) = [toy_state].

(** Every timestep selects its entry from the same log-probabilities. *)
Lemma toy_logprob_at lsm k b :
  decoder_logsoftmax σ toy_net e 1 [toy_state] = Ok lsm →
  k < length target →
  logprob_at (NN:=toy_nn) σ toy_net e 1 Score (Some ts)
    (decoder_init σ toy_net e 1 1 target rng) k b
  = selected lsm (target !!! k) b.
Proof using All.
  intros Hlsm Hk.
  destruct (scatter_ready toy_net target 1 Htarget) as (ts' & Hts' & _ & Hlen).
  assert (ts' = ts) as -> by (cbn in Hts'; congruence).
  destruct (decoder_trace (NN:=toy_nn) σ toy_net e 1 1 target ts rng
              toy_cell_keeps_batch Hready Htarget Hlen k ltac:(lia))
    as (s & Hs & (Htgt & _) & _).
  rewrite (toy_logprob _ k b s lsm Hs); [by rewrite Htgt| |done].
  apply (toy_after_states _ k s Hs Hinit). intros k' Hk'. apply Hlen. lia.
Qed.
End toy_decoder.


(** ** The overflowing output layer *)

Lemma overflow_run_ready : run_ready overflow_store toy_net toy_inputs 1 1.
Proof.
  unfold run_ready. split_and!; try done; try lia; try compute_done.
  - intros i Hi. cbn in Hi. by assert (i = 0) as -> by lia.
  - intros i j Hi Hj. cbn in Hi. assert (i = 0) as -> by lia. assert (j = 0) as -> by lia.
    cbn. split_and!; [done| |]; repeat constructor; cbn; lia.
Qed.

Lemma overflow_target_ready : target_ready toy_net overflow_target 1.
Proof. split; repeat constructor; cbn; lia. Qed.

Lemma overflow_decoder_ready : decoder_ready overflow_store toy_net toy_encoded2 1 1.
Proof.
  destruct (encoder_pass_ready (F32:=sat32) (NN:=toy_nn) overflow_store toy_net toy_inputs 1 1
              toy_cell_keeps_batch overflow_run_ready) as (e & He & Hready).
  rewrite overflow_encoder_pass in He. by injection He as <-.
Qed.

Lemma exact_decoder_ready : decoder_ready toy_store toy_net toy_encoded2 1 1.
Proof.
  destruct (encoder_pass_ready (F32:=exact32) (NN:=toy_nn) toy_store toy_net toy_inputs 1 1
              toy_cell_keeps_batch toy_run_ready) as (e & He & Hready).
  rewrite exact_encoder_pass in He. by injection He as <-.
Qed.

Lemma overflow_init_states target rng :
  dec_states (decoder_init overflow_store toy_net toy_encoded2 1 1 target rng) = [toy_state].
Proof. vm_compute. reflexivity. Qed.

Lemma exact_init_states target rng :
  dec_states (decoder_init toy_store toy_net toy_encoded2 1 1 target rng) = [toy_state].
Proof. vm_compute. reflexivity. Qed.

(** The running score on the overflowing output layer: 0 after the
    end-of-sequence id, NaN one timestep later. *)
Lemma overflow_running tsc :
  scatter 2 overflow_target = Ok tsc →
  logprob_at (F32:=sat32) (NN:=toy_nn) overflow_store toy_net toy_encoded2 1 Score (Some tsc)
    (decoder_init overflow_store toy_net toy_encoded2 1 1 overflow_target 0) 0 0 = Fin 0
  ∧ logprob_at (F32:=sat32) (NN:=toy_nn) overflow_store toy_net toy_encoded2 1 Score (Some tsc)
      (decoder_init overflow_store toy_net toy_encoded2 1 1 overflow_target 0) 1 0 = NInf
  ∧ running (F32:=sat32) (NN:=toy_nn) overflow_store toy_net toy_encoded2 1 1
      overflow_target tsc 0 0 1 = Fin 0
  ∧ running (F32:=sat32) (NN:=toy_nn) overflow_store toy_net toy_encoded2 1 1
      overflow_target tsc 0 0 2 = NaN.
Proof.
  intros Htsc.
  pose proof (toy_logprob_at (F32:=sat32) overflow_store toy_encoded2 tsc overflow_target 0
                overflow_decoder_ready overflow_target_ready Htsc
                (overflow_init_states _ _) _ 0 0 overflow_logsoftmax ltac:(cbn; lia)) as H0.
  pose proof (toy_logprob_at (F32:=sat32) overflow_store toy_encoded2 tsc overflow_target 0
                overflow_decoder_ready overflow_target_ready Htsc
                (overflow_init_states _ _) _ 1 0 overflow_logsoftmax ltac:(cbn; lia)) as H1.
  change (selected _ _ _) with (Fin 0) in H0.
  change (selected _ _ _) with NInf in H1.
  assert (Hr1 : running (F32:=sat32) (NN:=toy_nn) overflow_store toy_net toy_encoded2 1 1
                  overflow_target tsc 0 0 1 = Fin 0).
  { cbn [running]. rewrite H0. change (flag_before _ _ _ 0) with 1%Z.
    unfold byte_float. float_eval. f_equal. lra. }
  split_and!; [done|done|done|].
  apply (running_NaN overflow_store toy_net toy_encoded2 1 1 overflow_target 0 tsc 0 0 1);
    [done|lia|done].
Qed.

(** Claim C3 as stated fails on the small network with the output biases
    [-3e38] and [3e38], in the format that is exact up to the largest
    float32 number: the target holds the end-of-sequence id at timestep 0,
    the running score is 0 after it, and timestep 1, whose id has the
    log-probability minus infinity, turns it into NaN. *)
Lemma score_not_frozen_on_overflow :
  cell_keeps_batch (NN:=toy_nn)
  ∧ run_ready overflow_store toy_net toy_inputs 1 1
  ∧ target_ready toy_net overflow_target 1
  ∧ (overflow_target !!! 0) !!! 0 = Z.of_nat (v_target toy_net)
  ∧ ∃ e tsc s s',
      @encoder_pass sat32 toy_nn overflow_store toy_net toy_inputs 1 1 = Ok e
      ∧ scatter (v_target toy_net + 1) overflow_target = Ok tsc
      ∧ @decoder_after sat32 toy_nn overflow_store toy_net e 1 Score (Some tsc)
          (decoder_init overflow_store toy_net e 1 1 overflow_target 0) 1 = Ok s
      ∧ @decoder_step sat32 toy_nn overflow_store toy_net e 1 Score (Some tsc) s 1 = Ok s'
      ∧ dec_score s !! 0 = Some (Fin 0)
      ∧ dec_score s' !! 0 = Some NaN.
Proof.
  split_and!; [exact toy_cell_keeps_batch|exact overflow_run_ready
              |exact overflow_target_ready|reflexivity|].
  destruct (decoder_score_running (F32:=sat32) (NN:=toy_nn) overflow_store toy_net
              toy_encoded2 1 1 overflow_target 0 toy_cell_keeps_batch
              overflow_decoder_ready overflow_target_ready)
    as (tsc & sn & Htsc & _ & _ & _ & Hsteps).
  destruct (Hsteps 1 ltac:(cbn; lia)) as (s1 & s2 & Hs1 & Hs2 & Hsc).
  destruct (Hsc 0 ltac:(lia)) as [Hx1 Hx2].
  destruct (overflow_running tsc Htsc) as (_ & _ & Hr1 & Hr2).
  exists toy_encoded2, tsc, s1, s2.
  split_and!; [exact overflow_encoder_pass|done|done|done| |].
  - by rewrite Hx1, Hr1.
  - by rewrite Hx2, Hr2.
Qed.


(** ** The statements on the small network *)

Lemma exact_logprob_finite tsc k :
  scatter 2 toy_target = Ok tsc → k < 3 →
  is_finite
    (logprob_at (F32:=exact32) (NN:=toy_nn) toy_store toy_net toy_encoded2 1 Score (Some tsc)
       (decoder_init toy_store toy_net toy_encoded2 1 1 toy_target 0) k 0).
Proof.
  intros Htsc Hk. destruct exact_logsoftmax as (a & b & Hlsm).
  rewrite (toy_logprob_at (F32:=exact32) toy_store toy_encoded2 tsc toy_target 0
             exact_decoder_ready toy_target_ready Htsc (exact_init_states _ _)
             _ k 0 Hlsm ltac:(cbn; lia)).
  destruct k as [|[|[|k]]]; [by eexists..|lia].
Qed.


(** Claim C3, as amended, on the small network without rounding, target ids [0; 1; 1]. *)
Lemma score_frozen_after_eos_witness :
  ∃ e tsc,
    @encoder_pass exact32 toy_nn toy_store toy_net toy_inputs 1 1 = Ok e
    ∧ scatter 2 toy_target = Ok tsc
    ∧ (∀ k, 1 < k < 3 →
         ∃ s s' x,
           @decoder_after exact32 toy_nn toy_store toy_net e 1 Score (Some tsc)
             (decoder_init toy_store toy_net e 1 1 toy_target 0) k = Ok s
           ∧ @decoder_step exact32 toy_nn toy_store toy_net e 1 Score (Some tsc) s k = Ok s'
           ∧ dec_score s !! 0 = Some x
           ∧ dec_score s' !! 0 = Some x)
    ∧ ∃ s x score,
        @decoder_after exact32 toy_nn toy_store toy_net e 1 Score (Some tsc)
          (decoder_init toy_store toy_net e 1 1 toy_target 0) 2 = Ok s
        ∧ dec_score s !! 0 = Some x
        ∧ @_run exact32 toy_nn toy_store toy_net (Tensors toy_inputs) (Some toy_target) Score 0
          = Ok (toy_target, score, 0)
        ∧ score !! 0 = Some x.
Proof.
  destruct (@score_frozen_after_eos exact32 toy_nn toy_store toy_net toy_inputs 1 1
              toy_target 0 0 1 exact32_stable toy_cell_keeps_batch toy_run_ready
              toy_target_ready)
    as (e & tsc & Hsteps & Hfinal).
  - lia.
  - cbn. lia.
  - reflexivity.
  - destruct Hfinal as (Htsc & Hsteps' & s & x & score & Hs & Hx & Hrun & Hscore).
    pose proof Hsteps as He. rewrite exact_encoder_pass in He. injection He as <-.
    exists toy_encoded2, tsc. split_and!; [done|done| |].
    + intros k Hk. destruct (Hsteps' k Hk) as (s1 & s2 & y & Hs1 & Hs2 & Hy & Hfin & _).
      exists s1, s2, y. split_and!; [done|done|done|].
      apply Hfin. apply exact_logprob_finite; [done|lia].
    + exists s, x, score. split_and!; [done|done|done|].
      apply Hscore. intros k Hk. cbn in Hk. apply exact_logprob_finite; [done|lia].
Defined.

Lemma sat32_stable : @rnd_stable sat32.
Proof.
  assert (0 < max32)%R as Hmax by (unfold max32; lra).
  split; [apply sat_rnd_in; lra|]. intros x y Hx.
  destruct (Rlt_dec max32 x); [by rewrite sat_rnd_hi in Hx|].
  destruct (Rlt_dec x (- max32)); [by rewrite sat_rnd_lo in Hx|].
  rewrite sat_rnd_in in Hx by lra. injection Hx as <-. apply sat_rnd_in. lra.
Qed.


(** ** The attention weights in the two formats *)

Lemma exp_unit a : (a <= 0)%R → (0 <= exp a <= 1)%R.
Proof.
  intros Ha. pose proof (exp_pos a). split; [lra|].
  destruct (Req_dec_T a 0) as [->|Hne]; [rewrite exp_0; lra|].
  rewrite <-exp_0. left. apply exp_increasing. lra.
Qed.


Lemma sat32_laws : rnd_laws (F32:=sat32) 0 0 max32.
Proof.
  assert (0 < max32)%R as Hmax by (unfold max32; lra).
  split.
  - apply sat_rnd_in. lra.
  - intros x Hx. apply Rabs_le_between in Hx. exists x.
    split; [by apply sat_rnd_in|].
    replace (x - x)%R with 0%R by lra. rewrite Rabs_R0.
    pose proof (Rabs_pos x). lra.
  - intros x Hx. destruct (Rlt_dec max32 x).
    + left. by apply sat_rnd_hi.
    + right. exists x. split; [apply sat_rnd_in; lra|done].
  - intros x Hx. destruct (Rlt_dec x (- max32)).
    + left. by apply sat_rnd_lo.
    + right. exists x. split; [apply sat_rnd_in; lra|done].
  - cbn. by rewrite exp_0.
  - intros a Ha. exists (exp a). split; [done|by apply exp_unit].
Qed.




(** ** The index dictionaries *)

Lemma vocabulary_index_prefix_last (vocabulary : list token) n :
  n ≤ length vocabulary →
  ∀ x j,
    foldl (λ d j, match vocabulary !! j with
                  | Some x => <[x:=j]> d
                  | None => d
                  end) (∅ : gmap token nat) (seq 0 n) !! x = Some j
    ↔ j < n ∧ vocabulary !! j = Some x
      ∧ ∀ j', j < j' → j' < n → vocabulary !! j' ≠ Some x.
Proof.
  induction n as [|n IH]; intros Hn x j.
  - cbn. rewrite lookup_empty. split; [done|]. intros [? _]. lia.
  - destruct (lookup_lt_is_Some_2 vocabulary n) as [y Hy]; [lia|].
    rewrite seq_S, foldl_app. cbn [foldl]. rewrite Nat.add_0_l, Hy.
    destruct (decide (y = x)) as [->|Hne].
    + rewrite lookup_insert_eq. split.
      * intros [= <-]. split_and!; [lia|done|]. intros; lia.
      * intros (Hj & Hjx & Hlast).
        destruct (decide (j = n)) as [->|Hjn]; [done|].
        destruct (Hlast n); [lia|lia|done].
    + rewrite lookup_insert_ne by done. rewrite (IH ltac:(lia)). split.
      * intros (Hj & Hjx & Hlast). split_and!; [lia|done|].
        intros j' Hj' Hj'n. destruct (decide (j' = n)) as [->|Hj'']; [congruence|].
        apply Hlast; lia.
      * intros (Hj & Hjx & Hlast).
        assert (j ≠ n) by congruence.
        split_and!; [lia|done|]. intros j' ? ?. apply Hlast; lia.
Qed.

Lemma vocabulary_index_last vocabulary x j :
  vocabulary_index vocabulary !! x = Some j
  ↔ vocabulary !! j = Some x ∧ ∀ j', j < j' → vocabulary !! j' ≠ Some x.
Proof.
  unfold vocabulary_index.
  rewrite (vocabulary_index_prefix_last vocabulary (length vocabulary)) by done.
  split.
  - intros (_ & Hj & Hlast). split; [done|]. intros j' Hj' Hx.
    apply (Hlast j'); [done| |done]. by eapply lookup_lt_Some.
  - intros (Hj & Hlast). split_and!; [by eapply lookup_lt_Some|done|]. intros; by apply Hlast.
Qed.

Lemma vocabulary_index_None_iff vocabulary x :
  vocabulary_index vocabulary !! x = None ↔ x ∉ vocabulary.
Proof.
  split; [apply vocabulary_index_None|].
  intros Hx. destruct (vocabulary_index vocabulary !! x) as [j|] eqn:Hj; [|done].
  apply vocabulary_index_Some in Hj. destruct Hx. by eapply list_elem_of_lookup_2.
Qed.

(** [_refreshVocabularyIndex] maps every word of a vocabulary to its last
    position in it, and nothing else; the vocabularies are unchanged. *)
Theorem _refreshVocabularyIndex_last (n : net) :
  let n' := _refreshVocabularyIndex n in
  (∀ x j, target_vocabulary_index n' !! x = Some j
          ↔ target_vocabulary n !! j = Some x
            ∧ ∀ j', j < j' → target_vocabulary n !! j' ≠ Some x)
  ∧ (∀ x, target_vocabulary_index n' !! x = None ↔ x ∉ target_vocabulary n)
  ∧ length (input_vocabularies_index n') = length (input_vocabularies n)
  ∧ (∀ i vocabulary x j,
       input_vocabularies n !! i = Some vocabulary →
       ∃ d, input_vocabularies_index n' !! i = Some d
            ∧ (d !! x = Some j
               ↔ vocabulary !! j = Some x ∧ ∀ j', j < j' → vocabulary !! j' ≠ Some x)
            ∧ (d !! x = None ↔ x ∉ vocabulary))
  ∧ target_vocabulary n' = target_vocabulary n
  ∧ input_vocabularies n' = input_vocabularies n.
Proof.
  cbn. split_and!; try done.
  - intros x j. apply vocabulary_index_last.
  - intros x. apply vocabulary_index_None_iff.
  - by rewrite length_fmap.
  - intros i vocabulary x j Hi. exists (vocabulary_index vocabulary).
    rewrite list_lookup_fmap, Hi. split_and!; [done| |].
    + apply vocabulary_index_last.
    + apply vocabulary_index_None_iff.
Qed.


(** ** The layout of encoded tensors *)

Lemma foldl_max_max_list ns : ∀ n, foldl Nat.max n ns = n `max` max_list ns.
Proof.
  induction ns as [|m ns IH]; intros n; cbn; [lia|]. rewrite IH. unfold id. lia.
Qed.

Lemma py_max_max_list ns : ns ≠ [] → py_max ns = Ok (max_list ns).
Proof.
  destruct ns as [|n ns]; [done|]. intros _. cbn. by rewrite foldl_max_max_list.
Qed.

Lemma max_list_ge ns : Forall (λ k, k ≤ max_list ns) ns.
Proof.
  induction ns as [|n ns IH]; constructor; cbn; unfold id in *; [lia|].
  eapply Forall_impl; [exact IH|]. cbn. intros; lia.
Qed.

Lemma column_entry `{Inhabited A} (t : list (list A)) c k :
  k < length t → (t !!! k) !!! c = column t c !!! k.
Proof.
  intros Hk. destruct (lookup_lt_is_Some_2 t k Hk) as [row Hrow].
  rewrite (list_lookup_total_correct _ _ _ Hrow). symmetry.
  apply list_lookup_total_correct. by rewrite column_lookup, Hrow.
Qed.

(** The columns of a tensor that [fill_columns] built from a tensor of
    padding: the ids of the sequence, then the padding. *)
Lemma filled_columns d B v rows seqs :
  Forall (known d) seqs → length seqs = B →
  Forall (λ s, length s < rows) seqs →
  ∃ t, fill_columns (Ok d) 0 seqs (ones_times rows B v) = Ok t
    ∧ length t = rows ∧ rect B t
    ∧ ∀ c s, seqs !! c = Some s →
        column t c = ids_of d s ++ replicate (rows - length s) v.
Proof.
  intros Hknown HB Hlen.
  destruct (fill_columns_known d B seqs 0 (ones_times rows B v))
    as (t & Hfill & Hl & Hrect & Hcols); [done|apply ones_times_rect|lia| |].
  { rewrite ones_times_length. eapply Forall_impl; [exact Hlen|]. cbn. intros; lia. }
  rewrite ones_times_length in Hl.
  exists t. split_and!; try done.
  intros c s Hc. rewrite Hcols, Nat.sub_0_r, Hc, decide_True by lia. f_equal.
  rewrite column_ones_times by (subst B; by eapply lookup_lt_Some).
  by rewrite drop_replicate.
Qed.

Lemma ids_of_lookup d s k x :
  s !! k = Some x → ids_of d s !! k = Some (Z.of_nat (d !!! x)).
Proof. intros Hk. unfold ids_of. by rewrite list_lookup_fmap, Hk. Qed.

Lemma ids_of_length d s : length (ids_of d s) = length s.
Proof. unfold ids_of. by rewrite length_fmap. Qed.

(** The entries of a column made of ids and padding. *)
Lemma padded_column_entries d (s : list token) n (v : Z) (col : list Z) :
  col = ids_of d s ++ replicate n v →
  (∀ k x, s !! k = Some x → col !!! k = Z.of_nat (d !!! x))
  ∧ (∀ k, length s ≤ k → k < length s + n → col !!! k = v).
Proof.
  intros ->. split.
  - intros k x Hk. apply list_lookup_total_correct.
    rewrite lookup_app_l by (rewrite ids_of_length; by eapply lookup_lt_Some).
    by apply ids_of_lookup.
  - intros k Hk Hkn. apply list_lookup_total_correct.
    rewrite lookup_app_r by (rewrite ids_of_length; lia).
    rewrite ids_of_length. apply lookup_replicate_2. lia.
Qed.

Lemma rect_of_columns {A} `{Inhabited A} (P : A → Prop) B (t : list (list A)) :
  rect B t → (∀ c, c < B → Forall P (column t c)) → Forall (Forall P) t.
Proof.
  intros Hrect Hcols. apply Forall_lookup_2. intros r row Hr.
  pose proof (rect_lookup _ _ _ _ Hrect Hr) as Hlen.
  apply Forall_lookup_2. intros c x Hc.
  pose proof (lookup_lt_Some _ _ _ Hc) as Hlt. rewrite Hlen in Hlt.
  pose proof (Hcols c Hlt) as Hcol.
  eapply (Forall_lookup_1 _ _ r x Hcol).
  rewrite column_lookup, Hr. cbn. by rewrite (list_lookup_total_correct _ _ _ Hc).
Qed.

Lemma _targetToTensor_entries self targets :
  net_wf self → targets ≠ [] →
  Forall (Forall (λ x, x ∈ target_vocabulary self)) targets →
  ∃ t, _targetToTensor self targets = Ok t
    ∧ length t = max_list (length <$> targets) + 1
    ∧ rect (length targets) t
    ∧ ∀ c s, targets !! c = Some s →
        (∀ k x, s !! k = Some x →
           ∃ j, (t !!! k) !!! c = Z.of_nat j
                ∧ target_vocabulary_index self !! x = Some j
                ∧ j < v_target self)
        ∧ (∀ k, length s ≤ k → k < length t →
             (t !!! k) !!! c = Z.of_nat (v_target self)).
Proof.
  intros (_ & _ & Hidx & _ & Hv) Hne Hvoc.
  pose proof (max_list_ge (length <$> targets)) as Hmax. rewrite Forall_fmap in Hmax.
  destruct (filled_columns (target_vocabulary_index self) (length targets)
              (Z.of_nat (v_target self)) (max_list (length <$> targets) + 1) targets)
    as (t & Hfill & Hlen & Hrect & Hcols); [|done| |].
  { rewrite Hidx. eapply Forall_impl; [exact Hvoc|]. intros s. apply known_of_elem. }
  { eapply Forall_impl; [exact Hmax|]. cbn. intros; lia. }
  exists t. split_and!; try done.
  - unfold _targetToTensor. rewrite py_max_max_list by (by destruct targets). exact Hfill.
  - intros c s Hc.
    pose proof (Forall_lookup_1 _ _ _ _ Hmax Hc) as Hs. cbn in Hs.
    destruct (padded_column_entries _ _ _ _ _ (Hcols c s Hc)) as [Hids Hpad].
    split.
    + intros k x Hk.
      assert (Hx : x ∈ target_vocabulary self).
      { pose proof (Forall_lookup_1 _ _ _ _ Hvoc Hc) as Hsv.
        by apply (Forall_lookup_1 _ _ _ _ Hsv Hk). }
      destruct (vocabulary_index_elem _ _ Hx) as [j Hj].
      exists j. rewrite Hidx. split_and!; [|done|].
      * rewrite column_entry by (pose proof (lookup_lt_Some _ _ _ Hk); lia).
        rewrite (Hids k x Hk), Hidx. by rewrite (lookup_total_correct _ _ _ Hj).
      * rewrite Hv. apply vocabulary_index_Some in Hj. by eapply lookup_lt_Some.
    + intros k Hk Hkt. rewrite column_entry by done.
      rewrite Hpad by lia. lia.
Qed.

(** The tensor of [_targetToTensor]: one column per sequence, one row more
    than the longest sequence, the ids of the tokens followed by the
    end-of-sequence id down to the last row. *)
Theorem _targetToTensor_layout self targets :
  net_wf self → targets ≠ [] →
  Forall (Forall (λ x, x ∈ target_vocabulary self)) targets →
  ∃ t, _targetToTensor self targets = Ok t
    ∧ length t = max_list (length <$> targets) + 1
    ∧ rect (length targets) t
    ∧ ∀ c s, targets !! c = Some s →
        (∀ k x, s !! k = Some x →
           ∃ j, (t !!! k) !!! c = Z.of_nat j
                ∧ target_vocabulary_index self !! x = Some j
                ∧ j < v_target self)
        ∧ (∀ k, length s ≤ k → k < length t →
             (t !!! k) !!! c = Z.of_nat (v_target self)).
Proof. exact (_targetToTensor_entries self targets). Qed.

Lemma _targetToTensor_layout_witness :
  ∃ t, _targetToTensor toy_net [["a"%string]; []] = Ok t
       ∧ length t = 2 ∧ (t !!! 0) !!! 0 = 0%Z ∧ (t !!! 0) !!! 1 = 1%Z.
Proof.
  destruct (_targetToTensor_layout toy_net [["a"%string]; []]) as (t & Ht & Hlen & _ & Hcols).
  - by split_and!.
  - done.
  - repeat constructor.
  - exists t. split_and!; [done|done| |].
    + destruct (Hcols 0 ["a"%string] eq_refl) as [Hids _].
      destruct (Hids 0 "a"%string eq_refl) as (j & -> & Hj & _).
      vm_compute in Hj. by injection Hj as <-.
    + destruct (Hcols 1 [] eq_refl) as [_ Hpad]. apply Hpad; cbn; lia.
Defined.


(** ** Decoding arbitrary tensors *)

Lemma before_eos_absent v l : v ∉ l → before_eos v l = l.
Proof.
  induction l as [|x l IH]; [done|]. intros Hv. cbn.
  rewrite decide_False by (intros ->; apply Hv; by left).
  f_equal. apply IH. intros ?. apply Hv. by right.
Qed.

Lemma before_eos_index v l n : py_index l v = Ok n → take n l = before_eos v l.
Proof.
  revert n. induction l as [|x l IH]; intros n; cbn; [done|].
  destruct (decide (x = v)) as [->|Hne].
  - by intros [= <-].
  - destruct (py_index l v) as [m|] eqn:Hm; cbn; [|done].
    intros [= <-]. cbn. f_equal. by apply IH.
Qed.

Lemma before_eos_length v l : length (before_eos v l) ≤ length l.
Proof. induction l as [|x l IH]; cbn; [lia|]. destruct (decide (x = v)); cbn; lia. Qed.

Lemma mapM_py_getitem (vocabulary : list token) (ids : list Z) :
  Forall (λ x, 0 ≤ x < Z.of_nat (length vocabulary))%Z ids →
  mapM (py_getitem vocabulary) ids = Ok ((λ x, vocabulary !!! Z.to_nat x) <$> ids).
Proof.
  intros Hids. apply mapM_Ok_fmap.
  eapply Forall_impl; [exact Hids|]. intros x Hx. cbn in Hx.
  unfold py_getitem. rewrite decide_True by lia. unfold py_nth.
  destruct (lookup_lt_is_Some_2 vocabulary (Z.to_nat x) ltac:(lia)) as [tok Htok].
  by rewrite Htok, (list_lookup_total_correct _ _ _ Htok).
Qed.

Lemma output_column_before_eos self l :
  l ≠ [] →
  Forall (λ x, 0 ≤ x < Z.of_nat (length (target_vocabulary self)))%Z
         (before_eos (Z.of_nat (v_target self)) l) →
  output_column self l
  = Ok ((λ x, target_vocabulary self !!! Z.to_nat x)
          <$> before_eos (Z.of_nat (v_target self)) l).
Proof.
  intros Hne Hids. unfold output_column.
  destruct l as [|l0 l]; [done|]. cbn [py_nth lookup list_lookup mbind result_bind].
  destruct (decide (l0 = Z.of_nat (v_target self))) as [->|Hl0].
  - cbn. by rewrite decide_True.
  - unfold py_in. destruct (bool_decide_reflect (Z.of_nat (v_target self) ∈ l0 :: l)) as [Hin|Hin].
    + destruct (py_index_elem _ _ Hin) as (final & Hfinal & _).
      rewrite Hfinal. cbn [mbind result_bind].
      rewrite (before_eos_index _ _ _ Hfinal). by apply mapM_py_getitem.
    + rewrite before_eos_absent in Hids |- * by done. by apply mapM_py_getitem.
Qed.

Lemma _tensorToOutput_columns self tensor B :
  tensor ≠ [] → rect B tensor →
  (∀ c, c < B →
     Forall (λ x, 0 ≤ x < Z.of_nat (length (target_vocabulary self)))%Z
            (before_eos (Z.of_nat (v_target self)) (column tensor c))) →
  _tensorToOutput self tensor
  = Ok ((λ c, (λ x, target_vocabulary self !!! Z.to_nat x)
                <$> before_eos (Z.of_nat (v_target self)) (column tensor c))
          <$> seq 0 B).
Proof.
  intros Hne Hrect Hids. unfold _tensorToOutput.
  rewrite (size1_rect _ _ Hrect Hne).
  apply mapM_Ok_fmap. apply Forall_forall. intros c Hc%elem_of_seq.
  apply output_column_before_eos.
  - destruct tensor; [done|]. done.
  - apply Hids. lia.
Qed.

(** [_tensorToOutput] decodes of every column the ids before its first
    end-of-sequence id, and the whole column when it has none. *)
Theorem _tensorToOutput_before_eos self tensor B :
  tensor ≠ [] → rect B tensor →
  (∀ c, c < B →
     Forall (λ x, 0 ≤ x < Z.of_nat (length (target_vocabulary self)))%Z
            (before_eos (Z.of_nat (v_target self)) (column tensor c))) →
  _tensorToOutput self tensor
  = Ok ((λ c, (λ x, target_vocabulary self !!! Z.to_nat x)
                <$> before_eos (Z.of_nat (v_target self)) (column tensor c))
          <$> seq 0 B).
Proof. exact (_tensorToOutput_columns self tensor B). Qed.

Lemma _tensorToOutput_before_eos_witness :
  _tensorToOutput toy_net [[0; 1]; [1; 5]]%Z = Ok [["a"%string]; []].
Proof.
  apply (_tensorToOutput_before_eos toy_net [[0; 1]; [1; 5]]%Z 2).
  - done.
  - repeat constructor.
  - intros c Hc. destruct c as [|[|c]]; [| |lia]; cbn; repeat constructor; lia.
Defined.


(** ** The layout of the input tensors *)

(** A loop that appends one computed element per iteration collects the
    elements that [mapM] computes. *)
Lemma for_each_append {A B} (f : A → result B) (l : list A) : ∀ acc,
  for_each (λ acc a, x ← f a; Ok (acc ++ [x])) acc l
  = (xs ← mapM f l; Ok (acc ++ xs)).
Proof.
  induction l as [|a l IH]; intros acc; cbn.
  - by rewrite app_nil_r.
  - destruct (f a) as [x|e]; cbn; [|done]. rewrite IH.
    destruct (mapM f l) as [xs|e]; cbn; [|done]. by rewrite <- app_assoc.
Qed.

Lemma stream_lookup inputsss j i k inst ex s :
  inputsss !! k = Some inst → inst !! j = Some ex → ex !! i = Some s →
  stream inputsss j i !! k = Some s.
Proof.
  intros Hk Hj Hi. unfold stream. rewrite list_lookup_fmap, Hk. cbn.
  by rewrite (list_lookup_total_correct _ _ _ Hj), (list_lookup_total_correct _ _ _ Hi).
Qed.

Section inputs_layout.
Variables (self : net) (inputsss : batch) (m : nat).
Hypothesis Hwf : net_wf self.
Hypothesis Hne : inputsss ≠ [].
Hypothesis Hshape :
  Forall (λ inst, length inst = m
                  ∧ Forall (λ ex, length ex = n_encoders self) inst) inputsss.
Hypothesis Hknown : known_inputs self inputsss.

Lemma stream_known i j vocabulary :
  j < m → input_vocabularies self !! i = Some vocabulary →
  Forall (Forall (λ x, x ∈ vocabulary)) (stream inputsss j i).
Proof using Hwf Hshape Hknown.
  intros Hj Hi. unfold stream. apply Forall_fmap, Forall_forall. intros inst Hinst. cbn.
  pose proof (proj1 (Forall_forall _ _) Hshape inst Hinst) as [Hlen Hex].
  destruct (lookup_lt_is_Some_2 inst j ltac:(lia)) as [ex Hexj].
  pose proof (Forall_lookup_1 _ _ _ _ Hex Hexj) as Hl. cbn in Hl.
  pose proof (lookup_lt_Some _ _ _ Hi) as Hilt.
  destruct Hwf as (Hn & _).
  destruct (lookup_lt_is_Some_2 ex i ltac:(lia)) as [s Hs].
  rewrite (list_lookup_total_correct _ _ _ Hexj), (list_lookup_total_correct _ _ _ Hs).
  eapply (Hknown inst ex i s vocabulary); try done.
  by eapply list_elem_of_lookup_2.
Qed.

(** One tensor of the result: encoder [i], example [j]. *)
Lemma inputs_body_columns i j row vocabulary :
  j < m → input_vocabularies self !! i = Some vocabulary →
  ∃ t, inputs_body self inputsss i row j = Ok (row ++ [t])
    ∧ length t = max_list (length <$> stream inputsss j i) + 1
    ∧ rect (length inputsss) t
    ∧ ∀ c s, stream inputsss j i !! c = Some s →
        column t c = ids_of (vocabulary_index vocabulary) s
                     ++ replicate (length t - length s) (Z.of_nat (length vocabulary)).
Proof using All.
  intros Hj Hi.
  pose proof Hwf as (Hn & Hidx & _ & Hv & _).
  pose proof (lookup_lt_Some _ _ _ Hi) as Hilt. rewrite <-Hn in Hilt.
  unfold inputs_body.
  rewrite (mapM_Ok_fmap _ (λ inst, (inst !!! j) !!! i)).
  2:{ eapply Forall_impl; [exact Hshape|]. intros inst [Hm Hex]. cbn in *.
      destruct (lookup_lt_is_Some_2 inst j ltac:(lia)) as [ex Hexj].
      rewrite (proj2 (py_nth_Ok _ _ _) Hexj). cbn.
      rewrite (list_lookup_total_correct _ _ _ Hexj).
      pose proof (Forall_lookup_1 _ _ _ _ Hex Hexj) as Hl. cbn in Hl.
      destruct (lookup_lt_is_Some_2 ex i ltac:(lia)) as [s Hs].
      rewrite (list_lookup_total_correct _ _ _ Hs).
      by apply py_nth_Ok. }
  cbn [mbind result_bind]. fold (stream inputsss j i).
  assert (Hlen : length (stream inputsss j i) = length inputsss)
    by (unfold stream; by rewrite length_fmap).
  rewrite py_max_max_list by (unfold stream; by destruct inputsss).
  cbn [mbind result_bind]. rewrite Hv, Hidx.
  rewrite (proj2 (py_nth_Ok (length <$> input_vocabularies self) i (length vocabulary)))
    by (by rewrite list_lookup_fmap, Hi).
  cbn [mbind result_bind].
  rewrite (proj2 (py_nth_Ok (vocabulary_index <$> input_vocabularies self) i
                    (vocabulary_index vocabulary)))
    by (by rewrite list_lookup_fmap, Hi).
  rewrite Hlen.
  pose proof (max_list_ge (length <$> stream inputsss j i)) as Hmax.
  rewrite Forall_fmap in Hmax.
  destruct (filled_columns (vocabulary_index vocabulary) (length inputsss)
              (Z.of_nat (length vocabulary))
              (max_list (length <$> stream inputsss j i) + 1) (stream inputsss j i))
    as (t & Hfill & Hl & Hrect & Hcols); [|done| |].
  { eapply Forall_impl; [apply (stream_known i j vocabulary Hj Hi)|].
    intros s. apply known_of_elem. }
  { eapply Forall_impl; [exact Hmax|]. cbn. intros; lia. }
  exists t. rewrite Hfill. cbn [mbind result_bind]. split_and!; try done.
  intros c s Hc. rewrite Hl. by apply Hcols.
Qed.

Lemma _inputsToTensors_columns :
  ∃ ts, _inputsToTensors self inputsss = Ok ts
    ∧ length ts = n_encoders self
    ∧ ∀ i vocabulary, input_vocabularies self !! i = Some vocabulary →
        length (ts !!! i) = m
        ∧ ∀ j, j < m →
           length ((ts !!! i) !!! j) = max_list (length <$> stream inputsss j i) + 1
           ∧ rect (length inputsss) ((ts !!! i) !!! j)
           ∧ ∀ c s, stream inputsss j i !! c = Some s →
               column ((ts !!! i) !!! j) c
               = ids_of (vocabulary_index vocabulary) s
                 ++ replicate (length ((ts !!! i) !!! j) - length s)
                      (Z.of_nat (length vocabulary)).
Proof using All.
  rewrite _inputsToTensors_unfold.
  destruct (lookup_lt_is_Some_2 inputsss 0) as [x0 Hx0'].
  { pose proof Hne as Hne'. destruct inputsss; [done|cbn; lia]. }
  assert (Hx0 : py_nth inputsss 0 = Ok x0) by (by apply py_nth_Ok).
  assert (Hm : length x0 = m).
  { by destruct (Forall_lookup_1 _ _ _ _ Hshape Hx0'). }
  pose proof Hwf as (Hn & _).
  set (P := λ (i : nat) (row : list ltensor),
    length row = m
    ∧ ∀ vocabulary, input_vocabularies self !! i = Some vocabulary →
      ∀ j, j < m →
        length (row !!! j) = max_list (length <$> stream inputsss j i) + 1
        ∧ rect (length inputsss) (row !!! j)
        ∧ ∀ c s, stream inputsss j i !! c = Some s →
            column (row !!! j) c
            = ids_of (vocabulary_index vocabulary) s
              ++ replicate (length (row !!! j) - length s)
                   (Z.of_nat (length vocabulary))).
  destruct (for_each_seq_inv
    (λ tensors i,
      x0 ← py_nth inputsss 0;
      row ← for_each (inputs_body self inputsss i) [] (seq 0 (length x0));
      Ok (tensors ++ [row]))
    (λ i tensors, length tensors = i ∧ ∀ i', i' < i → P i' (tensors !!! i'))
    (n_encoders self) 0 []) as (ts & Hts & Hlen & HP).
  - split; [done|]. intros; lia.
  - intros i tensors Hi [Hlen HP]. rewrite Hx0. cbn [mbind result_bind]. rewrite Hm.
    destruct (lookup_lt_is_Some_2 (input_vocabularies self) i ltac:(lia))
      as [vocabulary Hvoc].
    destruct (for_each_seq_inv (inputs_body self inputsss i)
      (λ j row, length row = j ∧ ∀ j', j' < j →
         length (row !!! j') = max_list (length <$> stream inputsss j' i) + 1
         ∧ rect (length inputsss) (row !!! j')
         ∧ ∀ c s, stream inputsss j' i !! c = Some s →
             column (row !!! j') c
             = ids_of (vocabulary_index vocabulary) s
               ++ replicate (length (row !!! j') - length s)
                    (Z.of_nat (length vocabulary)))
      m 0 []) as (row & Hrow & Hrlen & Hrows).
    + split; [done|]. intros; lia.
    + intros j row Hj [Hrlen Hrows].
      destruct (inputs_body_columns i j row vocabulary ltac:(lia) Hvoc)
        as (t & Ht & Htl & Htr & Htc).
      exists (row ++ [t]). split; [done|]. rewrite length_app. cbn. split; [lia|].
      intros j' Hj'. destruct (decide (j' = j)) as [->|Hjne].
      * rewrite lookup_total_app_r by lia. rewrite Hrlen, Nat.sub_diag. cbn.
        by split_and!.
      * rewrite lookup_total_app_l by lia. apply Hrows. lia.
    + rewrite Hrow. cbn [mbind result_bind]. eexists. split; [done|].
      rewrite length_app. cbn. split; [lia|].
      intros i' Hi'. destruct (decide (i' = i)) as [->|Hine].
      * rewrite lookup_total_app_r by lia. rewrite Hlen, Nat.sub_diag. cbn.
        split; [lia|]. intros vocabulary' Hvoc' j Hj.
        assert (vocabulary' = vocabulary) as -> by congruence.
        apply Hrows. lia.
      * rewrite lookup_total_app_l by lia. apply HP. lia.
  - exists ts. split; [done|]. split; [lia|].
    intros i vocabulary Hvoc.
    pose proof (lookup_lt_Some _ _ _ Hvoc) as Hilt.
    destruct (HP i ltac:(lia)) as [Hl Hi]. split; [done|]. by apply Hi.
Qed.
End inputs_layout.


Lemma ids_of_bounded vocabulary s :
  Forall (λ x, x ∈ vocabulary) s →
  Forall (λ x, 0 ≤ x < Z.of_nat (length vocabulary))%Z
         (ids_of (vocabulary_index vocabulary) s).
Proof.
  intros Hs. unfold ids_of. apply Forall_fmap.
  eapply Forall_impl; [exact Hs|]. intros x Hx. cbn.
  destruct (vocabulary_index_elem _ _ Hx) as [j Hj].
  rewrite (lookup_total_correct _ _ _ Hj).
  apply vocabulary_index_Some in Hj. apply lookup_lt_Some in Hj. lia.
Qed.

Lemma _inputsToTensors_entries self inputsss m :
  net_wf self → inputsss ≠ [] →
  Forall (λ inst, length inst = m
                  ∧ Forall (λ ex, length ex = n_encoders self) inst) inputsss →
  known_inputs self inputsss →
  ∃ ts, _inputsToTensors self inputsss = Ok ts
    ∧ length ts = n_encoders self
    ∧ ∀ i, i < n_encoders self →
        length (ts !!! i) = m
        ∧ ∀ j, j < m →
            length ((ts !!! i) !!! j) = max_list (length <$> stream inputsss j i) + 1
            ∧ rect (length inputsss) ((ts !!! i) !!! j)
            ∧ ∀ k inst ex s,
                inputsss !! k = Some inst → inst !! j = Some ex → ex !! i = Some s →
                (∀ p x, s !! p = Some x →
                   ∃ id, (((ts !!! i) !!! j) !!! p) !!! k = Z.of_nat id
                         ∧ (input_vocabularies_index self !!! i) !! x = Some id
                         ∧ id < v_inputs self !!! i)
                ∧ (∀ p, length s ≤ p → p < length ((ts !!! i) !!! j) →
                     (((ts !!! i) !!! j) !!! p) !!! k = Z.of_nat (v_inputs self !!! i)).
Proof.
  intros Hwf Hne Hshape Hknown.
  destruct (_inputsToTensors_columns self inputsss m Hwf Hne Hshape Hknown)
    as (ts & Hts & Hlen & Hrows).
  exists ts. split_and!; [done|done|]. intros i Hi.
  pose proof Hwf as (Hn & Hidx & _ & Hv & _).
  destruct (lookup_lt_is_Some_2 (input_vocabularies self) i ltac:(lia)) as [vocabulary Hvoc].
  destruct (Hrows i vocabulary Hvoc) as [Hm Hjs]. split; [done|]. intros j Hj.
  destruct (Hjs j Hj) as (Hl & Hrect & Hcols). split_and!; [done|done|].
  intros k inst ex s Hk Hexj Hs.
  pose proof (Hcols k s (stream_lookup _ _ _ _ _ _ _ Hk Hexj Hs)) as Hcol.
  destruct (padded_column_entries _ _ _ _ _ Hcol) as [Hids Hpad].
  assert (Hsl : length s < length ((ts !!! i) !!! j)).
  { rewrite Hl.
    pose proof (max_list_ge (length <$> stream inputsss j i)) as Hmax.
    rewrite Forall_fmap in Hmax.
    pose proof (Forall_lookup_1 _ _ _ _ Hmax (stream_lookup _ _ _ _ _ _ _ Hk Hexj Hs)) as Hle.
    cbn in Hle. lia. }
  assert (Hvi : v_inputs self !!! i = length vocabulary).
  { rewrite Hv. apply list_lookup_total_correct. by rewrite list_lookup_fmap, Hvoc. }
  assert (Hdi : input_vocabularies_index self !!! i = vocabulary_index vocabulary).
  { rewrite Hidx. apply list_lookup_total_correct. by rewrite list_lookup_fmap, Hvoc. }
  split.
  - intros p x Hp.
    assert (Hx : x ∈ vocabulary).
    { assert (Hsv : Forall (λ x, x ∈ vocabulary) s).
      { eapply (Hknown inst ex i s vocabulary); try done.
        - by eapply list_elem_of_lookup_2.
        - by eapply list_elem_of_lookup_2. }
      by apply (Forall_lookup_1 _ _ _ _ Hsv Hp). }
    destruct (vocabulary_index_elem _ _ Hx) as [id Hid].
    exists id. rewrite Hdi, Hvi. split_and!; [|done|].
    + rewrite column_entry by (pose proof (lookup_lt_Some _ _ _ Hp); lia).
      rewrite (Hids p x Hp). by rewrite (lookup_total_correct _ _ _ Hid).
    + apply vocabulary_index_Some in Hid. by eapply lookup_lt_Some.
  - intros p Hp Hpt. rewrite column_entry by done. rewrite Hpad by lia. by rewrite Hvi.
Qed.

(** The tensors of [_inputsToTensors]: one per encoder and example, with one
    column per instance of the batch, holding the ids of the sequence and
    then the end-of-sequence id of that encoder. *)
Theorem _inputsToTensors_layout self inputsss m :
  net_wf self → inputsss ≠ [] →
  Forall (λ inst, length inst = m
                  ∧ Forall (λ ex, length ex = n_encoders self) inst) inputsss →
  known_inputs self inputsss →
  ∃ ts, _inputsToTensors self inputsss = Ok ts
    ∧ length ts = n_encoders self
    ∧ ∀ i, i < n_encoders self →
        length (ts !!! i) = m
        ∧ ∀ j, j < m →
            length ((ts !!! i) !!! j) = max_list (length <$> stream inputsss j i) + 1
            ∧ rect (length inputsss) ((ts !!! i) !!! j)
            ∧ ∀ k inst ex s,
                inputsss !! k = Some inst → inst !! j = Some ex → ex !! i = Some s →
                (∀ p x, s !! p = Some x →
                   ∃ id, (((ts !!! i) !!! j) !!! p) !!! k = Z.of_nat id
                         ∧ (input_vocabularies_index self !!! i) !! x = Some id
                         ∧ id < v_inputs self !!! i)
                ∧ (∀ p, length s ≤ p → p < length ((ts !!! i) !!! j) →
                     (((ts !!! i) !!! j) !!! p) !!! k = Z.of_nat (v_inputs self !!! i)).
Proof. exact (_inputsToTensors_entries self inputsss m). Qed.

Lemma toy_batch_shape :
  Forall (λ inst, length inst = 1
                  ∧ Forall (λ ex, length ex = n_encoders toy_net) inst) toy_batch.
Proof. repeat constructor. Qed.

Lemma toy_batch_known : known_inputs toy_net toy_batch.
Proof.
  intros inst ex i s vocabulary Hinst Hex Hs Hvoc.
  apply list_elem_of_singleton in Hinst as ->.
  apply list_elem_of_singleton in Hex as ->.
  destruct i as [|i]; [|done]. cbn in Hs, Hvoc.
  injection Hs as <-. injection Hvoc as <-. repeat constructor.
Qed.

Lemma _inputsToTensors_layout_witness :
  ∃ ts, _inputsToTensors toy_net toy_batch = Ok ts
        ∧ length ts = 1 ∧ length (ts !!! 0) = 1
        ∧ length ((ts !!! 0) !!! 0) = 2.
Proof.
  destruct (_inputsToTensors_layout toy_net toy_batch 1 toy_net_wf ltac:(done)
              toy_batch_shape toy_batch_known) as (ts & Hts & Hlen & Hrows).
  exists ts. destruct (Hrows 0 ltac:(cbn; lia)) as [Hm Hj].
  destruct (Hj 0 ltac:(lia)) as (Hl & _).
  by split_and!.
Defined.

(** The tensors that [_inputsToTensors] returns are what [_run] needs. *)
Lemma _inputsToTensors_ready σ self inputsss m :
  net_wf self → n_encoders self ≠ 0 → 0 < m → inputsss ≠ [] →
  Forall (λ inst, length inst = m
                  ∧ Forall (λ ex, length ex = n_encoders self) inst) inputsss →
  known_inputs self inputsss →
  length (mat (data σ (encoder_init_h self))) = 1 →
  v_target self < length (mat (data σ (weight (V self)))) →
  v_target self < length (vec (data σ (bias (V self)))) →
  ∃ ts, _inputsToTensors self inputsss = Ok ts
        ∧ run_ready σ self ts m (length inputsss).
Proof.
  intros Hwf Hn0 Hm Hne Hshape Hknown Hinit HV1 HV2.
  destruct (_inputsToTensors_columns self inputsss m Hwf Hne Hshape Hknown)
    as (ts & Hts & Hlen & Hrows).
  exists ts. split; [done|].
  pose proof Hwf as (Hn & Hidx & _ & Hv & _).
  unfold run_ready. split_and!; try done.
  - intros i Hi.
    destruct (lookup_lt_is_Some_2 (input_vocabularies self) i ltac:(lia)) as [vocabulary Hvoc].
    by destruct (Hrows i vocabulary Hvoc).
  - intros i j Hi Hj.
    destruct (lookup_lt_is_Some_2 (input_vocabularies self) i ltac:(lia)) as [vocabulary Hvoc].
    destruct (Hrows i vocabulary Hvoc) as [_ Hjs].
    destruct (Hjs j Hj) as (Hl & Hrect & Hcols).
    assert (Hvi : v_inputs self !!! i = length vocabulary).
    { rewrite Hv. apply list_lookup_total_correct. by rewrite list_lookup_fmap, Hvoc. }
    unfold input_ready. split_and!; [|done|].
    + intros Hnil. rewrite Hnil in Hl. cbn in Hl. lia.
    + apply (rect_of_columns _ (length inputsss)); [done|]. intros c Hc.
      destruct (lookup_lt_is_Some_2 (stream inputsss j i) c) as [s Hs].
      { unfold stream. by rewrite length_fmap. }
      rewrite (Hcols c s Hs), Hvi. apply Forall_app. split.
      * eapply Forall_impl; [apply ids_of_bounded|].
        -- pose proof (stream_known self inputsss m Hwf Hshape Hknown i j vocabulary Hj Hvoc)
             as Hsk.
           by apply (Forall_lookup_1 _ _ _ _ Hsk Hs).
        -- cbn. intros; lia.
      * apply Forall_replicate. lia.
Qed.


(** ** [choose] reads the flattened matrix *)




Lemma mapM_fmap_r {A B C} (f : B → result C) (g : A → B) l :
  mapM f (g <$> l) = mapM (λ a, f (g a)) l.
Proof. induction l as [|a l IH]; [done|]. cbn. by rewrite IH. Qed.





(** ** Batches of unexpected shape *)

Lemma for_each_ext {A St} (f g : St → A → result St) l : ∀ s,
  (∀ s' a, a ∈ l → f s' a = g s' a) → for_each f s l = for_each g s l.
Proof.
  induction l as [|a l IH]; intros s Hfg; [done|]. cbn.
  rewrite (Hfg s a) by (by left). destruct (g s a); cbn; [|done].
  apply IH. intros s' a' Ha'. apply Hfg. by right.
Qed.

Lemma mapM_ext_in {A B} (f g : A → result B) l :
  (∀ a, a ∈ l → f a = g a) → mapM f l = mapM g l.
Proof.
  induction l as [|a l IH]; intros Hfg; [done|]. cbn.
  rewrite (Hfg a) by (by left). rewrite IH; [done|].
  intros a' Ha'. apply Hfg. by right.
Qed.

Lemma mapM_not_Ok {A B} (f : A → result B) l a :
  a ∈ l → ¬ is_Ok (f a) → ¬ is_Ok (mapM f l).
Proof.
  induction l as [|a' l IH]; intros Ha Hf; [by apply elem_of_nil in Ha|].
  cbn. destruct (f a') as [y|e] eqn:Hy; cbn; [|apply is_Ok_Raise].
  apply elem_of_cons in Ha as [->|Ha].
  - exfalso. apply Hf. rewrite Hy. by eexists.
  - destruct (mapM f l) eqn:Hm; cbn; [|apply is_Ok_Raise].
    exfalso. apply (IH Ha Hf). by eexists.
Qed.

Lemma py_nth_Raise {A} (l : list A) i e : py_nth l i = Raise e → e = IndexError.
Proof. unfold py_nth. destruct (l !! i); by intros [= <-]. Qed.

(** *** The empty batch *)

Lemma _run_no_inputs {F32 : float32} {NN : torch_nn} σ self target mode rng :
  ∃ e, _run σ self (Tensors []) target mode rng = Raise e
       ∧ (e = AssertionError ∨ e = IndexError).
Proof.
  unfold _run. destruct (decide _); cbn; eauto.
Qed.

(** On the empty batch [_targetToTensor] raises [ValueError] (the [max] of
    no length), [_inputsToTensors] raises [IndexError] unless there is no
    encoder, and [sample] and [score] do not return. *)
Theorem empty_batch_raises {F32 : float32} {NN : torch_nn} σ self rng :
  _targetToTensor self [] = Raise ValueError
  ∧ (n_encoders self ≠ 0 → _inputsToTensors self [] = Raise IndexError)
  ∧ (n_encoders self = 0 → _inputsToTensors self [] = Ok [])
  ∧ sample σ self [] rng = Raise IndexError
  ∧ (n_encoders self ≠ 0 → ∀ targets, score σ self [] targets rng = Raise IndexError)
  ∧ (∀ targets, ¬ is_Ok (score σ self [] targets rng)).
Proof.
  assert (Hne : n_encoders self ≠ 0 → _inputsToTensors self [] = Raise IndexError).
  { intros Hn. unfold _inputsToTensors. destruct (n_encoders self); [done|]. done. }
  assert (Hz : n_encoders self = 0 → _inputsToTensors self [] = Ok []).
  { intros Hn. unfold _inputsToTensors. by rewrite Hn. }
  split_and!; [done|done|done| | |].
  - unfold sample. destruct (decide (n_encoders self = 0)) as [Hn|Hn].
    + by rewrite (Hz Hn).
    + by rewrite (Hne Hn).
  - intros Hn targets. unfold score. by rewrite (Hne Hn).
  - intros targets. unfold score. destruct (decide (n_encoders self = 0)) as [Hn|Hn].
    + rewrite (Hz Hn). cbn [mbind result_bind].
      destruct (_targetToTensor self targets) as [t|e]; cbn [mbind result_bind];
        [|apply is_Ok_Raise].
      destruct (_run_no_inputs σ self (Some t) Score rng) as (e & -> & _).
      apply is_Ok_Raise.
    + rewrite (Hne Hn). apply is_Ok_Raise.
Qed.

(** *** Instances without examples *)

Lemma _inputsToTensors_no_examples self inputsss :
  inputsss !! 0 = Some [] →
  _inputsToTensors self inputsss = Ok (replicate (n_encoders self) []).
Proof.
  intros Hx0. rewrite _inputsToTensors_unfold.
  destruct (for_each_seq_inv
    (λ tensors i,
      x0 ← py_nth inputsss 0;
      row ← for_each (inputs_body self inputsss i) [] (seq 0 (length x0));
      Ok (tensors ++ [row]))
    (λ i tensors, tensors = replicate i []) (n_encoders self) 0 [])
    as (ts & Hts & ->); [done| |done].
  intros i tensors _ ->. rewrite (proj2 (py_nth_Ok _ _ _) Hx0). cbn.
  eexists. split; [done|]. change ([] :: replicate i []) with (replicate (S i) ([] : list ltensor)).
  by rewrite replicate_S_end.
Qed.

Lemma _run_no_examples {F32 : float32} {NN : torch_nn} σ self n target mode rng :
  n ≠ 0 → (mode = Score ∧ target ≠ None) ∨ mode = Sample →
  _run σ self (Tensors (replicate n [])) target mode rng = Raise IndexError.
Proof.
  intros Hn Hmode. unfold _run. rewrite decide_True by done. cbn [mbind result_bind].
  destruct n as [|n]; [done|]. cbn [len_inputs0 replicate py_nth lookup list_lookup].
  cbn [fmap result_fmap length mbind result_bind seq mapM].
  rewrite (mapM_Ok_fmap _ (λ _ : nat, ([] : list nat))) by (apply Forall_forall; done).
  done.
Qed.

(** A batch whose first instance has no example is encoded to one empty
    list per encoder, on which [_run] raises [IndexError] at
    [inputs[0][0]]. *)
Theorem no_examples_raises {F32 : float32} {NN : torch_nn} σ self inputsss rng :
  n_encoders self ≠ 0 → inputsss !! 0 = Some [] →
  _inputsToTensors self inputsss = Ok (replicate (n_encoders self) [])
  ∧ sample σ self inputsss rng = Raise IndexError
  ∧ ∀ targets t, _targetToTensor self targets = Ok t →
      score σ self inputsss targets rng = Raise IndexError.
Proof.
  intros Hn Hx0. pose proof (_inputsToTensors_no_examples self inputsss Hx0) as Hts.
  split_and!; [done| |].
  - unfold sample. rewrite Hts. cbn [mbind result_bind].
    by rewrite (_run_no_examples σ self (n_encoders self) None Sample rng Hn)
      by (by right).
  - intros targets t Ht. unfold score. rewrite Hts. cbn [mbind result_bind].
    rewrite Ht. cbn [mbind result_bind].
    by rewrite (_run_no_examples σ self (n_encoders self) (Some t) Score rng Hn)
      by (by left).
Qed.

Lemma no_examples_raises_witness :
  _inputsToTensors toy_net [[]] = Ok [[]]
  ∧ @sample exact32 toy_nn toy_store toy_net [[]] 0 = Raise IndexError.
Proof.
  destruct (@no_examples_raises exact32 toy_nn toy_store toy_net [[]] 0 ltac:(done) eq_refl)
    as (H1 & H2 & _).
  by split.
Defined.

(** *** Examples and sequences that are never read *)

Lemma trimmed_first self inputsss :
  length <$> py_nth (trimmed self inputsss) 0 = length <$> py_nth inputsss 0.
Proof.
  unfold trimmed, py_nth. rewrite list_lookup_fmap.
  destruct (inputsss !! 0) as [x0|] eqn:Hx0; cbn; [|done].
  rewrite (list_lookup_total_correct _ _ _ Hx0).
  by rewrite length_fmap, firstn_all.
Qed.

Lemma trimmed_entry (self : net) (inputsss : batch) (inst : list (list (list token))) i j :
  i < n_encoders self → j < length (inputsss !!! 0) →
  (xj ← py_nth (take (n_encoders self) <$> take (length (inputsss !!! 0)) inst) j;
   py_nth xj i)
  = (xj ← py_nth inst j; py_nth xj i).
Proof.
  intros Hi Hj. unfold py_nth.
  rewrite list_lookup_fmap, lookup_take_lt by done.
  destruct (inst !! j) as [ex|]; cbn; [|done].
  by rewrite lookup_take_lt by done.
Qed.

Lemma _inputsToTensors_trimmed self inputsss :
  _inputsToTensors self (trimmed self inputsss) = _inputsToTensors self inputsss.
Proof.
  rewrite !_inputsToTensors_unfold.
  apply for_each_ext. intros tensors i Hi%elem_of_seq.
  pose proof (trimmed_first self inputsss) as Hfirst.
  destruct (py_nth inputsss 0) as [x0|e] eqn:Hx0;
    destruct (py_nth (trimmed self inputsss) 0) as [x0'|e'] eqn:Hx0'; cbn in Hfirst;
    try done; [|injection Hfirst as ->; done].
  injection Hfirst as Hlen. cbn [mbind result_bind]. rewrite Hlen.
  apply py_nth_Ok in Hx0. rewrite <-(list_lookup_total_correct _ _ _ Hx0).
  f_equal. apply for_each_ext. intros row j Hj%elem_of_seq.
  unfold inputs_body. f_equal. unfold trimmed at 1. rewrite mapM_fmap_r.
  apply mapM_ext_in. intros inst _. apply trimmed_entry; lia.
Qed.

(** Only the examples that the first instance has, and of each example the
    sequences of the encoders, are read: cutting every instance down to them
    changes neither the tensors nor the results of [score] and [sample]. *)
Theorem unread_examples_ignored {F32 : float32} {NN : torch_nn} σ self inputsss targets rng :
  _inputsToTensors self (trimmed self inputsss) = _inputsToTensors self inputsss
  ∧ score σ self (trimmed self inputsss) targets rng = score σ self inputsss targets rng
  ∧ sample σ self (trimmed self inputsss) rng = sample σ self inputsss rng.
Proof.
  unfold score, sample. by rewrite _inputsToTensors_trimmed.
Qed.


(** *** Ragged batches *)

Lemma fill_columns_index_Raise index seqs e : ∀ k t,
  fill_columns index k seqs t = Raise e →
  index = Raise e ∨ ∃ x, e = KeyError x.
Proof.
  induction seqs as [|s seqs IH]; intros k t; cbn [fill_columns]; [done|].
  destruct (decide (0 < length s)); cbn [mbind result_bind].
  - destruct index as [d|e0]; cbn [mbind result_bind].
    + destruct (mapM (dict_get d) s) as [ids|e'] eqn:Hm; cbn [mbind result_bind].
      * apply IH.
      * intros [= ->]. apply mapM_Raise in Hm as (x & _ & (_ & ->)%dict_get_Raise). eauto.
    + intros [= ->]. by left.
  - apply IH.
Qed.

(** The exceptions of [_inputsToTensors] on a non-empty batch. *)
Lemma _inputsToTensors_exceptions self inputsss e :
  inputsss ≠ [] →
  _inputsToTensors self inputsss = Raise e →
  e = IndexError ∨ ∃ x, e = KeyError x.
Proof.
  intros Hne. rewrite _inputsToTensors_unfold.
  intros (i & tensors & _ & Hbody)%for_each_Raise_inv.
  apply bind_Raise in Hbody as [Hx0|(x0 & _ & Hbody)]; [left; by eapply py_nth_Raise|].
  apply bind_Raise in Hbody as [Hrow|(row & _ & [=])].
  apply for_each_Raise_inv in Hrow as (j & row & _ & Hrow).
  unfold inputs_body in Hrow.
  apply bind_Raise in Hrow as [Hin|(inputs & Hin & Hrow)].
  { apply mapM_Raise in Hin as (x & _ & Hx).
    apply bind_Raise in Hx as [Hx|(xj & _ & Hx)]; left; by eapply py_nth_Raise. }
  apply bind_Raise in Hrow as [Hmax|(maxlen & _ & Hrow)].
  { apply mapM_Ok_length in Hin.
    destruct inputs; [by destruct inputsss|done]. }
  apply bind_Raise in Hrow as [Hv|(v & _ & Hrow)]; [left; by eapply py_nth_Raise|].
  apply bind_Raise in Hrow as [Hfill|(t & _ & [=])].
  apply fill_columns_index_Raise in Hfill as [Hidx|?]; [|by right].
  left. by eapply py_nth_Raise.
Qed.

Lemma _inputsToTensors_short_instance self inputsss x0 inst :
  n_encoders self ≠ 0 →
  inputsss !! 0 = Some x0 → inst ∈ inputsss → length inst < length x0 →
  ∃ e, _inputsToTensors self inputsss = Raise e
       ∧ (e = IndexError ∨ ∃ x, e = KeyError x).
Proof.
  intros Hn Hx0 Hinst Hlen.
  assert (Hnot : ¬ is_Ok (_inputsToTensors self inputsss)).
  { rewrite _inputsToTensors_unfold. apply (for_each_not_Ok _ _ 0).
    { apply elem_of_seq. lia. }
    intros tensors. rewrite (proj2 (py_nth_Ok _ _ _) Hx0). cbn [mbind result_bind].
    intros [r Hr]. apply bind_Ok in Hr as (row & Hrow & _).
    eapply (for_each_not_Ok (inputs_body self inputsss 0) _ (length inst));
      [| |by rewrite Hrow; eexists].
    { apply elem_of_seq. lia. }
    intros row' [r' Hr']. unfold inputs_body in Hr'.
    apply bind_Ok in Hr' as (inputs & Hin & _).
    eapply (mapM_not_Ok _ inputsss inst Hinst); [|by rewrite Hin; eexists].
    cbn beta. unfold py_nth. rewrite lookup_ge_None_2 by lia. apply is_Ok_Raise. }
  destruct (_inputsToTensors self inputsss) as [ts|e] eqn:Hts.
  - exfalso. apply Hnot. by eexists.
  - exists e. split; [done|]. eapply (_inputsToTensors_exceptions self inputsss); [|done].
    intros ->. done.
Qed.

(** An instance with fewer examples than the first one makes
    [_inputsToTensors] raise, an [IndexError] or the [KeyError] of an unknown
    token met before, and [score] and [sample] raise the same. *)
Theorem ragged_batch_raises {F32 : float32} {NN : torch_nn} σ self inputsss x0 inst targets rng :
  n_encoders self ≠ 0 →
  inputsss !! 0 = Some x0 → inst ∈ inputsss → length inst < length x0 →
  ∃ e, _inputsToTensors self inputsss = Raise e
       ∧ (e = IndexError ∨ ∃ x, e = KeyError x)
       ∧ score σ self inputsss targets rng = Raise e
       ∧ sample σ self inputsss rng = Raise e.
Proof.
  intros Hn Hx0 Hinst Hlen.
  destruct (_inputsToTensors_short_instance self inputsss x0 inst Hn Hx0 Hinst Hlen)
    as (e & He & Hcase).
  exists e. unfold score, sample. rewrite He. by split_and!.
Qed.

Lemma ragged_batch_raises_witness :
  ∃ e, _inputsToTensors toy_net [[[["A"%string]]]; []] = Raise e
       ∧ (e = IndexError ∨ ∃ x, e = KeyError x).
Proof.
  destruct (@ragged_batch_raises exact32 toy_nn toy_store toy_net [[[["A"%string]]]; []]
              [[["A"%string]]] [] [] 0) as (e & He & Hcase & _).
  - done.
  - done.
  - apply elem_of_cons. right. by apply list_elem_of_singleton.
  - cbn. lia.
  - exists e. by split.
Defined.


(** ** The invariants that vocabulary transfer keeps *)

Lemma clone_parameter_distinct σ0 acc p :
  clone_inv σ0 acc → p ∈ dom (tensors σ0) →
  clones_distinct acc.2 → clones_distinct (clone_parameter acc p).2.
Proof.
  destruct acc as [σ ρ]. intros (Hobj & Hframe & Hρ) Hp Hinj. cbn in *.
  unfold clone_parameter. destruct (ρ !! p) as [p0|] eqn:Hρp; [done|]. cbn.
  assert (Hfresh : ∀ q, ρ !! q ≠ Some (fresh (dom (tensors σ)))).
  { intros q Hq. destruct (Hρ q _ Hq) as (Hq0 & _ & Hdata).
    apply (is_fresh (dom (tensors σ))). apply elem_of_dom. rewrite Hdata.
    by apply elem_of_dom. }
  intros a b x Ha Hb.
  destruct (decide (a = p)) as [->|Hap]; destruct (decide (b = p)) as [->|Hbp]; [done| | |].
  - rewrite lookup_insert_eq in Ha. injection Ha as <-.
    rewrite lookup_insert_ne in Hb by done. by destruct (Hfresh b).
  - rewrite lookup_insert_eq in Hb. injection Hb as <-.
    rewrite lookup_insert_ne in Ha by done. by destruct (Hfresh a).
  - rewrite lookup_insert_ne in Ha, Hb by done. by eapply Hinj.
Qed.

Lemma clone_parameters_distinct σ0 ps : ∀ acc,
  clone_inv σ0 acc → (∀ p, p ∈ ps → p ∈ dom (tensors σ0)) →
  clones_distinct acc.2 → clones_distinct (foldl clone_parameter acc ps).2.
Proof.
  induction ps as [|p ps IH]; intros acc Hinv Hps Hinj; [done|]. cbn.
  destruct (clone_parameter_inv σ0 acc p Hinv) as (Hinv1 & _ & _).
  { apply Hps. by constructor. }
  apply IH; [done| |].
  - intros q Hq. apply Hps. by constructor.
  - apply (clone_parameter_distinct σ0); [done| |done]. apply Hps. by constructor.
Qed.

Lemma deepcopy_distinct σ n :
  (∀ p, p ∈ parameters n → p ∈ dom (tensors σ)) →
  ∃ σ' ρ o, deepcopy σ n = (σ', o)
    ∧ (o ∉ dom (objects σ))
    ∧ objects σ' = <[o := rename_net ρ n]> (objects σ)
    ∧ (∀ q, q ∈ dom (tensors σ) → tensors σ' !! q = tensors σ !! q)
    ∧ (∀ p, p ∈ parameters n →
         ∃ p', ρ !! p = Some p' ∧ (p' ∉ dom (tensors σ))
               ∧ tensors σ' !! p' = tensors σ !! p)
    ∧ clones_distinct ρ.
Proof.
  intros Hps. unfold deepcopy.
  assert (Hinv0 : clone_inv σ (σ, ∅)).
  { split_and!; cbn; [done|done|]. intros p p'. by rewrite lookup_empty. }
  destruct (clone_parameters_inv σ (parameters n) (σ, ∅) Hinv0 Hps) as (Hinv & Hsome & _).
  pose proof (clone_parameters_distinct σ (parameters n) (σ, ∅) Hinv0 Hps) as Hinj.
  destruct (foldl clone_parameter (σ, ∅) (parameters n)) as [σ1 ρ].
  destruct Hinv as (Hobj & Hframe & Hρ). cbn in *.
  eexists _, ρ, _. split; [reflexivity|]. split_and!.
  - rewrite <-Hobj. apply is_fresh.
  - cbn. by rewrite Hobj.
  - cbn. done.
  - intros p Hp. destruct (Hsome p Hp) as [p' Hp']. exists p'.
    destruct (Hρ p p' Hp') as (_ & ? & ?). by split_and!.
  - apply Hinj. intros p q p'. by rewrite lookup_empty.
Qed.

(** The sizes that the surgery records on the layers. *)
Lemma transfer_in_place_sizes σ self me new σ1 me1 :
  transfer_in_place σ self me new = Ok (σ1, me1) →
  out_features (V me1) = length (vec (data σ1 (bias (V me1))))
  ∨ bias (V me) = weight_ih (decoder_cell me).
Proof.
  unfold transfer_in_place.
  destruct (for_each _ _ _) as [acc|e]; cbn [mbind result_bind]; [|done].
  intros [= <- <-]. cbn.
  destruct (decide (bias (V me) = weight_ih (decoder_cell me))) as [Heq|Hne]; [by right|].
  left. unfold data. cbn.
  rewrite lookup_total_insert_eq.
  rewrite lookup_total_insert_ne by done. by rewrite lookup_total_insert_eq.
Qed.

Lemma net_wf_rename ρ n : net_wf n → net_wf (rename_net ρ n).
Proof. intros Hwf. exact Hwf. Qed.

Lemma with_target_vocabulary_keeps σ self me new :
  objects σ !! self = Some me →
  allocated σ me → output_layer_wf σ me → net_wf me →
  new ≠ target_vocabulary me →
  ∃ σ' copy me1 me',
    with_target_vocabulary σ self new = Ok (σ', Some copy)
    ∧ objects σ' !! self = Some me1
    ∧ objects σ' !! copy = Some me'
    ∧ net_wf me1 ∧ net_wf me'
    ∧ allocated σ' me1 ∧ allocated σ' me'
    ∧ output_layer_wf σ' me1 ∧ output_layer_wf σ' me'
    ∧ out_features (V me1) = length new + 1
    ∧ out_features (V me') = length new + 1
    ∧ opt me1 = None ∧ optstate me1 = None
    ∧ opt me' = None ∧ optstate me' = None.
Proof.
  intros Hself [Halloc Hnd] (HVw & HVb & Hih) (Hn & Hiidx & _ & Hvi & _) Hne.
  rewrite Forall_forall in Halloc.
  destruct (transfer_in_place_spec σ self me new) as
    (σ1 & me1 & Hin & Hobj1 & Hten1 & Htv & Hv & Hidx & Hiv1 & Hiidx1 & Hn1 & Hvi1
       & HVw1 & HVb1 & Hih1 & Hps & Hopt & Hoptstate).
  set (old := target_vocabulary me) in *.
  set (Vw := mat (data σ (weight (V me)))) in *.
  set (Vb := vec (data σ (bias (V me)))) in *.
  set (ih := mat (data σ (weight_ih (decoder_cell me)))) in *.
  destruct (new_shapes old new Vw Vb ih HVw HVb Hih) as (HVw' & HVb' & Hihl' & Hih').
  destruct (output_parameters me) as (Hw_in & Hb_in & Hih_in).
  destruct (output_parameters_distinct me Hnd) as (Hwb & Hwi & Hbi).
  assert (H1w : tensors σ1 !! weight (V me) = Some (T2 (new_V_weight old Vw Vb ih new))).
  { rewrite Hten1. rewrite lookup_insert_ne by done. rewrite lookup_insert_ne by done.
    by rewrite lookup_insert_eq. }
  assert (H1b : tensors σ1 !! bias (V me) = Some (T1 (new_V_bias old Vw Vb ih new))).
  { rewrite Hten1. rewrite lookup_insert_ne by done. by rewrite lookup_insert_eq. }
  assert (H1i : tensors σ1 !! weight_ih (decoder_cell me)
                = Some (T2 (new_decoder_ih old Vw Vb ih new))).
  { rewrite Hten1. by rewrite lookup_insert_eq. }
  assert (Hsub : ∀ q, q ∈ dom (tensors σ) → q ∈ dom (tensors σ1)).
  { intros q Hq. rewrite Hten1. rewrite !dom_insert. by do 3 apply elem_of_union_r. }
  assert (Hout1 : out_features (V me1) = length new + 1).
  { destruct (transfer_in_place_sizes σ self me new σ1 me1 Hin) as [->|?]; [|done].
    rewrite HVb1. unfold data. by rewrite (lookup_total_correct _ _ _ H1b). }
  destruct (deepcopy_distinct σ1 me1) as (σ' & ρ & copy & Hcopy & Hfresh & Hobj & Hframe & Hρ & Hinj).
  { intros p Hp. apply Hsub, Halloc. by rewrite <-Hps. }
  assert (Hself_ne : copy ≠ self).
  { intros ->. apply Hfresh. rewrite Hobj1, dom_insert. by apply elem_of_union_l, elem_of_singleton. }
  assert (Hdata : ∀ p, p ∈ parameters me →
            data σ' p = data σ1 p ∧ data σ' (ρ !!! p) = data σ1 p
            ∧ p ∈ dom (tensors σ') ∧ (ρ !!! p) ∈ dom (tensors σ')
            ∧ ρ !! p = Some (ρ !!! p)).
  { intros p Hp. rewrite <-Hps in Hp. destruct (Hρ p Hp) as (p' & Hp' & Hnot & Hd).
    rewrite Hps in Hp. pose proof (Hsub p (Halloc p Hp)) as Hp1.
    rewrite (lookup_total_correct _ _ _ Hp'). unfold data.
    rewrite !lookup_total_alt, Hd, (Hframe p Hp1). split_and!; try done.
    - apply elem_of_dom. rewrite (Hframe p Hp1). by apply elem_of_dom.
    - apply elem_of_dom. rewrite Hd. by apply elem_of_dom. }
  assert (Hwf1 : net_wf me1).
  { unfold net_wf. rewrite Hn1, Hiv1, Hiidx1, Hvi1, Htv, Hv, Hidx. by split_and!. }
  assert (Hlayer : ∀ σx mex,
            target_vocabulary mex = new →
            data σx (weight (V mex)) = T2 (new_V_weight old Vw Vb ih new) →
            data σx (bias (V mex)) = T1 (new_V_bias old Vw Vb ih new) →
            data σx (weight_ih (decoder_cell mex)) = T2 (new_decoder_ih old Vw Vb ih new) →
            output_layer_wf σx mex).
  { intros σx mex Htvx Hdw Hdb Hdi. unfold output_layer_wf. rewrite Htvx, Hdw, Hdb, Hdi.
    by split_and!. }
  exists σ', copy, me1, (rename_net ρ me1).
  split_and!; try done.
  - unfold with_target_vocabulary, get_object. rewrite Hself. cbn [mbind result_bind].
    rewrite decide_False by done. rewrite Hin. cbn [mbind result_bind].
    by rewrite Hcopy.
  - rewrite Hobj, Hobj1. rewrite lookup_insert_ne by done. by rewrite lookup_insert_eq.
  - rewrite Hobj. by rewrite lookup_insert_eq.
  - split; [|by rewrite Hps]. rewrite Hps. apply Forall_forall. intros p Hp.
    by destruct (Hdata p Hp) as (_ & _ & ? & _).
  - split.
    + rewrite parameters_rename, Hps. apply Forall_fmap, Forall_forall. intros p Hp. cbn.
      by destruct (Hdata p Hp) as (_ & _ & _ & ? & _).
    + rewrite parameters_rename, Hps. apply NoDup_fmap_2_strong; [|done].
      intros p q Hp Hq Heq.
      destruct (Hdata p Hp) as (_ & _ & _ & _ & Hp').
      destruct (Hdata q Hq) as (_ & _ & _ & _ & Hq').
      rewrite Heq in Hp'. by eapply Hinj.
  - apply Hlayer; [done| | |].
    + rewrite HVw1. destruct (Hdata _ Hw_in) as (-> & _). unfold data.
      by rewrite (lookup_total_correct _ _ _ H1w).
    + rewrite HVb1. destruct (Hdata _ Hb_in) as (-> & _). unfold data.
      by rewrite (lookup_total_correct _ _ _ H1b).
    + rewrite Hih1. destruct (Hdata _ Hih_in) as (-> & _). unfold data.
      by rewrite (lookup_total_correct _ _ _ H1i).
  - apply Hlayer; [done| | |].
    + change (weight (V (rename_net ρ me1))) with (ρ !!! weight (V me1)). rewrite HVw1.
      destruct (Hdata _ Hw_in) as (_ & -> & _). unfold data.
      by rewrite (lookup_total_correct _ _ _ H1w).
    + change (bias (V (rename_net ρ me1))) with (ρ !!! bias (V me1)). rewrite HVb1.
      destruct (Hdata _ Hb_in) as (_ & -> & _). unfold data.
      by rewrite (lookup_total_correct _ _ _ H1b).
    + change (weight_ih (decoder_cell (rename_net ρ me1)))
        with (ρ !!! weight_ih (decoder_cell me1)). rewrite Hih1.
      destruct (Hdata _ Hih_in) as (_ & -> & _). unfold data.
      by rewrite (lookup_total_correct _ _ _ H1i).
Qed.

(** [with_target_vocabulary] keeps what [__init__] sets up: in the receiver
    and in the copy the indexes and sizes agree with the vocabularies, the
    parameters are distinct objects, the output layer has one row per target
    id, and the optimiser is cleared. *)
Theorem with_target_vocabulary_invariants σ self me new :
  objects σ !! self = Some me →
  allocated σ me → output_layer_wf σ me → net_wf me →
  new ≠ target_vocabulary me →
  ∃ σ' copy me1 me',
    with_target_vocabulary σ self new = Ok (σ', Some copy)
    ∧ objects σ' !! self = Some me1
    ∧ objects σ' !! copy = Some me'
    ∧ net_wf me1 ∧ net_wf me'
    ∧ allocated σ' me1 ∧ allocated σ' me'
    ∧ output_layer_wf σ' me1 ∧ output_layer_wf σ' me'
    ∧ out_features (V me1) = length new + 1
    ∧ out_features (V me') = length new + 1
    ∧ opt me1 = None ∧ optstate me1 = None
    ∧ opt me' = None ∧ optstate me' = None.
Proof. exact (with_target_vocabulary_keeps σ self me new). Qed.

Lemma with_target_vocabulary_invariants_witness :
  ∃ σ' copy me1 me',
    with_target_vocabulary toy_store 0 ["b"%string; "a"%string] = Ok (σ', Some copy)
    ∧ objects σ' !! 0 = Some me1 ∧ objects σ' !! copy = Some me'
    ∧ net_wf me1 ∧ net_wf me' ∧ out_features (V me') = 3.
Proof.
  destruct (with_target_vocabulary_invariants toy_store 0 toy_net ["b"%string; "a"%string]
              toy_store_self toy_allocated toy_output_layer_wf toy_net_wf ltac:(done))
    as (σ' & copy & me1 & me' & H1 & H2 & H3 & H4 & H5 & _ & _ & _ & _ & _ & H6 & _).
  exists σ', copy, me1, me'. by split_and!.
Defined.


(** ** Calls that change nothing, and calls that go back *)

Lemma with_target_vocabulary_same σ self me :
  objects σ !! self = Some me →
  with_target_vocabulary σ self (target_vocabulary me) = Ok (σ, None).
Proof.
  intros Hself. unfold with_target_vocabulary, get_object. rewrite Hself.
  cbn [mbind result_bind]. by rewrite decide_True.
Qed.

(** [with_target_vocabulary] returns [None] exactly when the vocabulary is
    the current one, and then changes nothing; otherwise it returns a new
    object. *)
Theorem with_target_vocabulary_None σ self me new :
  objects σ !! self = Some me → allocated σ me →
  (new = target_vocabulary me → with_target_vocabulary σ self new = Ok (σ, None))
  ∧ (new ≠ target_vocabulary me →
       ∃ σ' copy, with_target_vocabulary σ self new = Ok (σ', Some copy)
                  ∧ (copy ∉ dom (objects σ)))
  ∧ (∀ σ' r, with_target_vocabulary σ self new = Ok (σ', r) →
       (r = None ↔ new = target_vocabulary me) ∧ (r = None → σ' = σ)).
Proof.
  intros Hself [Halloc Hnd]. rewrite Forall_forall in Halloc.
  assert (Hdiff : new ≠ target_vocabulary me →
            ∃ σ' copy, with_target_vocabulary σ self new = Ok (σ', Some copy)
                       ∧ (copy ∉ dom (objects σ))).
  { intros Hne.
    destruct (with_target_vocabulary_spec σ self me new Hself Hne Halloc)
      as (σ' & copy & me1 & ρ & Hcall & Hfresh & _). eauto. }
  split_and!; [| done |].
  - intros ->. by apply with_target_vocabulary_same.
  - intros σ' r Hcall. destruct (decide (new = target_vocabulary me)) as [->|Hne].
    + rewrite (with_target_vocabulary_same σ self me Hself) in Hcall.
      injection Hcall as <- <-. done.
    + destruct (Hdiff Hne) as (σ1 & copy & Hcall1 & _).
      rewrite Hcall1 in Hcall. injection Hcall as <- <-. split; [split|]; done.
Qed.

Lemma with_target_vocabulary_None_witness :
  with_target_vocabulary toy_store 0 ["a"%string] = Ok (toy_store, None).
Proof.
  destruct (with_target_vocabulary_None toy_store 0 toy_net ["a"%string]
              toy_store_self toy_allocated) as (Hsame & _).
  by apply Hsame.
Defined.

(** The receiver after a call that changes the vocabulary. *)
Lemma with_target_vocabulary_receiver σ self me new :
  objects σ !! self = Some me →
  allocated σ me → output_layer_wf σ me → net_wf me →
  new ≠ target_vocabulary me →
  let Vw := mat (data σ (weight (V me))) in
  let Vb := vec (data σ (bias (V me))) in
  let ih := mat (data σ (weight_ih (decoder_cell me))) in
  let old := target_vocabulary me in
  ∃ σ' copy me1,
    with_target_vocabulary σ self new = Ok (σ', Some copy)
    ∧ objects σ' !! self = Some me1
    ∧ target_vocabulary me1 = new
    ∧ net_wf me1 ∧ allocated σ' me1 ∧ output_layer_wf σ' me1
    ∧ data σ' (weight (V me1)) = T2 (new_V_weight old Vw Vb ih new)
    ∧ data σ' (bias (V me1)) = T1 (new_V_bias old Vw Vb ih new)
    ∧ data σ' (weight_ih (decoder_cell me1)) = T2 (new_decoder_ih old Vw Vb ih new).
Proof.
  intros Hself Halloc Hlayer Hwf Hne Vw Vb ih old.
  destruct (with_target_vocabulary_keeps σ self me new Hself Halloc Hlayer Hwf Hne)
    as (σ' & copy & me1 & me' & Hcall & Hme1 & _ & Hwf1 & _ & Halloc1 & _ & Hlayer1 & _).
  destruct (with_target_vocabulary_copy σ self me new Hself Halloc Hne)
    as (σ'' & copy' & me1' & me'' & Hcall' & _ & Hme1' & _ & _ & Htv & _ & _ & _ & _ & _ & _
          & Hdw & Hdb & Hdi & _).
  rewrite Hcall in Hcall'. injection Hcall' as <- <-.
  rewrite Hme1 in Hme1'. injection Hme1' as <-.
  exists σ', copy, me1. by split_and!.
Qed.

Lemma with_target_vocabulary_there_and_back σ self me new :
  objects σ !! self = Some me →
  allocated σ me → output_layer_wf σ me → net_wf me →
  new ≠ target_vocabulary me →
  let old := target_vocabulary me in
  let Vw := mat (data σ (weight (V me))) in
  let Vb := vec (data σ (bias (V me))) in
  let ih := mat (data σ (weight_ih (decoder_cell me))) in
  ∃ σ1 copy1 σ2 copy2 me2,
    with_target_vocabulary σ self new = Ok (σ1, Some copy1)
    ∧ with_target_vocabulary σ1 self old = Ok (σ2, Some copy2)
    ∧ objects σ2 !! self = Some me2
    ∧ target_vocabulary me2 = old
    ∧ let Vw2 := mat (data σ2 (weight (V me2))) in
      let Vb2 := vec (data σ2 (bias (V me2))) in
      let ih2 := mat (data σ2 (weight_ih (decoder_cell me2))) in
      (∀ i tok, old !! i = Some tok → tok ∈ new →
         ∃ j, py_index old tok = Ok j
              ∧ Vw2 !! i = Vw !! j ∧ Vb2 !! i = Vb !! j
              ∧ column ih2 i = column ih j)
      ∧ (∀ i tok, old !! i = Some tok → tok ∉ new →
           (∃ n, Vw2 !! i = Some (replicate n 0%R))
           ∧ Vb2 !! i = Some (-10)%R
           ∧ column ih2 i = replicate (length ih) 0%R)
      ∧ (Vw2 !! length old = Vw !! length old
         ∧ Vb2 !! length old = Vb !! length old
         ∧ column ih2 (length old) = column ih (length old)).
Proof.
  intros Hself Halloc Hlayer Hwf Hne old Vw Vb ih.
  destruct (with_target_vocabulary_receiver σ self me new Hself Halloc Hlayer Hwf Hne)
    as (σ1 & copy1 & me1 & Hcall1 & Hme1 & Htv1 & Hwf1 & Halloc1 & Hlayer1
          & Hdw1 & Hdb1 & Hdi1).
  fold old Vw Vb ih in Hdw1, Hdb1, Hdi1.
  destruct (with_target_vocabulary_receiver σ1 self me1 old Hme1 Halloc1 Hlayer1 Hwf1)
    as (σ2 & copy2 & me2 & Hcall2 & Hme2 & Htv2 & _ & _ & _ & Hdw2 & Hdb2 & Hdi2).
  { rewrite Htv1. done. }
  rewrite Htv1, Hdw1, Hdb1, Hdi1 in Hdw2, Hdb2, Hdi2. cbn [mat vec] in Hdw2, Hdb2, Hdi2.
  exists σ1, copy1, σ2, copy2, me2. split_and!; [done|done|done|done|].
  cbn zeta. rewrite Hdw2, Hdb2, Hdi2. cbn [mat vec].
  destruct Hlayer as (HVw & HVb & Hih). fold old Vw Vb ih in HVw, HVb, Hih.
  destruct (new_shapes old new Vw Vb ih HVw HVb Hih) as (HVw1 & HVb1 & Hihl1 & Hih1).
  set (Vw1 := new_V_weight old Vw Vb ih new) in *.
  set (Vb1 := new_V_bias old Vw Vb ih new) in *.
  set (ih1 := new_decoder_ih old Vw Vb ih new) in *.
  split; [|split].
  - intros i tok Hi Hin.
    destruct (new_known new old Vw1 Vb1 ih1 HVw1 HVb1 Hih1 i tok Hi Hin)
      as (j' & _ & Hj' & -> & -> & ->).
    assert (Hold : tok ∈ old) by (by eapply list_elem_of_lookup_2).
    destruct (new_known old new Vw Vb ih HVw HVb Hih j' tok Hj' Hold)
      as (j & Hj & _ & Hw & Hb & Hc).
    exists j. by split_and!.
  - intros i tok Hi Hnot.
    destruct (new_unknown new old Vw1 Vb1 ih1 HVw1 HVb1 Hih1 i tok Hi Hnot)
      as (Hw & Hb & Hc).
    split_and!; [eauto|done|]. by rewrite Hc, Hihl1.
  - destruct (new_eos new old Vw1 Vb1 ih1 HVw1 HVb1 Hih1) as (-> & -> & ->).
    exact (new_eos old new Vw Vb ih HVw HVb Hih).
Qed.

(** Changing the target vocabulary and changing it back: the rows of the
    tokens that the intermediate vocabulary holds come back (those of their
    first position), the rows of the other tokens are lost for the
    initial values 0 and -10, the end-of-sequence row is kept. *)
Theorem with_target_vocabulary_round_trip σ self me new :
  objects σ !! self = Some me →
  allocated σ me → output_layer_wf σ me → net_wf me →
  new ≠ target_vocabulary me →
  let old := target_vocabulary me in
  let Vw := mat (data σ (weight (V me))) in
  let Vb := vec (data σ (bias (V me))) in
  let ih := mat (data σ (weight_ih (decoder_cell me))) in
  ∃ σ1 copy1 σ2 copy2 me2,
    with_target_vocabulary σ self new = Ok (σ1, Some copy1)
    ∧ with_target_vocabulary σ1 self old = Ok (σ2, Some copy2)
    ∧ objects σ2 !! self = Some me2
    ∧ target_vocabulary me2 = old
    ∧ let Vw2 := mat (data σ2 (weight (V me2))) in
      let Vb2 := vec (data σ2 (bias (V me2))) in
      let ih2 := mat (data σ2 (weight_ih (decoder_cell me2))) in
      (∀ i tok, old !! i = Some tok → tok ∈ new →
         ∃ j, py_index old tok = Ok j
              ∧ Vw2 !! i = Vw !! j ∧ Vb2 !! i = Vb !! j
              ∧ column ih2 i = column ih j)
      ∧ (∀ i tok, old !! i = Some tok → tok ∉ new →
           (∃ n, Vw2 !! i = Some (replicate n 0%R))
           ∧ Vb2 !! i = Some (-10)%R
           ∧ column ih2 i = replicate (length ih) 0%R)
      ∧ (Vw2 !! length old = Vw !! length old
         ∧ Vb2 !! length old = Vb !! length old
         ∧ column ih2 (length old) = column ih (length old)).
Proof. exact (with_target_vocabulary_there_and_back σ self me new). Qed.

Lemma with_target_vocabulary_round_trip_witness :
  ∃ σ1 copy1 σ2 copy2 me2,
    with_target_vocabulary toy_store 0 ["b"%string] = Ok (σ1, Some copy1)
    ∧ with_target_vocabulary σ1 0 ["a"%string] = Ok (σ2, Some copy2)
    ∧ objects σ2 !! 0 = Some me2
    ∧ vec (data σ2 (bias (V me2))) !! 0 = Some (-10)%R
    ∧ vec (data σ2 (bias (V me2))) !! 1 = Some 4%R.
Proof.
  destruct (with_target_vocabulary_round_trip toy_store 0 toy_net ["b"%string]
              toy_store_self toy_allocated toy_output_layer_wf toy_net_wf ltac:(done))
    as (σ1 & copy1 & σ2 & copy2 & me2 & H1 & H2 & H3 & _ & _ & Hlost & Heos).
  exists σ1, copy1, σ2, copy2, me2. split_and!; [done|done|done| |].
  - destruct (Hlost 0 "a"%string eq_refl) as (_ & Hb & _); [|done].
    intros Hin. apply list_elem_of_singleton in Hin. discriminate.
  - destruct Heos as (_ & Hb & _). exact Hb.
Defined.


(** ** What an encoder hands over: the state at the end-of-sequence id *)

Lemma foldr_add_snoc (l : list Z) x : foldr Z.add 0%Z (l ++ [x]) = (foldr Z.add 0 l + x)%Z.
Proof. induction l as [|y l IH]; cbn; [lia|]. rewrite IH. lia. Qed.

(** The number of set flags of a column whose flags are set up to position [p]. *)
Lemma sum_flags (f : nat → Z) p n :
  (∀ r, r ≤ p → f r = 1%Z) → (∀ r, p < r → f r = 0%Z) →
  foldr Z.add 0%Z (f <$> seq 0 n) = Z.of_nat (n `min` (p + 1)).
Proof.
  intros H1 H0. induction n as [|n IH]; [done|].
  rewrite seq_S, fmap_app. change (f <$> [0 + n]) with [f n].
  rewrite foldr_add_snoc, IH.
  destruct (decide (n ≤ p)) as [Hn|Hn].
  - rewrite H1 by done. lia.
  - rewrite H0 by lia. lia.
Qed.

Lemma encode_example_inv {F32 : float32} {NN : torch_nn} σ self e i j inputs_ij scatter_ij L B Hij embedding mask :
  encode_example σ self e i j inputs_ij scatter_ij L B = Ok (Hij, embedding, mask) →
  ∃ s, for_each (encoder_step σ self e i j inputs_ij scatter_ij L)
         (encoder_loop_init σ self e i j L B) (seq 0 L) = Ok s
    ∧ Hij = enc_hs s
    ∧ mask = (λ row : list Z, log_byte <$> row) <$> enc_active s
    ∧ ∀ b, b < size1 (enc_active s) →
        ∃ x, embedding !! b = Some x
             ∧ (if decide (0 ≤ foldr Z.add 0 (column (enc_active s) b) - 1
                           < Z.of_nat (length Hij))%Z
                then Ok ((Hij !!! Z.to_nat (foldr Z.add 0 (column (enc_active s) b) - 1)%Z) !!! b)
                else Raise RuntimeError) = Ok x.
Proof.
  unfold encode_example. intros (s & Hs & Hrest)%bind_Ok.
  apply bind_Ok in Hrest as (Hij' & HHij & Hrest).
  destruct (decide (enc_hs s = [])); [done|]. injection HHij as <-.
  apply bind_Ok in Hrest as (emb & Hemb & [= <- <- <-]).
  exists s. split_and!; [done|done|done|].
  intros b Hb.
  destruct (mapM_Ok_lookup _ _ _ b
              (b, (foldr Z.add 0 (column (enc_active s) b) - 1)%Z) Hemb)
    as (x & Hx & Hfx).
  { rewrite length_fmap, length_seq.
    apply lookup_zip_with_Some. exists b, (foldr Z.add 0 (column (enc_active s) b) - 1)%Z.
    split_and!; [done|by apply lookup_seq_lt|].
    rewrite list_lookup_fmap, lookup_seq_lt by done. done. }
  exists x. by split.
Qed.

Lemma log_mask_entry (active : ltensor) B k b :
  rect B active → k < length active → b < B →
  (((λ row : list Z, log_byte <$> row) <$> active) !!! k) !!! b
  = log_byte ((active !!! k) !!! b).
Proof.
  intros Hrect Hk Hb.
  destruct (lookup_lt_is_Some_2 active k Hk) as [row Hrow].
  pose proof (rect_lookup _ _ _ _ Hrect Hrow) as Hlen.
  destruct (lookup_lt_is_Some_2 row b ltac:(lia)) as [x Hx].
  rewrite (list_lookup_total_correct _ _ _ Hrow), (list_lookup_total_correct _ _ _ Hx).
  rewrite (list_lookup_total_correct _ k (log_byte <$> row))
    by (by rewrite list_lookup_fmap, Hrow).
  apply list_lookup_total_correct. by rewrite list_lookup_fmap, Hx.
Qed.

Section encoder_eos.
Context {F32 : float32} {NN : torch_nn}.
Variables (σ : store) (self : net) (e : encoded) (i j : nat).
Variables (inputs_ij : ltensor) (scatter_ij : list xmat) (B : nat).
Hypothesis Hcell : cell_keeps_batch.
Hypothesis Hinput : input_ready (v_inputs self !!! i) inputs_ij B.
Hypothesis Hscatter : ∀ k, k < length inputs_ij → length (scatter_ij !!! k) = B.
Hypothesis Hinit : length (mat (data σ (encoder_init_h self))) = 1.
Hypothesis Hprev : i ≠ 0 → encoded_at e (i - 1) j B.
Variables (b p : nat).
Hypothesis Hb : b < B.
Hypothesis Hp : p < length inputs_ij.
Hypothesis Heos : (inputs_ij !!! p) !!! b = Z.of_nat (v_inputs self !!! i).
Hypothesis Hfirst : ∀ k, k < p → (inputs_ij !!! k) !!! b ≠ Z.of_nat (v_inputs self !!! i).

Local Abbreviation L := (length inputs_ij).

Lemma encode_example_eos :
  ∃ Hij embedding mask,
    encode_example σ self e i j inputs_ij scatter_ij L B = Ok (Hij, embedding, mask)
    ∧ length Hij = L ∧ length mask = L
    ∧ embedding !! b = Some ((Hij !!! p) !!! b)
    ∧ (∀ k, k ≤ p → (mask !!! k) !!! b = Fin 0)
    ∧ (∀ k, p < k → k < L → (mask !!! k) !!! b = NInf).
Proof using All.
  destruct (encode_example_shape σ self e i j inputs_ij scatter_ij B
              Hcell Hinput Hscatter Hinit Hprev)
    as (Hij & embedding & mask & Henc & _).
  exists Hij, embedding, mask. split; [done|].
  apply encode_example_inv in Henc as (s & Hs & -> & -> & Hemb).
  destruct Hinput as (Hne & Hrect & _).
  destruct (encoder_loop_shapes σ self e i j inputs_ij scatter_ij B
              Hcell Hinput Hscatter Hinit Hprev L ltac:(lia)) as (s1 & Hs1 & Hlen & _).
  rewrite Hs in Hs1. apply Ok_inj in Hs1 as <-.
  destruct (encoder_loop_active σ self e i j inputs_ij scatter_ij B L ltac:(lia))
    as (s' & Hs' & Halen & Hrows & _).
  rewrite Hs in Hs'. apply Ok_inj in Hs' as <-.
  assert (Harect : rect B (enc_active s)).
  { apply Forall_lookup_2. intros r row Hr.
    pose proof (lookup_lt_Some _ _ _ Hr) as Hlt.
    rewrite Hrows in Hr by lia. injection Hr as <-.
    apply mask_row_length; [done|lia]. }
  assert (Hsize : size1 (enc_active s) = B).
  { apply size1_rect; [done|]. intros Hnil. rewrite Hnil in Halen. cbn in Halen. lia. }
  assert (Hentry : ∀ r, r < L →
            (enc_active s !!! r) !!! b = flag_before (v_inputs self !!! i) inputs_ij b r).
  { intros r Hr. pose proof (Hrows r ltac:(lia) Hr) as Hrow.
    rewrite (list_lookup_total_correct (enc_active s) r _ Hrow).
    apply list_lookup_total_correct. apply mask_row_lookup; [done|lia|done]. }
  assert (Hcol : column (enc_active s) b
                 = flag_before (v_inputs self !!! i) inputs_ij b <$> seq 0 L).
  { apply list_eq. intros r. rewrite column_lookup, list_lookup_fmap.
    destruct (decide (r < L)) as [Hr|Hr].
    - rewrite lookup_seq_lt by done. cbn.
      pose proof (Hrows r ltac:(lia) Hr) as Hrow. rewrite Hrow. cbn. f_equal.
      rewrite <-(Hentry r Hr).
      by rewrite (list_lookup_total_correct (enc_active s) r _ Hrow).
    - rewrite lookup_seq_ge by lia. by rewrite lookup_ge_None_2 by lia. }
  assert (Hone : ∀ r, r ≤ p → flag_before (v_inputs self !!! i) inputs_ij b r = 1%Z).
  { intros r Hr. apply flag_before_one. intros k' Hk'. apply Hfirst. lia. }
  assert (Hzero : ∀ r, p < r → flag_before (v_inputs self !!! i) inputs_ij b r = 0%Z).
  { intros r Hr. by apply (flag_before_zero _ _ _ p). }
  split_and!.
  - done.
  - by rewrite length_fmap.
  - destruct (Hemb b ltac:(lia)) as (x & Hx & Hfx).
    rewrite Hcol, (sum_flags _ p L Hone Hzero) in Hfx.
    rewrite decide_True in Hfx by lia. injection Hfx as <-.
    rewrite Hx. do 3 f_equal. lia.
  - intros k Hk. rewrite (log_mask_entry _ B) by (done || lia).
    rewrite Hentry by lia. rewrite Hone by done.
    unfold log_byte. rewrite decide_False by done. by rewrite ln_1.
  - intros k Hk HkL. rewrite (log_mask_entry _ B) by (done || lia).
    rewrite Hentry by lia. rewrite Hzero by done. done.
Qed.
End encoder_eos.

(** The embedding that an encoder hands over for batch element [b] is its
    hidden state at the position of the first end-of-sequence id. *)
Theorem embedding_at_eos {F32 : float32} {NN : torch_nn} σ self e i j (inputs_ij : ltensor)
    (scatter_ij : list xmat) B b p :
  cell_keeps_batch →
  input_ready (v_inputs self !!! i) inputs_ij B →
  (∀ k, k < length inputs_ij → length (scatter_ij !!! k) = B) →
  length (mat (data σ (encoder_init_h self))) = 1 →
  (i ≠ 0 → encoded_at e (i - 1) j B) →
  b < B → p < length inputs_ij →
  (inputs_ij !!! p) !!! b = Z.of_nat (v_inputs self !!! i) →
  (∀ k, k < p → (inputs_ij !!! k) !!! b ≠ Z.of_nat (v_inputs self !!! i)) →
  ∃ Hij embedding mask,
    encode_example σ self e i j inputs_ij scatter_ij (length inputs_ij) B
    = Ok (Hij, embedding, mask)
    ∧ length Hij = length inputs_ij
    ∧ embedding !! b = Some ((Hij !!! p) !!! b).
Proof.
  intros Hcell Hinput Hscatter Hinit Hprev Hb Hp Heos Hfirst.
  destruct (encode_example_eos σ self e i j inputs_ij scatter_ij B
              Hcell Hinput Hscatter Hinit Hprev b p Hb Hp Heos Hfirst)
    as (Hij & embedding & mask & Henc & Hlen & _ & Hemb & _).
  exists Hij, embedding, mask. by split_and!.
Qed.

(** The attention bias of batch element [b] is 0 up to the first
    end-of-sequence id, included, and minus infinity after it. *)
Theorem attention_mask_until_eos {F32 : float32} {NN : torch_nn} σ self e i j (inputs_ij : ltensor)
    (scatter_ij : list xmat) B b p :
  cell_keeps_batch →
  input_ready (v_inputs self !!! i) inputs_ij B →
  (∀ k, k < length inputs_ij → length (scatter_ij !!! k) = B) →
  length (mat (data σ (encoder_init_h self))) = 1 →
  (i ≠ 0 → encoded_at e (i - 1) j B) →
  b < B → p < length inputs_ij →
  (inputs_ij !!! p) !!! b = Z.of_nat (v_inputs self !!! i) →
  (∀ k, k < p → (inputs_ij !!! k) !!! b ≠ Z.of_nat (v_inputs self !!! i)) →
  ∃ Hij embedding mask,
    encode_example σ self e i j inputs_ij scatter_ij (length inputs_ij) B
    = Ok (Hij, embedding, mask)
    ∧ length mask = length inputs_ij
    ∧ (∀ k, k ≤ p → (mask !!! k) !!! b = Fin 0)
    ∧ (∀ k, p < k → k < length inputs_ij → (mask !!! k) !!! b = NInf).
Proof.
  intros Hcell Hinput Hscatter Hinit Hprev Hb Hp Heos Hfirst.
  destruct (encode_example_eos σ self e i j inputs_ij scatter_ij B
              Hcell Hinput Hscatter Hinit Hprev b p Hb Hp Heos Hfirst)
    as (Hij & embedding & mask & Henc & _ & Hlen & _ & Hact & Hinact).
  exists Hij, embedding, mask. by split_and!.
Qed.

Lemma toy_input_ready : input_ready (v_inputs toy_net !!! 0) toy_input 1.
Proof. split_and!; [done| |]; repeat constructor; cbn; lia. Qed.

Lemma toy_scatter_rows k : k < length toy_input → length (toy_scatter !!! k) = 1.
Proof. intros Hk. destruct k as [|[|[|k]]]; cbn in *; lia || done. Qed.

Lemma embedding_at_eos_witness :
  ∃ Hij embedding mask,
    @encode_example exact32 toy_nn toy_store toy_net toy_encoded 0 0 toy_input toy_scatter 3 1
    = Ok (Hij, embedding, mask)
    ∧ length Hij = 3
    ∧ embedding !! 0 = Some ((Hij !!! 1) !!! 0).
Proof.
  apply (@embedding_at_eos exact32 toy_nn toy_store toy_net toy_encoded 0 0 toy_input toy_scatter
           1 0 1 toy_cell_keeps_batch toy_input_ready toy_scatter_rows).
  - done.
  - done.
  - lia.
  - cbn. lia.
  - done.
  - intros k Hk. assert (k = 0) as -> by lia. cbn. lia.
Defined.

Lemma attention_mask_until_eos_witness :
  ∃ Hij embedding mask,
    @encode_example exact32 toy_nn toy_store toy_net toy_encoded 0 0 toy_input toy_scatter 3 1
    = Ok (Hij, embedding, mask)
    ∧ length mask = 3
    ∧ (∀ k, k ≤ 1 → (mask !!! k) !!! 0 = Fin 0)
    ∧ (∀ k, 1 < k → k < 3 → (mask !!! k) !!! 0 = NInf).
Proof.
  apply (@attention_mask_until_eos exact32 toy_nn toy_store toy_net toy_encoded 0 0 toy_input
           toy_scatter 1 0 1 toy_cell_keeps_batch toy_input_ready toy_scatter_rows).
  - done.
  - done.
  - lia.
  - cbn. lia.
  - done.
  - intros k Hk. assert (k = 0) as -> by lia. cbn. lia.
Defined.


(** ** [sampleAndScore] on any batch *)

Lemma _run_Raw_AttributeError {F32 : float32} {NN : torch_nn} σ self b inst ex rng :
  n_encoders self ≠ 0 → b !! 0 = Some inst → inst !! 0 = Some ex →
  _run σ self (Raw b) None Sample rng = Raise AttributeError.
Proof.
  intros Hn Hinst Hex. unfold _run. rewrite decide_True by (by right).
  cbn [mbind result_bind]. unfold len_inputs0.
  rewrite (proj2 (py_nth_Ok _ _ _) Hinst). cbn [fmap result_fmap mbind result_bind].
  destruct (n_encoders self) as [|n]; [done|].
  destruct inst as [|ex' inst]; [discriminate Hex|].
  assert (Hsize : input_size_at (Raw b) 0 0 0 = Raise AttributeError).
  { unfold input_size_at. rewrite (proj2 (py_nth_Ok _ _ _) Hinst). cbn [mbind result_bind].
    by rewrite (proj2 (py_nth_Ok _ _ _) Hex). }
  cbn [length seq mapM]. by rewrite Hsize.
Qed.

(** [sampleAndScore] raises for every batch and every repeat count other
    than 0, an [AttributeError] as soon as the batch can be encoded and has
    an example; with [nRepeats = 0] it returns two empty lists. *)
Theorem sampleAndScore_never_returns {F32 : float32} {NN : torch_nn} σ self batch_inputs nRepeats rng :
  (nRepeats ≠ Some 0 →
     ∃ e, sampleAndScore σ self batch_inputs nRepeats rng = Raise e)
  ∧ (∀ inst ex ts,
       nRepeats ≠ Some 0 → n_encoders self ≠ 0 →
       batch_inputs !! 0 = Some inst → inst !! 0 = Some ex →
       _inputsToTensors self batch_inputs = Ok ts →
       sampleAndScore σ self batch_inputs nRepeats rng = Raise AttributeError)
  ∧ (∀ ts,
       nRepeats = Some 0 → _inputsToTensors self batch_inputs = Ok ts →
       sampleAndScore σ self batch_inputs nRepeats rng = Ok ([], [])).
Proof.
  split_and!.
  - apply sampleAndScore_raises.
  - intros inst ex ts Hrep Hn Hinst Hex Hts. unfold sampleAndScore. rewrite Hts.
    cbn [mbind result_bind].
    pose proof (_run_Raw_AttributeError σ self batch_inputs inst ex rng Hn Hinst Hex) as Hrun.
    destruct nRepeats as [[|n]|]; [done| |].
    + cbn [seq for_each]. cbn [mbind result_bind]. by rewrite Hrun.
    + by rewrite Hrun.
  - intros ts -> Hts. unfold sampleAndScore. by rewrite Hts.
Qed.


(** ** [score] from the raw batch to the sums *)

(** The encoded targets are a ground-truth tensor of [_run]; in column [c]
    the first end-of-sequence id sits right after the tokens. *)
Lemma _targetToTensor_ready self targets :
  net_wf self → targets ≠ [] →
  Forall (Forall (λ x, x ∈ target_vocabulary self)) targets →
  ∃ t, _targetToTensor self targets = Ok t
    ∧ target_ready self t (length targets)
    ∧ ∀ c s, targets !! c = Some s →
        length s < length t
        ∧ (t !!! length s) !!! c = Z.of_nat (v_target self)
        ∧ ∀ k, k < length s → (t !!! k) !!! c ≠ Z.of_nat (v_target self).
Proof.
  intros Hwf Hne Hvoc.
  destruct (_targetToTensor_entries self targets Hwf Hne Hvoc)
    as (t & Ht & Hlen & Hrect & Hcols).
  assert (Hlt : ∀ c s, targets !! c = Some s → length s < length t).
  { intros c s Hc. rewrite Hlen.
    pose proof (max_list_ge (length <$> targets)) as Hmax. rewrite Forall_fmap in Hmax.
    pose proof (Forall_lookup_1 _ _ _ _ Hmax Hc) as Hle. cbn in Hle. lia. }
  exists t. split_and!; [done| |].
  - split; [done|]. apply Forall_lookup_2. intros r row Hr.
    pose proof (rect_lookup _ _ _ _ Hrect Hr) as Hrl.
    apply Forall_lookup_2. intros c x Hc.
    pose proof (lookup_lt_Some _ _ _ Hc) as Hclt. rewrite Hrl in Hclt.
    destruct (lookup_lt_is_Some_2 targets c Hclt) as [s Hs].
    destruct (Hcols c s Hs) as [Hids Hpad].
    assert (Hx : x = (t !!! r) !!! c).
    { rewrite (list_lookup_total_correct _ _ _ Hr).
      by rewrite (list_lookup_total_correct _ _ _ Hc). }
    pose proof (lookup_lt_Some _ _ _ Hr) as Hrlt.
    destruct (decide (r < length s)) as [Hrs|Hrs].
    + destruct (lookup_lt_is_Some_2 s r Hrs) as [tok Htok].
      destruct (Hids r tok Htok) as (j & Hj & _ & Hjv). rewrite Hx, Hj. lia.
    + rewrite Hx, Hpad by lia. lia.
  - intros c s Hs. destruct (Hcols c s Hs) as [Hids Hpad]. split_and!.
    + by eapply Hlt.
    + apply Hpad; [lia|]. by eapply Hlt.
    + intros k Hk. destruct (lookup_lt_is_Some_2 s k Hk) as [tok Htok].
      destruct (Hids k tok Htok) as (j & Hj & _ & Hjv). rewrite Hj. lia.
Qed.

Lemma score_of_run {F32 : float32} {NN : torch_nn} σ self inputsss targets rng ts t sc :
  _inputsToTensors self inputsss = Ok ts →
  _targetToTensor self targets = Ok t →
  _run σ self (Tensors ts) (Some t) Score rng = Ok (t, sc, rng) →
  score σ self inputsss targets rng = Ok sc.
Proof.
  intros Hts Ht Hrun. unfold score. rewrite Hts. cbn [mbind result_bind].
  rewrite Ht. cbn [mbind result_bind]. by rewrite Hrun.
Qed.

Lemma score_sums {F32 : float32} {NN : torch_nn} σ self inputsss targets m rng :
  rnd_stable → cell_keeps_batch → net_ready σ self → 0 < m → inputsss ≠ [] →
  Forall (λ inst, length inst = m
                  ∧ Forall (λ ex, length ex = n_encoders self) inst) inputsss →
  known_inputs self inputsss →
  length targets = length inputsss →
  Forall (Forall (λ x, x ∈ target_vocabulary self)) targets →
  ∃ ts t e tsc sc,
    _inputsToTensors self inputsss = Ok ts
    ∧ _targetToTensor self targets = Ok t
    ∧ encoder_pass σ self ts m (length inputsss) = Ok e
    ∧ scatter (v_target self + 1) t = Ok tsc
    ∧ score σ self inputsss targets rng = Ok sc
    ∧ length sc = length inputsss
    ∧ ∀ b s, targets !! b = Some s →
        (∀ k, length s < k < length t →
           is_finite (logprob_at σ self e m Score (Some tsc)
                        (decoder_init σ self e m (length inputsss) t rng) k b)) →
        sc !! b =
          Some (fsum ((λ k, logprob_at σ self e m Score (Some tsc)
                              (decoder_init σ self e m (length inputsss) t rng) k b)
                        <$> seq 0 (length s + 1))).
Proof.
  intros Hrnd Hcell (Hwf & Hn0 & Hinit & HV1 & HV2) Hm Hne Hshape Hknown Hlen Hvoc.
  destruct (_inputsToTensors_ready σ self inputsss m Hwf Hn0 Hm Hne Hshape Hknown Hinit)
    as (ts & Hts & Hready); [lia|lia|].
  destruct (_targetToTensor_ready self targets Hwf) as (t & Ht & Htarget & Heos);
    [by intros ->; destruct inputsss|done|].
  rewrite Hlen in Htarget.
  destruct (encoder_pass_ready σ self ts m (length inputsss) Hcell Hready)
    as (e & He & Hdec).
  destruct (scatter_ready self t (length inputsss) Htarget) as (tsc & Htsc & _ & Htscl).
  destruct (decoder_trace σ self e m (length inputsss) t tsc rng Hcell Hdec Htarget Htscl
              (length t) ltac:(lia)) as (sn & Hsn & Hinv & Hsnb).
  exists ts, t, e, tsc, (dec_score sn).
  assert (Hrun : _run σ self (Tensors ts) (Some t) Score rng = Ok (t, dec_score sn, rng)).
  { unfold decoder_after in Hsn.
    rewrite (_run_Score σ self ts m (length inputsss) Hready t rng e tsc sn He Htsc Hsn).
    destruct Hinv as (-> & _). by rewrite (decoder_loop_Score_rng _ _ _ _ _ _ _ _ Hsn). }
  split_and!; try done.
  - by eapply score_of_run.
  - by destruct Hinv as (_ & ? & _).
  - intros b s Hb Hfin.
    pose proof (lookup_lt_Some _ _ _ Hb) as Hblt. rewrite Hlen in Hblt.
    destruct (Heos b s Hb) as (Hst & Hat & Hbefore).
    destruct (Hsnb b Hblt) as [_ ->]. f_equal.
    destruct (decide (length t = length s + 1)) as [Heq|Hneq].
    + rewrite Heq.
      apply (running_sum σ self e m (length inputsss) t rng Hrnd tsc b (length s)); [done|lia].
    + rewrite (running_frozen_from σ self e m (length inputsss) t rng Hrnd tsc b (length s))
        by (done || lia || (intros k Hk; apply Hfin; lia)).
      replace (S (length s)) with (length s + 1) by lia.
      apply (running_sum σ self e m (length inputsss) t rng Hrnd tsc b (length s)); [done|lia].
Qed.

(** [score] on a batch of known tokens: encoding and the forward pass
    succeed, there is one score per instance, and the score of an instance
    is the float sum of the log-probabilities of its tokens and of the
    end-of-sequence id that follows them, when the log-probabilities selected
    at the padding timesteps are finite. *)
Theorem score_of_batch {F32 : float32} {NN : torch_nn} σ self inputsss targets m rng :
  rnd_stable → cell_keeps_batch → net_ready σ self → 0 < m → inputsss ≠ [] →
  Forall (λ inst, length inst = m
                  ∧ Forall (λ ex, length ex = n_encoders self) inst) inputsss →
  known_inputs self inputsss →
  length targets = length inputsss →
  Forall (Forall (λ x, x ∈ target_vocabulary self)) targets →
  ∃ ts t e tsc sc,
    _inputsToTensors self inputsss = Ok ts
    ∧ _targetToTensor self targets = Ok t
    ∧ encoder_pass σ self ts m (length inputsss) = Ok e
    ∧ scatter (v_target self + 1) t = Ok tsc
    ∧ score σ self inputsss targets rng = Ok sc
    ∧ length sc = length inputsss
    ∧ ∀ b s, targets !! b = Some s →
        (∀ k, length s < k < length t →
           is_finite (logprob_at σ self e m Score (Some tsc)
                        (decoder_init σ self e m (length inputsss) t rng) k b)) →
        sc !! b =
          Some (fsum ((λ k, logprob_at σ self e m Score (Some tsc)
                              (decoder_init σ self e m (length inputsss) t rng) k b)
                        <$> seq 0 (length s + 1))).
Proof. exact (score_sums σ self inputsss targets m rng). Qed.

Lemma toy_net_ready : net_ready toy_store toy_net.
Proof. unfold net_ready. split_and!; [apply toy_net_wf|done|done|done|done]. Qed.

Lemma score_of_batch_witness :
  ∃ sc, @score exact32 toy_nn toy_store toy_net toy_batch [["a"%string]] 0 = Ok sc
        ∧ length sc = 1.
Proof.
  destruct (@score_of_batch exact32 toy_nn toy_store toy_net toy_batch [["a"%string]] 1 0
              exact32_stable toy_cell_keeps_batch toy_net_ready ltac:(lia) ltac:(done)
              toy_batch_shape toy_batch_known eq_refl ltac:(repeat constructor))
    as (ts & t & e & tsc & sc & _ & _ & _ & _ & Hsc & Hlen & _).
  exists sc. by split.
Defined.


(** ** [sample] from the raw batch to the token sequences *)

Lemma before_eos_bounded (v : nat) l :
  Forall (λ x, 0 ≤ x ≤ Z.of_nat v)%Z l →
  Forall (λ x, 0 ≤ x < Z.of_nat v)%Z (before_eos (Z.of_nat v) l).
Proof.
  induction 1 as [|x l Hx _ IH]; cbn; [done|].
  destruct (decide (x = Z.of_nat v)); constructor; [lia|done].
Qed.

Lemma column_Forall {A} `{Inhabited A} (P : A → Prop) B (t : list (list A)) c :
  rect B t → c < B → Forall (Forall P) t → Forall P (column t c).
Proof.
  intros Hrect Hc Ht. unfold column. apply Forall_fmap, Forall_forall. intros row Hrow. cbn.
  pose proof (proj1 (Forall_forall _ _) Hrect row Hrow) as Hl. cbn in Hl.
  pose proof (proj1 (Forall_forall _ _) Ht row Hrow) as HP.
  destruct (lookup_lt_is_Some_2 row c ltac:(lia)) as [x Hx].
  rewrite (list_lookup_total_correct _ _ _ Hx).
  by apply (Forall_lookup_1 _ _ _ _ HP Hx).
Qed.

Section sample_mode.
Context {F32 : float32} {NN : torch_nn}.
Variables (σ : store) (self : net) (e : encoded) (n_examples B L : nat).
Hypothesis Hcell : cell_keeps_batch.
Hypothesis Hdraw : multinomial_valid.
Hypothesis Hready : decoder_ready σ self e n_examples B.
Hypothesis HVw : length (mat (data σ (weight (V self)))) = v_target self + 1.
Hypothesis HVb : length (vec (data σ (bias (V self)))) = v_target self + 1.

Lemma decoder_logsoftmax_rect states lp :
  decoder_logsoftmax σ self e n_examples states = Ok lp →
  rect (v_target self + 1) lp.
Proof using HVw HVb.
  unfold decoder_logsoftmax. intros (m & _ & [= <-])%bind_Ok.
  apply log_softmax1_rect.
  pose proof (linear_rect (mat (data σ (weight (V self))))
                (vec (data σ (bias (V self)))) m) as Hr.
  rewrite HVw, HVb, Nat.min_id in Hr. exact Hr.
Qed.

(** One timestep in sample mode. *)
Lemma decoder_step_sample s k :
  sample_inv self L n_examples B s → k < L →
  ∃ s',
    decoder_step σ self e n_examples Sample None s k = Ok s'
    ∧ sample_inv self L n_examples B s'
    ∧ dec_rng s' = S (dec_rng s).
Proof using All.
  intros (Hlen & [Hrect Hids] & Hscore & Hact & Hnst & Hst) Hk.
  destruct (decoder_logsoftmax_shape σ self e n_examples B Hready (dec_states s) Hnst Hst)
    as (lp & C & Hlp & Hlplen & _ & _).
  pose proof (decoder_logsoftmax_rect _ _ Hlp) as Hlprect.
  set (p := (λ row : xvec, exp_f <$> row) <$> lp).
  assert (Hp : rect (v_target self + 1) p).
  { subst p. apply Forall_fmap. eapply Forall_impl; [exact Hlprect|].
    intros row Hrow. cbn in *. by rewrite length_fmap. }
  destruct (Hdraw (dec_rng s) p (v_target self + 1) ltac:(lia) Hp) as [Hdl Hdids].
  assert (Hpl : length p = B) by (subst p; by rewrite length_fmap).
  set (row := multinomial (dec_rng s) p) in *.
  set (target := <[k := row]> (dec_target s)).
  assert (Htk : target !!! k = row).
  { subst target. apply list_lookup_total_correct.
    apply list_lookup_insert_eq. lia. }
  assert (Hchoose : choose lp row = Ok ((λ b, selected lp row b) <$> seq 0 B)).
  { rewrite <-Hlplen. apply (choose_selected (v_target self + 1)); [done|lia|done]. }
  destruct (mapM_Ok_Forall (one_hot (v_target self + 1)) (λ _, True) row)
    as (x & Hx & Hxlen & _).
  { eapply Forall_impl; [exact Hdids|]. intros y Hy. cbn in Hy.
    destruct (one_hot_Ok (v_target self + 1) y ltac:(lia)) as [w Hw]. eauto. }
  destruct (decoder_states_loop σ self B Hcell [x] 0 n_examples 0 (dec_states s))
    as (states' & Hloop & Hlen' & Hst'); [lia|cbn; lia|by rewrite take_0|].
  change ([x] !!! 0) with x in Hloop.
  eexists. unfold decoder_step. rewrite Hlp. cbn [mbind result_bind].
  fold p. fold row. fold target. rewrite Htk, Hchoose. cbn [mbind result_bind].
  rewrite Hx. rewrite Hloop. cbn [mbind result_bind].
  split; [reflexivity|]. split; [|done].
  unfold sample_inv. cbn. split_and!; try done.
  - subst target. by rewrite length_insert.
  - split.
    + subst target. apply Forall_insert; [done|]. lia.
    + subst target. apply Forall_insert; [done|].
      eapply Forall_impl; [exact Hdids|]. cbn. intros; lia.
  - rewrite !length_zip_with, !length_fmap, length_seq. lia.
  - rewrite length_zip_with, length_fmap. lia.
  - lia.
Qed.

Lemma decoder_loop_sample n : ∀ s,
  sample_inv self L n_examples B s → n ≤ L →
  ∃ s',
    for_each (decoder_step σ self e n_examples Sample None) s (seq 0 n) = Ok s'
    ∧ sample_inv self L n_examples B s'
    ∧ dec_rng s' = n + dec_rng s.
Proof using All.
  induction n as [|n IH]; intros s Hinv Hn.
  - exists s. by split_and!.
  - destruct (IH s Hinv ltac:(lia)) as (s1 & Hs1 & Hinv1 & Hrng1).
    destruct (decoder_step_sample s1 n Hinv1 ltac:(lia)) as (s' & Hs' & Hinv' & Hrng').
    exists s'. rewrite for_each_seq_S, Hs1. cbn [mbind result_bind].
    split_and!; [done|done|lia].
Qed.
End sample_mode.

Section run_sample.
Context {F32 : float32} {NN : torch_nn}.
Variables (σ : store) (self : net) (ts : list (list ltensor)) (n_examples B : nat).
Hypothesis Hcell : cell_keeps_batch.
Hypothesis Hdraw : multinomial_valid.
Hypothesis Hrun : run_ready σ self ts n_examples B.
Hypothesis HVw : length (mat (data σ (weight (V self)))) = v_target self + 1.
Hypothesis HVb : length (vec (data σ (bias (V self)))) = v_target self + 1.

(** [_run] in sample mode is the encoder pass followed by ten decoder steps. *)
Lemma _run_Sample rng e s :
  encoder_pass σ self ts n_examples B = Ok e →
  for_each (decoder_step σ self e n_examples Sample None)
    (decoder_init σ self e n_examples B (replicate 10 (replicate B 0%Z)) rng)
    (seq 0 10) = Ok s →
  _run σ self (Tensors ts) None Sample rng
  = Ok (dec_target s, dec_score s, dec_rng s).
Proof using Hrun.
  intros He Hs. unfold _run.
  rewrite decide_True by (right; done). cbn [mbind result_bind].
  rewrite (len_inputs0_ready σ self ts n_examples B Hrun). cbn [mbind result_bind].
  unfold encoder_pass in He.
  destruct (mapM (λ i, mapM (λ j, input_size_at (Tensors ts) i j 0) (seq 0 n_examples))
              (seq 0 (n_encoders self))) as [mli|] eqn:Hmli; [|done].
  cbn [mbind result_bind] in He |- *.
  rewrite (input_size_at_1 σ self ts n_examples B Hrun). cbn [mbind result_bind].
  destruct (mapM (λ i, mapM (λ j, scatter ((v_inputs self !!! i) + 1) ((ts !!! i) !!! j))
                              (seq 0 n_examples))
              (seq 0 (n_encoders self))) as [sc|] eqn:Hsc; [|done].
  cbn [mbind result_bind] in He |- *.
  rewrite He. cbn [mbind result_bind].
  rewrite Hs. done.
Qed.

Lemma _run_Sample_shape rng :
  ∃ target sc,
    _run σ self (Tensors ts) None Sample rng = Ok (target, sc, 10 + rng)
    ∧ length target = 10 ∧ target_ready self target B ∧ length sc = B.
Proof using All.
  destruct (encoder_pass_ready σ self ts n_examples B Hcell Hrun) as (e & He & Hready).
  destruct (decoder_loop_sample σ self e n_examples B 10 Hcell Hdraw Hready HVw HVb 10
              (decoder_init σ self e n_examples B (replicate 10 (replicate B 0%Z)) rng))
    as (s & Hs & Hinv & Hrng); [|lia|].
  { pose proof (decoder_init_inv σ self e n_examples B
                  (replicate 10 (replicate B 0%Z)) rng Hready)
      as (_ & H2 & H3 & H4 & H5).
    unfold sample_inv. split_and!; try done.
    split.
    - apply Forall_replicate. by rewrite length_replicate.
    - apply Forall_replicate, Forall_replicate. lia. }
  exists (dec_target s), (dec_score s).
  rewrite (_run_Sample rng e s He Hs).
  destruct Hinv as (H1 & H2 & H3 & _). cbn in Hrng.
  split_and!; try done. by rewrite Hrng.
Qed.
End run_sample.

Lemma sample_sequences {F32 : float32} {NN : torch_nn} σ self inputsss m rng :
  cell_keeps_batch → multinomial_valid → net_ready σ self → 0 < m → inputsss ≠ [] →
  Forall (λ inst, length inst = m
                  ∧ Forall (λ ex, length ex = n_encoders self) inst) inputsss →
  known_inputs self inputsss →
  ∃ out, sample σ self inputsss rng = Ok out
    ∧ length out = length inputsss
    ∧ Forall (λ s, length s ≤ 10 ∧ Forall (λ x, x ∈ target_vocabulary self) s) out.
Proof.
  intros Hcell Hdraw (Hwf & Hn0 & Hinit & HV1 & HV2) Hm Hne Hshape Hknown.
  destruct (_inputsToTensors_ready σ self inputsss m Hwf Hn0 Hm Hne Hshape Hknown Hinit)
    as (ts & Hts & Hready); [lia|lia|].
  destruct (_run_Sample_shape σ self ts m (length inputsss) Hcell Hdraw Hready HV1 HV2 rng)
    as (target & sc & Hrun & Hlen & [Hrect Hids] & _).
  pose proof Hwf as (_ & _ & _ & _ & Hv).
  assert (Hcols : ∀ c, c < length inputsss →
            Forall (λ x, 0 ≤ x < Z.of_nat (length (target_vocabulary self)))%Z
                   (before_eos (Z.of_nat (v_target self)) (column target c))).
  { intros c Hc. rewrite <-Hv. apply before_eos_bounded.
    by apply (column_Forall _ (length inputsss)). }
  eexists. unfold sample. rewrite Hts. cbn [mbind result_bind].
  rewrite Hrun. cbn [mbind result_bind].
  rewrite (_tensorToOutput_columns self target (length inputsss));
    [|by intros ->|done|done].
  split; [reflexivity|]. split.
  - by rewrite length_fmap, length_seq.
  - apply Forall_fmap, Forall_forall. intros c Hc%elem_of_seq. cbn. split.
    + rewrite length_fmap.
      pose proof (before_eos_length (Z.of_nat (v_target self)) (column target c)) as Hle.
      rewrite column_length in Hle. lia.
    + apply Forall_fmap. eapply Forall_impl; [apply (Hcols c); lia|].
      intros x Hx. cbn in *.
      destruct (lookup_lt_is_Some_2 (target_vocabulary self) (Z.to_nat x) ltac:(lia))
        as [tok Htok].
      rewrite (list_lookup_total_correct _ _ _ Htok). by eapply list_elem_of_lookup_2.
Qed.

(** [sample] on a batch of known tokens returns one sequence per instance,
    of at most 10 tokens of the target vocabulary, when the sampler returns
    ids of the distribution it is given. *)
Theorem sample_of_batch {F32 : float32} {NN : torch_nn} σ self inputsss m rng :
  cell_keeps_batch → multinomial_valid → net_ready σ self → 0 < m → inputsss ≠ [] →
  Forall (λ inst, length inst = m
                  ∧ Forall (λ ex, length ex = n_encoders self) inst) inputsss →
  known_inputs self inputsss →
  ∃ out, sample σ self inputsss rng = Ok out
    ∧ length out = length inputsss
    ∧ Forall (λ s, length s ≤ 10 ∧ Forall (λ x, x ∈ target_vocabulary self) s) out.
Proof. exact (sample_sequences σ self inputsss m rng). Qed.

Lemma first_cell_keeps_batch : @cell_keeps_batch first_nn.
Proof. intros kind a b c d x st. cbn. destruct st; cbn; by rewrite length_fmap. Qed.

Lemma first_multinomial_valid : @multinomial_valid first_nn.
Proof.
  intros rng p C HC Hp. cbn. rewrite length_fmap. split; [done|].
  apply Forall_fmap, Forall_forall. intros; cbn; lia.
Qed.

Lemma sample_of_batch_witness :
  ∃ out, @sample exact32 first_nn toy_store toy_net toy_batch 0 = Ok out ∧ length out = 1.
Proof.
  destruct (@sample_of_batch exact32 first_nn toy_store toy_net toy_batch 1 0
              first_cell_keeps_batch first_multinomial_valid toy_net_ready
              ltac:(lia) ltac:(done) toy_batch_shape toy_batch_known)
    as (out & Hout & Hlen & _).
  exists out. by split.
Defined.


(** ** The constructor *)

(** *** Allocation facts *)

Lemma extends_refl a : extends a a.
Proof. by split. Qed.

Lemma extends_dom a a' q : extends a a' → q ∈ dom (tensors a.1) → q ∈ dom (tensors a'.1).
Proof.
  intros [_ Hframe] Hq. apply elem_of_dom. rewrite (Hframe q Hq). by apply elem_of_dom.
Qed.

Lemma extends_trans a a' a'' : extends a a' → extends a' a'' → extends a a''.
Proof.
  intros [Ho1 Hf1] [Ho2 Hf2]. split; [congruence|].
  intros q Hq. rewrite Hf2 by (by eapply extends_dom). by apply Hf1.
Qed.

Lemma extends_data a a' q :
  extends a a' → q ∈ dom (tensors a.1) → data a'.1 q = data a.1 q.
Proof. intros [_ Hframe] Hq. unfold data. by rewrite !lookup_total_alt, Hframe. Qed.

Lemma allocates_nil a : allocates a a [].
Proof. split_and!; [apply extends_refl|constructor|constructor]. Qed.

Lemma allocates_app a a' a'' ps qs :
  allocates a a' ps → allocates a' a'' qs → allocates a a'' (ps ++ qs).
Proof.
  intros (He1 & Hn1 & Hp1) (He2 & Hn2 & Hp2).
  rewrite Forall_forall in Hp1. rewrite Forall_forall in Hp2.
  split_and!.
  - by eapply extends_trans.
  - apply NoDup_app. split_and!; [done| |done].
    intros p Hp Hq. destruct (Hp1 p Hp) as [_ Hin]. destruct (Hp2 p Hq) as [Hout _]. done.
  - apply Forall_app. split; apply Forall_forall; intros p Hp.
    + destruct (Hp1 p Hp) as [Hout Hin]. split; [done|]. by eapply extends_dom.
    + destruct (Hp2 p Hp) as [Hout Hin]. split; [|done].
      intros Hq. apply Hout. by eapply extends_dom.
Qed.

Lemma allocates_extends a a' ps : allocates a a' ps → extends a a'.
Proof. by intros (? & _). Qed.

Lemma allocates_in a a' ps p : allocates a a' ps → p ∈ ps → p ∈ dom (tensors a'.1).
Proof.
  intros (_ & _ & Hp) Hin. rewrite Forall_forall in Hp. by destruct (Hp p Hin).
Qed.

Section allocation.
Context `{torch_init}.

Lemma Parameter2_allocates a r c a' p :
  Parameter2 a r c = (a', p) →
  allocates a a' [p] ∧ data a'.1 p = T2 (init2 a.2 r c).
Proof.
  unfold Parameter2. intros [= <- <-]. cbn.
  pose proof (is_fresh (dom (tensors a.1))) as Hfresh.
  split; [split_and!|].
  - split; [done|]. cbn. intros q Hq. rewrite lookup_insert_ne; [done|].
    intros <-. done.
  - apply NoDup_singleton.
  - repeat constructor; [done|]. cbn. rewrite dom_insert.
    by apply elem_of_union_l, elem_of_singleton.
  - unfold data. cbn. by rewrite lookup_total_insert_eq.
Qed.

Lemma Parameter1_allocates a n a' p :
  Parameter1 a n = (a', p) →
  allocates a a' [p] ∧ data a'.1 p = T1 (init1 a.2 n).
Proof.
  unfold Parameter1. intros [= <- <-]. cbn.
  pose proof (is_fresh (dom (tensors a.1))) as Hfresh.
  split; [split_and!|].
  - split; [done|]. cbn. intros q Hq. rewrite lookup_insert_ne; [done|].
    intros <-. done.
  - apply NoDup_singleton.
  - repeat constructor; [done|]. cbn. rewrite dom_insert.
    by apply elem_of_union_l, elem_of_singleton.
  - unfold data. cbn. by rewrite lookup_total_insert_eq.
Qed.

Lemma new_cell_allocates cell_type a input hidden a' c :
  new_cell cell_type a input hidden = (a', c) →
  allocates a a' (cell_parameters c)
  ∧ input_size c = input
  ∧ ∃ k, data a'.1 (weight_ih c) = T2 (init2 k (gates cell_type * hidden) input).
Proof.
  unfold new_cell.
  destruct (Parameter2 a _ _) as [a1 w_ih] eqn:H1.
  destruct (Parameter2 a1 _ _) as [a2 w_hh] eqn:H2.
  destruct (Parameter1 a2 _) as [a3 b_ih] eqn:H3.
  destruct (Parameter1 a3 _) as [a4 b_hh] eqn:H4.
  intros [= <- <-]. cbn.
  apply Parameter2_allocates in H1 as [A1 D1].
  apply Parameter2_allocates in H2 as [A2 _].
  apply Parameter1_allocates in H3 as [A3 _].
  apply Parameter1_allocates in H4 as [A4 _].
  pose proof (allocates_app _ _ _ _ _ A2 (allocates_app _ _ _ _ _ A3 A4)) as A24.
  split_and!.
  - exact (allocates_app _ _ _ _ _ A1 A24).
  - done.
  - exists a.2. rewrite <-D1. apply extends_data; [by eapply allocates_extends|].
    eapply allocates_in; [exact A1|]. by apply list_elem_of_singleton.
Qed.

Lemma new_linear_allocates a in_features out a' l :
  new_linear a in_features out = (a', l) →
  allocates a a' [weight l; bias l]
  ∧ out_features l = out
  ∧ (∃ k, data a'.1 (weight l) = T2 (init2 k out in_features))
  ∧ (∃ k, data a'.1 (bias l) = T1 (init1 k out)).
Proof.
  unfold new_linear.
  destruct (Parameter2 a _ _) as [a1 w] eqn:H1.
  destruct (Parameter1 a1 _) as [a2 b] eqn:H2.
  intros [= <- <-]. cbn.
  apply Parameter2_allocates in H1 as [A1 D1].
  apply Parameter1_allocates in H2 as [A2 D2].
  split_and!.
  - exact (allocates_app _ _ _ _ _ A1 A2).
  - done.
  - exists a.2. rewrite <-D1. apply extends_data; [by eapply allocates_extends|].
    eapply allocates_in; [exact A1|]. by apply list_elem_of_singleton.
  - by exists a1.2.
Qed.

Lemma new_list_allocates {A} (new : alloc → A → alloc * loc) (l : list A) :
  (∀ a x a' y, new a x = (a', y) → allocates a a' [y]) →
  ∀ a0 a ps a' ys,
    allocates a0 a ps →
    foldl (λ acc x, let '(a, y) := new acc.1 x in (a, acc.2 ++ [y])) (a, ps) l = (a', ys) →
    allocates a0 a' ys ∧ length ys = length ps + length l.
Proof.
  intros Hnew. induction l as [|x l IH]; intros a0 a ps a' ys Hps; cbn.
  - intros [= <- <-]. split; [done|lia].
  - destruct (new a x) as [a1 y] eqn:Hy. intros Hfold.
    destruct (IH a0 a1 (ps ++ [y]) a' ys) as [Hall Hlen]; [|done|].
    + eapply allocates_app; [exact Hps|]. by eapply Hnew.
    + split; [done|]. rewrite Hlen, length_app. cbn. lia.
Qed.
End allocation.

Section constructor.
Context `{torch_init}.
Hypothesis Hshapes : init_shapes.

Lemma cells_loop cell_type (v_inputs : list nat) hidden a0 l : ∀ a cells,
  (∀ i, i ∈ l → i < length v_inputs) →
  allocates a0 a (concat (cell_parameters <$> cells)) →
  ∃ a' cells',
    for_each (λ '(a, cells) i,
        vi ← py_nth v_inputs i;
        let '(a, c) := new_cell cell_type a (vi + 1 + hidden) hidden in
        Ok (a, cells ++ [c]))
      (a, cells) l = Ok (a', cells')
    ∧ allocates a0 a' (concat (cell_parameters <$> cells'))
    ∧ length cells' = length cells + length l.
Proof.
  induction l as [|i l IH]; intros a cells Hl Hall.
  - exists a, cells. cbn. split_and!; [done|done|lia].
  - destruct (lookup_lt_is_Some_2 v_inputs i) as [vi Hvi]; [apply Hl; by left|].
    destruct (new_cell cell_type a (vi + 1 + hidden) hidden) as [a1 c] eqn:Hc.
    destruct (new_cell_allocates _ _ _ _ _ _ Hc) as (Ac & _).
    destruct (IH a1 (cells ++ [c])) as (a' & cells' & Hloop & Hall' & Hlen).
    + intros i' Hi'. apply Hl. by right.
    + rewrite fmap_app, concat_app.
      change (concat (cell_parameters <$> [c])) with (cell_parameters c ++ []).
      rewrite app_nil_r. by eapply allocates_app.
    + exists a', cells'. cbn [for_each].
      rewrite (proj2 (py_nth_Ok _ _ _) Hvi). cbn [mbind result_bind].
      rewrite Hc. cbn [mbind result_bind]. split_and!; [done|done|].
      rewrite Hlen, length_app. cbn. lia.
Qed.

Lemma __init___no_inputs σ tv hidden embedding cell_type :
  __init__ σ [] tv hidden embedding cell_type = Raise IndexError.
Proof. unfold __init__. by destruct cell_type. Qed.

Lemma __init___ready σ ivs tv hidden embedding cell_type :
  ivs ≠ [] →
  ∃ σ' self me,
    __init__ σ ivs tv hidden embedding cell_type
    = Ok (σ', self)
    ∧ (self ∉ dom (objects σ))
    ∧ objects σ' = <[self := me]> (objects σ)
    ∧ (∀ q, q ∈ dom (tensors σ) → tensors σ' !! q = tensors σ !! q)
    ∧ input_vocabularies me = ivs
    ∧ target_vocabulary me = tv
    ∧ net_ready σ' me ∧ allocated σ' me ∧ output_layer_wf σ' me
    ∧ Forall (λ p, p ∉ dom (tensors σ)) (parameters me)
    ∧ length (encoder_cells me) = length ivs
    ∧ length (As me) = length ivs
    ∧ opt me = None ∧ optstate me = None.
Proof using Hshapes.
  intros Hne. destruct Hshapes as [Hs2 Hs1]. unfold __init__.
  set (v_inputs := length <$> ivs).
  set (v_target := length tv).
  set (a0 := (σ, 0) : alloc).
  destruct (Parameter2 a0 1 hidden) as [a1 h] eqn:Hh.
  apply Parameter2_allocates in Hh as [Ah Dh].
  assert (∃ a2 cs,
    match cell_type with
    | GRU => (a1, [])
    | LSTM => new_list (λ a _, Parameter2 a 1 hidden) a1 (seq 0 (length v_inputs))
    end = (a2, cs) ∧ allocates a1 a2 cs ∧ (cell_type = GRU → cs = []))
    as (a2 & cs & -> & Acs & Hcs).
  { destruct cell_type.
    - exists a1, []. split_and!; [done|apply allocates_nil|done].
    - destruct (new_list _ a1 _) as [a2 cs] eqn:Hl. exists a2, cs.
      split_and!; [done| |done].
      unfold new_list in Hl.
      eapply (new_list_allocates (λ a (_ : nat), Parameter2 a 1 hidden));
        [|apply allocates_nil|exact Hl].
      intros a x a' y Hy. by apply Parameter2_allocates in Hy as [? _]. }
  assert (Hlen : 0 < length ivs) by (destruct ivs; [done|cbn; lia]).
  destruct (lookup_lt_is_Some_2 ivs 0 Hlen) as [voc0 Hvoc0].
  assert (Hv0 : py_nth v_inputs 0 = Ok (length voc0)).
  { apply py_nth_Ok. subst v_inputs. by rewrite list_lookup_fmap, Hvoc0. }
  rewrite Hv0. cbn [mbind result_bind].
  destruct (new_cell cell_type a2 (length voc0 + 1) hidden) as [a3 cell0] eqn:Hc0.
  destruct (new_cell_allocates _ _ _ _ _ _ Hc0) as (Ac0 & _).
  destruct (cells_loop cell_type v_inputs hidden a2
              (seq 1 (length ivs - 1)) a3 [cell0])
    as (a4 & cells & Hloop & Acells & Hcells).
  { intros i Hi%elem_of_seq. subst v_inputs. rewrite length_fmap. lia. }
  { change (concat (cell_parameters <$> [cell0])) with (cell_parameters cell0 ++ []).
    by rewrite app_nil_r. }
  rewrite Hloop. cbn [mbind result_bind].
  destruct (new_cell cell_type a4 (v_target + 1) hidden) as [a5 dec] eqn:Hdec.
  destruct (new_cell_allocates _ _ _ _ _ _ Hdec) as (Adec & Hdin & kd & Ddec).
  assert (∃ a6 ic,
    match cell_type with
    | GRU => (a5, None)
    | LSTM => let '(a, p) := Parameter2 a5 1 hidden in (a, Some p)
    end = (a6, ic) ∧ allocates a5 a6 (option_list ic))
    as (a6 & ic & -> & Aic).
  { destruct cell_type.
    - exists a5, None. split; [done|apply allocates_nil].
    - destruct (Parameter2 a5 1 hidden) as [a6 p] eqn:Hp. exists a6, (Some p).
      split; [done|]. by apply Parameter2_allocates in Hp as [? _]. }
  destruct (new_linear a6 (hidden + hidden) embedding) as [a7 W] eqn:HW.
  destruct (new_linear_allocates _ _ _ _ _ HW) as (AW & _).
  destruct (new_linear a7 embedding (v_target + 1)) as [a8 V] eqn:HV.
  destruct (new_linear_allocates _ _ _ _ _ HV) as (AV & HVout & (kw & DVw) & (kb & DVb)).
  destruct (new_list (λ a _, Parameter2 a hidden hidden) a8
              (seq 0 (length ivs))) as [a9 As] eqn:HAs.
  assert (AAs : allocates a8 a9 As
                ∧ length As = length ([] : list loc) + length (seq 0 (length ivs))).
  { unfold new_list in HAs.
    eapply (new_list_allocates (λ a (_ : nat), Parameter2 a hidden hidden));
      [|apply allocates_nil|exact HAs].
    intros a x a' y Hy. by apply Parameter2_allocates in Hy as [? _]. }
  destruct AAs as [AAs HAslen]. rewrite length_seq in HAslen. cbn in HAslen.
  set (me := _refreshVocabularyIndex _).
  (* all parameters, in the order of their creation *)
  assert (Hparams : parameters me
                    = [h] ++ cs ++ concat (cell_parameters <$> cells)
                      ++ cell_parameters dec ++ option_list ic
                      ++ [weight W; bias W] ++ [weight V; bias V] ++ As) by reflexivity.
  assert (Aall : allocates a0 a9 (parameters me)).
  { rewrite Hparams.
    eapply allocates_app; [exact Ah|].
    eapply allocates_app; [exact Acs|].
    eapply allocates_app; [exact Acells|].
    eapply allocates_app; [exact Adec|].
    eapply allocates_app; [exact Aic|].
    eapply allocates_app; [exact AW|].
    eapply allocates_app; [exact AV|]. exact AAs. }
  (* the tensors that the forward pass and the transfer rely on *)
  assert (E19 : extends a1 a9).
  { eapply extends_trans; [by eapply allocates_extends|].
    eapply extends_trans; [by eapply allocates_extends|].
    eapply extends_trans; [by eapply allocates_extends|].
    eapply extends_trans; [by eapply allocates_extends|].
    eapply extends_trans; [by eapply allocates_extends|].
    eapply extends_trans; [by eapply allocates_extends|].
    by eapply allocates_extends. }
  assert (E59 : extends a5 a9).
  { eapply extends_trans; [by eapply allocates_extends|].
    eapply extends_trans; [by eapply allocates_extends|].
    eapply extends_trans; [by eapply allocates_extends|].
    by eapply allocates_extends. }
  assert (E89 : extends a8 a9) by (by eapply allocates_extends).
  assert (Dh9 : data a9.1 h = T2 (init2 a0.2 1 hidden)).
  { rewrite <-Dh. apply extends_data; [done|].
    eapply allocates_in; [exact Ah|]. by apply list_elem_of_singleton. }
  assert (Ddec9 : data a9.1 (weight_ih dec)
                  = T2 (init2 kd (gates cell_type * hidden) (v_target + 1))).
  { rewrite <-Ddec. apply extends_data; [done|].
    eapply allocates_in; [exact Adec|]. by left. }
  assert (DVw9 : data a9.1 (weight V) = T2 (init2 kw (v_target + 1) embedding)).
  { rewrite <-DVw. apply extends_data; [done|].
    eapply allocates_in; [exact AV|]. by left. }
  assert (DVb9 : data a9.1 (bias V) = T1 (init1 kb (v_target + 1))).
  { rewrite <-DVb. apply extends_data; [done|].
    eapply allocates_in; [exact AV|]. right. by left. }
  destruct Aall as ((Hobj & Hframe) & Hnd & Hps). cbn in Hobj, Hframe.
  eexists _, _, me. split; [reflexivity|].
  split_and!.
  - rewrite <-Hobj. apply is_fresh.
  - cbn. by rewrite Hobj.
  - cbn. exact Hframe.
  - done.
  - done.
  - unfold net_ready. split_and!.
    + unfold net_wf. cbn. by split_and!.
    + cbn. lia.
    + change (length (mat (data a9.1 h)) = 1). rewrite Dh9. cbn. by destruct (Hs2 0 1 hidden).
    + change (length (mat (data a9.1 (weight V))) = v_target + 1). rewrite DVw9. cbn.
      by destruct (Hs2 kw (v_target + 1) embedding).
    + change (length (vec (data a9.1 (bias V))) = v_target + 1). rewrite DVb9. cbn.
      apply Hs1.
  - split; [|done]. eapply Forall_impl; [exact Hps|]. by intros p [_ ?].
  - unfold output_layer_wf.
    change (length (mat (data a9.1 (weight V))) = v_target + 1
            ∧ length (vec (data a9.1 (bias V))) = v_target + 1
            ∧ rect (v_target + 1) (mat (data a9.1 (weight_ih dec)))).
    rewrite DVw9, DVb9, Ddec9. cbn. split_and!.
    + by destruct (Hs2 kw (v_target + 1) embedding).
    + apply Hs1.
    + by destruct (Hs2 kd (gates cell_type * hidden) (v_target + 1)).
  - eapply Forall_impl; [exact Hps|]. by intros p [? _].
  - cbn. rewrite Hcells. cbn. rewrite length_seq. lia.
  - cbn. lia.
  - done.
  - done.
Qed.
End constructor.

(** [__init__] raises [IndexError] without input vocabularies; otherwise it
    allocates a new object with fresh, distinct parameters of the shapes
    that the forward pass and [with_target_vocabulary] rely on, one encoder
    cell and one attention matrix per input vocabulary, and no optimiser. *)
Theorem __init___establishes `{torch_init} σ (vocabularies : list (list token))
    (target : list token) hidden embedding cell_type :
  init_shapes →
  (vocabularies = [] →
     __init__ σ vocabularies target hidden embedding cell_type = Raise IndexError)
  ∧ (vocabularies ≠ [] →
     ∃ σ' self me,
       __init__ σ vocabularies target hidden embedding cell_type = Ok (σ', self)
       ∧ (self ∉ dom (objects σ))
       ∧ objects σ' = <[self := me]> (objects σ)
       ∧ (∀ q, q ∈ dom (tensors σ) → tensors σ' !! q = tensors σ !! q)
       ∧ input_vocabularies me = vocabularies
       ∧ target_vocabulary me = target
       ∧ net_ready σ' me ∧ allocated σ' me ∧ output_layer_wf σ' me
       ∧ Forall (λ p, p ∉ dom (tensors σ)) (parameters me)
       ∧ length (encoder_cells me) = length vocabularies
       ∧ length (As me) = length vocabularies
       ∧ opt me = None ∧ optstate me = None).
Proof.
  intros Hshapes. split.
  - intros ->. apply __init___no_inputs.
  - by apply __init___ready.
Qed.

Lemma zero_init_shapes : @init_shapes zero_init.
Proof.
  split.
  - intros k r c. cbn. rewrite length_replicate. split; [done|].
    apply Forall_replicate. by rewrite length_replicate.
  - intros k n. cbn. by rewrite length_replicate.
Qed.

Lemma __init___establishes_witness :
  @__init__ zero_init {| objects := ∅; tensors := ∅ |} [] ["a"%string] 1 1 LSTM
  = Raise IndexError
  ∧ ∃ σ' self me,
      @__init__ zero_init {| objects := ∅; tensors := ∅ |} [["A"%string]] ["a"%string] 1 1 LSTM
      = Ok (σ', self)
      ∧ objects σ' !! self = Some me
      ∧ net_ready σ' me ∧ allocated σ' me ∧ output_layer_wf σ' me.
Proof.
  pose proof (@__init___establishes zero_init {| objects := ∅; tensors := ∅ |} []
                ["a"%string] 1 1 LSTM zero_init_shapes) as [Hraise _].
  pose proof (@__init___establishes zero_init {| objects := ∅; tensors := ∅ |}
                [["A"%string]] ["a"%string] 1 1 LSTM zero_init_shapes) as [_ Hok].
  split.
  - exact (Hraise eq_refl).
  - destruct (Hok ltac:(discriminate))
      as (σ' & self & me & Hinit & _ & Hobj & _ & _ & _ & H1 & H2 & H3 & _).
    exists σ', self, me.
    split; [exact Hinit|]. split; [rewrite Hobj; apply lookup_insert_eq|].
    split; [exact H1|]. split; [exact H2|exact H3].
Defined.

